(** * ibORB IDL compiler: lexer, symbol table, parser and C++11 generator

    A shallow embedding of the front end of [iborb_idl]
    (lexer/lexer.cpp, parser/parser.cpp, semantic/symbol_table.cpp,
    generator/cpp11_generator.cpp), the properties of it that the
    design document states, and further properties of the code.

    Conventions of the embedding.
    - [int64_t] is a [Z] kept in the signed 64-bit range by [wrap64];
      [size_t] is a [Z] kept in [0, 2^64) by [to_size_t]; [double] is the
      binary64 type [float] of the kernel.
    - An operation that C++ leaves undefined and at which the program as
      compiled for x86-64 is killed by a signal gives the result
      [Undefined] and no parser.
    - The scopes of the symbol table form a tree owned from the global
      scope ([std::unique_ptr] children).  A [Scope*] is the list of child
      indices leading to the scope, innermost index first, so that the
      parent pointer of a scope is the tail of its address.
    - The lexer is represented by the tokens it hands out, each with the
      lexical errors raised while it was scanned.  The class [Lexer]
      itself is embedded as [Scanner], over the text that is still to be
      read; [Scanner.lexer] gives the tokens of a source in the first
      representation.
    - Recursive-descent functions take a [fuel] argument that bounds both
      the nesting depth and the number of iterations of their loops. *)

From Stdlib Require Import ZArith List String Ascii Bool Lia.
From Stdlib Require Import DecimalString DecimalPos DecimalN.
From Stdlib Require Import Floats.PrimFloat.
From stdpp Require Import base gmap strings list.

Set Warnings "-register-all".
Local Open Scope string_scope.
Local Open Scope list_scope.

(* ================================================================== *)
(** * Machine numbers and text *)
(* ================================================================== *)

(** Two's complement reduction to [int64_t]. *)
Definition wrap64 (z : Z) : Z := ((z + 2 ^ 63) mod 2 ^ 64 - 2 ^ 63)%Z.

(** [static_cast<size_t>] of a 64-bit value. *)
Definition to_size_t (z : Z) : Z := (z mod 2 ^ 64)%Z.

(** [std::to_string] on an integer. *)
Definition to_string (z : Z) : string := NilZero.string_of_int (Z.to_int z).

(* ================================================================== *)
(** * ast/ast.hpp *)
(* ================================================================== *)

Record SourceLocation := mkLoc {
  filename : string;
  line : Z;
  column : Z
}.

(** [SourceLocation::toString]. *)
Definition SourceLocation_toString (l : SourceLocation) : string :=
  filename l +:+ ":" +:+ to_string (line l) +:+ ":" +:+ to_string (column l).

(** Default member initialisers of [SourceLocation]. *)
Definition defaultLoc : SourceLocation := mkLoc "" 1 1.

Module BasicType.
Inductive t :=
| Void | Boolean | Char | WChar | Octet | Short | UShort | Long | ULong
| LongLong | ULongLong | Float | Double | LongDouble | Any | Object.
End BasicType.

Inductive TypeNode :=
| BasicTypeNode (type : BasicType.t) (loc : SourceLocation)
| SequenceTypeNode (elementType : TypeNode) (bound : option Z) (loc : SourceLocation)
| StringTypeNode (bound : option Z) (isWide : bool) (loc : SourceLocation)
| ScopedNameNode (parts : list string) (isAbsolute : bool) (loc : SourceLocation)
| ArrayTypeNode (elementType : TypeNode) (dimensions : list Z) (loc : SourceLocation).

(** [ConstValue]: [std::variant<int64_t, uint64_t, double, std::string, bool>]. *)
Inductive ConstValue :=
| CInt64 (v : Z)
| CUInt64 (v : Z)
| CDouble (v : float)
| CString (v : string)
| CBool (v : bool).

Record StructMemberNode := mkStructMember {
  member_type : TypeNode;
  member_name : string;
  member_loc : SourceLocation
}.

Record TypedefDeclarator := mkTypedefDeclarator {
  declarator_name : string;
  arrayDimensions : list Z
}.

Record CaseLabel := mkCaseLabel {
  isDefault : bool;
  label_value : ConstValue
}.

Record UnionCaseNode := mkUnionCase {
  labels : list CaseLabel;
  case_type : TypeNode;
  case_name : string;
  case_loc : SourceLocation
}.

Module ParamDirection.
Inductive t := In | Out | InOut.
End ParamDirection.

Record ParameterNode := mkParameter {
  direction : ParamDirection.t;
  param_type : TypeNode;
  param_name : string;
  param_loc : SourceLocation
}.

(** The subclasses of [DefinitionNode].  Every constructor starts with the
    inherited fields [name], [fullyQualifiedName] and [location]. *)
Inductive DefinitionNode :=
| ModuleNode (name fqn : string) (loc : SourceLocation)
    (definitions : list DefinitionNode)
| InterfaceNode (name fqn : string) (loc : SourceLocation)
    (baseInterfaces : list string) (contents : list DefinitionNode)
    (isAbstract isLocal isForward : bool)
| StructNode (name fqn : string) (loc : SourceLocation)
    (members : list StructMemberNode)
| UnionNode (name fqn : string) (loc : SourceLocation)
    (discriminatorType : TypeNode) (cases : list UnionCaseNode)
| EnumNode (name fqn : string) (loc : SourceLocation)
    (enumerators : list string)
| TypedefNode (name fqn : string) (loc : SourceLocation)
    (originalType : TypeNode) (declarators : list TypedefDeclarator)
| ConstNode (name fqn : string) (loc : SourceLocation)
    (type : TypeNode) (value : ConstValue)
| ExceptionNode (name fqn : string) (loc : SourceLocation)
    (members : list StructMemberNode)
| OperationNode (name fqn : string) (loc : SourceLocation)
    (returnType : TypeNode) (parameters : list ParameterNode)
    (raises : list string) (isOneway : bool)
| AttributeNode (name fqn : string) (loc : SourceLocation)
    (type : TypeNode) (isReadonly : bool).

Record TranslationUnit := mkUnit {
  unit_definitions : list DefinitionNode;
  unit_filename : string
}.

(* ================================================================== *)
(** * semantic/symbol_table.hpp, semantic/symbol_table.cpp *)
(* ================================================================== *)

Module SymbolKind.
Inductive t :=
| Module_ | Interface | Struct | Union | Enum | Typedef | Exception_
| Constant | Operation | Attribute | Parameter_ | EnumValue.

Definition eqb (a b : t) : bool :=
  match a, b with
  | Module_, Module_ | Interface, Interface | Struct, Struct | Union, Union
  | Enum, Enum | Typedef, Typedef | Exception_, Exception_
  | Constant, Constant | Operation, Operation | Attribute, Attribute
  | Parameter_, Parameter_ | EnumValue, EnumValue => true
  | _, _ => false
  end.
End SymbolKind.

(** What a [Symbol] keeps of its [ast::ASTNode*].  The pointer is only ever
    followed in [Parser::parsePrimaryExpr], which reads the [value] of the
    [ConstNode] behind a [Constant] symbol; a [ConstNode] is complete when
    its symbol is added and is not changed afterwards. *)
Inductive NodePtr :=
| ToConstNode (value : ConstValue)
| ToNode.

Record Symbol := mkSymbol {
  sym_name : string;
  sym_fullyQualifiedName : string;
  sym_kind : SymbolKind.t;
  sym_node : option NodePtr;
  sym_scope : string
}.

Inductive Scope := mkScope {
  scope_name : string;
  scope_fullyQualifiedName : string;
  symbols : gmap string Symbol;
  children : list Scope
}.

(** A [Scope*] into the tree below the global scope: child indices,
    innermost first.  [nil] is the global scope; the [parent] of the scope
    at [i :: up] is the scope at [up]. *)
Definition ScopePtr := list nat.

Module Scope.

(** The scope reached from [s] through the child indices [down] (outermost
    first). *)
Fixpoint descend (s : Scope) (down : list nat) : option Scope :=
  match down with
  | [] => Some s
  | i :: rest =>
      match children s !! i with
      | Some c => descend c rest
      | None => None
      end
  end.

(** Dereference of a [Scope*] in the tree owned by the global scope [g]. *)
Definition deref (g : Scope) (p : ScopePtr) : option Scope := descend g (rev p).

(** [Scope::Scope(scopeName, parentScope)], given the parent's fully
    qualified name ([None] for the null parent). *)
Definition make (scopeName : string) (parentFqn : option string) : Scope :=
  match parentFqn with
  | Some pf =>
      if String.eqb pf ""
      then mkScope scopeName scopeName ∅ []
      else mkScope scopeName (pf +:+ "::" +:+ scopeName) ∅ []
  | None => mkScope scopeName scopeName ∅ []
  end.

(** [Scope::addSymbol]: [try_emplace] and its [inserted] flag. *)
Definition addSymbol (s : Scope) (symbol : Symbol) : bool * Scope :=
  match symbols s !! sym_name symbol with
  | Some _ => (false, s)
  | None =>
      (true, mkScope (scope_name s) (scope_fullyQualifiedName s)
               (<[sym_name symbol := symbol]> (symbols s)) (children s))
  end.

(** [Scope::lookupLocal]. *)
Definition lookupLocal (s : Scope) (symbolName : string) : option Symbol :=
  symbols s !! symbolName.

(** [Scope::lookup] on the scope at [p]: this scope first, then the parent. *)
Fixpoint lookup (g : Scope) (p : ScopePtr) (symbolName : string) : option Symbol :=
  match deref g p with
  | None => None
  | Some s =>
      match lookupLocal s symbolName with
      | Some sym => Some sym
      | None =>
          match p with
          | [] => None
          | _ :: parent => lookup g parent symbolName
          end
      end
  end.

(** Index of the first child named [childName]. *)
Fixpoint childIndex (cs : list Scope) (childName : string) : option nat :=
  match cs with
  | [] => None
  | c :: rest =>
      if String.eqb (scope_name c) childName then Some 0
      else option_map S (childIndex rest childName)
  end.

(** [Scope::getChildScope]: the first child with that name, or null. *)
Definition getChildScope (s : Scope) (childName : string) : option Scope :=
  match childIndex (children s) childName with
  | Some i => children s !! i
  | None => None
  end.

(** [Scope::createChildScope]: the new child goes to the back of
    [children]; the result is the scope with the child and its index. *)
Definition createChildScope (s : Scope) (childName : string) : Scope * nat :=
  let child := make childName (Some (scope_fullyQualifiedName s)) in
  (mkScope (scope_name s) (scope_fullyQualifiedName s) (symbols s)
     (children s ++ [child]),
   length (children s)).

(** In-place update of the scope reached through [down] (outermost first). *)
Fixpoint update (s : Scope) (down : list nat) (f : Scope -> Scope) : Scope :=
  match down with
  | [] => f s
  | i :: rest =>
      match children s !! i with
      | Some c =>
          mkScope (scope_name s) (scope_fullyQualifiedName s) (symbols s)
            (<[i := update c rest f]> (children s))
      | None => s
      end
  end.

End Scope.

Record SymbolTable := mkSymbolTable {
  globalScope_ : Scope;
  currentScope_ : ScopePtr
}.

Module SymbolTable.

(** [SymbolTable::SymbolTable]. *)
Definition init : SymbolTable := mkSymbolTable (Scope.make "" None) [].

(** The object behind [currentScope_].  The pointer always addresses a
    scope of the tree (see [ptr_valid] below); the global scope stands in
    for the impossible dangling case. *)
Definition current (t : SymbolTable) : Scope :=
  match Scope.deref (globalScope_ t) (currentScope_ t) with
  | Some s => s
  | None => globalScope_ t
  end.

(** Write through [currentScope_]. *)
Definition setCurrent (t : SymbolTable) (f : Scope -> Scope) : SymbolTable :=
  mkSymbolTable (Scope.update (globalScope_ t) (rev (currentScope_ t)) f)
    (currentScope_ t).

(** [SymbolTable::enterScope]. *)
Definition enterScope (t : SymbolTable) (scopeName : string) : SymbolTable :=
  match Scope.childIndex (children (current t)) scopeName with
  | Some i => mkSymbolTable (globalScope_ t) (i :: currentScope_ t)
  | None =>
      let i := snd (Scope.createChildScope (current t) scopeName) in
      mkSymbolTable
        (globalScope_ (setCurrent t (fun s => fst (Scope.createChildScope s scopeName))))
        (i :: currentScope_ t)
  end.

(** [SymbolTable::leaveScope]. *)
Definition leaveScope (t : SymbolTable) : SymbolTable :=
  match currentScope_ t with
  | [] => t
  | _ :: parent => mkSymbolTable (globalScope_ t) parent
  end.

(** [SymbolTable::buildFullyQualifiedName]. *)
Definition buildFullyQualifiedName (t : SymbolTable) (name : string) : string :=
  if String.eqb (scope_fullyQualifiedName (current t)) "" then name
  else scope_fullyQualifiedName (current t) +:+ "::" +:+ name.

(** [SymbolTable::addSymbol]. *)
Definition addSymbol (t : SymbolTable) (name : string) (kind : SymbolKind.t)
    (node : option NodePtr) : bool * SymbolTable :=
  let sym := mkSymbol name (buildFullyQualifiedName t name) kind node
               (scope_fullyQualifiedName (current t)) in
  (fst (Scope.addSymbol (current t) sym),
   setCurrent t (fun s => snd (Scope.addSymbol s sym))).

(** [SymbolTable::lookup]. *)
Definition lookup (t : SymbolTable) (name : string) : option Symbol :=
  Scope.lookup (globalScope_ t) (currentScope_ t) name.

(** Outcome of the [while (scope)] loop of [lookupScoped]. *)
Inductive FirstPart :=
| Break (searchScope : Scope)      (* [searchScope = child; break;] *)
| Return (sym : Symbol)            (* [return sym;] *)
| Exhausted.                       (* [scope] became null *)

(** The [while (scope)] loop of [lookupScoped], started at the scope
    behind [p]. *)
Fixpoint findFirstPart (g : Scope) (p : ScopePtr) (parts : list string)
    (part0 : string) : FirstPart :=
  match Scope.deref g p with
  | None => Exhausted
  | Some scope =>
      match Scope.getChildScope scope part0 with
      | Some child => Break child
      | None =>
          match (if Nat.eqb (length parts) 1
                 then Scope.lookupLocal scope part0 else None) with
          | Some sym => Return sym
          | None =>
              match p with
              | [] => Exhausted
              | _ :: parent => findFirstPart g parent parts part0
              end
          end
      end
  end.

(** The [for] loop of [lookupScoped] over the parts [names]. *)
Fixpoint navigate (currentSearch : Scope) (names : list string) : option Scope :=
  match names with
  | [] => Some currentSearch
  | n :: rest =>
      match Scope.getChildScope currentSearch n with
      | None => None
      | Some child => navigate child rest
      end
  end.

(** [SymbolTable::lookupScoped].  [located] is either an early [return]
    of the relative branch or the value of [searchScope] after it. *)
Definition lookupScoped (t : SymbolTable) (parts : list string)
    (isAbsolute : bool) : option Symbol :=
  match parts with
  | [] => None
  | part0 :: _ =>
      let searchScope0 := if isAbsolute then globalScope_ t else current t in
      if negb isAbsolute && Nat.eqb (length parts) 1
      then Scope.lookup (globalScope_ t) (currentScope_ t) part0
      else
        let located : option Symbol + Scope :=
          if negb isAbsolute then
            match findFirstPart (globalScope_ t) (currentScope_ t) parts part0 with
            | Break child => inr child
            | Return sym => inl (Some sym)
            | Exhausted =>
                if Nat.ltb 1 (length parts) then inl None else inr searchScope0
            end
          else inr searchScope0 in
        match located with
        | inl result => result
        | inr searchScope =>
            let currentSearch :=
              if isAbsolute then globalScope_ t else searchScope in
            (* parts[i] for i from (isAbsolute ? 0 : 1) below size - 1 *)
            let walked := removelast (if isAbsolute then parts else tl parts) in
            match navigate currentSearch walked with
            | None => None
            | Some final => Scope.lookupLocal final (List.last parts "")
            end
        end
  end.

(** The [while (i < name.size())] loop of [parseQualifiedName] on the
    characters from position [i] on. *)
Fixpoint splitParts (rest : string) (current : string) (parts : list string)
    : list string :=
  match rest with
  | EmptyString =>
      if String.eqb current "" then parts else parts ++ [current]
  | String c rest1 =>
      match rest1 with
      | String c1 rest2 =>
          if Ascii.eqb c ":" && Ascii.eqb c1 ":"
          then splitParts rest2 ""
                 (if String.eqb current "" then parts else parts ++ [current])
          else splitParts rest1 (current +:+ String c EmptyString) parts
      | EmptyString =>
          splitParts rest1 (current +:+ String c EmptyString) parts
      end
  end.

(** Whether the name starts with [::]. *)
Definition startsWithColons (name : string) : bool :=
  match name with
  | String c (String c1 _) => Ascii.eqb c ":" && Ascii.eqb c1 ":"
  | _ => false
  end.

(** [SymbolTable::parseQualifiedName]. *)
Definition parseQualifiedName (name : string) : list string :=
  match name with
  | String c (String c1 rest) =>
      if Ascii.eqb c ":" && Ascii.eqb c1 ":" then splitParts rest "" []
      else splitParts name "" []
  | _ => splitParts name "" []
  end.

(** [SymbolTable::lookupQualified]. *)
Definition lookupQualified (t : SymbolTable) (qualifiedName : string)
    : option Symbol :=
  lookupScoped t (parseQualifiedName qualifiedName) (startsWithColons qualifiedName).

(** [SymbolTable::getCurrentScopeName]. *)
Definition getCurrentScopeName (t : SymbolTable) : string :=
  scope_fullyQualifiedName (current t).

(** [SymbolTable::existsInCurrentScope]. *)
Definition existsInCurrentScope (t : SymbolTable) (name : string) : bool :=
  match Scope.lookupLocal (current t) name with Some _ => true | None => false end.

End SymbolTable.

(* ================================================================== *)
(** * lexer/lexer.hpp *)
(* ================================================================== *)

Module TokenType.
Inductive t :=
| Eof
| Identifier | IntegerLiteral | FloatLiteral | StringLiteral | CharLiteral
| WideStringLiteral | WideCharLiteral
| KwModule | KwInterface | KwStruct | KwUnion | KwSwitch | KwCase | KwDefault
| KwEnum | KwConst | KwTypedef | KwException | KwAttribute | KwReadonly
| KwIn | KwOut | KwInout | KwOneway | KwRaises | KwContext | KwSequence
| KwString | KwWstring | KwFixed | KwAbstract | KwLocal | KwNative
| KwValuetype | KwTruncatable | KwSupports | KwPublic | KwPrivate
| KwFactory | KwCustom
| KwVoid | KwBoolean | KwChar | KwWchar | KwOctet | KwShort | KwLong
| KwFloat | KwDouble | KwUnsigned | KwAny | KwObject | KwTrue | KwFalse
| Semicolon | Colon | DoubleColon | Comma | LeftBrace | RightBrace
| LeftParen | RightParen | LeftBracket | RightBracket | LeftAngle
| RightAngle | Equals | Plus | Minus | Star | Slash | Percent | Ampersand
| Pipe | Caret | Tilde | LeftShift | RightShift
| Pragma | LineDirective | Unknown.

#[global] Instance eq_dec : EqDecision t.
Proof. solve_decision. Defined.
End TokenType.

(** [TokenValue]:
    [std::variant<std::monostate, int64_t, uint64_t, double, std::string, char>]. *)
Inductive TokenValue :=
| NoValue
| IntValue (v : Z)
| UIntValue (v : Z)
| DoubleValue (v : float)
| StringValue (v : string)
| CharValue (v : ascii).

Record Token := mkToken {
  tok_type : TokenType.t;
  tok_value : TokenValue;
  text : string;
  location : SourceLocation
}.

(** [Token()]. *)
Definition defaultToken : Token :=
  mkToken TokenType.Unknown NoValue "" defaultLoc.

Record LexerError := mkLexerError {
  lex_message : string;
  lex_location : SourceLocation
}.

(** The lexer as the parser sees it: what its next calls of [nextToken]
    return, each with the errors that scanning it appends to the lexer's
    [errors_]; the errors collected so far; and the position of the end of
    the source, where [nextToken] returns [Eof] from then on. *)
Record Lexer := mkLexer {
  upcoming : list (Token * list LexerError);
  lexer_errors_ : list LexerError;
  endLocation : SourceLocation
}.

Module Lexer.

(** [Lexer::nextToken]. *)
Definition nextToken (lx : Lexer) : Token * Lexer :=
  match upcoming lx with
  | [] => (mkToken TokenType.Eof NoValue "" (endLocation lx), lx)
  | (tok, errs) :: rest =>
      (tok, mkLexer rest (lexer_errors_ lx ++ errs) (endLocation lx))
  end.

(** [Lexer::getErrors]. *)
Definition getErrors (lx : Lexer) : list LexerError := lexer_errors_ lx.

(** A lexer for a source whose tokens are [toks], scanned without lexical
    errors, all reported at the start of [file]. *)
Definition ofTokens (toks : list Token) (file : string) : Lexer :=
  mkLexer (map (fun tok => (tok, [])) toks) [] (mkLoc file 1 1).

End Lexer.

(* ================================================================== *)
(** * parser/parser.hpp, parser/parser.cpp *)
(* ================================================================== *)

Record ParserError := mkParserError {
  message : string;
  err_location : SourceLocation;
  isWarning : bool
}.

Record Parser := mkParser {
  lexer_ : Lexer;
  currentToken_ : Token;
  previousToken_ : Token;
  errors_ : list ParserError;
  symbolTable_ : SymbolTable;
  hadError_ : bool;
  panicMode_ : bool
}.

(** Results of the parsing functions: a value and the parser after the
    call; an exception leaving the parser ([std::get] on a token value of
    another alternative); an operation whose behaviour C++ leaves
    undefined and at which the compiled program is killed by a signal
    ([back()] of an empty vector, a signed division whose quotient is no
    [int64_t]), after which there is no parser to speak of; or exhausted
    fuel. *)
Inductive Res (A : Type) :=
| Ret (a : A) (p : Parser)
| BadVariantAccess
| Undefined
| OutOfFuel.
Arguments Ret {A} a p.
Arguments BadVariantAccess {A}.
Arguments Undefined {A}.
Arguments OutOfFuel {A}.

Definition M (A : Type) : Type := Parser -> Res A.

Definition ret {A} (a : A) : M A := fun p => Ret a p.

Definition bind {A B} (m : M A) (k : A -> M B) : M B :=
  fun p =>
    match m p with
    | Ret a p' => k a p'
    | BadVariantAccess => BadVariantAccess
    | Undefined => Undefined
    | OutOfFuel => OutOfFuel
    end.

(** A member function that only changes the parser. *)
Definition act (f : Parser -> Parser) : M unit := fun p => Ret tt (f p).
(** A [const] member function. *)
Definition ask {A} (f : Parser -> A) : M A := fun p => Ret (f p) p.
(** A member function with a result. *)
Definition call {A} (f : Parser -> A * Parser) : M A :=
  fun p => Ret (fst (f p)) (snd (f p)).
Definition outOfFuel {A} : M A := fun _ => OutOfFuel.
Definition throwBadVariantAccess {A} : M A := fun _ => BadVariantAccess.
Definition undefined {A} : M A := fun _ => Undefined.

Declare Scope parser_scope.
Delimit Scope parser_scope with parser.
Notation "x <- m ;; k" := (bind m (fun x => k))
  (at level 100, m at next level, k at level 200, right associativity,
   only parsing) : parser_scope.
Notation "m ;; k" := (bind m (fun _ => k))
  (at level 100, k at level 200, right associativity, only parsing)
  : parser_scope.
Local Open Scope parser_scope.

Module Parser.

Definition check_type (t : TokenType.t) (tok : Token) : bool :=
  bool_decide (tok_type tok = t).

(* ------------------------------------------------------------------ *)
(** ** Token helpers *)

(** The [while (true)] loop of [advance] over the tokens the lexer still
    has: it returns the new [currentToken_], the lexer and [errors_]. *)
Fixpoint advanceLoop (upcoming : list (Token * list LexerError))
    (lexErrors : list LexerError) (endLoc : SourceLocation)
    (errors : list ParserError) : Token * Lexer * list ParserError :=
  match upcoming with
  | [] =>
      (fst (Lexer.nextToken (mkLexer [] lexErrors endLoc)),
       mkLexer [] lexErrors endLoc, errors)
  | (tok, errs) :: rest =>
      let lexErrors' := lexErrors ++ errs in
      if check_type TokenType.LineDirective tok
      then advanceLoop rest lexErrors' endLoc errors
      else if negb (check_type TokenType.Unknown tok)
      then (tok, mkLexer rest lexErrors' endLoc, errors)
      else advanceLoop rest lexErrors' endLoc
             (errors ++ map (fun err =>
                mkParserError (lex_message err) (lex_location err) false)
                lexErrors')
  end.

(** [Parser::advance]. *)
Definition advance (p : Parser) : Parser :=
  let '(tok, lx, errs) :=
    advanceLoop (upcoming (lexer_ p)) (lexer_errors_ (lexer_ p))
      (endLocation (lexer_ p)) (errors_ p) in
  mkParser lx tok (currentToken_ p) errs (symbolTable_ p) (hadError_ p)
    (panicMode_ p).

(** [Parser::Parser]. *)
Definition new (lx : Lexer) : Parser :=
  advance (mkParser lx defaultToken defaultToken [] SymbolTable.init false false).

(** [Parser::check]. *)
Definition check (type : TokenType.t) (p : Parser) : bool :=
  check_type type (currentToken_ p).

(** [Parser::match]. *)
Definition match_ (type : TokenType.t) (p : Parser) : bool * Parser :=
  if check type p then (true, advance p) else (false, p).

(* ------------------------------------------------------------------ *)
(** ** Error handling *)

(** [Parser::errorAt]. *)
Definition errorAt (token : Token) (msg : string) (p : Parser) : Parser :=
  if panicMode_ p then p
  else
    let oss :=
      SourceLocation_toString (location token) +:+ ": error: " +:+ msg +:+
      (if check_type TokenType.Eof token then " at end of file"
       else if negb (check_type TokenType.Unknown token)
       then " (got '" +:+ text token +:+ "')"
       else "") in
    mkParser (lexer_ p) (currentToken_ p) (previousToken_ p)
      (errors_ p ++ [mkParserError oss (location token) false])
      (symbolTable_ p) true true.

(** [Parser::error]. *)
Definition error (msg : string) (p : Parser) : Parser :=
  errorAt (currentToken_ p) msg p.

(** [Parser::warning]. *)
Definition warning (msg : string) (p : Parser) : Parser :=
  let oss :=
    SourceLocation_toString (location (currentToken_ p)) +:+ ": warning: " +:+ msg in
  mkParser (lexer_ p) (currentToken_ p) (previousToken_ p)
    (errors_ p ++ [mkParserError oss (location (currentToken_ p)) true])
    (symbolTable_ p) (hadError_ p) (panicMode_ p).

(** [Parser::expect]. *)
Definition expect (type : TokenType.t) (msg : string) (p : Parser) : Parser :=
  if check type p then advance p else errorAt (currentToken_ p) msg p.

(** [Parser::expectSemicolon]. *)
Definition expectSemicolon (p : Parser) : Parser :=
  expect TokenType.Semicolon "Expected ';'" p.

(** [Parser::isDefinitionStart]. *)
Definition isDefinitionStart (p : Parser) : bool :=
  match tok_type (currentToken_ p) with
  | TokenType.KwModule | TokenType.KwInterface | TokenType.KwStruct
  | TokenType.KwUnion | TokenType.KwEnum | TokenType.KwTypedef
  | TokenType.KwConst | TokenType.KwException | TokenType.KwAbstract
  | TokenType.KwLocal => true
  | _ => false
  end.

(** The [while (!check(TokenType::Eof))] loop of [synchronize]. *)
Fixpoint synchronizeLoop (fuel : nat) (p : Parser) : Parser :=
  match fuel with
  | O => p
  | S fuel' =>
      if check TokenType.Eof p then p
      else if check_type TokenType.Semicolon (previousToken_ p) then p
      else if check_type TokenType.RightBrace (previousToken_ p)
      then (if check TokenType.Semicolon p then advance p else p)
      else if isDefinitionStart p then p
      else synchronizeLoop fuel' (advance p)
  end.

(** [Parser::synchronize].  Every iteration that does not return calls
    [advance], which takes at least one token from the lexer unless none
    is left, and then the current token is [Eof]: the loop body runs at
    most once more than the lexer has tokens. *)
Definition synchronize (p : Parser) : Parser :=
  synchronizeLoop (S (length (upcoming (lexer_ p))))
    (mkParser (lexer_ p) (currentToken_ p) (previousToken_ p) (errors_ p)
       (symbolTable_ p) (hadError_ p) false).

(* ------------------------------------------------------------------ *)
(** ** The symbol table member *)

Definition withSymbolTable (f : SymbolTable -> SymbolTable) (p : Parser) : Parser :=
  mkParser (lexer_ p) (currentToken_ p) (previousToken_ p) (errors_ p)
    (f (symbolTable_ p)) (hadError_ p) (panicMode_ p).

(** [symbolTable_.addSymbol(name, kind, node)], result discarded. *)
Definition addSymbol (name : string) (kind : SymbolKind.t)
    (node : option NodePtr) : M unit :=
  act (withSymbolTable (fun t => snd (SymbolTable.addSymbol t name kind node))).

Definition enterScope (name : string) : M unit :=
  act (withSymbolTable (fun t => SymbolTable.enterScope t name)).

Definition leaveScope : M unit :=
  act (withSymbolTable SymbolTable.leaveScope).

Definition getCurrentScopeName : M string :=
  ask (fun p => SymbolTable.getCurrentScopeName (symbolTable_ p)).

Definition buildFullyQualifiedName (name : string) : M string :=
  ask (fun p => SymbolTable.buildFullyQualifiedName (symbolTable_ p) name).

Definition currentLocation : M SourceLocation :=
  ask (fun p => location (currentToken_ p)).

Definition currentText : M string :=
  ask (fun p => text (currentToken_ p)).

(* ------------------------------------------------------------------ *)
(** ** Constant folding: the assignments to [left] in the loops *)

(** [left = *l | *r] under the two [std::get_if<int64_t>]. *)
Definition foldOr (left right : ConstValue) : ConstValue :=
  match left with
  | CInt64 l => match right with CInt64 r => CInt64 (Z.lor l r) | _ => left end
  | _ => left
  end.

Definition foldXor (left right : ConstValue) : ConstValue :=
  match left with
  | CInt64 l => match right with CInt64 r => CInt64 (Z.lxor l r) | _ => left end
  | _ => left
  end.

Definition foldAnd (left right : ConstValue) : ConstValue :=
  match left with
  | CInt64 l => match right with CInt64 r => CInt64 (Z.land l r) | _ => left end
  | _ => left
  end.

(** [*l << *r] and [*l >> *r].  C++ leaves a shift count outside [0, 64)
    undefined; the model takes the count modulo 64 as x86-64 does. *)
Definition foldShl (left right : ConstValue) : ConstValue :=
  match left with
  | CInt64 l =>
      match right with
      | CInt64 r => CInt64 (wrap64 (Z.shiftl l (Z.land r 63)))
      | _ => left
      end
  | _ => left
  end.

Definition foldShr (left right : ConstValue) : ConstValue :=
  match left with
  | CInt64 l =>
      match right with
      | CInt64 r => CInt64 (Z.shiftr l (Z.land r 63))
      | _ => left
      end
  | _ => left
  end.

(** [left = *l + *r], on two [int64_t] or else on two [double].  Signed
    overflow, undefined in C++, wraps around in the model. *)
Definition foldAdd (left right : ConstValue) : ConstValue :=
  match left with
  | CInt64 l => match right with CInt64 r => CInt64 (wrap64 (l + r)) | _ => left end
  | CDouble l => match right with CDouble r => CDouble (l + r)%float | _ => left end
  | _ => left
  end.

Definition foldSub (left right : ConstValue) : ConstValue :=
  match left with
  | CInt64 l => match right with CInt64 r => CInt64 (wrap64 (l - r)) | _ => left end
  | CDouble l => match right with CDouble r => CDouble (l - r)%float | _ => left end
  | _ => left
  end.

Definition foldMul (left right : ConstValue) : ConstValue :=
  match left with
  | CInt64 l => match right with CInt64 r => CInt64 (wrap64 (l * r)) | _ => left end
  | CDouble l => match right with CDouble r => CDouble (l * r)%float | _ => left end
  | _ => left
  end.

(** [*l / *r] and [*l % *r] on the least [int64_t] and -1: the quotient,
    2^63, is no [int64_t].  C++ leaves both operations undefined and the
    [idiv] of x86-64 raises a divide error, which kills the process
    (SIGFPE).  The loop of [parseMulExpr] below tests this before it
    assigns, so that [foldDiv] and [foldMod] are not consulted there. *)
Definition divOverflows (left right : ConstValue) : bool :=
  match left with
  | CInt64 l =>
      match right with
      | CInt64 r => Z.eqb l (- 2 ^ 63) && Z.eqb r (-1)
      | _ => false
      end
  | _ => false
  end.

(** The division of [parseMulExpr]: on two [int64_t] the quotient
    (truncated) is assigned to [left] under the guard that the divisor is
    not 0; on two [double] it is assigned without a guard. *)
Definition foldDiv (left right : ConstValue) : ConstValue :=
  match left with
  | CInt64 l =>
      match right with
      | CInt64 r => if Z.eqb r 0 then left else CInt64 (wrap64 (Z.quot l r))
      | _ => left
      end
  | CDouble l => match right with CDouble r => CDouble (l / r)%float | _ => left end
  | _ => left
  end.

(** The remainder of [parseMulExpr]: on two [int64_t] only, under the
    guard that the divisor is not 0. *)
Definition foldMod (left right : ConstValue) : ConstValue :=
  match left with
  | CInt64 l =>
      match right with
      | CInt64 r => if Z.eqb r 0 then left else CInt64 (Z.rem l r)
      | _ => left
      end
  | _ => left
  end.

(** The [return]s of the unary minus and of the complement. *)
Definition foldNeg (val : ConstValue) : ConstValue :=
  match val with
  | CInt64 v => CInt64 (wrap64 (- v))
  | CDouble v => CDouble (- v)%float
  | _ => val
  end.

Definition foldNot (val : ConstValue) : ConstValue :=
  match val with
  | CInt64 v => CInt64 (Z.lnot v)
  | _ => val
  end.

(* ------------------------------------------------------------------ *)
(** ** Expression parsing *)

(** The [do ... while (match(TokenType::DoubleColon))] loop that collects
    the parts of a scoped name in [parsePrimaryExpr]. *)
Fixpoint constantPartsLoop (fuel : nat) (parts : list string) : M (list string) :=
  match fuel with
  | O => outOfFuel
  | S fuel' =>
      isId <- ask (check TokenType.Identifier) ;;
      if negb isId then ret parts
      else
        part <- currentText ;;
        act advance ;;
        more <- call (match_ TokenType.DoubleColon) ;;
        if more then constantPartsLoop fuel' (parts ++ [part])
        else ret (parts ++ [part])
  end.

Section Expressions.

(** The call of [parseConstExpr] made for a parenthesised expression. *)
Variable parseConstExpr : M ConstValue.

(** [Parser::parsePrimaryExpr].  Behind a lone [::] the vector [parts] is
    empty, [lookupScoped] returns nothing and [parts.back()] is called on
    the empty vector: undefined behaviour, a read through a null pointer
    in the program as compiled.  The [static_cast<ConstNode*>] of a node
    that is no [ConstNode] would be undefined too; no [Constant] symbol
    has such a node. *)
Definition parsePrimaryExpr (fuel : nat) : M ConstValue :=
  paren <- call (match_ TokenType.LeftParen) ;;
  if paren then
    val <- parseConstExpr ;;
    act (expect TokenType.RightParen "Expected ')'") ;;
    ret val
  else
  tok <- ask currentToken_ ;;
  if check_type TokenType.IntegerLiteral tok then
    match tok_value tok with
    | IntValue val => act advance ;; ret (CInt64 val)
    | _ => throwBadVariantAccess
    end
  else if check_type TokenType.FloatLiteral tok then
    match tok_value tok with
    | DoubleValue val => act advance ;; ret (CDouble val)
    | _ => throwBadVariantAccess
    end
  else if check_type TokenType.StringLiteral tok
          || check_type TokenType.WideStringLiteral tok then
    match tok_value tok with
    | StringValue val => act advance ;; ret (CString val)
    | _ => throwBadVariantAccess
    end
  else if check_type TokenType.CharLiteral tok
          || check_type TokenType.WideCharLiteral tok then
    match tok_value tok with
    | CharValue val => act advance ;; ret (CString (String val EmptyString))
    | _ => throwBadVariantAccess
    end
  else
  isTrue <- call (match_ TokenType.KwTrue) ;;
  if isTrue then ret (CBool true) else
  isFalse <- call (match_ TokenType.KwFalse) ;;
  if isFalse then ret (CBool false) else
  tok <- ask currentToken_ ;;
  if check_type TokenType.Identifier tok || check_type TokenType.DoubleColon tok
  then
    isAbsolute <- call (match_ TokenType.DoubleColon) ;;
    parts <- constantPartsLoop fuel [] ;;
    found <- ask (fun p => SymbolTable.lookupScoped (symbolTable_ p) parts isAbsolute) ;;
    let unknown :=
      match parts with
      | [] => undefined
      | _ :: _ =>
          act (warning ("Unknown constant: " +:+ List.last parts "")) ;;
          ret (CInt64 0)
      end in
    match found with
    | Some sym =>
        match (if SymbolKind.eqb (sym_kind sym) SymbolKind.Constant
               then sym_node sym else None) with
        | Some (ToConstNode value) => ret value
        | Some ToNode => unknown
        | None =>
            if SymbolKind.eqb (sym_kind sym) SymbolKind.EnumValue
            then ret (CInt64 0)
            else unknown
        end
    | None => unknown
    end
  else
    act (error "Expected expression") ;;
    ret (CInt64 0).

(** [Parser::parseUnaryExpr]. *)
Fixpoint parseUnaryExpr (fuel : nat) : M ConstValue :=
  match fuel with
  | O => outOfFuel
  | S fuel' =>
      minus <- call (match_ TokenType.Minus) ;;
      if minus then
        val <- parseUnaryExpr fuel' ;;
        ret (foldNeg val)
      else
      plus <- call (match_ TokenType.Plus) ;;
      if plus then parseUnaryExpr fuel' else
      tilde <- call (match_ TokenType.Tilde) ;;
      if tilde then
        val <- parseUnaryExpr fuel' ;;
        ret (foldNot val)
      else parsePrimaryExpr fuel'
  end.

(** The [while (true)] loop of [parseMulExpr]. *)
Fixpoint mulLoop (fuel : nat) (left : ConstValue) : M ConstValue :=
  match fuel with
  | O => outOfFuel
  | S fuel' =>
      star <- call (match_ TokenType.Star) ;;
      if star then
        right <- parseUnaryExpr fuel' ;;
        mulLoop fuel' (foldMul left right)
      else
      slash <- call (match_ TokenType.Slash) ;;
      if slash then
        right <- parseUnaryExpr fuel' ;;
        if divOverflows left right then undefined
        else mulLoop fuel' (foldDiv left right)
      else
      percent <- call (match_ TokenType.Percent) ;;
      if percent then
        right <- parseUnaryExpr fuel' ;;
        if divOverflows left right then undefined
        else mulLoop fuel' (foldMod left right)
      else ret left
  end.

(** [Parser::parseMulExpr]. *)
Definition parseMulExpr (fuel : nat) : M ConstValue :=
  left <- parseUnaryExpr fuel ;;
  mulLoop fuel left.

(** The [while (true)] loop of [parseAddExpr]. *)
Fixpoint addLoop (fuel : nat) (left : ConstValue) : M ConstValue :=
  match fuel with
  | O => outOfFuel
  | S fuel' =>
      plus <- call (match_ TokenType.Plus) ;;
      if plus then
        right <- parseMulExpr fuel' ;;
        addLoop fuel' (foldAdd left right)
      else
      minus <- call (match_ TokenType.Minus) ;;
      if minus then
        right <- parseMulExpr fuel' ;;
        addLoop fuel' (foldSub left right)
      else ret left
  end.

(** [Parser::parseAddExpr]. *)
Definition parseAddExpr (fuel : nat) : M ConstValue :=
  left <- parseMulExpr fuel ;;
  addLoop fuel left.

(** The [while (true)] loop of [parseShiftExpr]. *)
Fixpoint shiftLoop (fuel : nat) (left : ConstValue) : M ConstValue :=
  match fuel with
  | O => outOfFuel
  | S fuel' =>
      shl <- call (match_ TokenType.LeftShift) ;;
      if shl then
        right <- parseAddExpr fuel' ;;
        shiftLoop fuel' (foldShl left right)
      else
      shr <- call (match_ TokenType.RightShift) ;;
      if shr then
        right <- parseAddExpr fuel' ;;
        shiftLoop fuel' (foldShr left right)
      else ret left
  end.

(** [Parser::parseShiftExpr]. *)
Definition parseShiftExpr (fuel : nat) : M ConstValue :=
  left <- parseAddExpr fuel ;;
  shiftLoop fuel left.

(** The [while (match(TokenType::Ampersand))] loop of [parseAndExpr]. *)
Fixpoint andLoop (fuel : nat) (left : ConstValue) : M ConstValue :=
  match fuel with
  | O => outOfFuel
  | S fuel' =>
      amp <- call (match_ TokenType.Ampersand) ;;
      if amp then
        right <- parseShiftExpr fuel' ;;
        andLoop fuel' (foldAnd left right)
      else ret left
  end.

(** [Parser::parseAndExpr]. *)
Definition parseAndExpr (fuel : nat) : M ConstValue :=
  left <- parseShiftExpr fuel ;;
  andLoop fuel left.

(** The [while (match(TokenType::Caret))] loop of [parseXorExpr]. *)
Fixpoint xorLoop (fuel : nat) (left : ConstValue) : M ConstValue :=
  match fuel with
  | O => outOfFuel
  | S fuel' =>
      caret <- call (match_ TokenType.Caret) ;;
      if caret then
        right <- parseAndExpr fuel' ;;
        xorLoop fuel' (foldXor left right)
      else ret left
  end.

(** [Parser::parseXorExpr]. *)
Definition parseXorExpr (fuel : nat) : M ConstValue :=
  left <- parseAndExpr fuel ;;
  xorLoop fuel left.

(** The [while (match(TokenType::Pipe))] loop of [parseOrExpr]. *)
Fixpoint orLoop (fuel : nat) (left : ConstValue) : M ConstValue :=
  match fuel with
  | O => outOfFuel
  | S fuel' =>
      pipe <- call (match_ TokenType.Pipe) ;;
      if pipe then
        right <- parseXorExpr fuel' ;;
        orLoop fuel' (foldOr left right)
      else ret left
  end.

(** [Parser::parseOrExpr]. *)
Definition parseOrExpr (fuel : nat) : M ConstValue :=
  left <- parseXorExpr fuel ;;
  orLoop fuel left.

End Expressions.

(** [Parser::parseConstExpr]. *)
Fixpoint parseConstExpr (fuel : nat) : M ConstValue :=
  match fuel with
  | O => outOfFuel
  | S fuel' => parseOrExpr (parseConstExpr fuel') fuel'
  end.

(* ------------------------------------------------------------------ *)
(** ** Type parsing *)

(** [Parser::isTypeKeyword]. *)
Definition isTypeKeyword (type : TokenType.t) : bool :=
  match type with
  | TokenType.KwVoid | TokenType.KwBoolean | TokenType.KwChar
  | TokenType.KwWchar | TokenType.KwOctet | TokenType.KwShort
  | TokenType.KwLong | TokenType.KwFloat | TokenType.KwDouble
  | TokenType.KwUnsigned | TokenType.KwAny | TokenType.KwObject
  | TokenType.KwString | TokenType.KwWstring | TokenType.KwSequence => true
  | _ => false
  end.

(** [Parser::parseBasicType]. *)
Definition parseBasicType : M BasicType.t :=
  m <- call (match_ TokenType.KwVoid) ;; if m then ret BasicType.Void else
  m <- call (match_ TokenType.KwBoolean) ;; if m then ret BasicType.Boolean else
  m <- call (match_ TokenType.KwChar) ;; if m then ret BasicType.Char else
  m <- call (match_ TokenType.KwWchar) ;; if m then ret BasicType.WChar else
  m <- call (match_ TokenType.KwOctet) ;; if m then ret BasicType.Octet else
  m <- call (match_ TokenType.KwAny) ;; if m then ret BasicType.Any else
  m <- call (match_ TokenType.KwObject) ;; if m then ret BasicType.Object else
  m <- call (match_ TokenType.KwFloat) ;; if m then ret BasicType.Float else
  m <- call (match_ TokenType.KwDouble) ;; if m then ret BasicType.Double else
  isUnsigned <- call (match_ TokenType.KwUnsigned) ;;
  m <- call (match_ TokenType.KwShort) ;;
  if m then ret (if isUnsigned then BasicType.UShort else BasicType.Short) else
  m <- call (match_ TokenType.KwLong) ;;
  if m then
    m <- call (match_ TokenType.KwLong) ;;
    if m then ret (if isUnsigned then BasicType.ULongLong else BasicType.LongLong) else
    m <- call (match_ TokenType.KwDouble) ;;
    if m then ret BasicType.LongDouble else
    ret (if isUnsigned then BasicType.ULong else BasicType.Long)
  else
    (if isUnsigned
     then act (error "Expected 'short' or 'long' after 'unsigned'")
     else ret tt) ;;
    ret BasicType.Void.

(** [Parser::parseBaseTypeSpec]. *)
Definition parseBaseTypeSpec : M (option TypeNode) :=
  loc <- currentLocation ;;
  basicType <- parseBasicType ;;
  ret (Some (BasicTypeNode basicType loc)).

(** The conversion of a folded bound to [std::optional<size_t>]. *)
Definition boundOf (boundExpr : ConstValue) : option Z :=
  match boundExpr with
  | CInt64 val => Some (to_size_t val)
  | CUInt64 uval => Some (to_size_t uval)
  | _ => None
  end.

(** [Parser::parseStringType]. *)
Definition parseStringType (fuel : nat) (isWide : bool) : M (option TypeNode) :=
  loc <- currentLocation ;;
  act advance ;;
  angle <- call (match_ TokenType.LeftAngle) ;;
  bound <- (if angle then
              boundExpr <- parseConstExpr fuel ;;
              act (expect TokenType.RightAngle "Expected '>' at end of string bound") ;;
              ret (boundOf boundExpr)
            else ret None) ;;
  ret (Some (StringTypeNode bound isWide loc)).

(** The [do ... while (match(TokenType::DoubleColon))] loop of
    [parseScopedName]. *)
Fixpoint scopedNameLoop (fuel : nat) (parts : list string) : M (list string) :=
  match fuel with
  | O => outOfFuel
  | S fuel' =>
      isId <- ask (check TokenType.Identifier) ;;
      if negb isId then
        act (error "Expected identifier after '::'") ;;
        ret parts
      else
        part <- currentText ;;
        act advance ;;
        more <- call (match_ TokenType.DoubleColon) ;;
        if more then scopedNameLoop fuel' (parts ++ [part])
        else ret (parts ++ [part])
  end.

(** [Parser::parseScopedName]. *)
Definition parseScopedName (fuel : nat) : M (option TypeNode) :=
  loc <- currentLocation ;;
  isAbsolute <- call (match_ TokenType.DoubleColon) ;;
  isId <- ask (check TokenType.Identifier) ;;
  if negb isId then
    act (error "Expected identifier in scoped name") ;;
    ret None
  else
    parts <- scopedNameLoop fuel [] ;;
    ret (Some (ScopedNameNode parts isAbsolute loc)).

Section Types.

(** The recursive call of [parseTypeSpec] for the element type. *)
Variable parseTypeSpec : M (option TypeNode).

(** [Parser::parseSequenceType]. *)
Definition parseSequenceType (fuel : nat) : M (option TypeNode) :=
  loc <- currentLocation ;;
  act (expect TokenType.KwSequence "Expected 'sequence'") ;;
  act (expect TokenType.LeftAngle "Expected '<' after 'sequence'") ;;
  elemType <- parseTypeSpec ;;
  match elemType with
  | None =>
      act (error "Expected element type in sequence") ;;
      ret None
  | Some elemType =>
      comma <- call (match_ TokenType.Comma) ;;
      bound <- (if comma then
                  boundExpr <- parseConstExpr fuel ;;
                  ret (boundOf boundExpr)
                else ret None) ;;
      act (expect TokenType.RightAngle "Expected '>' at end of sequence type") ;;
      ret (Some (SequenceTypeNode elemType bound loc))
  end.

(** [Parser::parseSimpleTypeSpec]. *)
Definition parseSimpleTypeSpec (fuel : nat) : M (option TypeNode) :=
  tok <- ask currentToken_ ;;
  if isTypeKeyword (tok_type tok) then parseBaseTypeSpec
  else if check_type TokenType.Identifier tok
          || check_type TokenType.DoubleColon tok
  then parseScopedName fuel
  else
    act (error "Expected type specification") ;;
    ret None.

(** The body of [Parser::parseTypeSpec]. *)
Definition parseTypeSpecBody (fuel : nat) : M (option TypeNode) :=
  tok <- ask currentToken_ ;;
  if check_type TokenType.KwSequence tok then parseSequenceType fuel
  else if check_type TokenType.KwString tok then parseStringType fuel false
  else if check_type TokenType.KwWstring tok then parseStringType fuel true
  else parseSimpleTypeSpec fuel.

End Types.

(** [Parser::parseTypeSpec]. *)
Fixpoint parseTypeSpec (fuel : nat) : M (option TypeNode) :=
  match fuel with
  | O => outOfFuel
  | S fuel' => parseTypeSpecBody (parseTypeSpec fuel') fuel'
  end.

(* ------------------------------------------------------------------ *)
(** ** Declarators *)

(** [Parser::Declarator]. *)
Record Declarator := mkDeclarator {
  decl_name : string;
  decl_arrayDimensions : list Z
}.

(** The [while (match(TokenType::LeftBracket))] loop of [parseDeclarator]. *)
Fixpoint dimensionsLoop (fuel : nat) (dims : list Z) : M (list Z) :=
  match fuel with
  | O => outOfFuel
  | S fuel' =>
      bracket <- call (match_ TokenType.LeftBracket) ;;
      if bracket then
        sizeExpr <- parseConstExpr fuel' ;;
        let size :=
          match sizeExpr with
          | CInt64 val => to_size_t val
          | CUInt64 uval => to_size_t uval
          | _ => 0%Z
          end in
        act (expect TokenType.RightBracket "Expected ']'") ;;
        dimensionsLoop fuel' (dims ++ [size])
      else ret dims
  end.

(** [Parser::parseDeclarator]. *)
Definition parseDeclarator (fuel : nat) : M Declarator :=
  isId <- ask (check TokenType.Identifier) ;;
  if negb isId then
    act (error "Expected identifier") ;;
    ret (mkDeclarator "" [])
  else
    name <- currentText ;;
    act advance ;;
    dims <- dimensionsLoop fuel [] ;;
    ret (mkDeclarator name dims).

(** The [while (match(TokenType::Comma))] loop of [parseDeclarators]. *)
Fixpoint declaratorsLoop (fuel : nat) (decls : list Declarator)
    : M (list Declarator) :=
  match fuel with
  | O => outOfFuel
  | S fuel' =>
      comma <- call (match_ TokenType.Comma) ;;
      if comma then
        decl <- parseDeclarator fuel' ;;
        declaratorsLoop fuel' (decls ++ [decl])
      else ret decls
  end.

(** [Parser::parseDeclarators]. *)
Definition parseDeclarators (fuel : nat) : M (list Declarator) :=
  decl <- parseDeclarator fuel ;;
  declaratorsLoop fuel [decl].

(* ------------------------------------------------------------------ *)
(** ** Struct and union members *)

(** [Parser::parseStructMember]. *)
Definition parseStructMember (fuel : nat) : M (option StructMemberNode) :=
  loc <- currentLocation ;;
  type <- parseTypeSpec fuel ;;
  match type with
  | None => ret None
  | Some type =>
      declarators <- parseDeclarators fuel ;;
      match declarators with
      | [] =>
          act (error "Expected member name") ;;
          ret None
      | decl :: _ =>
          act expectSemicolon ;;
          let memberType :=
            match decl_arrayDimensions decl with
            | [] => type
            | _ :: _ => ArrayTypeNode type (decl_arrayDimensions decl) loc
            end in
          ret (Some (mkStructMember memberType (decl_name decl) loc))
      end
  end.

(** The [while (check(KwCase) || check(KwDefault))] loop of
    [parseUnionCase]. *)
Fixpoint labelsLoop (fuel : nat) (labels : list CaseLabel) : M (list CaseLabel) :=
  match fuel with
  | O => outOfFuel
  | S fuel' =>
      tok <- ask currentToken_ ;;
      if check_type TokenType.KwCase tok || check_type TokenType.KwDefault tok
      then
        isDefault <- call (match_ TokenType.KwDefault) ;;
        label <- (if isDefault then
                    act (expect TokenType.Colon "Expected ':' after 'default'") ;;
                    ret (mkCaseLabel true (CInt64 0))
                  else
                    act advance ;;
                    value <- parseConstExpr fuel' ;;
                    act (expect TokenType.Colon "Expected ':' after case value") ;;
                    ret (mkCaseLabel false value)) ;;
        labelsLoop fuel' (labels ++ [label])
      else ret labels
  end.

(** [Parser::parseUnionCase]. *)
Definition parseUnionCase (fuel : nat) : M (option UnionCaseNode) :=
  loc <- currentLocation ;;
  labels <- labelsLoop fuel [] ;;
  match labels with
  | [] =>
      act (error "Expected 'case' or 'default'") ;;
      ret None
  | _ :: _ =>
      type <- parseTypeSpec fuel ;;
      match type with
      | None =>
          act (error "Expected type in union case") ;;
          ret None
      | Some type =>
          isId <- ask (check TokenType.Identifier) ;;
          if negb isId then
            act (error "Expected member name in union case") ;;
            ret None
          else
            name <- currentText ;;
            act advance ;;
            act expectSemicolon ;;
            ret (Some (mkUnionCase labels type name loc))
      end
  end.

(* ------------------------------------------------------------------ *)
(** ** Interface members *)

(** [Parser::parseParamDirection]. *)
Definition parseParamDirection : M ParamDirection.t :=
  m <- call (match_ TokenType.KwIn) ;; if m then ret ParamDirection.In else
  m <- call (match_ TokenType.KwOut) ;; if m then ret ParamDirection.Out else
  m <- call (match_ TokenType.KwInout) ;; if m then ret ParamDirection.InOut else
  ret ParamDirection.In.

(** [Parser::parseParameter]. *)
Definition parseParameter (fuel : nat) : M (option ParameterNode) :=
  loc <- currentLocation ;;
  direction <- parseParamDirection ;;
  type <- parseTypeSpec fuel ;;
  match type with
  | None =>
      act (error "Expected parameter type") ;;
      ret None
  | Some type =>
      isId <- ask (check TokenType.Identifier) ;;
      if negb isId then
        act (error "Expected parameter name") ;;
        ret None
      else
        name <- currentText ;;
        act advance ;;
        ret (Some (mkParameter direction type name loc))
  end.

(** The [while (match(TokenType::DoubleColon))] loop of [parseRaisesExpr]. *)
Fixpoint raisesTailLoop (fuel : nat) (excName : string) : M string :=
  match fuel with
  | O => outOfFuel
  | S fuel' =>
      more <- call (match_ TokenType.DoubleColon) ;;
      if more then
        isId <- ask (check TokenType.Identifier) ;;
        if negb isId then ret (excName +:+ "::")
        else
          part <- currentText ;;
          act advance ;;
          raisesTailLoop fuel' (excName +:+ "::" +:+ part)
      else ret excName
  end.

(** The [do ... while (match(TokenType::Comma))] loop of [parseRaisesExpr]. *)
Fixpoint raisesLoop (fuel : nat) (exceptions : list string) : M (list string) :=
  match fuel with
  | O => outOfFuel
  | S fuel' =>
      absolute <- call (match_ TokenType.DoubleColon) ;;
      let excName := if absolute then "::" else "" in
      isId <- ask (check TokenType.Identifier) ;;
      if negb isId then
        act (error "Expected exception name") ;;
        ret exceptions
      else
        part <- currentText ;;
        act advance ;;
        excName <- raisesTailLoop fuel' (excName +:+ part) ;;
        comma <- call (match_ TokenType.Comma) ;;
        if comma then raisesLoop fuel' (exceptions ++ [excName])
        else ret (exceptions ++ [excName])
  end.

(** [Parser::parseRaisesExpr]. *)
Definition parseRaisesExpr (fuel : nat) : M (list string) :=
  act (expect TokenType.KwRaises "Expected 'raises'") ;;
  act (expect TokenType.LeftParen "Expected '(' after 'raises'") ;;
  closed <- ask (check TokenType.RightParen) ;;
  exceptions <- (if negb closed then raisesLoop fuel [] else ret []) ;;
  act (expect TokenType.RightParen "Expected ')' after raises list") ;;
  ret exceptions.

(** The [while (match(TokenType::DoubleColon))] loop of
    [parseInheritanceSpec]. *)
Fixpoint inheritanceTailLoop (fuel : nat) (baseName : string) : M string :=
  match fuel with
  | O => outOfFuel
  | S fuel' =>
      more <- call (match_ TokenType.DoubleColon) ;;
      if more then
        isId <- ask (check TokenType.Identifier) ;;
        if negb isId then
          act (error "Expected identifier after '::'") ;;
          ret (baseName +:+ "::")
        else
          part <- currentText ;;
          act advance ;;
          inheritanceTailLoop fuel' (baseName +:+ "::" +:+ part)
      else ret baseName
  end.

(** The [do ... while (match(TokenType::Comma))] loop of
    [parseInheritanceSpec]. *)
Fixpoint inheritanceLoop (fuel : nat) (bases : list string) : M (list string) :=
  match fuel with
  | O => outOfFuel
  | S fuel' =>
      absolute <- call (match_ TokenType.DoubleColon) ;;
      let baseName := if absolute then "::" else "" in
      isId <- ask (check TokenType.Identifier) ;;
      if negb isId then
        act (error "Expected base interface name") ;;
        ret bases
      else
        part <- currentText ;;
        act advance ;;
        baseName <- inheritanceTailLoop fuel' (baseName +:+ part) ;;
        comma <- call (match_ TokenType.Comma) ;;
        if comma then inheritanceLoop fuel' (bases ++ [baseName])
        else ret (bases ++ [baseName])
  end.

(** [Parser::parseInheritanceSpec]. *)
Definition parseInheritanceSpec (fuel : nat) : M (list string) :=
  act (expect TokenType.Colon "Expected ':' for inheritance") ;;
  inheritanceLoop fuel [].

(** The [do ... while (match(TokenType::Comma))] loop of [parseOperation]. *)
Fixpoint parametersLoop (fuel : nat) (parameters : list ParameterNode)
    : M (list ParameterNode) :=
  match fuel with
  | O => outOfFuel
  | S fuel' =>
      param <- parseParameter fuel' ;;
      let parameters :=
        match param with
        | Some param => parameters ++ [param]
        | None => parameters
        end in
      comma <- call (match_ TokenType.Comma) ;;
      if comma then parametersLoop fuel' parameters else ret parameters
  end.

(** [Parser::parseOperation]. *)
Definition parseOperation (fuel : nat) (returnType : TypeNode) (name : string)
    (isOneway : bool) : M (option DefinitionNode) :=
  loc <- ask (fun p => location (previousToken_ p)) ;;
  fqn <- buildFullyQualifiedName name ;;
  act (expect TokenType.LeftParen "Expected '(' after operation name") ;;
  closed <- ask (check TokenType.RightParen) ;;
  parameters <- (if negb closed then parametersLoop fuel [] else ret []) ;;
  act (expect TokenType.RightParen "Expected ')' after parameters") ;;
  hasRaises <- ask (check TokenType.KwRaises) ;;
  raises <- (if hasRaises then parseRaisesExpr fuel else ret []) ;;
  act expectSemicolon ;;
  addSymbol name SymbolKind.Operation (Some ToNode) ;;
  ret (Some (OperationNode name fqn loc returnType parameters raises isOneway)).

(** [Parser::parseAttribute]. *)
Definition parseAttribute (fuel : nat) (isReadonly : bool)
    : M (option DefinitionNode) :=
  loc <- currentLocation ;;
  act (expect TokenType.KwAttribute "Expected 'attribute'") ;;
  type <- parseTypeSpec fuel ;;
  match type with
  | None =>
      act (error "Expected attribute type") ;;
      ret None
  | Some type =>
      isId <- ask (check TokenType.Identifier) ;;
      if negb isId then
        act (error "Expected attribute name") ;;
        ret None
      else
        name <- currentText ;;
        act advance ;;
        act expectSemicolon ;;
        addSymbol name SymbolKind.Attribute (Some ToNode) ;;
        fqn <- buildFullyQualifiedName name ;;
        ret (Some (AttributeNode name fqn loc type isReadonly))
  end.

(* ------------------------------------------------------------------ *)
(** ** Definition parsing *)

(** The member loop of [parseStruct] and of [parseException]:
    [while (!check(RightBrace) && !check(Eof))]. *)
Fixpoint membersLoop (fuel : nat) (members : list StructMemberNode)
    : M (list StructMemberNode) :=
  match fuel with
  | O => outOfFuel
  | S fuel' =>
      tok <- ask currentToken_ ;;
      if negb (check_type TokenType.RightBrace tok)
         && negb (check_type TokenType.Eof tok)
      then
        member <- parseStructMember fuel' ;;
        match member with
        | Some member => membersLoop fuel' (members ++ [member])
        | None => act synchronize ;; membersLoop fuel' members
        end
      else ret members
  end.

(** [Parser::parseStruct]. *)
Definition parseStruct (fuel : nat) : M (option DefinitionNode) :=
  loc <- currentLocation ;;
  act (expect TokenType.KwStruct "Expected 'struct'") ;;
  isId <- ask (check TokenType.Identifier) ;;
  if negb isId then
    act (error "Expected struct name") ;;
    ret None
  else
    name <- currentText ;;
    act advance ;;
    forward <- ask (check TokenType.Semicolon) ;;
    if forward then
      act advance ;;
      addSymbol name SymbolKind.Struct (Some ToNode) ;;
      fqn <- buildFullyQualifiedName name ;;
      ret (Some (StructNode name fqn loc []))
    else
      addSymbol name SymbolKind.Struct None ;;
      enterScope name ;;
      fqn <- getCurrentScopeName ;;
      act (expect TokenType.LeftBrace "Expected '{' after struct name") ;;
      members <- membersLoop fuel [] ;;
      act (expect TokenType.RightBrace "Expected '}' at end of struct") ;;
      act expectSemicolon ;;
      leaveScope ;;
      ret (Some (StructNode name fqn loc members)).

(** The case loop of [parseUnion]. *)
Fixpoint casesLoop (fuel : nat) (cases : list UnionCaseNode)
    : M (list UnionCaseNode) :=
  match fuel with
  | O => outOfFuel
  | S fuel' =>
      tok <- ask currentToken_ ;;
      if negb (check_type TokenType.RightBrace tok)
         && negb (check_type TokenType.Eof tok)
      then
        caseNode <- parseUnionCase fuel' ;;
        match caseNode with
        | Some caseNode => casesLoop fuel' (cases ++ [caseNode])
        | None => act synchronize ;; casesLoop fuel' cases
        end
      else ret cases
  end.

(** [Parser::parseUnion]. *)
Definition parseUnion (fuel : nat) : M (option DefinitionNode) :=
  loc <- currentLocation ;;
  act (expect TokenType.KwUnion "Expected 'union'") ;;
  isId <- ask (check TokenType.Identifier) ;;
  if negb isId then
    act (error "Expected union name") ;;
    ret None
  else
    name <- currentText ;;
    act advance ;;
    act (expect TokenType.KwSwitch "Expected 'switch' after union name") ;;
    act (expect TokenType.LeftParen "Expected '(' after 'switch'") ;;
    discType <- parseTypeSpec fuel ;;
    match discType with
    | None =>
        act (error "Expected discriminator type") ;;
        ret None
    | Some discType =>
        act (expect TokenType.RightParen "Expected ')' after discriminator type") ;;
        addSymbol name SymbolKind.Union None ;;
        enterScope name ;;
        fqn <- getCurrentScopeName ;;
        act (expect TokenType.LeftBrace "Expected '{' after union switch") ;;
        cases <- casesLoop fuel [] ;;
        act (expect TokenType.RightBrace "Expected '}' at end of union") ;;
        act expectSemicolon ;;
        leaveScope ;;
        ret (Some (UnionNode name fqn loc discType cases))
    end.

(** The [do ... while (match(TokenType::Comma))] loop of [parseEnum]. *)
Fixpoint enumeratorsLoop (fuel : nat) (values : list string) : M (list string) :=
  match fuel with
  | O => outOfFuel
  | S fuel' =>
      isId <- ask (check TokenType.Identifier) ;;
      if negb isId then
        act (error "Expected enumerator name") ;;
        ret values
      else
        value <- currentText ;;
        act advance ;;
        comma <- call (match_ TokenType.Comma) ;;
        if comma then enumeratorsLoop fuel' (values ++ [value])
        else ret (values ++ [value])
  end.

(** The loop of [parseEnum] that registers the enumerators. *)
Fixpoint registerEnumerators (enumerators : list string) : M unit :=
  match enumerators with
  | [] => ret tt
  | val :: rest =>
      addSymbol val SymbolKind.EnumValue None ;;
      registerEnumerators rest
  end.

(** [Parser::parseEnum]. *)
Definition parseEnum (fuel : nat) : M (option DefinitionNode) :=
  loc <- currentLocation ;;
  act (expect TokenType.KwEnum "Expected 'enum'") ;;
  isId <- ask (check TokenType.Identifier) ;;
  if negb isId then
    act (error "Expected enum name") ;;
    ret None
  else
    name <- currentText ;;
    act advance ;;
    act (expect TokenType.LeftBrace "Expected '{' after enum name") ;;
    values <- enumeratorsLoop fuel [] ;;
    act (expect TokenType.RightBrace "Expected '}' at end of enum") ;;
    act expectSemicolon ;;
    addSymbol name SymbolKind.Enum (Some ToNode) ;;
    fqn <- buildFullyQualifiedName name ;;
    registerEnumerators values ;;
    ret (Some (EnumNode name fqn loc values)).

(** The loop of [parseTypedef] over the declarators. *)
Fixpoint registerDeclarators (declarators : list Declarator)
    (astDeclarators : list TypedefDeclarator) : M (list TypedefDeclarator) :=
  match declarators with
  | [] => ret astDeclarators
  | decl :: rest =>
      addSymbol (decl_name decl) SymbolKind.Typedef None ;;
      registerDeclarators rest
        (astDeclarators ++
           [mkTypedefDeclarator (decl_name decl) (decl_arrayDimensions decl)])
  end.

(** [Parser::parseTypedef].  The [name] of the node is set by the
    constructor of [TypedefNode] from its first declarator. *)
Definition parseTypedef (fuel : nat) : M (option DefinitionNode) :=
  loc <- currentLocation ;;
  act (expect TokenType.KwTypedef "Expected 'typedef'") ;;
  type <- parseTypeSpec fuel ;;
  match type with
  | None =>
      act (error "Expected type specification") ;;
      ret None
  | Some type =>
      declarators <- parseDeclarators fuel ;;
      match declarators with
      | [] =>
          act (error "Expected declarator") ;;
          ret None
      | _ :: _ =>
          act expectSemicolon ;;
          astDeclarators <- registerDeclarators declarators [] ;;
          let name :=
            match astDeclarators with
            | [] => ""
            | first :: _ => declarator_name first
            end in
          fqn <- buildFullyQualifiedName name ;;
          ret (Some (TypedefNode name fqn loc type astDeclarators))
      end
  end.

(** [Parser::parseConst]. *)
Definition parseConst (fuel : nat) : M (option DefinitionNode) :=
  loc <- currentLocation ;;
  act (expect TokenType.KwConst "Expected 'const'") ;;
  type <- parseTypeSpec fuel ;;
  match type with
  | None =>
      act (error "Expected const type") ;;
      ret None
  | Some type =>
      isId <- ask (check TokenType.Identifier) ;;
      if negb isId then
        act (error "Expected const name") ;;
        ret None
      else
        name <- currentText ;;
        act advance ;;
        act (expect TokenType.Equals "Expected '=' after const name") ;;
        value <- parseConstExpr fuel ;;
        act expectSemicolon ;;
        addSymbol name SymbolKind.Constant (Some (ToConstNode value)) ;;
        fqn <- buildFullyQualifiedName name ;;
        ret (Some (ConstNode name fqn loc type value))
  end.

(** [Parser::parseException]. *)
Definition parseException (fuel : nat) : M (option DefinitionNode) :=
  loc <- currentLocation ;;
  act (expect TokenType.KwException "Expected 'exception'") ;;
  isId <- ask (check TokenType.Identifier) ;;
  if negb isId then
    act (error "Expected exception name") ;;
    ret None
  else
    name <- currentText ;;
    act advance ;;
    addSymbol name SymbolKind.Exception_ None ;;
    enterScope name ;;
    fqn <- getCurrentScopeName ;;
    act (expect TokenType.LeftBrace "Expected '{' after exception name") ;;
    members <- membersLoop fuel [] ;;
    act (expect TokenType.RightBrace "Expected '}' at end of exception") ;;
    act expectSemicolon ;;
    leaveScope ;;
    ret (Some (ExceptionNode name fqn loc members)).

Section Definitions.

(** The recursive call of [parseDefinition] from the body of a module or
    of an interface. *)
Variable parseDefinition : M (option DefinitionNode).

(** The definition loop of [parseModule]. *)
Fixpoint moduleLoop (fuel : nat) (definitions : list DefinitionNode)
    : M (list DefinitionNode) :=
  match fuel with
  | O => outOfFuel
  | S fuel' =>
      tok <- ask currentToken_ ;;
      if negb (check_type TokenType.RightBrace tok)
         && negb (check_type TokenType.Eof tok)
      then
        def <- parseDefinition ;;
        match def with
        | Some def => moduleLoop fuel' (definitions ++ [def])
        | None => act synchronize ;; moduleLoop fuel' definitions
        end
      else ret definitions
  end.

(** [Parser::parseModule]. *)
Definition parseModule (fuel : nat) : M (option DefinitionNode) :=
  loc <- currentLocation ;;
  act (expect TokenType.KwModule "Expected 'module'") ;;
  isId <- ask (check TokenType.Identifier) ;;
  if negb isId then
    act (error "Expected module name") ;;
    ret None
  else
    name <- currentText ;;
    act advance ;;
    addSymbol name SymbolKind.Module_ None ;;
    enterScope name ;;
    fqn <- getCurrentScopeName ;;
    act (expect TokenType.LeftBrace "Expected '{' after module name") ;;
    definitions <- moduleLoop fuel [] ;;
    act (expect TokenType.RightBrace "Expected '}' at end of module") ;;
    act expectSemicolon ;;
    leaveScope ;;
    ret (Some (ModuleNode name fqn loc definitions)).

(** The body loop of [parseInterface]. *)
Fixpoint interfaceLoop (fuel : nat) (contents : list DefinitionNode)
    : M (list DefinitionNode) :=
  match fuel with
  | O => outOfFuel
  | S fuel' =>
      tok <- ask currentToken_ ;;
      if negb (check_type TokenType.RightBrace tok)
         && negb (check_type TokenType.Eof tok)
      then
        readonly <- call (match_ TokenType.KwReadonly) ;;
        oneway <- call (match_ TokenType.KwOneway) ;;
        isAttribute <- ask (check TokenType.KwAttribute) ;;
        if isAttribute then
          (if oneway
           then act (error "'oneway' cannot be applied to attributes")
           else ret tt) ;;
          attr <- parseAttribute fuel' readonly ;;
          match attr with
          | Some attr => interfaceLoop fuel' (contents ++ [attr])
          | None => interfaceLoop fuel' contents
          end
        else
        defStart <- ask isDefinitionStart ;;
        if defStart then
          (if readonly || oneway
           then act (error "'readonly' and 'oneway' can only be applied to attributes and operations")
           else ret tt) ;;
          def <- parseDefinition ;;
          match def with
          | Some def => interfaceLoop fuel' (contents ++ [def])
          | None => interfaceLoop fuel' contents
          end
        else
          (if readonly
           then act (error "'readonly' can only be applied to attributes")
           else ret tt) ;;
          retType <- parseTypeSpec fuel' ;;
          match retType with
          | None => act synchronize ;; interfaceLoop fuel' contents
          | Some retType =>
              isId <- ask (check TokenType.Identifier) ;;
              if negb isId then
                act (error "Expected operation name") ;;
                act synchronize ;;
                interfaceLoop fuel' contents
              else
                opName <- currentText ;;
                act advance ;;
                op <- parseOperation fuel' retType opName oneway ;;
                match op with
                | Some op => interfaceLoop fuel' (contents ++ [op])
                | None => interfaceLoop fuel' contents
                end
          end
      else ret contents
  end.

(** [Parser::parseInterface]. *)
Definition parseInterface (fuel : nat) (isAbstract isLocal : bool)
    : M (option DefinitionNode) :=
  loc <- currentLocation ;;
  act (expect TokenType.KwInterface "Expected 'interface'") ;;
  isId <- ask (check TokenType.Identifier) ;;
  if negb isId then
    act (error "Expected interface name") ;;
    ret None
  else
    name <- currentText ;;
    act advance ;;
    forward <- ask (check TokenType.Semicolon) ;;
    if forward then
      act advance ;;
      addSymbol name SymbolKind.Interface (Some ToNode) ;;
      fqn <- buildFullyQualifiedName name ;;
      ret (Some (InterfaceNode name fqn loc [] [] isAbstract isLocal true))
    else
      hasBases <- ask (check TokenType.Colon) ;;
      baseInterfaces <- (if hasBases then parseInheritanceSpec fuel else ret []) ;;
      addSymbol name SymbolKind.Interface (Some ToNode) ;;
      fqn <- buildFullyQualifiedName name ;;
      enterScope name ;;
      act (expect TokenType.LeftBrace "Expected '{' after interface name") ;;
      contents <- interfaceLoop fuel [] ;;
      act (expect TokenType.RightBrace "Expected '}' at end of interface") ;;
      act expectSemicolon ;;
      leaveScope ;;
      ret (Some (InterfaceNode name fqn loc baseInterfaces contents
                   isAbstract isLocal false)).

(** The body of [Parser::parseDefinition]. *)
Definition parseDefinitionBody (fuel : nat) : M (option DefinitionNode) :=
  isAbstract <- call (match_ TokenType.KwAbstract) ;;
  isLocal <- call (match_ TokenType.KwLocal) ;;
  tok <- ask currentToken_ ;;
  if check_type TokenType.KwModule tok then
    (if isAbstract || isLocal
     then act (error "'abstract' and 'local' cannot be applied to modules")
     else ret tt) ;;
    parseModule fuel
  else if check_type TokenType.KwInterface tok then
    parseInterface fuel isAbstract isLocal
  else
    (if isAbstract || isLocal
     then act (error "'abstract' and 'local' can only be applied to interfaces")
     else ret tt) ;;
    if check_type TokenType.KwStruct tok then parseStruct fuel
    else if check_type TokenType.KwUnion tok then parseUnion fuel
    else if check_type TokenType.KwEnum tok then parseEnum fuel
    else if check_type TokenType.KwTypedef tok then parseTypedef fuel
    else if check_type TokenType.KwConst tok then parseConst fuel
    else if check_type TokenType.KwException tok then parseException fuel
    else
      act (error "Expected definition (module, interface, struct, etc.)") ;;
      ret None.

End Definitions.

(** [Parser::parseDefinition]. *)
Fixpoint parseDefinition (fuel : nat) : M (option DefinitionNode) :=
  match fuel with
  | O => outOfFuel
  | S fuel' => parseDefinitionBody (parseDefinition fuel') fuel'
  end.

(** The [while (!check(TokenType::Eof))] loop of [parse]. *)
Fixpoint parseLoop (fuel : nat) (definitions : list DefinitionNode)
    : M (list DefinitionNode) :=
  match fuel with
  | O => outOfFuel
  | S fuel' =>
      tok <- ask currentToken_ ;;
      if negb (check_type TokenType.Eof tok) then
        if check_type TokenType.LineDirective tok then
          act advance ;;
          parseLoop fuel' definitions
        else
          def <- parseDefinition fuel' ;;
          match def with
          | Some def => parseLoop fuel' (definitions ++ [def])
          | None => act synchronize ;; parseLoop fuel' definitions
          end
      else ret definitions
  end.

(** [Parser::parse]. *)
Definition parse (fuel : nat) : M TranslationUnit :=
  file <- ask (fun p => filename (location (currentToken_ p))) ;;
  definitions <- parseLoop fuel [] ;;
  ret (mkUnit definitions file).

(** [Parser::hasErrors]. *)
Definition hasErrors (p : Parser) : bool :=
  existsb (fun err => negb (isWarning err)) (errors_ p).

(** [Parser::getWarnings]. *)
Definition getWarnings (p : Parser) : list ParserError :=
  List.filter (fun err => isWarning err) (errors_ p).

End Parser.

(* ================================================================== *)
(** * generator/cpp11_generator.hpp, generator/cpp11_generator.cpp *)
(* ================================================================== *)

Record GeneratorConfig := mkConfig {
  outputDir : string;
  headerExtension : string;
  sourceExtension : string;
  namespacePrefix : string;
  generateImplementation : bool;
  useSmartPointers : bool;
  addIncludeGuards : bool;
  addDoxygen : bool;
  indent_unit : string
}.

(** The default member initialisers of [GeneratorConfig]. *)
Definition defaultConfig : GeneratorConfig :=
  mkConfig "." ".hpp" ".cpp" "" true true true true "    ".

(** The line feed written by [writeHeaderLine]. *)
Definition newline : string := String (ascii_of_nat 10) EmptyString.

(** The double quote of a string literal in the generated text. *)
Definition dquote : string := String (ascii_of_nat 34) EmptyString.

(** [std::toupper] and [std::isalnum] in the C locale. *)
Definition toupper (c : ascii) : ascii :=
  let n := nat_of_ascii c in
  if Nat.leb 97 n && Nat.leb n 122 then ascii_of_nat (n - 32) else c.

Definition isalnum (c : ascii) : bool :=
  let n := nat_of_ascii c in
  (Nat.leb 48 n && Nat.leb n 57) || (Nat.leb 65 n && Nat.leb n 90)
  || (Nat.leb 97 n && Nat.leb n 122).

Fixpoint string_map (f : ascii -> ascii) (s : string) : string :=
  match s with
  | EmptyString => EmptyString
  | String c rest => String (f c) (string_map f rest)
  end.

Module Cpp11Generator.

(** The data members of [Cpp11Generator]; the two [std::ostringstream] are
    the text written to them so far. *)
Record t := mk {
  config_ : GeneratorConfig;
  header_ : string;
  source_ : string;
  headerContent_ : string;
  sourceContent_ : string;
  errors_ : list string;
  indentLevel_ : Z;
  namespaceStack_ : list string;
  currentTypeName_ : string;
  inInterfaceDecl_ : bool
}.

(** [Cpp11Generator::Cpp11Generator]. *)
Definition new (config : GeneratorConfig) : t :=
  mk config "" "" "" "" [] 0 [] "" false.

Definition setHeader (h : string) (g : t) : t :=
  mk (config_ g) h (source_ g) (headerContent_ g) (sourceContent_ g)
    (errors_ g) (indentLevel_ g) (namespaceStack_ g) (currentTypeName_ g)
    (inInterfaceDecl_ g).

Definition setSource (s : string) (g : t) : t :=
  mk (config_ g) (header_ g) s (headerContent_ g) (sourceContent_ g)
    (errors_ g) (indentLevel_ g) (namespaceStack_ g) (currentTypeName_ g)
    (inInterfaceDecl_ g).

Definition setIndentLevel (n : Z) (g : t) : t :=
  mk (config_ g) (header_ g) (source_ g) (headerContent_ g) (sourceContent_ g)
    (errors_ g) n (namespaceStack_ g) (currentTypeName_ g) (inInterfaceDecl_ g).

Definition setNamespaceStack (st : list string) (g : t) : t :=
  mk (config_ g) (header_ g) (source_ g) (headerContent_ g) (sourceContent_ g)
    (errors_ g) (indentLevel_ g) st (currentTypeName_ g) (inInterfaceDecl_ g).

Definition setCurrentTypeName (n : string) (g : t) : t :=
  mk (config_ g) (header_ g) (source_ g) (headerContent_ g) (sourceContent_ g)
    (errors_ g) (indentLevel_ g) (namespaceStack_ g) n (inInterfaceDecl_ g).

Definition setInInterfaceDecl (b : bool) (g : t) : t :=
  mk (config_ g) (header_ g) (source_ g) (headerContent_ g) (sourceContent_ g)
    (errors_ g) (indentLevel_ g) (namespaceStack_ g) (currentTypeName_ g) b.

(* ------------------------------------------------------------------ *)
(** ** Output helpers *)

(** [Cpp11Generator::indent]. *)
Definition indent (g : t) : t := setIndentLevel (indentLevel_ g + 1) g.

(** [Cpp11Generator::outdent]. *)
Definition outdent (g : t) : t :=
  if Z.ltb 0 (indentLevel_ g) then setIndentLevel (indentLevel_ g - 1) g else g.

(** [Cpp11Generator::getIndent]. *)
Definition getIndent (g : t) : string :=
  String.concat "" (repeat (indent_unit (config_ g)) (Z.to_nat (indentLevel_ g))).

(** [Cpp11Generator::writeHeaderLine]. *)
Definition writeHeaderLine (line : string) (g : t) : t :=
  let h := if String.eqb line "" then header_ g
           else header_ g +:+ getIndent g +:+ line in
  setHeader (h +:+ newline) g.

(** [Cpp11Generator::writeSourceLine]. *)
Definition writeSourceLine (line : string) (g : t) : t :=
  let s := if String.eqb line "" then source_ g
           else source_ g +:+ getIndent g +:+ line in
  setSource (s +:+ newline) g.

(* ------------------------------------------------------------------ *)
(** ** Type mapping *)

(** [Cpp11Generator::mapBasicType]. *)
Definition mapBasicType (type : BasicType.t) : string :=
  match type with
  | BasicType.Void => "void"
  | BasicType.Boolean => "bool"
  | BasicType.Char => "char"
  | BasicType.WChar => "wchar_t"
  | BasicType.Octet => "uint8_t"
  | BasicType.Short => "int16_t"
  | BasicType.UShort => "uint16_t"
  | BasicType.Long => "int32_t"
  | BasicType.ULong => "uint32_t"
  | BasicType.LongLong => "int64_t"
  | BasicType.ULongLong => "uint64_t"
  | BasicType.Float => "float"
  | BasicType.Double => "double"
  | BasicType.LongDouble => "long double"
  | BasicType.Any => "std::any"
  | BasicType.Object => "Object"
  end.

(** The loop over [rbegin() .. rend()] of the dimensions, in
    [visit(ArrayTypeNode&)] and in [generateTypedef]: each step wraps the
    type built so far. *)
Definition wrapArrays (elemType : string) (dimensions : list Z) : string :=
  fold_left
    (fun elemType dim =>
       "std::array<" +:+ elemType +:+ ", " +:+ to_string dim +:+ ">")
    (rev dimensions) elemType.

(** The body of [ScopedNameNode]'s [visit]: the parts joined by [::]. *)
Fixpoint joinParts (result : string) (i : nat) (parts : list string) : string :=
  match parts with
  | [] => result
  | part :: rest =>
      joinParts ((if Nat.ltb 0 i then result +:+ "::" else result) +:+ part)
        (S i) rest
  end.

(** The [visit] overloads of the type nodes, reached through [accept].
    [mapType] clears [currentTypeName_], visits and returns
    [currentTypeName_]; an AST built by the parser has no null type. *)
Fixpoint visitType (node : TypeNode) (g : t) : t :=
  let mapType (child : TypeNode) (g : t) : string * t :=
    let g' := visitType child (setCurrentTypeName "" g) in
    (currentTypeName_ g', g') in
  match node with
  | BasicTypeNode type _ => setCurrentTypeName (mapBasicType type) g
  | SequenceTypeNode elementType _ _ =>
      let '(elemType, g) := mapType elementType g in
      setCurrentTypeName ("std::vector<" +:+ elemType +:+ ">") g
  | StringTypeNode _ isWide _ =>
      setCurrentTypeName (if isWide then "std::wstring" else "std::string") g
  | ScopedNameNode parts isAbsolute _ =>
      setCurrentTypeName (joinParts (if isAbsolute then "::" else "") 0 parts) g
  | ArrayTypeNode elementType dimensions _ =>
      let '(elemType, g) := mapType elementType g in
      setCurrentTypeName (wrapArrays elemType dimensions) g
  end.

(** [Cpp11Generator::mapType]. *)
Definition mapType (node : TypeNode) (g : t) : string * t :=
  let g' := visitType node (setCurrentTypeName "" g) in
  (currentTypeName_ g', g').

(** [Cpp11Generator::mapTypeForParameter]. *)
Definition mapTypeForParameter (node : TypeNode) (dir : ParamDirection.t)
    (g : t) : string * t :=
  let '(baseType, g) := mapType node g in
  match dir with
  | ParamDirection.In =>
      match node with
      | BasicTypeNode (BasicType.Boolean | BasicType.Char | BasicType.WChar
                      | BasicType.Octet | BasicType.Short | BasicType.UShort
                      | BasicType.Long | BasicType.ULong | BasicType.LongLong
                      | BasicType.ULongLong | BasicType.Float
                      | BasicType.Double | BasicType.LongDouble) _ =>
          (baseType, g)
      | _ => ("const " +:+ baseType +:+ "&", g)
      end
  | _ => (baseType +:+ "&", g)
  end.

(** [Cpp11Generator::mapTypeForReturn]. *)
Definition mapTypeForReturn (node : TypeNode) (g : t) : string * t :=
  mapType node g.

(* ------------------------------------------------------------------ *)
(** ** Utility *)

(** The entries of the static map [reserved] of [sanitizeIdentifier]. *)
Definition reserved : list (string * string) :=
  [ ("class", "class_"); ("struct", "struct_"); ("union", "union_");
    ("enum", "enum_"); ("template", "template_"); ("typename", "typename_");
    ("virtual", "virtual_"); ("public", "public_"); ("private", "private_");
    ("protected", "protected_"); ("friend", "friend_");
    ("namespace", "namespace_"); ("using", "using_"); ("try", "try_");
    ("catch", "catch_"); ("throw", "throw_"); ("new", "new_");
    ("delete", "delete_"); ("this", "this_"); ("operator", "operator_");
    ("sizeof", "sizeof_"); ("alignof", "alignof_"); ("decltype", "decltype_");
    ("nullptr", "nullptr_"); ("constexpr", "constexpr_");
    ("static_cast", "static_cast_"); ("dynamic_cast", "dynamic_cast_");
    ("const_cast", "const_cast_"); ("reinterpret_cast", "reinterpret_cast_") ].

(** [Cpp11Generator::sanitizeIdentifier]; the keys of [reserved] are
    distinct, so [find] on the list is [find] on the map. *)
Definition sanitizeIdentifier (name : string) : string :=
  match List.find (fun entry => String.eqb (fst entry) name) reserved with
  | Some entry => snd entry
  | None => name
  end.

(** [Cpp11Generator::makeIncludeGuard]. *)
Definition makeIncludeGuard (g : t) (filename : string) : string :=
  let guard := "IBORB_GENERATED_" in
  let guard :=
    if String.eqb (namespacePrefix (config_ g)) "" then guard
    else guard +:+ string_map toupper (namespacePrefix (config_ g)) +:+ "_" in
  let guard :=
    guard +:+ string_map (fun c => if isalnum c then toupper c else "_"%char)
                filename in
  guard +:+ "_HPP".

(** [Cpp11Generator::addError]. *)
Definition addError (msg : string) (g : t) : t :=
  mk (config_ g) (header_ g) (source_ g) (headerContent_ g) (sourceContent_ g)
    (errors_ g ++ [msg]) (indentLevel_ g) (namespaceStack_ g)
    (currentTypeName_ g) (inInterfaceDecl_ g).

(* ------------------------------------------------------------------ *)
(** ** Code generation helpers *)

(** [if (config_.addDoxygen)] around three comment lines. *)
Definition doxygenBrief (brief : string) (g : t) : t :=
  if addDoxygen (config_ g) then
    writeHeaderLine " */" (writeHeaderLine brief (writeHeaderLine "/**" g))
  else g.

(** [Cpp11Generator::generateIncludeGuardBegin]. *)
Definition generateIncludeGuardBegin (filename : string) (g : t) : t :=
  let guard := makeIncludeGuard g filename in
  writeHeaderLine ""
    (writeHeaderLine ("#define " +:+ guard)
       (writeHeaderLine ("#ifndef " +:+ guard) g)).

(** [Cpp11Generator::generateIncludeGuardEnd]. *)
Definition generateIncludeGuardEnd (g : t) : t :=
  writeHeaderLine "#endif // Include guard" (writeHeaderLine "" g).

(** [Cpp11Generator::generateIncludes]. *)
Definition generateIncludes (g : t) : t :=
  fold_left (fun g line => writeHeaderLine line g)
    [ "#include <cstdint>"; "#include <string>"; "#include <vector>";
      "#include <array>"; "#include <memory>"; "#include <stdexcept>" ] g.

(** [Cpp11Generator::generateNamespaceBegin]. *)
Definition generateNamespaceBegin (name : string) (g : t) : t :=
  let g := writeHeaderLine "" g in
  let g := writeHeaderLine ("namespace " +:+ name +:+ " {") g in
  let g := writeHeaderLine "" g in
  let g := setNamespaceStack (namespaceStack_ g ++ [name]) g in
  if generateImplementation (config_ g) then
    writeSourceLine ""
      (writeSourceLine ("namespace " +:+ name +:+ " {") (writeSourceLine "" g))
  else g.

(** [Cpp11Generator::generateNamespaceEnd]. *)
Definition generateNamespaceEnd (g : t) : t :=
  match namespaceStack_ g with
  | [] => g
  | _ :: _ =>
      let back := List.last (namespaceStack_ g) "" in
      let g := writeHeaderLine "" g in
      let g := writeHeaderLine ("} // namespace " +:+ back) g in
      let g :=
        if generateImplementation (config_ g) then
          writeSourceLine ("} // namespace " +:+ back) (writeSourceLine "" g)
        else g in
      setNamespaceStack (removelast (namespaceStack_ g)) g
  end.

(** The loop over the members of [generateStruct] and of
    [generateException] that declares the fields. *)
Definition declareMembers (members : list StructMemberNode) (g : t) : t :=
  fold_left
    (fun g member =>
       let '(type, g) := mapType (member_type member) g in
       writeHeaderLine (type +:+ " " +:+ member_name member +:+ ";") g)
    members g.

(** The loop of [generateStruct] that builds [comparison]. *)
Fixpoint comparisonLoop (i : nat) (members : list StructMemberNode)
    (comparison : string) : string :=
  match members with
  | [] => comparison
  | member :: rest =>
      comparisonLoop (S i) rest
        ((if Nat.ltb 0 i then comparison +:+ " && " else comparison)
         +:+ member_name member +:+ " == other." +:+ member_name member)
  end.

(** [Cpp11Generator::generateStruct] on a [StructNode] with these [name]
    and [members]. *)
Definition generateStruct (name : string) (members : list StructMemberNode)
    (g : t) : t :=
  let g := doxygenBrief (" * @brief IDL struct " +:+ name) g in
  let g := writeHeaderLine ("struct " +:+ name +:+ " {") g in
  let g := indent g in
  let g := declareMembers members g in
  let g := writeHeaderLine "" g in
  let g := writeHeaderLine ("bool operator==(const " +:+ name +:+ "& other) const {") g in
  let g := indent g in
  let g :=
    match members with
    | [] => writeHeaderLine "return true;" (writeHeaderLine "(void)other;" g)
    | _ :: _ =>
        writeHeaderLine ("return " +:+ comparisonLoop 0 members "" +:+ ";") g
    end in
  let g := outdent g in
  let g := writeHeaderLine "}" g in
  let g := writeHeaderLine "" g in
  let g := writeHeaderLine ("bool operator!=(const " +:+ name +:+ "& other) const {") g in
  let g := indent g in
  let g := writeHeaderLine ("return !(" +:+ "*this == other);") g in
  let g := outdent g in
  let g := writeHeaderLine "}" g in
  let g := outdent g in
  let g := writeHeaderLine "};" g in
  writeHeaderLine "" g.

(** The loop of [generateEnum] over the enumerators; [size] is
    [node.enumerators.size()]. *)
Fixpoint enumeratorLines (i size : nat) (enumerators : list string) (g : t) : t :=
  match enumerators with
  | [] => g
  | e :: rest =>
      enumeratorLines (S i) size rest
        (writeHeaderLine (if Nat.ltb i (size - 1) then e +:+ "," else e) g)
  end.

(** [Cpp11Generator::generateEnum]. *)
Definition generateEnum (name : string) (enumerators : list string) (g : t) : t :=
  let g := doxygenBrief (" * @brief IDL enum " +:+ name) g in
  let g := writeHeaderLine ("enum class " +:+ name +:+ " {") g in
  let g := indent g in
  let g := enumeratorLines 0 (length enumerators) enumerators g in
  let g := outdent g in
  let g := writeHeaderLine "};" g in
  writeHeaderLine "" g.

(** [Cpp11Generator::generateTypedef]. *)
Definition generateTypedef (originalType : TypeNode)
    (declarators : list TypedefDeclarator) (g : t) : t :=
  let '(baseType, g) := mapType originalType g in
  let g :=
    fold_left
      (fun g decl =>
         let finalType :=
           match arrayDimensions decl with
           | [] => baseType
           | _ :: _ => wrapArrays baseType (arrayDimensions decl)
           end in
         writeHeaderLine
           ("using " +:+ declarator_name decl +:+ " = " +:+ finalType +:+ ";") g)
      declarators g in
  writeHeaderLine "" g.

(** The loop of [generateException] that builds [params] and [inits]. *)
Fixpoint constructorLoop (i : nat) (members : list StructMemberNode)
    (params inits : string) (g : t) : string * string * t :=
  match members with
  | [] => (params, inits, g)
  | member :: rest =>
      let params := if Nat.ltb 0 i then params +:+ ", " else params in
      let inits := if Nat.ltb 0 i then inits +:+ ", " else inits in
      let '(type, g) := mapType (member_type member) g in
      constructorLoop (S i) rest
        (params +:+ "const " +:+ type +:+ "& " +:+ member_name member +:+ "_")
        (inits +:+ member_name member +:+ "(" +:+ member_name member +:+ "_)")
        g
  end.

(** [Cpp11Generator::generateException]. *)
Definition generateException (name : string) (members : list StructMemberNode)
    (g : t) : t :=
  let g := doxygenBrief (" * @brief IDL exception " +:+ name) g in
  let g := writeHeaderLine ("class " +:+ name +:+ " : public std::exception {") g in
  let g := writeHeaderLine "public:" g in
  let g := indent g in
  let g := declareMembers members g in
  let g := match members with [] => g | _ :: _ => writeHeaderLine "" g end in
  let g :=
    match members with
    | [] => g
    | _ :: _ =>
        let '(params, inits, g) := constructorLoop 0 members "" "" g in
        let g := writeHeaderLine (name +:+ "(" +:+ params +:+ ")") g in
        let g := writeHeaderLine ("    : " +:+ inits +:+ " {}") g in
        writeHeaderLine "" g
    end in
  let g := writeHeaderLine (name +:+ "() = default;") g in
  let g := writeHeaderLine "" g in
  let g := writeHeaderLine "const char* what() const noexcept override {" g in
  let g := indent g in
  let g := writeHeaderLine ("return " +:+ dquote +:+ name +:+ dquote +:+ ";") g in
  let g := outdent g in
  let g := writeHeaderLine "}" g in
  let g := outdent g in
  let g := writeHeaderLine "};" g in
  writeHeaderLine "" g.

(** [Cpp11Generator::generateUnion]. *)
Definition generateUnion (name : string) (discriminatorType : TypeNode)
    (cases : list UnionCaseNode) (g : t) : t :=
  let g := doxygenBrief (" * @brief IDL union " +:+ name) g in
  let '(discType, g) := mapType discriminatorType g in
  let g := writeHeaderLine ("class " +:+ name +:+ " {") g in
  let g := writeHeaderLine "public:" g in
  let g := indent g in
  let g := writeHeaderLine (discType +:+ " _d() const { return discriminator_; }") g in
  let g := writeHeaderLine ("void _d(" +:+ discType +:+ " d) { discriminator_ = d; }") g in
  let g := writeHeaderLine "" g in
  let g :=
    fold_left
      (fun g caseNode =>
         let '(type, g) := mapType (case_type caseNode) g in
         let memberName := case_name caseNode in
         let g := writeHeaderLine
                    (type +:+ " " +:+ memberName +:+ "() const { return "
                     +:+ memberName +:+ "_; }") g in
         let g := writeHeaderLine
                    ("void " +:+ memberName +:+ "(const " +:+ type
                     +:+ "& value) { " +:+ memberName +:+ "_ = value; }") g in
         writeHeaderLine "" g)
      cases g in
  let g := writeHeaderLine "private:" g in
  let g := indent g in
  let g := writeHeaderLine (discType +:+ " discriminator_;") g in
  let g :=
    fold_left
      (fun g caseNode =>
         let '(type, g) := mapType (case_type caseNode) g in
         writeHeaderLine (type +:+ " " +:+ case_name caseNode +:+ "_;") g)
      cases g in
  let g := outdent g in
  let g := outdent g in
  let g := writeHeaderLine "};" g in
  writeHeaderLine "" g.

(** The loop of [generateInterface] that builds the parameter list of
    [sig]. *)
Fixpoint signatureLoop (i : nat) (parameters : list ParameterNode)
    (sig : string) (g : t) : string * t :=
  match parameters with
  | [] => (sig, g)
  | param :: rest =>
      let sig := if Nat.ltb 0 i then sig +:+ ", " else sig in
      let '(type, g) := mapTypeForParameter (param_type param) (direction param) g in
      signatureLoop (S i) rest (sig +:+ type +:+ " " +:+ param_name param) g
  end.

(** One iteration of the loop of [generateInterface] over [node.contents]:
    the chain of [dynamic_cast]. *)
Definition generateContent (content : DefinitionNode) (g : t) : t :=
  match content with
  | OperationNode name _ _ returnType parameters _ _ =>
      let '(returnType, g) := mapTypeForReturn returnType g in
      let '(sig, g) :=
        signatureLoop 0 parameters
          ("virtual " +:+ returnType +:+ " " +:+ name +:+ "(") g in
      let sig := sig +:+ ") = 0;" in
      let g :=
        match parameters with
        | _ :: _ =>
            if addDoxygen (config_ g) then
              let g := writeHeaderLine "/**" g in
              let g := writeHeaderLine (" * @brief " +:+ name +:+ " operation") g in
              let g :=
                fold_left
                  (fun g param =>
                     let dirStr :=
                       match direction param with
                       | ParamDirection.In => "[in]"
                       | ParamDirection.Out => "[out]"
                       | ParamDirection.InOut => "[in,out]"
                       end in
                     writeHeaderLine
                       (" * @param " +:+ param_name param +:+ " " +:+ dirStr) g)
                  parameters g in
              writeHeaderLine " */" g
            else g
        | [] => g
        end in
      writeHeaderLine "" (writeHeaderLine sig g)
  | AttributeNode name _ _ type isReadonly =>
      let '(type, g) := mapType type g in
      let g := doxygenBrief (" * @brief Get " +:+ name +:+ " attribute") g in
      let g := writeHeaderLine
                 ("virtual " +:+ type +:+ " " +:+ name +:+ "() const = 0;") g in
      let g :=
        if negb isReadonly then
          let g := doxygenBrief (" * @brief Set " +:+ name +:+ " attribute") g in
          writeHeaderLine
            ("virtual void " +:+ name +:+ "(const " +:+ type +:+ "& value) = 0;") g
        else g in
      writeHeaderLine "" g
  | StructNode name _ _ members =>
      indent (generateStruct name members (writeHeaderLine "" (outdent g)))
  | EnumNode name _ _ enumerators =>
      indent (generateEnum name enumerators (writeHeaderLine "" (outdent g)))
  | _ => g
  end.

(** The loop of [generateInterface] that builds the base list of [decl]. *)
Fixpoint basesLoop (i : nat) (baseInterfaces : list string) (decl : string)
    : string :=
  match baseInterfaces with
  | [] => decl
  | base :: rest =>
      basesLoop (S i) rest
        ((if Nat.ltb 0 i then decl +:+ ", " else decl)
         +:+ "public virtual " +:+ base)
  end.

(** [Cpp11Generator::generateInterface]. *)
Definition generateInterface (name : string) (baseInterfaces : list string)
    (contents : list DefinitionNode) (isAbstract : bool) (g : t) : t :=
  let g :=
    if addDoxygen (config_ g) then
      let g := writeHeaderLine "/**" g in
      let g := writeHeaderLine (" * @brief IDL interface " +:+ name) g in
      let g := if isAbstract
               then writeHeaderLine " * @note This is an abstract interface" g
               else g in
      writeHeaderLine " */" g
    else g in
  let decl := "class " +:+ name in
  let decl :=
    match baseInterfaces with
    | [] => decl
    | _ :: _ => basesLoop 0 baseInterfaces (decl +:+ " : ")
    end in
  let g := writeHeaderLine (decl +:+ " {") g in
  let g := writeHeaderLine "public:" g in
  let g := indent g in
  let g := writeHeaderLine ("virtual ~" +:+ name +:+ "() = default;") g in
  let g := writeHeaderLine "" g in
  let g := setInInterfaceDecl true g in
  let g := fold_left (fun g content => generateContent content g) contents g in
  let g := setInInterfaceDecl false g in
  let g := outdent g in
  let g := writeHeaderLine "};" g in
  let g := writeHeaderLine "" g in
  if useSmartPointers (config_ g) then
    writeHeaderLine ""
      (writeHeaderLine
         ("using " +:+ name +:+ "Ptr = std::shared_ptr<" +:+ name +:+ ">;") g)
  else g.

Section Library.

(** [oss << std::setprecision(17) << d]: the text the stream library
    prints for a [double]. *)
Variable formatDouble : float -> string.

(** [std::filesystem::path(file).stem().string()]. *)
Variable stem : string -> string.

(** [Cpp11Generator::constValueToString]. *)
Definition constValueToString (value : ConstValue) : string :=
  match value with
  | CInt64 i => to_string i
  | CUInt64 u => to_string u +:+ "ULL"
  | CDouble d => formatDouble d
  | CString s => dquote +:+ s +:+ dquote
  | CBool b => if b then "true" else "false"
  end.

(** [Cpp11Generator::generateConst]. *)
Definition generateConst (name : string) (type : TypeNode) (value : ConstValue)
    (g : t) : t :=
  let '(type, g) := mapType type g in
  let value := constValueToString value in
  let g := writeHeaderLine
             ("constexpr " +:+ type +:+ " " +:+ name +:+ " = " +:+ value +:+ ";") g in
  writeHeaderLine "" g.

(** The [visit] overloads of the definition nodes, reached through
    [accept]. *)
Fixpoint visit (node : DefinitionNode) (g : t) : t :=
  match node with
  | ModuleNode name _ _ definitions =>
      let g := generateNamespaceBegin name g in
      let g := fold_left (fun g def => visit def g) definitions g in
      generateNamespaceEnd g
  | InterfaceNode name _ _ baseInterfaces contents isAbstract _ isForward =>
      if isForward then
        writeHeaderLine "" (writeHeaderLine ("class " +:+ name +:+ ";") g)
      else generateInterface name baseInterfaces contents isAbstract g
  | OperationNode _ _ _ _ _ _ _ => g
  | AttributeNode _ _ _ _ _ => g
  | StructNode name _ _ members => generateStruct name members g
  | TypedefNode _ _ _ originalType declarators =>
      generateTypedef originalType declarators g
  | EnumNode name _ _ enumerators => generateEnum name enumerators g
  | ConstNode name _ _ type value => generateConst name type value g
  | ExceptionNode name _ _ members => generateException name members g
  | UnionNode name _ _ discriminatorType cases =>
      generateUnion name discriminatorType cases g
  end.

(** The loop [for (const auto& def : unit.definitions) def->accept( *this)]
    of [generate]. *)
Definition acceptAll (definitions : list DefinitionNode) (g : t) : t :=
  fold_left (fun g def => visit def g) definitions g.

(** [Cpp11Generator::generate] up to the assignment of [headerContent_]
    and [sourceContent_]; writing the two files is outside the model. *)
Definition generate (unit : TranslationUnit) (g : t) : t :=
  let g := mk (config_ g) "" "" (headerContent_ g) (sourceContent_ g) [] 0 []
             (currentTypeName_ g) (inInterfaceDecl_ g) in
  let baseName := stem (unit_filename unit) in
  let g := if addIncludeGuards (config_ g)
           then generateIncludeGuardBegin baseName g else g in
  let g := generateIncludes g in
  let g := writeHeaderLine "" g in
  let g := acceptAll (unit_definitions unit) g in
  let g := if addIncludeGuards (config_ g) then generateIncludeGuardEnd g else g in
  mk (config_ g) (header_ g) (source_ g) (header_ g) (source_ g) (errors_ g)
    (indentLevel_ g) (namespaceStack_ g) (currentTypeName_ g)
    (inInterfaceDecl_ g).

End Library.

End Cpp11Generator.

(* ================================================================== *)
(** * Source texts as the lexer hands them to the parser *)
(* ================================================================== *)

Module Source.

(** The constructors of [Token] as [Lexer::scanToken] and its helpers call
    them: punctuation and keywords carry no value, an identifier carries
    its text, a literal its value. *)
Definition T (type : TokenType.t) (text : string) (loc : SourceLocation) : Token :=
  mkToken type NoValue text loc.
Definition Id (text : string) (loc : SourceLocation) : Token :=
  mkToken TokenType.Identifier (StringValue text) text loc.
Definition Int (value : Z) (text : string) (loc : SourceLocation) : Token :=
  mkToken TokenType.IntegerLiteral (IntValue value) text loc.
Definition Flt (value : float) (text : string) (loc : SourceLocation) : Token :=
  mkToken TokenType.FloatLiteral (DoubleValue value) text loc.

(** The tokens of a one-line source in which single blanks separate the
    lexemes: each token starts one column after the blank that follows its
    predecessor. *)
Fixpoint place (file : string) (col : Z) (lexemes : list (SourceLocation -> Token))
    : list Token :=
  match lexemes with
  | [] => []
  | mkTok :: rest =>
      let tok := mkTok (mkLoc file 1 col) in
      tok :: place file (col + Z.of_nat (String.length (text tok)) + 1) rest
  end.

(** The text of that source. *)
Definition textOf (lexemes : list (SourceLocation -> Token)) : string :=
  String.concat " " (map (fun mkTok => text (mkTok defaultLoc)) lexemes).

(** The lexer over that source, and the parser constructed on it. *)
Definition lexer (lexemes : list (SourceLocation -> Token)) : Lexer :=
  mkLexer (map (fun tok => (tok, [])) (place "<input>" 1 lexemes)) []
    (mkLoc "<input>" 1 (Z.of_nat (String.length (textOf lexemes)) + 1)).

Definition parser (lexemes : list (SourceLocation -> Token)) : Parser :=
  Parser.new (lexer lexemes).

(** [module M { const long C = 1 + 2 * 3 ; } ;] *)
Definition moduleWithConst : list (SourceLocation -> Token) :=
  [ T TokenType.KwModule "module"; Id "M"; T TokenType.LeftBrace "{";
    T TokenType.KwConst "const"; T TokenType.KwLong "long"; Id "C";
    T TokenType.Equals "="; Int 1 "1"; T TokenType.Plus "+"; Int 2 "2";
    T TokenType.Star "*"; Int 3 "3"; T TokenType.Semicolon ";";
    T TokenType.RightBrace "}"; T TokenType.Semicolon ";" ].

End Source.

(* ================================================================== *)
(** * Vocabulary of the properties *)
(* ================================================================== *)

(** The scope behind [currentScope_] exists. *)
Definition ptr_valid (t : SymbolTable) : Prop :=
  is_Some (Scope.deref (globalScope_ t) (currentScope_ t)).

(** ** The resolution of a scoped name, as the design document words it *)

Module LookupSpec.

(** The definitions of this module are written from the words of the
    design document over the data of the scopes (the map [symbols], the
    list [children]), not over the member functions of [Scope] and
    [SymbolTable] that the code calls. *)

(** The child scope of [s] named [n]: of the children of [s], in the
    order in which they were created, the first with that name. *)
Definition childNamed (s : Scope) (n : string) : option Scope :=
  List.find (fun c => String.eqb (scope_name c) n) (children s).

(** The symbol that [s] itself has under the name [n]. *)
Definition symbolNamed (s : Scope) (n : string) : option Symbol :=
  symbols s !! n.

Definition hasChild (n : string) (s : Scope) : bool :=
  match childNamed s n with Some _ => true | None => false end.

Definition hasSymbol (n : string) (s : Scope) : bool :=
  match symbolNamed s n with Some _ => true | None => false end.

(** Walk all parts but the last as child scopes from [s], then look the
    last part up locally. *)
Fixpoint resolveFrom (s : Scope) (parts : list string) : option Symbol :=
  match parts with
  | [] => None
  | [lastPart] => symbolNamed s lastPart
  | part :: rest =>
      match childNamed s part with
      | Some child => resolveFrom child rest
      | None => None
      end
  end.

(** The scopes on the way from the scope at [p] to the global scope, the
    scope at [p] first. *)
Fixpoint ancestors (g : Scope) (p : ScopePtr) : list Scope :=
  match Scope.deref g p with
  | None => []
  | Some s =>
      s :: match p with
           | [] => []
           | _ :: parent => ancestors g parent
           end
  end.

(** The first of them that satisfies [test]. *)
Definition firstAncestor (g : Scope) (p : ScopePtr) (test : Scope -> bool)
    : option Scope :=
  List.find test (ancestors g p).

(** The resolution as the design document words it.  Absolute: from the
    global scope.  Relative: the first ancestor that has a child scope
    named after the first part or, when there is one part only, a local
    symbol of that name; a single part is looked up locally in that
    ancestor, and with several parts the parts behind the first are
    resolved from its child scope named after the first. *)
Definition asWorded (t : SymbolTable) (parts : list string)
    (isAbsolute : bool) : option Symbol :=
  if isAbsolute then resolveFrom (globalScope_ t) parts
  else
    match parts with
    | [] => None
    | part0 :: rest =>
        let onePart := match rest with [] => true | _ :: _ => false end in
        match firstAncestor (globalScope_ t) (currentScope_ t)
                (fun s => hasChild part0 s || (onePart && hasSymbol part0 s)) with
        | None => None
        | Some ancestor =>
            match rest with
            | [] => symbolNamed ancestor part0
            | _ :: _ =>
                match childNamed ancestor part0 with
                | Some anchor => resolveFrom anchor rest
                | None => None
                end
            end
        end
    end.

(** The resolution with the one-part case as the code has it.  Absolute:
    from the global scope.  Relative with one part: the first ancestor
    with a local symbol of that name gives the symbol, whatever child
    scopes the scopes on the way have.  Relative with several parts: the
    first ancestor with a child scope named after the first part; from
    that child the remaining parts are resolved. *)
Definition lookupScoped (t : SymbolTable) (parts : list string)
    (isAbsolute : bool) : option Symbol :=
  if isAbsolute then resolveFrom (globalScope_ t) parts
  else
    match parts with
    | [] => None
    | [part0] =>
        match firstAncestor (globalScope_ t) (currentScope_ t) (hasSymbol part0) with
        | Some anchor => symbolNamed anchor part0
        | None => None
        end
    | part0 :: rest =>
        match firstAncestor (globalScope_ t) (currentScope_ t) (hasChild part0) with
        | Some ancestor =>
            match childNamed ancestor part0 with
            | Some anchor => resolveFrom anchor rest
            | None => None
            end
        | None => None
        end
    end.

(** Every child scope is named after a symbol of its parent: the scopes
    of a table on which each [enterScope(name)] follows an
    [addSymbol(name, ...)] made in the same scope. *)
Inductive declared : Scope -> Prop :=
| declared_scope (s : Scope) :
    Forall (fun c => is_Some (symbols s !! scope_name c) /\ declared c)
      (children s) ->
    declared s.

End LookupSpec.

(** ** Parsers over such tables *)

Module Declared.

(** The current scope of the parser exists and every child scope of its
    symbol table is named after a symbol of its parent. *)
Definition holds (p : Parser) : Prop :=
  ptr_valid (symbolTable_ p) /\
  LookupSpec.declared (globalScope_ (symbolTable_ p)).

(** A parsing function that, started on such a parser, returns one. *)
Definition preserves {A} (m : M A) : Prop :=
  forall p, holds p -> match m p with Ret _ p' => holds p' | _ => True end.

End Declared.

(** ** Error recovery *)

Module Recovery.

(** The member functions through which parser.cpp changes a [Parser]
    outside [synchronize]; every other function of the parser is a
    composition of these and of [synchronize]. *)
Inductive Action :=
| Advance
| ErrorAt (token : Token) (msg : string)
| Warning (msg : string)
| OnSymbolTable (f : SymbolTable -> SymbolTable).

Definition step (a : Action) (p : Parser) : Parser :=
  match a with
  | Advance => Parser.advance p
  | ErrorAt token msg => Parser.errorAt token msg p
  | Warning msg => Parser.warning msg p
  | OnSymbolTable f => Parser.withSymbolTable f p
  end.

Definition run (actions : list Action) (p : Parser) : Parser :=
  fold_left (fun p a => step a p) actions p.

(** The actions that are error reports. *)
Definition isReport (a : Action) : bool :=
  match a with ErrorAt _ _ => true | _ => false end.

Definition withoutReports (actions : list Action) : list Action :=
  List.filter (fun a => negb (isReport a)) actions.

(** The places where [synchronize] stops: at the end of the input, behind
    a [;], behind a [}], or in front of a token that opens a definition. *)
Definition synchronized (p : Parser) : bool :=
  Parser.check TokenType.Eof p
  || Parser.check_type TokenType.Semicolon (previousToken_ p)
  || Parser.check_type TokenType.RightBrace (previousToken_ p)
  || Parser.isDefinitionStart p.

(** The tokens that open a definition. *)
Definition definitionOpeners : list TokenType.t :=
  [ TokenType.KwModule; TokenType.KwInterface; TokenType.KwStruct;
    TokenType.KwUnion; TokenType.KwEnum; TokenType.KwTypedef;
    TokenType.KwConst; TokenType.KwException; TokenType.KwAbstract;
    TokenType.KwLocal ].

(** The parser with [panicMode_] cleared. *)
Definition calm (p : Parser) : Parser :=
  mkParser (lexer_ p) (currentToken_ p) (previousToken_ p) (errors_ p)
    (symbolTable_ p) (hadError_ p) false.

(** The [;] taken behind a [}] where [synchronize] stops there. *)
Definition closing (p : Parser) : Parser :=
  if negb (Parser.check TokenType.Eof p)
     && negb (Parser.check_type TokenType.Semicolon (previousToken_ p))
     && Parser.check_type TokenType.RightBrace (previousToken_ p)
     && Parser.check TokenType.Semicolon p
  then Parser.advance p else p.

End Recovery.

(** ** Constant folding *)

Module Folding.

(** [std::variant::index] of a [ConstValue]. *)
Definition index (v : ConstValue) : nat :=
  match v with
  | CInt64 _ => 0 | CUInt64 _ => 1 | CDouble _ => 2 | CString _ => 3
  | CBool _ => 4
  end.

Definition bothInt64 (l r : ConstValue) : Prop :=
  exists a b, l = CInt64 a /\ r = CInt64 b.

Definition bothDouble (l r : ConstValue) : Prop :=
  exists a b, l = CDouble a /\ r = CDouble b.

(** The operands to which [+], [-], [*] and [/] apply. *)
Definition sameArithmeticType (l r : ConstValue) : Prop :=
  bothInt64 l r \/ bothDouble l r.

(** A folded operand that is a numeric zero. *)
Definition isZero (v : ConstValue) : bool :=
  match v with
  | CInt64 z | CUInt64 z => Z.eqb z 0
  | CDouble d => PrimFloat.eqb d 0%float
  | _ => false
  end.

(** Position of an enumerator among the enumerators of its enum. *)
Fixpoint ordinal (enumerator : string) (enumerators : list string) : option Z :=
  match enumerators with
  | [] => None
  | e :: rest =>
      if String.eqb e enumerator then Some 0%Z
      else option_map Z.succ (ordinal enumerator rest)
  end.

End Folding.

(** ** Generated text *)

Module TypedefSpec.

(** [std::array] templates nested with the first dimension outermost and
    the last dimension innermost. *)
Fixpoint nestedArrays (mapped : string) (dimensions : list Z) : string :=
  match dimensions with
  | [] => mapped
  | d :: rest =>
      "std::array<" +:+ nestedArrays mapped rest +:+ ", " +:+ to_string d +:+ ">"
  end.

(** The alias line of one declarator. *)
Definition aliasLine (indentation mapped : string) (decl : TypedefDeclarator)
    : string :=
  indentation +:+ "using " +:+ declarator_name decl +:+ " = "
  +:+ nestedArrays mapped (arrayDimensions decl) +:+ ";" +:+ newline.

(** The body of the declarator loop of [generateTypedef]. *)
Definition aliasStep (mapped : string) (g : Cpp11Generator.t)
    (decl : TypedefDeclarator) : Cpp11Generator.t :=
  let finalType :=
    match arrayDimensions decl with
    | [] => mapped
    | _ :: _ => Cpp11Generator.wrapArrays mapped (arrayDimensions decl)
    end in
  Cpp11Generator.writeHeaderLine
    ("using " +:+ declarator_name decl +:+ " = " +:+ finalType +:+ ";") g.

End TypedefSpec.

Module Text.

(** Whether [s] starts with [prefix]. *)
Fixpoint startsWith (prefix s : string) : bool :=
  match prefix, s with
  | EmptyString, _ => true
  | String a prefix', String b s' => Ascii.eqb a b && startsWith prefix' s'
  | String _ _, EmptyString => false
  end.

(** Whether [needle] occurs in [s]. *)
Fixpoint contains (needle s : string) : bool :=
  startsWith needle s
  || match s with
     | EmptyString => false
     | String _ s' => contains needle s'
     end.

End Text.

(** ** Names and the calls on the symbol table *)

Module Names.

(** [Lexer::isAlpha], [Lexer::isDigit], [Lexer::isIdentifierStart] and
    [Lexer::isIdentifierChar] of lexer.cpp. *)
Definition isAlpha (c : ascii) : bool :=
  let n := nat_of_ascii c in
  (Nat.leb 97 n && Nat.leb n 122) || (Nat.leb 65 n && Nat.leb n 90).

Definition isDigit (c : ascii) : bool :=
  let n := nat_of_ascii c in Nat.leb 48 n && Nat.leb n 57.

Definition isIdentifierStart (c : ascii) : bool := isAlpha c || Ascii.eqb c "_".

Definition isIdentifierChar (c : ascii) : bool :=
  isAlpha c || isDigit c || Ascii.eqb c "_".

Fixpoint allChars (f : ascii -> bool) (s : string) : bool :=
  match s with
  | EmptyString => true
  | String c rest => f c && allChars f rest
  end.

(** The texts that [Lexer::scanIdentifierOrKeyword] collects: a start
    character and identifier characters. *)
Definition isIdentifier (s : string) : bool :=
  match s with
  | EmptyString => false
  | String c rest => isIdentifierStart c && allChars isIdentifierChar rest
  end.

(** The name a scope gives to [name]: what [Scope::Scope] and
    [buildFullyQualifiedName] compute from the fully qualified name of the
    enclosing scope. *)
Definition qualify (scopeFqn name : string) : string :=
  if String.eqb scopeFqn "" then name else scopeFqn +:+ "::" +:+ name.

(** The parts of a qualified name joined by [::]. *)
Definition joined (parts : list string) : string := String.concat "::" parts.

End Names.

Module Table.

(** The calls that parser.cpp makes on its symbol table. *)
Inductive Op :=
| Enter (name : string)
| Leave
| Add (name : string) (kind : SymbolKind.t) (node : option NodePtr).

Definition perform (op : Op) (t : SymbolTable) : SymbolTable :=
  match op with
  | Enter name => SymbolTable.enterScope t name
  | Leave => SymbolTable.leaveScope t
  | Add name kind node => snd (SymbolTable.addSymbol t name kind node)
  end.

Definition performAll (ops : list Op) (t : SymbolTable) : SymbolTable :=
  fold_left (fun t op => perform op t) ops t.

(** The name passed is the text of an identifier. *)
Definition named (op : Op) : bool :=
  match op with
  | Enter name | Add name _ _ => Names.isIdentifier name
  | Leave => true
  end.

(** [x] is in the symbol map of some scope of the table. *)
Definition recorded (t : SymbolTable) (x : Symbol) : Prop :=
  exists down s k,
    Scope.descend (globalScope_ t) down = Some s /\ symbols s !! k = Some x.

(** The scopes as the parser builds them: symbols are stored under their
    name, an identifier, with the fully qualified name their scope gives
    them; sibling scopes have different names, identifiers too, and the
    fully qualified names their parent gives them. *)
Inductive wf : Scope -> Prop :=
| wf_scope (s : Scope) :
    (forall k x, symbols s !! k = Some x ->
       Names.isIdentifier k = true /\ sym_name x = k /\
       sym_fullyQualifiedName x = Names.qualify (scope_fullyQualifiedName s) k) ->
    NoDup (map scope_name (children s)) ->
    Forall (fun c =>
              Names.isIdentifier (scope_name c) = true /\
              scope_fullyQualifiedName c
              = Names.qualify (scope_fullyQualifiedName s) (scope_name c) /\
              wf c) (children s) ->
    wf s.

(** The invariant of the symbol table of the parser. *)
Definition inv (t : SymbolTable) : Prop :=
  wf (globalScope_ t) /\
  scope_fullyQualifiedName (globalScope_ t) = "" /\
  ptr_valid t.

(** The calls in the groups in which parser.cpp makes them.  A definition
    without a scope of its own is one [addSymbol]; a module, interface,
    struct, union or exception with a body is the [addSymbol] of its name
    followed by the [enterScope] of the same name ([parseModule],
    [parseInterface], [parseStruct], [parseUnion], [parseException]); the
    end of the body is a [leaveScope]. *)
Inductive Call :=
| Plain (name : string) (kind : SymbolKind.t) (node : option NodePtr)
| Body (name : string) (kind : SymbolKind.t) (node : option NodePtr)
| BodyEnd.

Definition opsOf (c : Call) : list Op :=
  match c with
  | Plain name kind node => [Add name kind node]
  | Body name kind node => [Add name kind node; Enter name]
  | BodyEnd => [Leave]
  end.

Definition calls (cs : list Call) : list Op := concat (map opsOf cs).

(** The calls of the parser up to the inside of [N] in
    [module M { const long C = 7 ; module N { const long D = 8 ; } ; } ;],
    and the table there. *)
Definition nestedCalls : list Call :=
  [ Body "M" SymbolKind.Module_ None;
    Plain "C" SymbolKind.Constant (Some (ToConstNode (CInt64 7)));
    Body "N" SymbolKind.Module_ None;
    Plain "D" SymbolKind.Constant (Some (ToConstNode (CInt64 8))) ].

Definition nested : SymbolTable := performAll (calls nestedCalls) SymbolTable.init.

(** A table that the member functions of [SymbolTable] build, though not
    in the groups above: [addSymbol("X", Constant)], [enterScope("M")],
    [enterScope("X")], [leaveScope()].  The global scope has a symbol [X];
    the current scope [M] has a child scope [X] and no symbol [X]. *)
Definition shadowed : SymbolTable :=
  performAll
    [ Add "X" SymbolKind.Constant (Some (ToConstNode (CInt64 5)));
      Enter "M"; Enter "X"; Leave ]
    SymbolTable.init.

End Table.

(** The type of the member that [parseStructMember] builds from a
    declarator. *)
Definition memberTypeOf (type : TypeNode) (decl : Parser.Declarator)
    (loc : SourceLocation) : TypeNode :=
  match Parser.decl_arrayDimensions decl with
  | [] => type
  | _ :: _ => ArrayTypeNode type (Parser.decl_arrayDimensions decl) loc
  end.

(** ** Source texts used below *)

Module Examples.
Import Source.

(** [const double X = 1.0 / 0.0 ;] *)
Definition doubleDivisionByZero : list (SourceLocation -> Token) :=
  [ T TokenType.KwConst "const"; T TokenType.KwDouble "double"; Id "X";
    T TokenType.Equals "="; Flt 1%float "1.0"; T TokenType.Slash "/";
    Flt 0%float "0.0"; T TokenType.Semicolon ";" ].

(** [const long X = 7 / 0 ;] *)
Definition integerDivisionByZero : list (SourceLocation -> Token) :=
  [ T TokenType.KwConst "const"; T TokenType.KwLong "long"; Id "X";
    T TokenType.Equals "="; Int 7 "7"; T TokenType.Slash "/";
    Int 0 "0"; T TokenType.Semicolon ";" ].

(** [7 / 0 ;] and [1 + 2.5 ;] *)
Definition quotientByZero : list (SourceLocation -> Token) :=
  [ Int 7 "7"; T TokenType.Slash "/"; Int 0 "0"; T TokenType.Semicolon ";" ].

Definition mixedSum : list (SourceLocation -> Token) :=
  [ Int 1 "1"; T TokenType.Plus "+"; Flt 2.5%float "2.5";
    T TokenType.Semicolon ";" ].

(** [7 / 0.0 ;] and [2.5 % 0 ;] *)
Definition quotientByFloatingZero : list (SourceLocation -> Token) :=
  [ Int 7 "7"; T TokenType.Slash "/"; Flt 0%float "0.0";
    T TokenType.Semicolon ";" ].

Definition floatingModuloZero : list (SourceLocation -> Token) :=
  [ Flt 2.5%float "2.5"; T TokenType.Percent "%"; Int 0 "0";
    T TokenType.Semicolon ";" ].

(** [( - 9223372036854775807 - 1 ) / - 1 ;] *)
Definition quotientOverflow : list (SourceLocation -> Token) :=
  [ T TokenType.LeftParen "("; T TokenType.Minus "-";
    Int 9223372036854775807 "9223372036854775807"; T TokenType.Minus "-";
    Int 1 "1"; T TokenType.RightParen ")"; T TokenType.Slash "/";
    T TokenType.Minus "-"; Int 1 "1"; T TokenType.Semicolon ";" ].

(** [enum Color { RED , GREEN } ; const long C = GREEN ;] *)
Definition enumConstant : list (SourceLocation -> Token) :=
  [ T TokenType.KwEnum "enum"; Id "Color"; T TokenType.LeftBrace "{";
    Id "RED"; T TokenType.Comma ","; Id "GREEN"; T TokenType.RightBrace "}";
    T TokenType.Semicolon ";";
    T TokenType.KwConst "const"; T TokenType.KwLong "long"; Id "C";
    T TokenType.Equals "="; Id "GREEN"; T TokenType.Semicolon ";" ].

(** [module M { const long C = 7 ; module N { const long D = 8 ; } ; } ;] *)
Definition nestedModules : list (SourceLocation -> Token) :=
  [ T TokenType.KwModule "module"; Id "M"; T TokenType.LeftBrace "{";
    T TokenType.KwConst "const"; T TokenType.KwLong "long"; Id "C";
    T TokenType.Equals "="; Int 7 "7"; T TokenType.Semicolon ";";
    T TokenType.KwModule "module"; Id "N"; T TokenType.LeftBrace "{";
    T TokenType.KwConst "const"; T TokenType.KwLong "long"; Id "D";
    T TokenType.Equals "="; Int 8 "8"; T TokenType.Semicolon ";";
    T TokenType.RightBrace "}"; T TokenType.Semicolon ";";
    T TokenType.RightBrace "}"; T TokenType.Semicolon ";" ].

(** [typedef octet UUID [ 16 ] ;] *)
Definition uuidTypedef : list (SourceLocation -> Token) :=
  [ T TokenType.KwTypedef "typedef"; T TokenType.KwOctet "octet"; Id "UUID";
    T TokenType.LeftBracket "["; Int 16 "16"; T TokenType.RightBracket "]";
    T TokenType.Semicolon ";" ].

(** [long first , second ;] *)
Definition memberTwoDeclarators : list (SourceLocation -> Token) :=
  [ T TokenType.KwLong "long"; Id "first"; T TokenType.Comma ",";
    Id "second"; T TokenType.Semicolon ";" ].

(** [struct S { long first , second ; } ;] *)
Definition structTwoDeclarators : list (SourceLocation -> Token) :=
  [ T TokenType.KwStruct "struct"; Id "S"; T TokenType.LeftBrace "{" ]
  ++ memberTwoDeclarators
  ++ [ T TokenType.RightBrace "}"; T TokenType.Semicolon ";" ].

(** [struct S { long class ; } ;] *)
Definition structReservedMember : list (SourceLocation -> Token) :=
  [ T TokenType.KwStruct "struct"; Id "S"; T TokenType.LeftBrace "{";
    T TokenType.KwLong "long"; Id "class"; T TokenType.Semicolon ";";
    T TokenType.RightBrace "}"; T TokenType.Semicolon ";" ].

(** [typedef long ;] *)
Definition typedefWithoutName : list (SourceLocation -> Token) :=
  [ T TokenType.KwTypedef "typedef"; T TokenType.KwLong "long";
    T TokenType.Semicolon ";" ].

(** [module M { typedef long ; } ;] *)
Definition typedefWithoutNameInModule : list (SourceLocation -> Token) :=
  [ T TokenType.KwModule "module"; Id "M"; T TokenType.LeftBrace "{" ]
  ++ typedefWithoutName
  ++ [ T TokenType.RightBrace "}"; T TokenType.Semicolon ";" ].

(** [long x ; x y] with the parser in front of [x y]: an error is
    reported there, and recovery starts behind the [;]. *)
Definition strayIdentifiers : list (SourceLocation -> Token) :=
  [ Id "x"; Id "y"; T TokenType.RightBrace "}"; T TokenType.Semicolon ";";
    T TokenType.KwStruct "struct" ].

End Examples.

(* ================================================================== *)
(** * lexer/lexer.cpp *)
(* ================================================================== *)

(** The characters that lexer.cpp names. *)
Module Char.
Definition nul : ascii := ascii_of_nat 0.
Definition tab : ascii := ascii_of_nat 9.
Definition lf : ascii := ascii_of_nat 10.
Definition cr : ascii := ascii_of_nat 13.
Definition quote : ascii := ascii_of_nat 34.
Definition apostrophe : ascii := ascii_of_nat 39.
Definition backslash : ascii := ascii_of_nat 92.
(** [std::string(1, c)]. *)
Definition str (c : ascii) : string := String c EmptyString.
End Char.

(** The exceptions of [std::stoll], [std::stoull], [std::stoi] and
    [std::stod]. *)
Inductive Exception :=
| InvalidArgument (what : string)
| OutOfRange (what : string).

(** ** The conversions of <string> *)

Module Conversion.

(** The value of [c] as a digit in [base], if it is one. *)
Definition digitOf (base : Z) (c : ascii) : option Z :=
  let n := Z.of_nat (nat_of_ascii c) in
  let value :=
    if (48 <=? n)%Z && (n <=? 57)%Z then Some (n - 48)%Z
    else if (97 <=? n)%Z && (n <=? 122)%Z then Some (n - 87)%Z
    else if (65 <=? n)%Z && (n <=? 90)%Z then Some (n - 55)%Z
    else None in
  match value with
  | Some d => if (d <? base)%Z then Some d else None
  | None => None
  end.

(** The number that the longest run of digits at the start of [s]
    denotes, after [acc]. *)
Fixpoint digitsValue (base : Z) (acc : Z) (s : string) : Z :=
  match s with
  | EmptyString => acc
  | String c rest =>
      match digitOf base c with
      | Some d => digitsValue base (acc * base + d) rest
      | None => acc
      end
  end.

(** The subject sequence of [strtoll] in a text that starts with neither
    white space nor a sign, which is all that lexer.cpp passes: in base 16
    a prefix [0x] or [0X] in front of a hexadecimal digit is skipped. *)
Definition subject (base : Z) (str : string) : string :=
  match str with
  | String z (String x (String h rest)) =>
      if (base =? 16)%Z && Ascii.eqb z "0"
         && (Ascii.eqb x "x" || Ascii.eqb x "X")
         && match digitOf 16 h with Some _ => true | None => false end
      then String h rest
      else str
  | _ => str
  end.

(** The conversion to an integer of at most [max]: [std::invalid_argument]
    without a digit, [std::out_of_range] beyond [max]. *)
Definition convert (what : string) (max : Z) (str : string) (base : Z)
    : Exception + Z :=
  match subject base str with
  | EmptyString => inl (InvalidArgument what)
  | String c _ =>
      match digitOf base c with
      | None => inl (InvalidArgument what)
      | Some _ =>
          let value := digitsValue base 0 (subject base str) in
          if (value <=? max)%Z then inr value else inl (OutOfRange what)
      end
  end.

(** [std::stoll(str, nullptr, base)], [std::stoull(str)] and
    [std::stoi(str, nullptr, base)]. *)
Definition stoll (str : string) (base : Z) : Exception + Z :=
  convert "stoll" (2 ^ 63 - 1) str base.
Definition stoull (str : string) : Exception + Z :=
  convert "stoull" (2 ^ 64 - 1) str 10.
Definition stoi (str : string) (base : Z) : Exception + Z :=
  convert "stoi" (2 ^ 31 - 1) str base.

End Conversion.

(** ** Token methods and the names of the token types *)

Module TokenKind.

(** The value of an enumerator of [TokenType]. *)
Definition ord (type : TokenType.t) : Z :=
  match type with
  | TokenType.Eof => 0
  | TokenType.Identifier => 1 | TokenType.IntegerLiteral => 2
  | TokenType.FloatLiteral => 3 | TokenType.StringLiteral => 4
  | TokenType.CharLiteral => 5 | TokenType.WideStringLiteral => 6
  | TokenType.WideCharLiteral => 7
  | TokenType.KwModule => 8 | TokenType.KwInterface => 9
  | TokenType.KwStruct => 10 | TokenType.KwUnion => 11
  | TokenType.KwSwitch => 12 | TokenType.KwCase => 13
  | TokenType.KwDefault => 14 | TokenType.KwEnum => 15
  | TokenType.KwConst => 16 | TokenType.KwTypedef => 17
  | TokenType.KwException => 18 | TokenType.KwAttribute => 19
  | TokenType.KwReadonly => 20 | TokenType.KwIn => 21
  | TokenType.KwOut => 22 | TokenType.KwInout => 23
  | TokenType.KwOneway => 24 | TokenType.KwRaises => 25
  | TokenType.KwContext => 26 | TokenType.KwSequence => 27
  | TokenType.KwString => 28 | TokenType.KwWstring => 29
  | TokenType.KwFixed => 30 | TokenType.KwAbstract => 31
  | TokenType.KwLocal => 32 | TokenType.KwNative => 33
  | TokenType.KwValuetype => 34 | TokenType.KwTruncatable => 35
  | TokenType.KwSupports => 36 | TokenType.KwPublic => 37
  | TokenType.KwPrivate => 38 | TokenType.KwFactory => 39
  | TokenType.KwCustom => 40
  | TokenType.KwVoid => 41 | TokenType.KwBoolean => 42
  | TokenType.KwChar => 43 | TokenType.KwWchar => 44
  | TokenType.KwOctet => 45 | TokenType.KwShort => 46
  | TokenType.KwLong => 47 | TokenType.KwFloat => 48
  | TokenType.KwDouble => 49 | TokenType.KwUnsigned => 50
  | TokenType.KwAny => 51 | TokenType.KwObject => 52
  | TokenType.KwTrue => 53 | TokenType.KwFalse => 54
  | TokenType.Semicolon => 55 | TokenType.Colon => 56
  | TokenType.DoubleColon => 57 | TokenType.Comma => 58
  | TokenType.LeftBrace => 59 | TokenType.RightBrace => 60
  | TokenType.LeftParen => 61 | TokenType.RightParen => 62
  | TokenType.LeftBracket => 63 | TokenType.RightBracket => 64
  | TokenType.LeftAngle => 65 | TokenType.RightAngle => 66
  | TokenType.Equals => 67 | TokenType.Plus => 68
  | TokenType.Minus => 69 | TokenType.Star => 70
  | TokenType.Slash => 71 | TokenType.Percent => 72
  | TokenType.Ampersand => 73 | TokenType.Pipe => 74
  | TokenType.Caret => 75 | TokenType.Tilde => 76
  | TokenType.LeftShift => 77 | TokenType.RightShift => 78
  | TokenType.Pragma => 79 | TokenType.LineDirective => 80
  | TokenType.Unknown => 81
  end%Z.

(** [Token::isKeyword], [Token::isLiteral] and [Token::isOperator]. *)
Definition isKeyword (tok : Token) : bool :=
  (ord TokenType.KwModule <=? ord (tok_type tok))%Z
  && (ord (tok_type tok) <=? ord TokenType.KwFalse)%Z.

Definition isLiteral (tok : Token) : bool :=
  (ord TokenType.Identifier <=? ord (tok_type tok))%Z
  && (ord (tok_type tok) <=? ord TokenType.WideCharLiteral)%Z.

Definition isOperator (tok : Token) : bool :=
  (ord TokenType.Plus <=? ord (tok_type tok))%Z
  && (ord (tok_type tok) <=? ord TokenType.RightShift)%Z.

(** [tokenTypeToString]. *)
Definition tokenTypeToString (type : TokenType.t) : string :=
  match type with
  | TokenType.Eof => "EOF"
  | TokenType.Identifier => "identifier"
  | TokenType.IntegerLiteral => "integer"
  | TokenType.FloatLiteral => "float"
  | TokenType.StringLiteral => "string"
  | TokenType.CharLiteral => "char"
  | TokenType.WideStringLiteral => "wstring"
  | TokenType.WideCharLiteral => "wchar"
  | TokenType.KwModule => "module"
  | TokenType.KwInterface => "interface"
  | TokenType.KwStruct => "struct"
  | TokenType.KwUnion => "union"
  | TokenType.KwSwitch => "switch"
  | TokenType.KwCase => "case"
  | TokenType.KwDefault => "default"
  | TokenType.KwEnum => "enum"
  | TokenType.KwConst => "const"
  | TokenType.KwTypedef => "typedef"
  | TokenType.KwException => "exception"
  | TokenType.KwAttribute => "attribute"
  | TokenType.KwReadonly => "readonly"
  | TokenType.KwIn => "in"
  | TokenType.KwOut => "out"
  | TokenType.KwInout => "inout"
  | TokenType.KwOneway => "oneway"
  | TokenType.KwRaises => "raises"
  | TokenType.KwContext => "context"
  | TokenType.KwSequence => "sequence"
  | TokenType.KwString => "string"
  | TokenType.KwWstring => "wstring"
  | TokenType.KwFixed => "fixed"
  | TokenType.KwAbstract => "abstract"
  | TokenType.KwLocal => "local"
  | TokenType.KwNative => "native"
  | TokenType.KwValuetype => "valuetype"
  | TokenType.KwTruncatable => "truncatable"
  | TokenType.KwSupports => "supports"
  | TokenType.KwPublic => "public"
  | TokenType.KwPrivate => "private"
  | TokenType.KwFactory => "factory"
  | TokenType.KwCustom => "custom"
  | TokenType.KwVoid => "void"
  | TokenType.KwBoolean => "boolean"
  | TokenType.KwChar => "char"
  | TokenType.KwWchar => "wchar"
  | TokenType.KwOctet => "octet"
  | TokenType.KwShort => "short"
  | TokenType.KwLong => "long"
  | TokenType.KwFloat => "float"
  | TokenType.KwDouble => "double"
  | TokenType.KwUnsigned => "unsigned"
  | TokenType.KwAny => "any"
  | TokenType.KwObject => "Object"
  | TokenType.KwTrue => "TRUE"
  | TokenType.KwFalse => "FALSE"
  | TokenType.Semicolon => ";"
  | TokenType.Colon => ":"
  | TokenType.DoubleColon => "::"
  | TokenType.Comma => ","
  | TokenType.LeftBrace => "{"
  | TokenType.RightBrace => "}"
  | TokenType.LeftParen => "("
  | TokenType.RightParen => ")"
  | TokenType.LeftBracket => "["
  | TokenType.RightBracket => "]"
  | TokenType.LeftAngle => "<"
  | TokenType.RightAngle => ">"
  | TokenType.Equals => "="
  | TokenType.Plus => "+"
  | TokenType.Minus => "-"
  | TokenType.Star => "*"
  | TokenType.Slash => "/"
  | TokenType.Percent => "%"
  | TokenType.Ampersand => "&"
  | TokenType.Pipe => "|"
  | TokenType.Caret => "^"
  | TokenType.Tilde => "~"
  | TokenType.LeftShift => "<<"
  | TokenType.RightShift => ">>"
  | TokenType.Pragma => "#pragma"
  | TokenType.LineDirective => "#line"
  | TokenType.Unknown => "unknown"
  end.

(** [Token::typeName] is not embedded: it returns a [std::string_view] of
    the [std::string] that [tokenTypeToString] returns, a temporary that
    is destroyed when [typeName] returns, so that what a caller reads
    through the view is not defined.  No function of the lexer, the parser
    or the generator calls it. *)

End TokenKind.

(** ** The scanner *)

(** The class [Lexer] of lexer.cpp, member function by member function.
    It is named [Scanner] here, [Lexer] above being the lexer as the
    parser reads it; [Scanner.lexer] at the end of the module makes the
    one of the other. *)
Module Scanner.

(** The data members of [Lexer]: [rest] is [source_] from [pos_] on, which
    is all of the source that the member functions read. *)
Record State := mk {
  rest : string;
  filename_ : string;
  line_ : Z;
  column_ : Z;
  lookahead_ : list Token;
  errors_ : list LexerError
}.

(** What a scanning function does: it returns, throws, or runs out of the
    fuel it was given. *)
Inductive Outcome (A : Type) :=
| Done (a : A) (st : State)
| Throws (e : Exception)
| OutOfFuel.
Arguments Done {A} a st.
Arguments Throws {A} e.
Arguments OutOfFuel {A}.

(** The static table [keywords]. *)
Definition keywords : list (string * TokenType.t) :=
  [ ("module", TokenType.KwModule); ("interface", TokenType.KwInterface);
    ("struct", TokenType.KwStruct); ("union", TokenType.KwUnion);
    ("switch", TokenType.KwSwitch); ("case", TokenType.KwCase);
    ("default", TokenType.KwDefault); ("enum", TokenType.KwEnum);
    ("const", TokenType.KwConst); ("typedef", TokenType.KwTypedef);
    ("exception", TokenType.KwException); ("attribute", TokenType.KwAttribute);
    ("readonly", TokenType.KwReadonly); ("in", TokenType.KwIn);
    ("out", TokenType.KwOut); ("inout", TokenType.KwInout);
    ("oneway", TokenType.KwOneway); ("raises", TokenType.KwRaises);
    ("context", TokenType.KwContext); ("sequence", TokenType.KwSequence);
    ("string", TokenType.KwString); ("wstring", TokenType.KwWstring);
    ("fixed", TokenType.KwFixed); ("abstract", TokenType.KwAbstract);
    ("local", TokenType.KwLocal); ("native", TokenType.KwNative);
    ("valuetype", TokenType.KwValuetype);
    ("truncatable", TokenType.KwTruncatable);
    ("supports", TokenType.KwSupports); ("public", TokenType.KwPublic);
    ("private", TokenType.KwPrivate); ("factory", TokenType.KwFactory);
    ("custom", TokenType.KwCustom); ("void", TokenType.KwVoid);
    ("boolean", TokenType.KwBoolean); ("char", TokenType.KwChar);
    ("wchar", TokenType.KwWchar); ("octet", TokenType.KwOctet);
    ("short", TokenType.KwShort); ("long", TokenType.KwLong);
    ("float", TokenType.KwFloat); ("double", TokenType.KwDouble);
    ("unsigned", TokenType.KwUnsigned); ("any", TokenType.KwAny);
    ("Object", TokenType.KwObject); ("TRUE", TokenType.KwTrue);
    ("FALSE", TokenType.KwFalse); ("true", TokenType.KwTrue);
    ("false", TokenType.KwFalse) ].

(** [Lexer::lookupKeyword]. *)
Definition lookupKeyword (name : string) : option TokenType.t :=
  option_map snd (find (fun entry => String.eqb (fst entry) name) keywords).

(** [Lexer::Lexer]. *)
Definition new (source filename : string) : State :=
  mk source filename 1 1 [] [].

(** [Lexer::isAtEnd], [Lexer::peek] and [Lexer::peek(n)]. *)
Definition isAtEnd (st : State) : bool :=
  match rest st with EmptyString => true | String _ _ => false end.

Definition peek (st : State) : ascii :=
  match rest st with EmptyString => Char.nul | String c _ => c end.

Definition peekAt (n : nat) (st : State) : ascii :=
  match String.get n (rest st) with Some c => c | None => Char.nul end.

(** [Lexer::advance].  No call is made at the end of the source, where
    [source_[pos_]] is the terminating zero.  [++line_] is on a [size_t]
    and wraps around: a line directive sets [line_] to any value below
    2^64, and the line feed behind line 2^64 - 1 starts line 0.
    [++column_] does not get there: [column_] is 1 at the start of a line
    and grows by one per character read (see [column_bounded] below), and
    the source, a [std::string], has fewer than 2^63 characters. *)
Definition advance (st : State) : ascii * State :=
  match rest st with
  | EmptyString =>
      (Char.nul,
       mk EmptyString (filename_ st) (line_ st) (column_ st + 1)
         (lookahead_ st) (errors_ st))
  | String c rest' =>
      (c,
       if Ascii.eqb c Char.lf
       then mk rest' (filename_ st) (to_size_t (line_ st + 1)) 1
              (lookahead_ st) (errors_ st)
       else mk rest' (filename_ st) (line_ st) (column_ st + 1)
              (lookahead_ st) (errors_ st))
  end.

(** [Lexer::match]. *)
Definition match_ (expected : ascii) (st : State) : bool * State :=
  if isAtEnd st || negb (Ascii.eqb (peek st) expected) then (false, st)
  else (true, snd (advance st)).

(** [Lexer::currentLocation] and [Lexer::addError]. *)
Definition currentLocation (st : State) : SourceLocation :=
  mkLoc (filename_ st) (line_ st) (column_ st).

Definition addError (message : string) (st : State) : State :=
  mk (rest st) (filename_ st) (line_ st) (column_ st) (lookahead_ st)
    (errors_ st ++ [mkLexerError message (currentLocation st)]).

(** The character classes. *)
Definition isDigit (c : ascii) : bool := Names.isDigit c.

Definition isHexDigit (c : ascii) : bool :=
  let n := nat_of_ascii c in
  isDigit c || (Nat.leb 97 n && Nat.leb n 102) || (Nat.leb 65 n && Nat.leb n 70).

Definition isOctalDigit (c : ascii) : bool :=
  let n := nat_of_ascii c in Nat.leb 48 n && Nat.leb n 55.

Definition isAlpha (c : ascii) : bool := Names.isAlpha c.
Definition isAlphaNumeric (c : ascii) : bool := isAlpha c || isDigit c.
Definition isIdentifierStart (c : ascii) : bool := isAlpha c || Ascii.eqb c "_".
Definition isIdentifierChar (c : ascii) : bool := isAlphaNumeric c || Ascii.eqb c "_".

(** The loops [while (!isAtEnd() && test(peek())) text += advance();]. *)
Fixpoint advanceWhile (test : ascii -> bool) (fuel : nat) (text : string)
    (st : State) : string * State :=
  match fuel with
  | O => (text, st)
  | S fuel' =>
      if negb (isAtEnd st) && test (peek st)
      then advanceWhile test fuel' (text +:+ Char.str (fst (advance st)))
             (snd (advance st))
      else (text, st)
  end.

(** The same loops over the rest of the source, which bounds their
    iterations. *)
Definition takeWhile (test : ascii -> bool) (text : string) (st : State)
    : string * State :=
  advanceWhile test (String.length (rest st)) text st.

Definition notLineEnd (c : ascii) : bool := negb (Ascii.eqb c Char.lf).

(** [Lexer::skipLineComment]. *)
Definition skipLineComment (st : State) : State :=
  snd (takeWhile notLineEnd "" (snd (advance (snd (advance st))))).

(** The loop of [Lexer::skipBlockComment] and its [addError]. *)
Fixpoint blockCommentLoop (fuel : nat) (st : State) : State :=
  match fuel with
  | O => st
  | S fuel' =>
      if isAtEnd st then addError "Unterminated block comment" st
      else if Ascii.eqb (peek st) "*" && Ascii.eqb (peekAt 1 st) "/"
      then snd (advance (snd (advance st)))
      else blockCommentLoop fuel' (snd (advance st))
  end.

(** [Lexer::skipBlockComment]. *)
Definition skipBlockComment (st : State) : State :=
  let st2 := snd (advance (snd (advance st))) in
  blockCommentLoop (S (String.length (rest st2))) st2.

Definition isBlank (c : ascii) : bool :=
  Ascii.eqb c " " || Ascii.eqb c Char.tab || Ascii.eqb c Char.cr
  || Ascii.eqb c Char.lf.

(** The loop of [Lexer::skipWhitespaceAndComments]. *)
Fixpoint skipLoop (fuel : nat) (st : State) : State :=
  match fuel with
  | O => st
  | S fuel' =>
      if isAtEnd st then st
      else if isBlank (peek st) then skipLoop fuel' (snd (advance st))
      else if Ascii.eqb (peek st) "/"
      then if Ascii.eqb (peekAt 1 st) "/" then skipLoop fuel' (skipLineComment st)
           else if Ascii.eqb (peekAt 1 st) "*"
           then skipLoop fuel' (skipBlockComment st)
           else st
      else st
  end.

(** [Lexer::skipWhitespaceAndComments]. *)
Definition skipWhitespaceAndComments (st : State) : State :=
  skipLoop (String.length (rest st)) st.

(** [Lexer::scanIdentifierOrKeyword]. *)
Definition scanIdentifierOrKeyword (st : State) : Token * State :=
  let loc := currentLocation st in
  let '(text, st1) := takeWhile isIdentifierChar "" st in
  match lookupKeyword text with
  | Some kw => (mkToken kw NoValue text loc, st1)
  | None => (mkToken TokenType.Identifier (StringValue text) text loc, st1)
  end.

(** [text += advance()] under a test of [peek()]. *)
Definition takeIf (test : ascii -> bool) (text : string) (st : State)
    : bool * string * State :=
  if test (peek st)
  then (true, text +:+ Char.str (fst (advance st)), snd (advance st))
  else (false, text, st).

(** The prefix of [Lexer::scanNumber]: the text read, [isHex], [isOctal]. *)
Definition scanPrefix (st : State) : string * bool * bool * State :=
  if Ascii.eqb (peek st) "0"
  then
    let text := Char.str (fst (advance st)) in
    let st1 := snd (advance st) in
    if Ascii.eqb (peek st1) "x" || Ascii.eqb (peek st1) "X"
    then
      let '(text2, st2) :=
        takeWhile isHexDigit (text +:+ Char.str (fst (advance st1)))
          (snd (advance st1)) in
      (text2, true, false, st2)
    else if isOctalDigit (peek st1)
    then
      let '(text2, st2) := takeWhile isOctalDigit text st1 in
      (text2, false, true, st2)
    else (text, false, false, st1)
  else ("", false, false, st).

(** The decimal part of [Lexer::scanNumber]: digits, fraction, exponent and
    suffix; the text read and [isFloat]. *)
Definition scanDecimal (text : string) (st : State) : string * bool * State :=
  let '(text1, st1) := takeWhile isDigit text st in
  let '(isFloat2, text2, st2) :=
    if Ascii.eqb (peek st1) "." && isDigit (peekAt 1 st1)
    then
      let '(text', st') :=
        takeWhile isDigit (text1 +:+ Char.str (fst (advance st1)))
          (snd (advance st1)) in
      (true, text', st')
    else (false, text1, st1) in
  let '(isFloat3, text3, st3) :=
    if Ascii.eqb (peek st2) "e" || Ascii.eqb (peek st2) "E"
    then
      let textE := text2 +:+ Char.str (fst (advance st2)) in
      let stE := snd (advance st2) in
      let '(_, textS, stS) :=
        takeIf (fun c => Ascii.eqb c "+" || Ascii.eqb c "-") textE stE in
      let '(text', st') := takeWhile isDigit textS stS in
      (true, text', st')
    else (isFloat2, text2, st2) in
  let '(suffix, text4, st4) :=
    takeIf (fun c => Ascii.eqb c "f" || Ascii.eqb c "F"
                     || Ascii.eqb c "d" || Ascii.eqb c "D") text3 st3 in
  (text4, isFloat3 || suffix, st4).

Section Floating.

(** [std::stod]. *)
Variable stod : string -> Exception + float.

(** [Lexer::scanNumber]. *)
Definition scanNumber (st : State) : Outcome Token :=
  let loc := currentLocation st in
  let '(text0, isHex, isOctal, st0) := scanPrefix st in
  let '(text, isFloat, st1) :=
    if negb isHex && negb isOctal then scanDecimal text0 st0
    else (text0, false, st0) in
  if isFloat
  then
    match stod text with
    | inr value => Done (mkToken TokenType.FloatLiteral (DoubleValue value) text loc) st1
    | inl e => Throws e
    end
  else
    match Conversion.stoll text (if isHex then 16 else if isOctal then 8 else 10) with
    | inr value => Done (mkToken TokenType.IntegerLiteral (IntValue value) text loc) st1
    | inl e => Throws e
    end.

(** The loop that reads the digits of a [\x] escape. *)
Fixpoint hexEscapeLoop (fuel : nat) (hex text : string) (st : State)
    : string * string * State :=
  match fuel with
  | O => (hex, text, st)
  | S fuel' =>
      if Nat.ltb (String.length hex) 2 && negb (isAtEnd st) && isHexDigit (peek st)
      then hexEscapeLoop fuel' (hex +:+ Char.str (fst (advance st)))
             (text +:+ Char.str (fst (advance st))) (snd (advance st))
      else (hex, text, st)
  end.

(** [static_cast<char>] of the value of a [\x] escape. *)
Definition hexChar (hex : string) : ascii :=
  match Conversion.stoi hex 16 with
  | inr value => ascii_of_nat (Z.to_nat (value mod 256))
  | inl _ => Char.nul
  end.

(** The character that an escape other than [\x] adds to the value. *)
Definition unescape (escaped : ascii) : ascii :=
  if Ascii.eqb escaped "n" then Char.lf
  else if Ascii.eqb escaped "t" then Char.tab
  else if Ascii.eqb escaped "r" then Char.cr
  else if Ascii.eqb escaped "0" then Char.nul
  else escaped.

(** The loop of [Lexer::scanString]. *)
Fixpoint stringLoop (fuel : nat) (text value : string) (st : State)
    : string * string * State :=
  match fuel with
  | O => (text, value, st)
  | S fuel' =>
      if isAtEnd st || Ascii.eqb (peek st) Char.quote then (text, value, st)
      else if Ascii.eqb (peek st) Char.lf
      then (text, value, addError "Unterminated string literal" st)
      else if Ascii.eqb (peek st) Char.backslash
      then
        let text1 := text +:+ Char.str (fst (advance st)) in
        let st1 := snd (advance st) in
        if isAtEnd st1 then (text1, value, st1)
        else
          let escaped := fst (advance st1) in
          let text2 := text1 +:+ Char.str escaped in
          let st2 := snd (advance st1) in
          if Ascii.eqb escaped "x"
          then
            let '(hex, text3, st3) := hexEscapeLoop 2 "" text2 st2 in
            stringLoop fuel' text3
              (match hex with
               | EmptyString => value
               | String _ _ => value +:+ Char.str (hexChar hex)
               end) st3
          else stringLoop fuel' text2 (value +:+ Char.str (unescape escaped)) st2
      else
        stringLoop fuel' (text +:+ Char.str (fst (advance st)))
          (value +:+ Char.str (fst (advance st))) (snd (advance st))
  end.

(** [Lexer::scanString]. *)
Definition scanString (isWide : bool) (st : State) : Token * State :=
  let loc := currentLocation st in
  let st0 := snd (advance st) in
  let '(text, value, st1) :=
    stringLoop (String.length (rest st0)) (Char.str Char.quote) "" st0 in
  let '(text', st2) :=
    if negb (isAtEnd st1)
    then (text +:+ Char.str (fst (advance st1)), snd (advance st1))
    else (text, st1) in
  (mkToken (if isWide then TokenType.WideStringLiteral else TokenType.StringLiteral)
     (StringValue value) text' loc, st2).

(** [Lexer::scanChar]. *)
Definition scanChar (isWide : bool) (st : State) : Token * State :=
  let loc := currentLocation st in
  let st0 := snd (advance st) in
  let text0 := Char.str Char.apostrophe in
  let '(value, text1, st1) :=
    if negb (isAtEnd st0) && negb (Ascii.eqb (peek st0) Char.apostrophe)
    then
      if Ascii.eqb (peek st0) Char.backslash
      then
        let textB := text0 +:+ Char.str (fst (advance st0)) in
        let stB := snd (advance st0) in
        if negb (isAtEnd stB)
        then (unescape (fst (advance stB)),
              textB +:+ Char.str (fst (advance stB)), snd (advance stB))
        else (Char.nul, textB, stB)
      else (fst (advance st0), text0 +:+ Char.str (fst (advance st0)),
            snd (advance st0))
    else (Char.nul, text0, st0) in
  let '(text2, st2) :=
    if negb (isAtEnd st1) && Ascii.eqb (peek st1) Char.apostrophe
    then (text1 +:+ Char.str (fst (advance st1)), snd (advance st1))
    else (text1, addError "Unterminated character literal" st1) in
  (mkToken (if isWide then TokenType.WideCharLiteral else TokenType.CharLiteral)
     (CharValue value) text2 loc, st2).

(** [Lexer::scanPragma]. *)
Definition scanPragma (st : State) : Token * State :=
  let loc := currentLocation st in
  let '(text, st1) := takeWhile notLineEnd "" st in
  (mkToken TokenType.Pragma (StringValue text) text loc, st1).

(** [text.find_first_of] on the digits: the text from the first digit
    on. *)
Fixpoint fromFirstDigit (text : string) : option string :=
  match text with
  | EmptyString => None
  | String c rest' => if isDigit c then Some text else fromFirstDigit rest'
  end.

(** The digits at the start of a text and the text behind them. *)
Fixpoint splitDigits (text : string) : string * string :=
  match text with
  | EmptyString => (EmptyString, EmptyString)
  | String c rest' =>
      if isDigit c
      then (String c (fst (splitDigits rest')), snd (splitDigits rest'))
      else (EmptyString, text)
  end.

(** [text.find] on the double quote: the text behind the first one. *)
Fixpoint afterQuote (text : string) : option string :=
  match text with
  | EmptyString => None
  | String c rest' => if Ascii.eqb c Char.quote then Some rest' else afterQuote rest'
  end.

(** The text in front of the first double quote, if there is one. *)
Fixpoint beforeQuote (text : string) : option string :=
  match text with
  | EmptyString => None
  | String c rest' =>
      if Ascii.eqb c Char.quote then Some EmptyString
      else option_map (String c) (beforeQuote rest')
  end.

(** [Lexer::scanLineDirective]. *)
Definition scanLineDirective (st : State) : Outcome Token :=
  let loc := currentLocation st in
  let '(text, st1) := takeWhile notLineEnd "" st in
  let tok := mkToken TokenType.LineDirective (StringValue text) text loc in
  match fromFirstDigit text with
  | None => Done tok st1
  | Some fromDigit =>
      let '(lineNumStr, behind) := splitDigits fromDigit in
      match Conversion.stoull lineNumStr with
      | inl e => Throws e
      | inr number =>
          let file :=
            match behind with
            | EmptyString => None
            | String _ _ =>
                match afterQuote behind with
                | Some name => beforeQuote name
                | None => None
                end
            end in
          Done tok
            (mk (rest st1)
               (match file with Some name => name | None => filename_ st1 end)
               number (column_ st1) (lookahead_ st1) (errors_ st1))
      end
  end.

(** The punctuation of [Lexer::scanToken], after the [advance()] over
    [c]. *)
Definition scanPunctuation (c : ascii) (loc : SourceLocation) (st : State)
    : Token * State :=
  let simple (type : TokenType.t) := (mkToken type NoValue (Char.str c) loc, st) in
  let double (type2 type1 : TokenType.t) :=
    if fst (match_ c st)
    then (mkToken type2 NoValue (Char.str c +:+ Char.str c) loc, snd (match_ c st))
    else (mkToken type1 NoValue (Char.str c) loc, snd (match_ c st)) in
  if Ascii.eqb c ";" then simple TokenType.Semicolon
  else if Ascii.eqb c "," then simple TokenType.Comma
  else if Ascii.eqb c "{" then simple TokenType.LeftBrace
  else if Ascii.eqb c "}" then simple TokenType.RightBrace
  else if Ascii.eqb c "(" then simple TokenType.LeftParen
  else if Ascii.eqb c ")" then simple TokenType.RightParen
  else if Ascii.eqb c "[" then simple TokenType.LeftBracket
  else if Ascii.eqb c "]" then simple TokenType.RightBracket
  else if Ascii.eqb c "=" then simple TokenType.Equals
  else if Ascii.eqb c "+" then simple TokenType.Plus
  else if Ascii.eqb c "-" then simple TokenType.Minus
  else if Ascii.eqb c "*" then simple TokenType.Star
  else if Ascii.eqb c "/" then simple TokenType.Slash
  else if Ascii.eqb c "%" then simple TokenType.Percent
  else if Ascii.eqb c "&" then simple TokenType.Ampersand
  else if Ascii.eqb c "|" then simple TokenType.Pipe
  else if Ascii.eqb c "^" then simple TokenType.Caret
  else if Ascii.eqb c "~" then simple TokenType.Tilde
  else if Ascii.eqb c ":" then double TokenType.DoubleColon TokenType.Colon
  else if Ascii.eqb c "<" then double TokenType.LeftShift TokenType.LeftAngle
  else if Ascii.eqb c ">" then double TokenType.RightShift TokenType.RightAngle
  else
    (mkToken TokenType.Unknown NoValue (Char.str c) loc,
     addError ("Unexpected character: " +:+ Char.str c) st).

Definition done (r : Token * State) : Outcome Token := Done (fst r) (snd r).

(** [Lexer::scanToken]; the fuel bounds the calls of itself that it makes
    behind a directive it skips. *)
Fixpoint scanToken (fuel : nat) (st : State) : Outcome Token :=
  match fuel with
  | O => OutOfFuel
  | S fuel' =>
      let st := skipWhitespaceAndComments st in
      if isAtEnd st
      then Done (mkToken TokenType.Eof NoValue "" (currentLocation st)) st
      else
        let loc := currentLocation st in
        let c := peek st in
        if Ascii.eqb c "#"
        then
          if Text.startsWith "#line" (rest st)
             || (Text.startsWith "# " (rest st) && isDigit (peekAt 2 st))
          then scanLineDirective st
          else if Text.startsWith "#pragma" (rest st)
          then done (scanPragma st)
          else scanToken fuel' (snd (takeWhile notLineEnd "" st))
        else if isIdentifierStart c then done (scanIdentifierOrKeyword st)
        else if isDigit c then scanNumber st
        else if Ascii.eqb c "L"
                && (Ascii.eqb (peekAt 1 st) Char.quote
                    || Ascii.eqb (peekAt 1 st) Char.apostrophe)
        then
          let st1 := snd (advance st) in
          if Ascii.eqb (peek st1) Char.quote then done (scanString true st1)
          else done (scanChar true st1)
        else if Ascii.eqb c Char.quote then done (scanString false st)
        else if Ascii.eqb c Char.apostrophe then done (scanChar false st)
        else done (scanPunctuation c loc (snd (advance st)))
  end.

(** [scanToken()] as the member functions call it. *)
Definition scan (st : State) : Outcome Token :=
  scanToken (S (String.length (rest st))) st.

(** [Lexer::nextToken]. *)
Definition nextToken (st : State) : Outcome Token :=
  match lookahead_ st with
  | tok :: behind =>
      Done tok (mk (rest st) (filename_ st) (line_ st) (column_ st) behind
                  (errors_ st))
  | [] => scan st
  end.

(** The loop of [Lexer::peekToken(n)]. *)
Fixpoint fillLookahead (fuel : nat) (n : nat) (st : State) : Outcome unit :=
  match fuel with
  | O => OutOfFuel
  | S fuel' =>
      if Nat.leb (length (lookahead_ st)) n
      then
        match scan st with
        | Done tok st1 =>
            fillLookahead fuel' n
              (mk (rest st1) (filename_ st1) (line_ st1) (column_ st1)
                 (lookahead_ st1 ++ [tok]) (errors_ st1))
        | Throws e => Throws e
        | OutOfFuel => OutOfFuel
        end
      else Done tt st
  end.

(** [Lexer::peekToken(n)] and [Lexer::peekToken()]. *)
Definition peekTokenAt (n : nat) (st : State) : Outcome Token :=
  match fillLookahead (S (S n)) n st with
  | Done _ st1 => Done (nth n (lookahead_ st1) defaultToken) st1
  | Throws e => Throws e
  | OutOfFuel => OutOfFuel
  end.

Definition peekToken (st : State) : Outcome Token := peekTokenAt 0 st.

(** [Lexer::hasMore], [Lexer::getErrors] and [Lexer::hasErrors]. *)
Definition hasMore (st : State) : bool :=
  negb (isAtEnd st) || negb (match lookahead_ st with [] => true | _ => false end).

Definition getErrors (st : State) : list LexerError := errors_ st.

Definition hasErrors (st : State) : bool :=
  negb (match errors_ st with [] => true | _ => false end).

(** What the calls of [nextToken] return up to the first [Eof], each token
    with the errors that its call appends to [errors_]. *)
Fixpoint tokensLoop (fuel : nat) (st : State)
    : Outcome (list (Token * list LexerError)) :=
  match fuel with
  | O => OutOfFuel
  | S fuel' =>
      match nextToken st with
      | Done tok st1 =>
          let entry := (tok, drop (length (errors_ st)) (errors_ st1)) in
          if Parser.check_type TokenType.Eof tok then Done [entry] st1
          else
            match tokensLoop fuel' st1 with
            | Done entries st2 => Done (entry :: entries) st2
            | Throws e => Throws e
            | OutOfFuel => OutOfFuel
            end
      | Throws e => Throws e
      | OutOfFuel => OutOfFuel
      end
  end.

Definition tokens (st : State) : Outcome (list (Token * list LexerError)) :=
  tokensLoop (S (String.length (rest st) + length (lookahead_ st))) st.

(** The lexer that the parser reads, for a source that is scanned without
    an exception. *)
Definition lexer (source filename : string) : option Lexer :=
  match tokens (new source filename) with
  | Done entries st => Some (mkLexer entries [] (currentLocation st))
  | _ => None
  end.

End Floating.

End Scanner.

(** ** Vocabulary of the properties of the scanner *)

Module Position.

(** The location behind the characters of [s], for a scanner that was at
    [loc] in front of them: a line feed starts a line, the number of which
    is a [size_t] and comes back to 0 behind 2^64 - 1; any other character
    takes a column. *)
Fixpoint after (s : string) (loc : SourceLocation) : SourceLocation :=
  match s with
  | EmptyString => loc
  | String c s' =>
      after s'
        (if Ascii.eqb c Char.lf
         then mkLoc (filename loc) (to_size_t (line loc + 1)) 1
         else mkLoc (filename loc) (line loc) (column loc + 1))
  end.

(** The line that is [k] line feeds behind the line [l].  It is computed
    modulo 2^64 from the first line feed on; a text without a line feed
    leaves the line as it is. *)
Definition lineAfter (l k : Z) : Z :=
  if (k =? 0)%Z then l else to_size_t (l + k).

(** The number of line feeds in [s]. *)
Fixpoint lineFeeds (s : string) : Z :=
  match s with
  | EmptyString => 0
  | String c s' => (if Ascii.eqb c Char.lf then 1 else 0) + lineFeeds s'
  end.

(** The number of characters of [s] behind its last line feed, or in [s]
    if it has none. *)
Fixpoint lastLine (s : string) : Z :=
  match s with
  | EmptyString => 0
  | String c s' =>
      if (lineFeeds s' =? 0)%Z
      then if Ascii.eqb c Char.lf then Z.of_nat (String.length s')
           else 1 + Z.of_nat (String.length s')
      else lastLine s'
  end.

End Position.

Module Scanned.

(** The scanner has gone from [st] to [st'] over the characters [s] of the
    source: they are no longer to be read, the location is the one behind
    them, the tokens looked ahead are as they were and errors have at most
    been added. *)
Record moves (s : string) (st st' : Scanner.State) : Prop := {
  moves_rest : Scanner.rest st = s +:+ Scanner.rest st';
  moves_location :
    Scanner.currentLocation st' = Position.after s (Scanner.currentLocation st);
  moves_lookahead : Scanner.lookahead_ st' = Scanner.lookahead_ st;
  moves_errors : exists added, Scanner.errors_ st' = Scanner.errors_ st ++ added
}.

(** The longest prefix of [s] whose characters pass [test], and what is
    behind it. *)
Fixpoint span (test : ascii -> bool) (s : string) : string * string :=
  match s with
  | EmptyString => (EmptyString, EmptyString)
  | String c s' =>
      if test c then (String c (fst (span test s')), snd (span test s'))
      else (EmptyString, s)
  end.

(** The first character of [s] does not pass [test], if there is one. *)
Definition stopsAt (test : ascii -> bool) (s : string) : bool :=
  match s with
  | EmptyString => true
  | String c _ => negb (test c)
  end.

(** The alternative of [TokenValue] that goes with a token type, and the
    types that no token has. *)
Definition wellValued (tok : Token) : Prop :=
  match tok_type tok with
  | TokenType.IntegerLiteral =>
      exists v, tok_value tok = IntValue v /\ (0 <= v <= 2 ^ 63 - 1)%Z
  | TokenType.FloatLiteral => exists v, tok_value tok = DoubleValue v
  | TokenType.Identifier | TokenType.StringLiteral | TokenType.Pragma
  | TokenType.LineDirective => exists v, tok_value tok = StringValue v
  | TokenType.CharLiteral => exists v, tok_value tok = CharValue v
  | TokenType.WideStringLiteral | TokenType.WideCharLiteral => False
  | _ => tok_value tok = NoValue
  end.

(** The scanner is in front of a character that starts neither white
    space nor a comment. *)
Definition atToken (st : Scanner.State) : bool :=
  negb (Scanner.isAtEnd st)
  && negb (Scanner.isBlank (Scanner.peek st))
  && negb (Ascii.eqb (Scanner.peek st) "/"
           && (Ascii.eqb (Scanner.peekAt 1 st) "/"
               || Ascii.eqb (Scanner.peekAt 1 st) "*")).

(** A token is made of the characters read for it, and placed where the
    first of them is. *)
Definition reads (tok : Token) (st st' : Scanner.State) : Prop :=
  moves (text tok) st st' /\ location tok = Scanner.currentLocation st.

(** The errors of [st'] are those of [st], or those and the one of a
    block comment that the end of the source cuts. *)
Definition unterminatedComment (st st' : Scanner.State) : Prop :=
  Scanner.errors_ st' = Scanner.errors_ st \/
  (Scanner.isAtEnd st' = true /\
   Scanner.errors_ st'
   = Scanner.errors_ st
     ++ [mkLexerError "Unterminated block comment" (Scanner.currentLocation st')]).

(** [tok] is a slice of the source: in front of [st] are the characters
    [skipped], the text of [tok] and what [st'] still has to read; [tok] is
    located behind [skipped], and [st'] behind the text of [tok], unless
    [tok] is a line directive, which sets the line. *)
Definition slice (st : Scanner.State) (skipped : string) (tok : Token)
    (st' : Scanner.State) : Prop :=
  Scanner.rest st = skipped +:+ (text tok +:+ Scanner.rest st') /\
  location tok = Position.after skipped (Scanner.currentLocation st) /\
  Scanner.lookahead_ st' = Scanner.lookahead_ st /\
  (exists added, Scanner.errors_ st' = Scanner.errors_ st ++ added) /\
  (tok_type tok <> TokenType.LineDirective ->
   Scanner.currentLocation st' = Position.after (text tok) (location tok)).

(** What [scanToken] returns: a well-valued slice of the source, [Eof] at
    the end of the source only, and no other token without text. *)
Definition scanned (st : Scanner.State) (tok : Token) (st' : Scanner.State) : Prop :=
  (exists skipped, slice st skipped tok st') /\
  wellValued tok /\
  (tok_type tok = TokenType.Eof -> text tok = "" /\ Scanner.rest st' = "") /\
  (tok_type tok <> TokenType.Eof -> text tok <> "").

(** A character of a string literal that stands for itself. *)
Definition plain (c : ascii) : bool :=
  negb (Ascii.eqb c Char.quote) && negb (Ascii.eqb c Char.backslash)
  && negb (Ascii.eqb c Char.lf).

(** The text behind the content of a string literal ends the literal:
    nothing, a double quote or a line feed comes next. *)
Definition ends (tail : string) : bool :=
  match tail with
  | EmptyString => true
  | String c _ => Ascii.eqb c Char.quote || Ascii.eqb c Char.lf
  end.

(** The text behind the digits of a decimal literal does not go on with
    the literal: no digit, point, exponent, suffix or [x] comes next. *)
Definition endsNumber (tail : string) : bool :=
  match tail with
  | EmptyString => true
  | String c _ =>
      negb (Scanner.isDigit c
            || existsb (Ascii.eqb c)
                 ["."; "e"; "E"; "f"; "F"; "d"; "D"; "x"; "X"]%char)
  end.

End Scanned.

(** ** Sources used below *)

Module Sources.

(** A [std::stod] for sources without a floating literal. *)
Definition noFloat (str : string) : Exception + float :=
  inl (InvalidArgument "stod").

Definition lf : string := Char.str Char.lf.
Definition quote : string := Char.str Char.quote.

(** [  longer = 12 ;] *)
Definition assignment : Scanner.State := Scanner.new "  longer = 12 ;" "a.idl".

(** A comment, then [const string S = "abc";] with the string cut by the
    end of the line. *)
Definition cutString : Scanner.State :=
  Scanner.new ("/* c */ const string S = " +:+ quote +:+ "abc" +:+ lf +:+ ";")
    "a.idl".

(** A line marker: the number of a line and the name of its file, behind
    [# ] as the C preprocessor writes it or behind [#line ] as
    [Preprocessor::preprocessString] does. *)
Definition marker (directive : string) (n : Z) (name : string) : string :=
  directive +:+ to_string n +:+ " " +:+ quote +:+ name +:+ quote.

(** A character of a file name in a line marker. *)
Definition nameChar (c : ascii) : bool :=
  negb (Ascii.eqb c Char.quote) && negb (Ascii.eqb c Char.lf).

End Sources.

(** ** Decimal numerals *)

(** The number that the digits of [d] denote, after [acc]. *)
Fixpoint digitsOf (d : Decimal.uint) (acc : Z) : Z :=
  match d with
  | Decimal.Nil => acc
  | Decimal.D0 l => digitsOf l (10 * acc + 0)
  | Decimal.D1 l => digitsOf l (10 * acc + 1)
  | Decimal.D2 l => digitsOf l (10 * acc + 2)
  | Decimal.D3 l => digitsOf l (10 * acc + 3)
  | Decimal.D4 l => digitsOf l (10 * acc + 4)
  | Decimal.D5 l => digitsOf l (10 * acc + 5)
  | Decimal.D6 l => digitsOf l (10 * acc + 6)
  | Decimal.D7 l => digitsOf l (10 * acc + 7)
  | Decimal.D8 l => digitsOf l (10 * acc + 8)
  | Decimal.D9 l => digitsOf l (10 * acc + 9)
  end%Z.

(* ================================================================== *)
(** * Vocabulary of the further properties *)
(* ================================================================== *)

(** ** Vocabulary of further properties of the parser *)

Module Stray.

(** The message of [parseDefinition] in front of a token that starts no
    definition. *)
Definition expected : string :=
  "Expected definition (module, interface, struct, etc.)".

(** The parser is behind a [;], or behind a [}] that no [;] follows, and
    in front of a token that no iteration of the loop of [parse] takes: not
    [Eof], no line directive and nothing that opens a definition. *)
Definition stray (p : Parser) : bool :=
  (Parser.check_type TokenType.Semicolon (previousToken_ p)
   || (Parser.check_type TokenType.RightBrace (previousToken_ p)
       && negb (Parser.check TokenType.Semicolon p)))
  && negb (Parser.check TokenType.Eof p)
  && negb (Parser.check TokenType.LineDirective p)
  && negb (Parser.isDefinitionStart p).

(** One iteration of the loop of [parse] in front of such a token:
    [parseDefinition] reports and returns null, and [synchronize] is
    called. *)
Definition retry (p : Parser) : Parser :=
  Parser.synchronize (Parser.error expected p).

(** [struct S { long a ; } ; x] *)
Definition strayIdentifier : list (SourceLocation -> Token) :=
  [ Source.T TokenType.KwStruct "struct"; Source.Id "S";
    Source.T TokenType.LeftBrace "{"; Source.T TokenType.KwLong "long";
    Source.Id "a"; Source.T TokenType.Semicolon ";";
    Source.T TokenType.RightBrace "}"; Source.T TokenType.Semicolon ";";
    Source.Id "x" ].

End Stray.

(** ** Names in constant expressions, declarators *)

Module Reference.

(** The lookup of a name in a constant expression gives nothing to fold:
    no symbol, or a symbol that is neither a constant nor an enumerator. *)
Definition unresolved (found : option Symbol) : bool :=
  match found with
  | None => true
  | Some sym =>
      negb (SymbolKind.eqb (sym_kind sym) SymbolKind.Constant)
      && negb (SymbolKind.eqb (sym_kind sym) SymbolKind.EnumValue)
  end.

(** The warning of [parsePrimaryExpr] for the name [parts], as
    [Parser::warning] makes it at the token [tok]. *)
Definition unknownConstant (parts : list string) (tok : Token) : ParserError :=
  mkParserError
    (SourceLocation_toString (location tok) +:+ ": warning: "
     +:+ ("Unknown constant: " +:+ List.last parts ""))
    (location tok) true.

(** The declarator of the typedef node that [parseTypedef] makes of a
    declarator, and the call on the symbol table that records it. *)
Definition astDeclarator (decl : Parser.Declarator) : TypedefDeclarator :=
  mkTypedefDeclarator (Parser.decl_name decl) (Parser.decl_arrayDimensions decl).

Definition record (decl : Parser.Declarator) : Table.Op :=
  Table.Add (Parser.decl_name decl) SymbolKind.Typedef None.

(** [const long A = 5 ; const long B = A + 1 ;] *)
Definition constantOfConstant : list (SourceLocation -> Token) :=
  [ Source.T TokenType.KwConst "const"; Source.T TokenType.KwLong "long";
    Source.Id "A"; Source.T TokenType.Equals "="; Source.Int 5 "5";
    Source.T TokenType.Semicolon ";";
    Source.T TokenType.KwConst "const"; Source.T TokenType.KwLong "long";
    Source.Id "B"; Source.T TokenType.Equals "="; Source.Id "A";
    Source.T TokenType.Plus "+"; Source.Int 1 "1";
    Source.T TokenType.Semicolon ";" ].

(** [const long B = Missing ;] *)
Definition constantOfNothing : list (SourceLocation -> Token) :=
  [ Source.T TokenType.KwConst "const"; Source.T TokenType.KwLong "long";
    Source.Id "B"; Source.T TokenType.Equals "="; Source.Id "Missing";
    Source.T TokenType.Semicolon ";" ].

(** [const long B = :: ;] *)
Definition constantOfNoName : list (SourceLocation -> Token) :=
  [ Source.T TokenType.KwConst "const"; Source.T TokenType.KwLong "long";
    Source.Id "B"; Source.T TokenType.Equals "=";
    Source.T TokenType.DoubleColon "::"; Source.T TokenType.Semicolon ";" ].

(** [typedef long first , ;] *)
Definition typedefTwoDeclarators : list (SourceLocation -> Token) :=
  [ Source.T TokenType.KwTypedef "typedef"; Source.T TokenType.KwLong "long";
    Source.Id "first"; Source.T TokenType.Comma ",";
    Source.T TokenType.Semicolon ";" ].

End Reference.

(** ** Lexical errors in the parser *)

Module Reporting.

(** The [ParserError] that [advance] makes of a [LexerError]. *)
Definition report (err : LexerError) : ParserError :=
  mkParserError (lex_message err) (lex_location err) false.

(** The errors of the lexer once it has handed out the first [k] of the
    tokens [skipped], when it had [lexErrors] before. *)
Definition collected (lexErrors : list LexerError)
    (skipped : list (Token * list LexerError)) (k : nat) : list LexerError :=
  lexErrors ++ concat (map snd (take k skipped)).

(** One copy of all the errors of the lexer for each of the tokens
    [skipped]. *)
Definition repeated (lexErrors : list LexerError)
    (skipped : list (Token * list LexerError)) : list ParserError :=
  concat (map (fun k => map report (collected lexErrors skipped k))
            (seq 1 (length skipped))).

Definition unknown (entry : Token * list LexerError) : bool :=
  Parser.check_type TokenType.Unknown (fst entry).

End Reporting.

Module Inputs.

(** Two characters that start no token, then an identifier. *)
Definition twoUnknown : string := "@ $ x".

(** The calls of the parser up to the inside of [N] in
    [module M { const long C = 7 ; module N { ... ]. *)
Definition insideInnerModule : list Table.Op :=
  [ Table.Add "M" SymbolKind.Module_ None; Table.Enter "M";
    Table.Add "C" SymbolKind.Constant (Some (ToConstNode (CInt64 7)));
    Table.Add "N" SymbolKind.Module_ None; Table.Enter "N" ].

End Inputs.

(** ** Vocabulary of the properties of the generator *)

Module Generated.

(** [new] is [old] with more text behind it. *)
Definition extends (old new : string) : Prop := exists more, new = old +:+ more.

(** The generator [g'] is [g] after more output, [k] levels of
    indentation deeper: same configuration, namespaces and errors. *)
Record moved (k : Z) (g g' : Cpp11Generator.t) : Prop := mkMoved {
  same_config : Cpp11Generator.config_ g' = Cpp11Generator.config_ g;
  same_namespaces :
    Cpp11Generator.namespaceStack_ g' = Cpp11Generator.namespaceStack_ g;
  same_errors : Cpp11Generator.errors_ g' = Cpp11Generator.errors_ g;
  more_header : extends (Cpp11Generator.header_ g) (Cpp11Generator.header_ g');
  more_source : extends (Cpp11Generator.source_ g) (Cpp11Generator.source_ g');
  level_moved :
    Cpp11Generator.indentLevel_ g' = (Cpp11Generator.indentLevel_ g + k)%Z
}.

Definition settled (g g' : Cpp11Generator.t) : Prop := moved 0 g g'.

(** The characters of a macro name as [makeIncludeGuard] writes it. *)
Definition guardChar (c : ascii) : bool :=
  let n := nat_of_ascii c in
  (Nat.leb 65 n && Nat.leb n 90) || (Nat.leb 48 n && Nat.leb n 57)
  || Ascii.eqb c "_".

(** A character that [std::isalnum] and [std::toupper] are defined on
    when it is passed as a [char]. *)
Definition isAscii (c : ascii) : bool := Nat.ltb (nat_of_ascii c) 128.

Definition prefixChar (c : ascii) : bool := isalnum c || Ascii.eqb c "_".

(** The type without the bounds of its sequences and strings. *)
Fixpoint unbounded (node : TypeNode) : TypeNode :=
  match node with
  | BasicTypeNode type loc => BasicTypeNode type loc
  | SequenceTypeNode elementType _ loc =>
      SequenceTypeNode (unbounded elementType) None loc
  | StringTypeNode _ isWide loc => StringTypeNode None isWide loc
  | ScopedNameNode parts isAbsolute loc => ScopedNameNode parts isAbsolute loc
  | ArrayTypeNode elementType dimensions loc =>
      ArrayTypeNode (unbounded elementType) dimensions loc
  end.

(** [module M { struct S { long a ; } ; } ;] as the parser builds it. *)
Definition structInModule : DefinitionNode :=
  ModuleNode "M" "M" (mkLoc "a.idl" 1 1)
    [ StructNode "S" "M::S" (mkLoc "a.idl" 1 12)
        [ mkStructMember (BasicTypeNode BasicType.Long (mkLoc "a.idl" 1 23)) "a"
            (mkLoc "a.idl" 1 23) ] ].

End Generated.

(** ** The parser between two of its states *)

Module Balance.

(** The parser [p'] is in the scope that [p] was in, has the diagnostics
    of [p] and possibly more behind them, and its current scope exists if
    that of [p] did. *)
Record steady (p p' : Parser) : Prop := mkSteady {
  same_scope :
    currentScope_ (symbolTable_ p') = currentScope_ (symbolTable_ p);
  more_errors : exists more, errors_ p' = errors_ p ++ more;
  still_valid : ptr_valid (symbolTable_ p) -> ptr_valid (symbolTable_ p')
}.

(** The same, [p'] being in the scopes [inner] (innermost first) opened
    inside the scope of [p]. *)
Record inside (inner : list nat) (p p' : Parser) : Prop := mkInside {
  inner_scope :
    currentScope_ (symbolTable_ p') = inner ++ currentScope_ (symbolTable_ p);
  inner_errors : exists more, errors_ p' = errors_ p ++ more;
  inner_valid : ptr_valid (symbolTable_ p) -> ptr_valid (symbolTable_ p')
}.

(** A parsing function that, when it returns, leaves the parser steady. *)
Definition keeps {A} (m : M A) : Prop :=
  forall p, match m p with Ret _ p' => steady p p' | _ => True end.

(** The rest of a parsing function that started at [p0] and has the
    scopes [inner] open. *)
Definition safe {A} (p0 : Parser) (inner : list nat) (m : M A) : Prop :=
  forall p, inside inner p0 p ->
    match m p with Ret _ p' => steady p0 p' | _ => True end.

(** [module M { struct S { long ; ] and the end of the source. *)
Definition unclosedModule : list (SourceLocation -> Token) :=
  [ Source.T TokenType.KwModule "module"; Source.Id "M";
    Source.T TokenType.LeftBrace "{";
    Source.T TokenType.KwStruct "struct"; Source.Id "S";
    Source.T TokenType.LeftBrace "{";
    Source.T TokenType.KwLong "long"; Source.T TokenType.Semicolon ";" ].

End Balance.

(* ================================================================== *)
(** * Properties *)
(* ================================================================== *)

Import Recovery Folding TypedefSpec.

(** ** Text *)

Lemma append_cons (x : ascii) (a b : string) :
  String x a +:+ b = String x (a +:+ b).
Proof. reflexivity. Qed.

Lemma append_assoc (a b c : string) : (a +:+ b) +:+ c = a +:+ (b +:+ c).
Proof.
  induction a as [|x a IH]; [reflexivity|].
  rewrite !append_cons. f_equal. exact IH.
Qed.

Lemma append_empty_r (a : string) : a +:+ "" = a.
Proof.
  induction a as [|x a IH]; [reflexivity|].
  rewrite append_cons. f_equal. exact IH.
Qed.

Lemma concat_cons (x : string) (l : list string) :
  String.concat "" (x :: l) = x +:+ String.concat "" l.
Proof. destruct l; cbn [String.concat]; [rewrite append_empty_r|]; reflexivity. Qed.

(** ** The parser monad *)

Lemma bind_Ret {A B} (m : M A) (k : A -> M B) p a p' :
  m p = Ret a p' -> bind m k p = k a p'.
Proof. intros H. unfold bind. rewrite H. reflexivity. Qed.

Lemma bind_ask {A B} (f : Parser -> A) (k : A -> M B) p :
  bind (ask f) k p = k (f p) p.
Proof. reflexivity. Qed.

Lemma bind_act {B} (f : Parser -> Parser) (k : unit -> M B) p :
  bind (act f) k p = k tt (f p).
Proof. reflexivity. Qed.

Lemma bind_call {A B} (f : Parser -> A * Parser) (k : A -> M B) p :
  bind (call f) k p = k (fst (f p)) (snd (f p)).
Proof. reflexivity. Qed.

Lemma bind_match_false {B} type (k : bool -> M B) p :
  Parser.check type p = false ->
  bind (call (Parser.match_ type)) k p = k false p.
Proof. intros H. rewrite bind_call. unfold Parser.match_. rewrite H. reflexivity. Qed.

Lemma bind_match_true {B} type (k : bool -> M B) p :
  Parser.check type p = true ->
  bind (call (Parser.match_ type)) k p = k true (Parser.advance p).
Proof. intros H. rewrite bind_call. unfold Parser.match_. rewrite H. reflexivity. Qed.

Lemma check_exclusive a b p :
  a <> b -> Parser.check a p = true -> Parser.check b p = false.
Proof.
  unfold Parser.check, Parser.check_type. intros Hne Ha.
  apply bool_decide_eq_true in Ha. apply bool_decide_eq_false. congruence.
Qed.

(** ** The scope tree *)

Lemma Scope_eta (s : Scope) :
  mkScope (scope_name s) (scope_fullyQualifiedName s) (symbols s) (children s) = s.
Proof. destruct s; reflexivity. Qed.

(** Writing back what is there changes nothing. *)
Lemma update_fixed (down : list nat) :
  forall (g s : Scope) (f : Scope -> Scope),
    Scope.descend g down = Some s -> f s = s -> Scope.update g down f = g.
Proof.
  induction down as [|i rest IH]; intros g s f Hd Hf; simpl in *.
  - inversion Hd; subst. exact Hf.
  - destruct (children g !! i) as [c|] eqn:Hc; [|discriminate].
    rewrite (IH c s f Hd Hf).
    rewrite list_insert_id by exact Hc.
    apply Scope_eta.
Qed.

(** Reading back what was written. *)
Lemma descend_update (down : list nat) :
  forall (g s : Scope) (f : Scope -> Scope),
    Scope.descend g down = Some s ->
    Scope.descend (Scope.update g down f) down = Some (f s).
Proof.
  induction down as [|i rest IH]; intros g s f Hd; simpl in *.
  - inversion Hd; subst. reflexivity.
  - destruct (children g !! i) as [c|] eqn:Hc; [|discriminate].
    simpl. rewrite list_lookup_insert_eq by (eapply lookup_lt_Some; eauto).
    apply IH. exact Hd.
Qed.

Lemma current_deref t :
  ptr_valid t ->
  Scope.deref (globalScope_ t) (currentScope_ t) = Some (SymbolTable.current t).
Proof.
  intros [s Hs]. unfold SymbolTable.current. rewrite Hs. reflexivity.
Qed.

Lemma current_setCurrent t f :
  ptr_valid t ->
  SymbolTable.current (SymbolTable.setCurrent t f) = f (SymbolTable.current t).
Proof.
  intros Hv. pose proof (current_deref t Hv) as Hc.
  unfold Scope.deref in Hc.
  unfold SymbolTable.current at 1.
  unfold SymbolTable.setCurrent, Scope.deref. simpl.
  rewrite (descend_update _ _ _ f Hc). reflexivity.
Qed.

(** C5: adding a symbol whose simple name is already in the current scope
    returns [false] and leaves the symbol table, hence the symbol map of
    that scope and the symbol first inserted under the name, as it was;
    adding a symbol under a fresh name returns [true] and the symbol map of
    the current scope becomes the old one with the new symbol inserted
    under its name. *)
Theorem addSymbol_keeps_first_or_inserts (t : SymbolTable) (name : string)
    (kind : SymbolKind.t) (node : option NodePtr) :
  ptr_valid t ->
  let sym := mkSymbol name (SymbolTable.buildFullyQualifiedName t name) kind node
               (scope_fullyQualifiedName (SymbolTable.current t)) in
  match symbols (SymbolTable.current t) !! name with
  | Some first =>
      SymbolTable.addSymbol t name kind node = (false, t) /\
      Scope.addSymbol (SymbolTable.current t) sym = (false, SymbolTable.current t)
  | None =>
      fst (SymbolTable.addSymbol t name kind node) = true /\
      currentScope_ (snd (SymbolTable.addSymbol t name kind node)) = currentScope_ t /\
      symbols (SymbolTable.current (snd (SymbolTable.addSymbol t name kind node)))
        = <[name := sym]> (symbols (SymbolTable.current t))
  end.
Proof.
  intros Hv sym.
  destruct (symbols (SymbolTable.current t) !! name) as [first|] eqn:Hl.
  - assert (Hs : Scope.addSymbol (SymbolTable.current t) sym
                 = (false, SymbolTable.current t)).
    { unfold Scope.addSymbol. simpl. rewrite Hl. reflexivity. }
    split; [|exact Hs].
    unfold SymbolTable.addSymbol. fold sym. rewrite Hs. simpl. f_equal.
    unfold SymbolTable.setCurrent.
    rewrite (update_fixed _ _ (SymbolTable.current t)).
    + destruct t; reflexivity.
    + apply current_deref, Hv.
    + rewrite Hs. reflexivity.
  - unfold SymbolTable.addSymbol. fold sym. simpl.
    split; [|split].
    + unfold Scope.addSymbol. simpl. rewrite Hl. reflexivity.
    + reflexivity.
    + rewrite current_setCurrent by exact Hv.
      unfold Scope.addSymbol. simpl. rewrite Hl. reflexivity.
Qed.

(** In module [M], a second [X] is refused and a first [Y] is taken. *)
Lemma addSymbol_keeps_first_or_inserts_witness :
  let t0 := SymbolTable.enterScope
              (snd (SymbolTable.addSymbol SymbolTable.init "M" SymbolKind.Module_ None))
              "M" in
  let t := snd (SymbolTable.addSymbol t0 "X" SymbolKind.Struct None) in
  ptr_valid t /\
  (SymbolTable.addSymbol t "X" SymbolKind.Constant (Some (ToConstNode (CInt64 1)))
   = (false, t) /\
   Scope.addSymbol (SymbolTable.current t)
     (mkSymbol "X" "M::X" SymbolKind.Constant (Some (ToConstNode (CInt64 1))) "M")
   = (false, SymbolTable.current t)) /\
  (fst (SymbolTable.addSymbol t "Y" SymbolKind.Enum (Some ToNode)) = true /\
   currentScope_ (snd (SymbolTable.addSymbol t "Y" SymbolKind.Enum (Some ToNode)))
   = currentScope_ t /\
   symbols (SymbolTable.current
              (snd (SymbolTable.addSymbol t "Y" SymbolKind.Enum (Some ToNode))))
   = <["Y" := mkSymbol "Y" "M::Y" SymbolKind.Enum (Some ToNode) "M"]>
       (symbols (SymbolTable.current t))).
Proof.
  intros t0 t.
  assert (Hv : ptr_valid t) by (eexists; reflexivity).
  split; [exact Hv|]. split.
  - exact (addSymbol_keeps_first_or_inserts t "X" SymbolKind.Constant
             (Some (ToConstNode (CInt64 1))) Hv).
  - exact (addSymbol_keeps_first_or_inserts t "Y" SymbolKind.Enum (Some ToNode) Hv).
Defined.

(** ** Scoped lookup *)

(** [Scope::getChildScope] returns the first child of that name, and
    [Scope::lookupLocal] the entry of the map. *)
Lemma getChildScope_childNamed (s : Scope) (n : string) :
  Scope.getChildScope s n = LookupSpec.childNamed s n.
Proof.
  unfold Scope.getChildScope, LookupSpec.childNamed.
  induction (children s) as [|c rest IH]; [reflexivity|].
  cbn [Scope.childIndex find].
  destruct (String.eqb (scope_name c) n); [reflexivity|].
  destruct (Scope.childIndex rest n) as [j|]; exact IH.
Qed.

Lemma lookupLocal_symbolNamed (s : Scope) (n : string) :
  Scope.lookupLocal s n = LookupSpec.symbolNamed s n.
Proof. reflexivity. Qed.

Lemma resolveFrom_navigate (parts : list string) : forall (s : Scope),
  parts <> [] ->
  LookupSpec.resolveFrom s parts =
  match SymbolTable.navigate s (removelast parts) with
  | None => None
  | Some final => Scope.lookupLocal final (List.last parts "")
  end.
Proof.
  induction parts as [|a rest IH]; intros s Hne; [congruence|].
  destruct rest as [|b rest'].
  - reflexivity.
  - change (LookupSpec.resolveFrom s (a :: b :: rest')) with
      (match LookupSpec.childNamed s a with
       | Some child => LookupSpec.resolveFrom child (b :: rest')
       | None => None end).
    change (removelast (a :: b :: rest')) with (a :: removelast (b :: rest')).
    change (List.last (a :: b :: rest') "") with (List.last (b :: rest') "").
    simpl SymbolTable.navigate. rewrite getChildScope_childNamed.
    destruct (LookupSpec.childNamed s a) as [child|]; [|reflexivity].
    apply IH. discriminate.
Qed.

Lemma lookup_firstAncestor (g : Scope) (n : string) : forall (p : ScopePtr),
  Scope.lookup g p n =
  match LookupSpec.firstAncestor g p (LookupSpec.hasSymbol n) with
  | Some anchor => LookupSpec.symbolNamed anchor n
  | None => None
  end.
Proof.
  unfold LookupSpec.firstAncestor.
  induction p as [|i up IH].
  - cbn [Scope.lookup LookupSpec.ancestors].
    destruct (Scope.deref g []) as [s|]; [|reflexivity].
    cbn [find]. unfold LookupSpec.hasSymbol, LookupSpec.symbolNamed, Scope.lookupLocal.
    destruct (symbols s !! n) as [sym|] eqn:Hl; [|reflexivity].
    symmetry; exact Hl.
  - cbn [Scope.lookup LookupSpec.ancestors].
    destruct (Scope.deref g (i :: up)) as [s|]; [|reflexivity].
    cbn [find]. unfold LookupSpec.hasSymbol at 1.
    unfold LookupSpec.symbolNamed at 1. unfold Scope.lookupLocal.
    destruct (symbols s !! n) as [sym|] eqn:Hl; [|exact IH].
    symmetry; exact Hl.
Qed.

Lemma findFirstPart_firstAncestor (g : Scope) (parts : list string) (n : string) :
  Nat.eqb (length parts) 1 = false ->
  forall (p : ScopePtr),
  SymbolTable.findFirstPart g p parts n =
  match LookupSpec.firstAncestor g p (LookupSpec.hasChild n) with
  | Some ancestor =>
      match LookupSpec.childNamed ancestor n with
      | Some child => SymbolTable.Break child
      | None => SymbolTable.Exhausted
      end
  | None => SymbolTable.Exhausted
  end.
Proof.
  intros Hlen. unfold LookupSpec.firstAncestor.
  induction p as [|i up IH].
  - cbn [SymbolTable.findFirstPart LookupSpec.ancestors]. rewrite Hlen.
    destruct (Scope.deref g []) as [s|]; [|reflexivity].
    cbn [find]. rewrite getChildScope_childNamed. unfold LookupSpec.hasChild.
    destruct (LookupSpec.childNamed s n) as [c|] eqn:Hc; [|reflexivity].
    rewrite Hc; reflexivity.
  - cbn [SymbolTable.findFirstPart LookupSpec.ancestors]. rewrite Hlen.
    destruct (Scope.deref g (i :: up)) as [s|]; [|reflexivity].
    cbn [find]. rewrite getChildScope_childNamed. unfold LookupSpec.hasChild at 1.
    destruct (LookupSpec.childNamed s n) as [c|] eqn:Hc; [|exact IH].
    rewrite Hc; reflexivity.
Qed.

(** The loops of [lookupScoped] compute the resolution in which one part
    is looked up in the scopes from the current one to the global one. *)
Lemma lookupScoped_resolution (t : SymbolTable) (parts : list string)
    (isAbsolute : bool) :
  SymbolTable.lookupScoped t parts isAbsolute =
  LookupSpec.lookupScoped t parts isAbsolute.
Proof.
  unfold SymbolTable.lookupScoped, LookupSpec.lookupScoped.
  destruct parts as [|part0 rest].
  - destruct isAbsolute; reflexivity.
  - destruct isAbsolute.
    + simpl negb. simpl andb. cbv iota.
      rewrite resolveFrom_navigate by discriminate. reflexivity.
    + simpl negb. rewrite andb_true_l.
      destruct rest as [|part1 rest'].
      * change (Nat.eqb (length [part0]) 1) with true. cbv iota.
        apply lookup_firstAncestor.
      * change (Nat.eqb (length (part0 :: part1 :: rest')) 1) with false.
        cbv iota.
        rewrite findFirstPart_firstAncestor by reflexivity.
        destruct (LookupSpec.firstAncestor (globalScope_ t) (currentScope_ t)
                    (LookupSpec.hasChild part0)) as [ancestor|] eqn:Ha.
        -- destruct (LookupSpec.childNamed ancestor part0) as [anchor|]; [|reflexivity].
           rewrite resolveFrom_navigate by discriminate. reflexivity.
        -- reflexivity.
Qed.

(** ** Panic mode *)

Lemma advance_panicMode p : panicMode_ (Parser.advance p) = panicMode_ p.
Proof.
  unfold Parser.advance.
  destruct (Parser.advanceLoop _ _ _ _) as [[tok lx] errs]. reflexivity.
Qed.

Lemma advance_previous p : previousToken_ (Parser.advance p) = currentToken_ p.
Proof.
  unfold Parser.advance.
  destruct (Parser.advanceLoop _ _ _ _) as [[tok lx] errs]. reflexivity.
Qed.

Lemma errorAt_suppressed token msg p :
  panicMode_ p = true -> Parser.errorAt token msg p = p.
Proof. intros H. unfold Parser.errorAt. rewrite H. reflexivity. Qed.

Lemma step_panicMode a p : panicMode_ p = true -> panicMode_ (step a p) = true.
Proof.
  intros H. destruct a; simpl.
  - rewrite advance_panicMode. exact H.
  - rewrite errorAt_suppressed; exact H.
  - exact H.
  - exact H.
Qed.

Lemma run_cons a actions p : run (a :: actions) p = run actions (step a p).
Proof. reflexivity. Qed.

(** In panic mode the reports of a run can be struck out. *)
Lemma run_panic (actions : list Action) : forall p,
  panicMode_ p = true ->
  panicMode_ (run actions p) = true /\
  run actions p = run (withoutReports actions) p.
Proof.
  unfold withoutReports.
  induction actions as [|a rest IH]; intros p H.
  - split; [exact H|reflexivity].
  - rewrite run_cons.
    destruct (isReport a) eqn:Hr.
    + destruct a; try discriminate.
      cbn [List.filter isReport negb step].
      rewrite (errorAt_suppressed _ _ _ H). apply IH, H.
    + assert (Hf : List.filter (fun a => negb (isReport a)) (a :: rest)
                   = a :: List.filter (fun a => negb (isReport a)) rest).
      { cbn [List.filter]. rewrite Hr. reflexivity. }
      rewrite Hf, run_cons. apply IH. apply step_panicMode, H.
Qed.

(** A call of [advance] leaves [Eof] in the current token or takes a token
    from the lexer. *)
Lemma advanceLoop_progress (up : list (Token * list LexerError)) :
  forall lexErrors endLoc errors,
    let '(tok, lx, _) := Parser.advanceLoop up lexErrors endLoc errors in
    (up = [] -> tok_type tok = TokenType.Eof) /\
    (up <> [] -> tok_type tok = TokenType.Eof \/ length (upcoming lx) < length up) /\
    length (upcoming lx) <= length up.
Proof.
  induction up as [|[tok0 errs0] rest IH]; intros lexErrors endLoc errors.
  - simpl. split; [reflexivity|]. split; [congruence|]. lia.
  - simpl.
    destruct (Parser.check_type TokenType.LineDirective tok0).
    + specialize (IH (lexErrors ++ errs0) endLoc errors).
      destruct (Parser.advanceLoop rest _ _ _) as [[tok lx] errs].
      destruct IH as (H1 & H2 & H3).
      split; [congruence|]. split; [|simpl; lia].
      intros _. destruct rest as [|x rest'].
      * left. apply H1. reflexivity.
      * destruct H2 as [H2|H2]; [discriminate|left; exact H2|right; simpl in *; lia].
    + destruct (negb (Parser.check_type TokenType.Unknown tok0)).
      * simpl. split; [congruence|]. split; [right; lia|lia].
      * match goal with |- context [Parser.advanceLoop rest ?a ?b ?c] =>
          specialize (IH a b c) end.
        destruct (Parser.advanceLoop rest _ _ _) as [[tok lx] errs].
        destruct IH as (H1 & H2 & H3).
        split; [congruence|]. split; [|simpl; lia].
        intros _. destruct rest as [|x rest'].
        -- left. apply H1. reflexivity.
        -- destruct H2 as [H2|H2]; [discriminate|left; exact H2|right; simpl in *; lia].
Qed.

Lemma advance_progress p :
  Parser.check TokenType.Eof (Parser.advance p) = true \/
  length (upcoming (lexer_ (Parser.advance p))) < length (upcoming (lexer_ p)).
Proof.
  unfold Parser.advance, Parser.check, Parser.check_type.
  pose proof (advanceLoop_progress (upcoming (lexer_ p)) (lexer_errors_ (lexer_ p))
                (endLocation (lexer_ p)) (errors_ p)) as H.
  destruct (Parser.advanceLoop _ _ _ _) as [[tok lx] errs]. simpl.
  destruct H as (H1 & H2 & H3).
  destruct (upcoming (lexer_ p)) as [|x rest] eqn:Hu.
  - left. apply bool_decide_eq_true. apply H1. reflexivity.
  - destruct H2 as [H2|H2]; [discriminate| |right; exact H2].
    left. apply bool_decide_eq_true. exact H2.
Qed.

(** With more fuel than the lexer has tokens the loop of [synchronize]
    comes to its end: it is some number [n] of calls of [advance], the
    first to reach a place where [synchronize] stops. *)
Lemma synchronizeLoop_spec (fuel : nat) : forall p,
  length (upcoming (lexer_ p)) < fuel ->
  exists n,
    Parser.synchronizeLoop fuel p = closing (Nat.iter n Parser.advance p) /\
    synchronized (Nat.iter n Parser.advance p) = true /\
    forall k, k < n -> synchronized (Nat.iter k Parser.advance p) = false.
Proof.
  induction fuel as [|fuel IH]; intros p Hlen; [lia|].
  simpl Parser.synchronizeLoop.
  destruct (Parser.check TokenType.Eof p) eqn:Heof.
  { exists 0. simpl. unfold closing, synchronized. rewrite Heof. simpl.
    split; [reflexivity|]. split; [reflexivity|]. intros; lia. }
  destruct (Parser.check_type TokenType.Semicolon (previousToken_ p)) eqn:Hsemi.
  { exists 0. simpl. unfold closing, synchronized. rewrite Heof, Hsemi. simpl.
    split; [reflexivity|]. split; [reflexivity|]. intros; lia. }
  destruct (Parser.check_type TokenType.RightBrace (previousToken_ p)) eqn:Hbrace.
  { exists 0. simpl. unfold closing, synchronized. rewrite Heof, Hsemi, Hbrace. simpl.
    split; [reflexivity|]. split; [reflexivity|]. intros; lia. }
  destruct (Parser.isDefinitionStart p) eqn:Hdef.
  { exists 0. simpl. unfold closing, synchronized.
    rewrite Heof, Hsemi, Hbrace, Hdef. simpl.
    split; [reflexivity|]. split; [reflexivity|]. intros; lia. }
  assert (Hnot : synchronized p = false).
  { unfold synchronized. rewrite Heof, Hsemi, Hbrace, Hdef. reflexivity. }
  destruct (advance_progress p) as [Hend|Hless].
  - exists 1. simpl.
    assert (Hs : synchronized (Parser.advance p) = true).
    { unfold synchronized. rewrite Hend. reflexivity. }
    split; [|split; [exact Hs|]].
    + unfold closing. rewrite Hend. simpl.
      destruct fuel; simpl; [reflexivity|]. rewrite Hend. reflexivity.
    + intros k Hk. assert (k = 0) by lia. subst. exact Hnot.
  - destruct (IH (Parser.advance p)) as (n & Hn1 & Hn2 & Hn3); [lia|].
    exists (S n). rewrite Nat.iter_succ_r.
    split; [exact Hn1|]. split; [exact Hn2|].
    intros k Hk. destruct k as [|k]; [exact Hnot|].
    rewrite Nat.iter_succ_r. apply Hn3. lia.
Qed.

Lemma iter_advance_panicMode n : forall p,
  panicMode_ (Nat.iter n Parser.advance p) = panicMode_ p.
Proof.
  induction n as [|n IH]; intros p; [reflexivity|].
  simpl. rewrite advance_panicMode. apply IH.
Qed.

Lemma closing_panicMode p : panicMode_ (closing p) = panicMode_ p.
Proof.
  unfold closing. destruct (_ && _); [apply advance_panicMode|reflexivity].
Qed.

Lemma closing_synchronized p :
  synchronized p = true -> synchronized (closing p) = true.
Proof.
  intros H. unfold closing.
  destruct (negb (Parser.check TokenType.Eof p)
            && negb (Parser.check_type TokenType.Semicolon (previousToken_ p))
            && Parser.check_type TokenType.RightBrace (previousToken_ p)
            && Parser.check TokenType.Semicolon p) eqn:Hc; [|exact H].
  apply andb_true_iff in Hc. destruct Hc as [_ Hc].
  unfold synchronized. rewrite advance_previous.
  unfold Parser.check in Hc. rewrite Hc.
  rewrite orb_true_r. reflexivity.
Qed.

(** What [synchronize] does, from any parser. *)
Lemma synchronize_spec (p : Parser) :
  panicMode_ (Parser.synchronize p) = false /\
  synchronized (Parser.synchronize p) = true /\
  exists n,
    Parser.synchronize p = closing (Nat.iter n Parser.advance (calm p)) /\
    synchronized (Nat.iter n Parser.advance (calm p)) = true /\
    forall k, k < n -> synchronized (Nat.iter k Parser.advance (calm p)) = false.
Proof.
  destruct (synchronizeLoop_spec (S (length (upcoming (lexer_ p)))) (calm p))
    as (n & H1 & H2 & H3); [simpl; lia|].
  unfold Parser.synchronize. fold (calm p).
  rewrite H1.
  split; [|split].
  - rewrite closing_panicMode, iter_advance_panicMode. reflexivity.
  - apply closing_synchronized. exact H2.
  - exists n. split; [reflexivity|]. split; [exact H2|exact H3].
Qed.

Lemma isDefinitionStart_openers (p : Parser) :
  Parser.isDefinitionStart p
  = bool_decide (tok_type (currentToken_ p) ∈ definitionOpeners).
Proof.
  unfold Parser.isDefinitionStart.
  destruct (tok_type (currentToken_ p)); vm_compute; reflexivity.
Qed.

(** C7: once the parser [p0] has reported an error [token0, msg0] (one
    diagnostic appended, [panicMode_] set), then after any [actions] of the
    parser other than [synchronize], panic mode is still on, a further
    report [token, msg] changes nothing, and the parser is the one that the
    same actions without their reports lead to.  [synchronize], from any
    parser [q], clears [panicMode_] and is a number [n] of calls of
    [advance], the least after which the parser is behind a [;], behind a
    [}] (then a [;] that follows is taken too), in front of a token that
    opens a definition (module, interface, struct, union, enum, typedef,
    const, exception, abstract, local), or at the end of the input. *)
Theorem panic_mode_suppression (p0 q : Parser) (token0 token : Token)
    (msg0 msg : string) (actions : list Action) :
  panicMode_ p0 = false ->
  let p := Parser.errorAt token0 msg0 p0 in
  (exists diagnostic,
     errors_ p = errors_ p0 ++ [diagnostic] /\ isWarning diagnostic = false) /\
  panicMode_ p = true /\
  (panicMode_ (run actions p) = true /\
   Parser.errorAt token msg (run actions p) = run actions p /\
   run actions p = run (withoutReports actions) p) /\
  (panicMode_ (Parser.synchronize q) = false /\
   synchronized (Parser.synchronize q) = true /\
   exists n,
     Parser.synchronize q = closing (Nat.iter n Parser.advance (calm q)) /\
     synchronized (Nat.iter n Parser.advance (calm q)) = true /\
     forall k, k < n -> synchronized (Nat.iter k Parser.advance (calm q)) = false) /\
  (forall r,
     synchronized r
     = Parser.check TokenType.Eof r
       || Parser.check_type TokenType.Semicolon (previousToken_ r)
       || Parser.check_type TokenType.RightBrace (previousToken_ r)
       || bool_decide (tok_type (currentToken_ r) ∈ definitionOpeners)).
Proof.
  intros H0 p.
  assert (Hp : panicMode_ p = true).
  { unfold p, Parser.errorAt. rewrite H0. reflexivity. }
  split.
  { unfold p, Parser.errorAt. rewrite H0. eexists. simpl.
    split; reflexivity. }
  split; [exact Hp|].
  split.
  { destruct (run_panic actions p Hp) as [H1 H2].
    split; [exact H1|]. split; [|exact H2].
    apply errorAt_suppressed. exact H1. }
  split; [apply synchronize_spec|].
  intros r. unfold synchronized. rewrite isDefinitionStart_openers. reflexivity.
Qed.

(** On [x y } ; struct]: the error at [x] is reported, the error at [y]
    is not, and [synchronize] stops behind the [;] that follows the [}]. *)
Lemma panic_mode_suppression_witness :
  let p0 := Source.parser Examples.strayIdentifiers in
  let p := Parser.error "Expected definition" p0 in
  let actions := [Advance; ErrorAt (currentToken_ (Parser.advance p)) "Expected ';'"] in
  panicMode_ p0 = false /\
  length (errors_ p) = 1 /\
  panicMode_ (run actions p) = true /\
  errors_ (run actions p) = errors_ p /\
  run actions p = Parser.advance p /\
  panicMode_ (Parser.synchronize (run actions p)) = false /\
  Parser.synchronize (run actions p) = Nat.iter 3 Parser.advance (calm (run actions p)) /\
  text (previousToken_ (Parser.synchronize (run actions p))) = ";" /\
  text (currentToken_ (Parser.synchronize (run actions p))) = "struct".
Proof.
  intros p0 p actions.
  assert (H0 : panicMode_ p0 = false) by reflexivity.
  pose proof (panic_mode_suppression p0 (run actions p) (currentToken_ p0)
                (currentToken_ p0) "Expected definition" "again" actions H0)
    as (_ & _ & (Hpanic & _ & Hrun) & (Hcalm & _ & _) & _).
  change (panicMode_ (run actions p) = true) in Hpanic.
  change (run actions p = run (withoutReports actions) p) in Hrun.
  split; [exact H0|].
  split; [reflexivity|].
  split; [exact Hpanic|].
  split; [rewrite Hrun; reflexivity|].
  split; [rewrite Hrun; reflexivity|].
  split; [exact Hcalm|].
  split; [vm_compute; reflexivity|].
  split; vm_compute; reflexivity.
Defined.

(** ** Constant folding *)

(** The equations of the loops at an operator. *)
Lemma addLoop_plus rec fuel left right p p2 :
  Parser.check TokenType.Plus p = true ->
  Parser.parseMulExpr rec fuel (Parser.advance p) = Ret right p2 ->
  Parser.addLoop rec (S fuel) left p
  = Parser.addLoop rec fuel (Parser.foldAdd left right) p2.
Proof.
  intros Hc Hr. cbn [Parser.addLoop].
  rewrite (bind_match_true _ _ _ Hc).
  rewrite (bind_Ret _ _ _ _ _ Hr). reflexivity.
Qed.

Lemma addLoop_minus rec fuel left right p p2 :
  Parser.check TokenType.Minus p = true ->
  Parser.parseMulExpr rec fuel (Parser.advance p) = Ret right p2 ->
  Parser.addLoop rec (S fuel) left p
  = Parser.addLoop rec fuel (Parser.foldSub left right) p2.
Proof.
  intros Hc Hr. cbn [Parser.addLoop].
  rewrite bind_match_false
    by (apply (check_exclusive TokenType.Minus); [discriminate|exact Hc]).
  rewrite (bind_match_true _ _ _ Hc).
  rewrite (bind_Ret _ _ _ _ _ Hr). reflexivity.
Qed.

Lemma mulLoop_star rec fuel left right p p2 :
  Parser.check TokenType.Star p = true ->
  Parser.parseUnaryExpr rec fuel (Parser.advance p) = Ret right p2 ->
  Parser.mulLoop rec (S fuel) left p
  = Parser.mulLoop rec fuel (Parser.foldMul left right) p2.
Proof.
  intros Hc Hr. cbn [Parser.mulLoop].
  rewrite (bind_match_true _ _ _ Hc).
  rewrite (bind_Ret _ _ _ _ _ Hr). reflexivity.
Qed.

Lemma mulLoop_slash rec fuel left right p p2 :
  Parser.check TokenType.Slash p = true ->
  Parser.parseUnaryExpr rec fuel (Parser.advance p) = Ret right p2 ->
  Parser.mulLoop rec (S fuel) left p
  = if Parser.divOverflows left right then Undefined
    else Parser.mulLoop rec fuel (Parser.foldDiv left right) p2.
Proof.
  intros Hc Hr. cbn [Parser.mulLoop].
  rewrite bind_match_false
    by (apply (check_exclusive TokenType.Slash); [discriminate|exact Hc]).
  rewrite (bind_match_true _ _ _ Hc).
  rewrite (bind_Ret _ _ _ _ _ Hr).
  destruct (Parser.divOverflows left right); reflexivity.
Qed.

Lemma mulLoop_percent rec fuel left right p p2 :
  Parser.check TokenType.Percent p = true ->
  Parser.parseUnaryExpr rec fuel (Parser.advance p) = Ret right p2 ->
  Parser.mulLoop rec (S fuel) left p
  = if Parser.divOverflows left right then Undefined
    else Parser.mulLoop rec fuel (Parser.foldMod left right) p2.
Proof.
  intros Hc Hr. cbn [Parser.mulLoop].
  rewrite bind_match_false
    by (apply (check_exclusive TokenType.Percent); [discriminate|exact Hc]).
  rewrite bind_match_false
    by (apply (check_exclusive TokenType.Percent); [discriminate|exact Hc]).
  rewrite (bind_match_true _ _ _ Hc).
  rewrite (bind_Ret _ _ _ _ _ Hr).
  destruct (Parser.divOverflows left right); reflexivity.
Qed.

(** The quotient overflows on two [int64_t] only, and not by a divisor
    that is zero. *)
Lemma divOverflows_other l r :
  ~ sameArithmeticType l r -> Parser.divOverflows l r = false.
Proof.
  intros Hn. destruct l as [a| |a| |]; destruct r as [b| |b| |]; try reflexivity.
  exfalso. apply Hn. left. exists a, b. split; reflexivity.
Qed.

Lemma divOverflows_zero l r : isZero r = true -> Parser.divOverflows l r = false.
Proof.
  destruct l as [a| |a| |]; destruct r as [b| |b| |]; try reflexivity.
  cbn [isZero Parser.divOverflows]. intros Hz. apply Z.eqb_eq in Hz. subst b.
  apply andb_false_r.
Qed.

Lemma fold_only_same (f : ConstValue -> ConstValue -> ConstValue) :
  (f = Parser.foldAdd \/ f = Parser.foldSub \/ f = Parser.foldMul
   \/ f = Parser.foldDiv) ->
  forall l r, f l r <> l -> bothInt64 l r \/ bothDouble l r.
Proof.
  intros Hf l r Hne.
  destruct l as [a| | a | |]; destruct r as [b| |b| |];
    try (exfalso; apply Hne;
         destruct Hf as [->|[->|[->| ->]]]; reflexivity).
  - left. exists a, b. split; reflexivity.
  - right. exists a, b. split; reflexivity.
Qed.

Lemma fold_by_zero left right :
  isZero right = true ->
  Parser.foldMod left right = left /\
  (~ bothDouble left right -> Parser.foldDiv left right = left).
Proof.
  intros Hz.
  destruct left as [a|a|a|a|a]; destruct right as [b|b|b|b|b];
    cbn [isZero] in Hz; try discriminate Hz;
    cbn [Parser.foldMod Parser.foldDiv]; rewrite ?Hz;
    (split; [reflexivity|]); intros Hn; try reflexivity.
  exfalso. apply Hn. exists a, b. split; reflexivity.
Qed.

Lemma fold_not_applicable l r :
  ~ sameArithmeticType l r ->
  Parser.foldAdd l r = l /\ Parser.foldSub l r = l /\
  Parser.foldMul l r = l /\ Parser.foldDiv l r = l.
Proof.
  intros Hn.
  destruct l as [a| |a| |]; destruct r as [b| |b| |]; try (repeat split; reflexivity);
    exfalso; apply Hn; [left|right]; exists a, b; split; reflexivity.
Qed.

Lemma index_sameArithmeticType l r :
  sameArithmeticType l r -> index l = index r.
Proof. intros [(a & b & -> & ->)|(a & b & -> & ->)]; reflexivity. Qed.

(** C10: [+], [-], [*] and [/] change [left] only when both operands are
    [int64_t] or both are [double].  In every other case, which includes
    operands of different alternatives of the variant and any operand that
    is a string or a boolean, the assignment to [left] does not happen, and
    the loop of [parseAddExpr] (of [parseMulExpr]) that has taken the
    operator and parsed [right] goes on with [left] as it was, from the
    parser as the right operand left it: operator and operand are dropped
    without a diagnostic. *)
Theorem mismatched_operands_are_discarded (left right : ConstValue) :
  ~ sameArithmeticType left right ->
  (Parser.foldAdd left right = left /\ Parser.foldSub left right = left /\
   Parser.foldMul left right = left /\ Parser.foldDiv left right = left) /\
  (forall rec fuel p p2,
     Parser.check TokenType.Plus p = true \/ Parser.check TokenType.Minus p = true ->
     Parser.parseMulExpr rec fuel (Parser.advance p) = Ret right p2 ->
     Parser.addLoop rec (S fuel) left p = Parser.addLoop rec fuel left p2) /\
  (forall rec fuel p p2,
     Parser.check TokenType.Star p = true \/ Parser.check TokenType.Slash p = true ->
     Parser.parseUnaryExpr rec fuel (Parser.advance p) = Ret right p2 ->
     Parser.mulLoop rec (S fuel) left p = Parser.mulLoop rec fuel left p2) /\
  (forall l r, index l <> index r -> ~ sameArithmeticType l r) /\
  (forall l r,
     Parser.foldAdd l r <> l \/ Parser.foldSub l r <> l \/
     Parser.foldMul l r <> l \/ Parser.foldDiv l r <> l ->
     sameArithmeticType l r).
Proof.
  intros Hne.
  destruct (fold_not_applicable left right Hne) as (Ha & Hs & Hm & Hd).
  split; [repeat split; assumption|].
  split; [|split; [|split]].
  - intros rec fuel p p2 [Hc|Hc] Hr.
    + rewrite (addLoop_plus _ _ _ _ _ _ Hc Hr), Ha. reflexivity.
    + rewrite (addLoop_minus _ _ _ _ _ _ Hc Hr), Hs. reflexivity.
  - intros rec fuel p p2 [Hc|Hc] Hr.
    + rewrite (mulLoop_star _ _ _ _ _ _ Hc Hr), Hm. reflexivity.
    + rewrite (mulLoop_slash _ _ _ _ _ _ Hc Hr), (divOverflows_other _ _ Hne), Hd.
      reflexivity.
  - intros l r Hi Hsame. apply Hi, index_sameArithmeticType, Hsame.
  - intros l r [H|[H|[H|H]]];
      [ apply (fold_only_same Parser.foldAdd)
      | apply (fold_only_same Parser.foldSub)
      | apply (fold_only_same Parser.foldMul)
      | apply (fold_only_same Parser.foldDiv) ]; auto.
Qed.

(** [1 + 2.5] folds to [1]. *)
Lemma mismatched_operands_are_discarded_witness :
  let rec := Parser.parseConstExpr 8 in
  let p := Parser.advance (Source.parser Examples.mixedSum) in
  let p2 := Parser.advance (Parser.advance p) in
  ~ sameArithmeticType (CInt64 1) (CDouble 2.5) /\
  Parser.check TokenType.Plus p = true /\
  Parser.parseMulExpr rec 8 (Parser.advance p) = Ret (CDouble 2.5) p2 /\
  Parser.addLoop rec 9 (CInt64 1) p = Parser.addLoop rec 8 (CInt64 1) p2 /\
  Parser.parseConstExpr 12 (Source.parser Examples.mixedSum) = Ret (CInt64 1) p2 /\
  errors_ p2 = [].
Proof.
  intros rec p p2.
  assert (Hne : ~ sameArithmeticType (CInt64 1) (CDouble 2.5)).
  { intros [(a & b & _ & H)|(a & b & H & _)]; discriminate. }
  assert (Hc : Parser.check TokenType.Plus p = true) by reflexivity.
  assert (Hr : Parser.parseMulExpr rec 8 (Parser.advance p) = Ret (CDouble 2.5) p2)
    by (vm_compute; reflexivity).
  destruct (mismatched_operands_are_discarded (CInt64 1) (CDouble 2.5) Hne)
    as (_ & Hadd & _ & _).
  split; [exact Hne|]. split; [exact Hc|]. split; [exact Hr|].
  split; [exact (Hadd rec 8 p p2 (or_introl Hc) Hr)|].
  split; vm_compute; reflexivity.
Defined.

(** C3, as it holds: a division or a modulus whose right operand folds to
    zero, be it the integer 0 or a floating zero, is suppressed whatever
    the left operand, but for one case.  The loop of [parseMulExpr] that
    has taken [%] and parsed the zero, or has taken [/] and parsed the
    zero when the two operands are not both doubles, goes on with [left] as
    it was, from the parser as the operand left it, so without a
    diagnostic.  The case apart is the division of a double by a double:
    it is evaluated whatever the divisor, [left] becomes the IEEE quotient,
    and the loop goes on from the same parser, without a diagnostic
    either. *)
Theorem division_by_zero_is_suppressed_unless_floating (rec : M ConstValue)
    (fuel : nat) (left right : ConstValue) (p p2 : Parser) :
  isZero right = true ->
  Parser.parseUnaryExpr rec fuel (Parser.advance p) = Ret right p2 ->
  (Parser.check TokenType.Percent p = true ->
   Parser.mulLoop rec (S fuel) left p = Parser.mulLoop rec fuel left p2) /\
  (Parser.check TokenType.Slash p = true ->
   (~ bothDouble left right ->
    Parser.mulLoop rec (S fuel) left p = Parser.mulLoop rec fuel left p2) /\
   (forall l r, left = CDouble l -> right = CDouble r ->
      Parser.mulLoop rec (S fuel) left p
      = Parser.mulLoop rec fuel (CDouble (l / r)%float) p2)) /\
  Parser.foldMod left right = left /\
  (~ bothDouble left right -> Parser.foldDiv left right = left) /\
  (forall l r, Parser.foldDiv (CDouble l) (CDouble r) = CDouble (l / r)%float).
Proof.
  intros Hz Hr.
  destruct (fold_by_zero left right Hz) as [Hm Hd].
  pose proof (divOverflows_zero left right Hz) as Ho.
  split; [|split; [|split; [exact Hm|split; [exact Hd|reflexivity]]]].
  - intros Hc. rewrite (mulLoop_percent _ _ _ _ _ _ Hc Hr), Ho, Hm. reflexivity.
  - intros Hc. split.
    + intros Hn. rewrite (mulLoop_slash _ _ _ _ _ _ Hc Hr), Ho, (Hd Hn). reflexivity.
    + intros l r -> ->. rewrite (mulLoop_slash _ _ _ _ _ _ Hc Hr). reflexivity.
Qed.

(** [7 / 0.0] folds to [7], as [7 / 0] does, and [2.5 % 0] to [2.5]. *)
Lemma division_by_zero_is_suppressed_unless_floating_witness :
  let rec := Parser.parseConstExpr 8 in
  let p := Parser.advance (Source.parser Examples.quotientByFloatingZero) in
  let p2 := Parser.advance (Parser.advance p) in
  (isZero (CDouble 0) = true /\
   Parser.parseUnaryExpr rec 8 (Parser.advance p) = Ret (CDouble 0) p2 /\
   Parser.check TokenType.Slash p = true /\
   ~ bothDouble (CInt64 7) (CDouble 0)) /\
  Parser.mulLoop rec 9 (CInt64 7) p = Parser.mulLoop rec 8 (CInt64 7) p2 /\
  Parser.parseConstExpr 12 (Source.parser Examples.quotientByFloatingZero)
  = Ret (CInt64 7) p2 /\
  errors_ p2 = [] /\
  match Parser.parseConstExpr 12 (Source.parser Examples.quotientByZero) with
  | Ret folded q => folded = CInt64 7 /\ errors_ q = []
  | _ => False
  end /\
  match Parser.parseConstExpr 12 (Source.parser Examples.floatingModuloZero) with
  | Ret folded q => folded = CDouble 2.5 /\ errors_ q = []
  | _ => False
  end.
Proof.
  intros rec p p2.
  assert (Hz : isZero (CDouble 0) = true) by reflexivity.
  assert (Hr : Parser.parseUnaryExpr rec 8 (Parser.advance p) = Ret (CDouble 0) p2)
    by (vm_compute; reflexivity).
  assert (Hc : Parser.check TokenType.Slash p = true) by reflexivity.
  assert (Hn : ~ bothDouble (CInt64 7) (CDouble 0)).
  { intros (a & b & H & _). discriminate. }
  split; [split; [exact Hz|split; [exact Hr|split; [exact Hc|exact Hn]]]|].
  split.
  { exact (proj1 (proj1 (proj2 (division_by_zero_is_suppressed_unless_floating
                                   rec 8 (CInt64 7) (CDouble 0) p p2 Hz Hr)) Hc) Hn). }
  split; [vm_compute; reflexivity|]. split; [vm_compute; reflexivity|].
  split; vm_compute; split; reflexivity.
Defined.

(** The division that overflows: the least [int64_t] divided by -1, or
    taken modulo -1, has no result, as in
    [( - 9223372036854775807 - 1 ) / - 1]. *)
Lemma division_overflow_is_undefined (rec : M ConstValue) (fuel : nat)
    (p p2 : Parser) :
  Parser.check TokenType.Slash p = true \/ Parser.check TokenType.Percent p = true ->
  Parser.parseUnaryExpr rec fuel (Parser.advance p) = Ret (CInt64 (-1)) p2 ->
  Parser.mulLoop rec (S fuel) (CInt64 (- 2 ^ 63)) p = Undefined.
Proof.
  intros [Hc|Hc] Hr.
  - rewrite (mulLoop_slash _ _ _ _ _ _ Hc Hr). reflexivity.
  - rewrite (mulLoop_percent _ _ _ _ _ _ Hc Hr). reflexivity.
Qed.

Lemma division_overflow_example :
  Parser.parseConstExpr 12 (Source.parser Examples.quotientOverflow) = Undefined.
Proof. vm_compute. reflexivity. Qed.

(** C3 as stated fails on doubles: in [const double X = 1.0 / 0.0 ;] the
    right operand folds to zero and the folded value is not the left
    operand [1.0] any more but infinity. *)
Lemma double_division_by_zero_is_evaluated :
  isZero (CDouble 0) = true /\
  match Parser.parse 30 (Source.parser Examples.doubleDivisionByZero) with
  | Ret unit p =>
      exists fqn loc type folded,
        unit_definitions unit = [ConstNode "X" fqn loc type folded] /\
        folded = Parser.foldDiv (CDouble 1) (CDouble 0) /\
        folded = CDouble infinity /\
        folded <> CDouble 1 /\
        errors_ p = []
  | _ => False
  end.
Proof.
  split; [reflexivity|].
  vm_compute. do 4 eexists. split; [reflexivity|].
  split; [reflexivity|]. split; [reflexivity|]. split; [|reflexivity].
  intros H.
  apply (f_equal (fun v => match v with
                           | CDouble d => PrimFloat.eqb d 1%float
                           | _ => false
                           end)) in H.
  vm_compute in H. discriminate.
Qed.

Lemma check_type_other a b tok :
  tok_type tok = a -> a <> b -> Parser.check_type b tok = false.
Proof.
  intros Ha Hne. unfold Parser.check_type. apply bool_decide_eq_false. congruence.
Qed.

(** C4, as it holds: a scoped name in the place of a primary expression,
    once its parts are collected (leaving the parser [p2]) and resolved by
    [lookupScoped] to a symbol of kind [EnumValue], folds to the integer 0,
    whatever the position of the enumerator, and without a diagnostic. *)
Theorem enumerator_reference_folds_to_zero
    (rec : M ConstValue) (fuel : nat) (p p2 : Parser) (parts : list string)
    (sym : Symbol) :
  Parser.check TokenType.Identifier p || Parser.check TokenType.DoubleColon p = true ->
  Parser.constantPartsLoop fuel [] (snd (Parser.match_ TokenType.DoubleColon p))
    = Ret parts p2 ->
  SymbolTable.lookupScoped (symbolTable_ p2) parts
    (fst (Parser.match_ TokenType.DoubleColon p)) = Some sym ->
  sym_kind sym = SymbolKind.EnumValue ->
  Parser.parsePrimaryExpr rec fuel p = Ret (CInt64 0) p2.
Proof.
  intros Htok Hparts Hfound Hkind.
  assert (Hother : forall b, b <> TokenType.Identifier -> b <> TokenType.DoubleColon ->
                     Parser.check_type b (currentToken_ p) = false).
  { intros b H1 H2. unfold Parser.check, Parser.check_type in *.
    apply bool_decide_eq_false. intros Hb.
    apply orb_true_iff in Htok. destruct Htok as [H|H];
      apply bool_decide_eq_true in H; congruence. }
  unfold Parser.parsePrimaryExpr.
  rewrite bind_match_false by (apply Hother; discriminate).
  rewrite bind_ask.
  rewrite !Hother by discriminate. cbn [orb].
  rewrite bind_match_false by (apply Hother; discriminate).
  rewrite bind_match_false by (apply Hother; discriminate).
  rewrite bind_ask.
  unfold Parser.check in Htok. rewrite Htok.
  rewrite bind_call.
  rewrite (bind_Ret _ _ _ _ _ Hparts).
  rewrite bind_ask. rewrite Hfound. rewrite Hkind.
  reflexivity.
Qed.

(** After [enum Color { RED , GREEN } ;], the primary [GREEN] of
    [const long C = GREEN ;] folds to 0. *)
Lemma enumerator_reference_folds_to_zero_witness :
  match Parser.parseDefinition 20 (Source.parser Examples.enumConstant) with
  | Ret _ q =>
      let p := Nat.iter 4 Parser.advance q in
      let p2 := Parser.advance p in
      let green := mkSymbol "GREEN" "GREEN" SymbolKind.EnumValue None "" in
      (Parser.check TokenType.Identifier p || Parser.check TokenType.DoubleColon p = true /\
       Parser.constantPartsLoop 5 [] (snd (Parser.match_ TokenType.DoubleColon p))
       = Ret ["GREEN"] p2 /\
       SymbolTable.lookupScoped (symbolTable_ p2) ["GREEN"]
         (fst (Parser.match_ TokenType.DoubleColon p)) = Some green /\
       sym_kind green = SymbolKind.EnumValue) /\
      Parser.parsePrimaryExpr (Parser.parseConstExpr 5) 5 p = Ret (CInt64 0) p2 /\
      errors_ p2 = []
  | _ => False
  end.
Proof.
  destruct (Parser.parseDefinition 20 (Source.parser Examples.enumConstant))
    as [d q| | |] eqn:Hq; [|vm_compute in Hq; discriminate..].
  assert (Hq' : q = match Parser.parseDefinition 20 (Source.parser Examples.enumConstant)
                    with Ret _ q => q | _ => q end) by (rewrite Hq; reflexivity).
  intros p p2 green.
  assert (H1 : Parser.check TokenType.Identifier p
               || Parser.check TokenType.DoubleColon p = true)
    by (unfold p; rewrite Hq'; vm_compute; reflexivity).
  assert (H2 : Parser.constantPartsLoop 5 []
                 (snd (Parser.match_ TokenType.DoubleColon p)) = Ret ["GREEN"] p2)
    by (unfold p2, p; rewrite Hq'; vm_compute; reflexivity).
  assert (H3 : SymbolTable.lookupScoped (symbolTable_ p2) ["GREEN"]
                 (fst (Parser.match_ TokenType.DoubleColon p)) = Some green)
    by (unfold p2, p; rewrite Hq'; vm_compute; reflexivity).
  split; [repeat split; assumption|].
  split; [exact (enumerator_reference_folds_to_zero _ 5 p p2 ["GREEN"] green
                   H1 H2 H3 eq_refl)|].
  unfold p2, p; rewrite Hq'; vm_compute; reflexivity.
Defined.

(** C4 as stated fails: in [enum Color { RED , GREEN } ; const long C =
    GREEN ;] the name [GREEN] resolves to an [EnumValue] symbol, its
    position in [Color] is 1, and the folded value of [C] is 0. *)
Lemma enumerator_ordinal_counterexample :
  match Parser.parse 30 (Source.parser Examples.enumConstant) with
  | Ret unit p =>
      exists loc loc' type enumerators folded,
        unit_definitions unit
        = [EnumNode "Color" "Color" loc enumerators;
           ConstNode "C" "C" loc' type folded] /\
        option_map sym_kind (SymbolTable.lookupScoped (symbolTable_ p) ["GREEN"] false)
        = Some SymbolKind.EnumValue /\
        ordinal "GREEN" enumerators = Some 1%Z /\
        folded = CInt64 0 /\
        folded <> CInt64 1 /\
        errors_ p = []
  | _ => False
  end.
Proof.
  vm_compute. do 5 eexists.
  repeat (split; [reflexivity|]). split; [discriminate|reflexivity].
Qed.

(** ** The generated header *)

Lemma wrapArrays_nested (mapped : string) (dims : list Z) :
  Cpp11Generator.wrapArrays mapped dims = nestedArrays mapped dims.
Proof.
  unfold Cpp11Generator.wrapArrays.
  induction dims as [|d rest IH]; [reflexivity|].
  cbn [rev nestedArrays]. rewrite fold_left_app. cbn [fold_left].
  rewrite IH. reflexivity.
Qed.

(** The type visitors only write [currentTypeName_]. *)
Lemma visitType_frame (node : TypeNode) : forall g,
  Cpp11Generator.header_ (Cpp11Generator.visitType node g)
  = Cpp11Generator.header_ g /\
  Cpp11Generator.config_ (Cpp11Generator.visitType node g)
  = Cpp11Generator.config_ g /\
  Cpp11Generator.indentLevel_ (Cpp11Generator.visitType node g)
  = Cpp11Generator.indentLevel_ g.
Proof.
  induction node as [ty loc|elem IH bound loc|bound wide loc|parts abs loc
                    |elem IH dims loc];
    intros g; cbn [Cpp11Generator.visitType]; try (repeat split; reflexivity).
  - destruct (IH (Cpp11Generator.setCurrentTypeName "" g)) as (H1 & H2 & H3).
    cbn. repeat split; assumption.
  - destruct (IH (Cpp11Generator.setCurrentTypeName "" g)) as (H1 & H2 & H3).
    cbn. repeat split; assumption.
Qed.

Lemma mapType_frame node g :
  Cpp11Generator.header_ (snd (Cpp11Generator.mapType node g))
  = Cpp11Generator.header_ g /\
  Cpp11Generator.getIndent (snd (Cpp11Generator.mapType node g))
  = Cpp11Generator.getIndent g.
Proof.
  unfold Cpp11Generator.mapType, Cpp11Generator.getIndent. cbn [snd].
  destruct (visitType_frame node (Cpp11Generator.setCurrentTypeName "" g))
    as (H1 & H2 & H3).
  rewrite H1, H2, H3. split; reflexivity.
Qed.

Lemma writeHeaderLine_header line g :
  line <> "" ->
  Cpp11Generator.header_ (Cpp11Generator.writeHeaderLine line g)
  = Cpp11Generator.header_ g +:+ Cpp11Generator.getIndent g +:+ line +:+ newline.
Proof.
  intros Hne. unfold Cpp11Generator.writeHeaderLine.
  destruct (String.eqb_spec line ""); [congruence|].
  cbn. rewrite !append_assoc. reflexivity.
Qed.

Lemma writeHeaderLine_blank g :
  Cpp11Generator.header_ (Cpp11Generator.writeHeaderLine "" g)
  = Cpp11Generator.header_ g +:+ newline.
Proof. reflexivity. Qed.

Lemma writeHeaderLine_indent line g :
  Cpp11Generator.getIndent (Cpp11Generator.writeHeaderLine line g)
  = Cpp11Generator.getIndent g.
Proof. reflexivity. Qed.

Lemma aliasStep_header mapped g decl :
  Cpp11Generator.header_ (aliasStep mapped g decl)
  = Cpp11Generator.header_ g +:+ aliasLine (Cpp11Generator.getIndent g) mapped decl.
Proof.
  unfold aliasStep.
  rewrite writeHeaderLine_header by discriminate.
  assert (Hfinal : match arrayDimensions decl with
                   | [] => mapped
                   | _ :: _ => Cpp11Generator.wrapArrays mapped (arrayDimensions decl)
                   end = nestedArrays mapped (arrayDimensions decl)).
  { destruct (arrayDimensions decl) eqn:Hd; [reflexivity|].
    apply wrapArrays_nested. }
  rewrite Hfinal. unfold aliasLine. rewrite !append_assoc. reflexivity.
Qed.

Lemma aliases_header (mapped : string) (decls : list TypedefDeclarator) : forall g,
  Cpp11Generator.header_ (fold_left (aliasStep mapped) decls g)
  = Cpp11Generator.header_ g
    +:+ String.concat "" (map (aliasLine (Cpp11Generator.getIndent g) mapped) decls)
  /\
  Cpp11Generator.getIndent (fold_left (aliasStep mapped) decls g)
  = Cpp11Generator.getIndent g.
Proof.
  induction decls as [|decl rest IH]; intros g.
  - cbn [fold_left map String.concat]. rewrite append_empty_r. split; reflexivity.
  - cbn [fold_left map].
    destruct (IH (aliasStep mapped g decl)) as [IH1 IH2].
    rewrite IH1, IH2.
    split; [|reflexivity].
    rewrite aliasStep_header, concat_cons, append_assoc. reflexivity.
Qed.

(** C8: the type that [generateTypedef] and [visit(ArrayTypeNode&)] build
    for the dimensions of a declarator is the nest of [std::array]
    templates with the first dimension outermost and the last innermost;
    for two dimensions [a], [b] it is
    [std::array<std::array<mapped(T), b>, a>]; [generateTypedef] appends to
    the header, for every declarator in order, the line
    [using X = <that type>;] at the current indentation, and then an empty
    line; and [typedef octet UUID[16];] yields
    [using UUID = std::array<uint8_t, 16>;]. *)
Theorem typedef_arrays_nest_right_associatively :
  (forall mapped dims,
     Cpp11Generator.wrapArrays mapped dims = nestedArrays mapped dims) /\
  (forall mapped a b,
     nestedArrays mapped [a; b]
     = "std::array<std::array<" +:+ mapped +:+ ", " +:+ to_string b +:+ ">, "
       +:+ to_string a +:+ ">") /\
  (forall originalType declarators g,
     Cpp11Generator.header_ (Cpp11Generator.generateTypedef originalType declarators g)
     = Cpp11Generator.header_ g
       +:+ String.concat ""
             (map (aliasLine (Cpp11Generator.getIndent g)
                     (fst (Cpp11Generator.mapType originalType g)))
                declarators)
       +:+ newline) /\
  (forall formatDouble,
     match Parser.parse 30 (Source.parser Examples.uuidTypedef) with
     | Ret unit p =>
         exists loc loc',
           unit_definitions unit
           = [TypedefNode "UUID" "UUID" loc (BasicTypeNode BasicType.Octet loc')
                [mkTypedefDeclarator "UUID" [16%Z]]] /\
           errors_ p = [] /\
           Cpp11Generator.header_
             (Cpp11Generator.acceptAll formatDouble (unit_definitions unit)
                (Cpp11Generator.new defaultConfig))
           = "using UUID = std::array<uint8_t, 16>;" +:+ newline +:+ newline
     | _ => False
     end).
Proof.
  split; [exact wrapArrays_nested|].
  split.
  { intros mapped a b. cbn [nestedArrays]. rewrite !append_assoc. reflexivity. }
  split.
  { intros originalType declarators g.
    unfold Cpp11Generator.generateTypedef.
    destruct (Cpp11Generator.mapType originalType g) as [mapped g1] eqn:Hm.
    pose proof (mapType_frame originalType g) as [Hh Hi]. rewrite Hm in Hh, Hi.
    cbn [fst snd] in *.
    rewrite writeHeaderLine_blank.
    destruct (aliases_header mapped declarators g1) as [H1 _].
    change (fold_left _ declarators g1)
      with (fold_left (aliasStep mapped) declarators g1).
    rewrite H1, Hh, Hi. rewrite append_assoc. reflexivity. }
  intros formatDouble. vm_compute. do 2 eexists.
  split; [reflexivity|]. split; reflexivity.
Qed.

(** C9: when the type of a struct or exception member is parsed and the
    declarators that follow are [decl :: others], [parseStructMember]
    returns the member named after [decl] alone, with the array type of
    [decl]'s dimensions if it has any: the [others] have been taken from
    the tokens (the parser goes on from where the last declarator ended,
    at the [;]) and are in no node. *)
Theorem only_first_declarator_becomes_member
    (fuel : nat) (p p1 p2 : Parser) (type : TypeNode)
    (decl : Parser.Declarator) (others : list Parser.Declarator) :
  Parser.parseTypeSpec fuel p = Ret (Some type) p1 ->
  Parser.parseDeclarators fuel p1 = Ret (decl :: others) p2 ->
  Parser.parseStructMember fuel p
  = Ret (Some (mkStructMember
                 (memberTypeOf type decl (location (currentToken_ p)))
                 (Parser.decl_name decl) (location (currentToken_ p))))
        (Parser.expectSemicolon p2).
Proof.
  intros Htype Hdecls.
  unfold Parser.parseStructMember, Parser.currentLocation.
  rewrite bind_ask.
  rewrite (bind_Ret _ _ _ _ _ Htype).
  rewrite (bind_Ret _ _ _ _ _ Hdecls).
  rewrite bind_act. reflexivity.
Qed.

(** [long first , second ;] gives the member [first]; the header of
    [struct S { long first , second ; } ;] has no [second]. *)
Lemma only_first_declarator_becomes_member_witness :
  let p := Source.parser Examples.memberTwoDeclarators in
  let p1 := Parser.advance p in
  let p2 := Nat.iter 3 Parser.advance p1 in
  let long := BasicTypeNode BasicType.Long (mkLoc "<input>" 1 1) in
  (Parser.parseTypeSpec 12 p = Ret (Some long) p1 /\
   Parser.parseDeclarators 12 p1
   = Ret [Parser.mkDeclarator "first" []; Parser.mkDeclarator "second" []] p2) /\
  Parser.parseStructMember 12 p
  = Ret (Some (mkStructMember long "first" (mkLoc "<input>" 1 1)))
      (Parser.expectSemicolon p2) /\
  Parser.check TokenType.Semicolon p2 = true /\
  Parser.check TokenType.Eof (Parser.expectSemicolon p2) = true /\
  errors_ (Parser.expectSemicolon p2) = [] /\
  match Parser.parse 30 (Source.parser Examples.structTwoDeclarators) with
  | Ret unit q =>
      exists loc loc1 loc2,
        unit_definitions unit
        = [StructNode "S" "S" loc
             [mkStructMember (BasicTypeNode BasicType.Long loc1) "first" loc2]] /\
        errors_ q = [] /\
        forall formatDouble,
          let header :=
            Cpp11Generator.header_
              (Cpp11Generator.acceptAll formatDouble (unit_definitions unit)
                 (Cpp11Generator.new defaultConfig)) in
          Text.contains "int32_t first;" header = true /\
          Text.contains "second" header = false
  | _ => False
  end.
Proof.
  intros p p1 p2 long.
  assert (H1 : Parser.parseTypeSpec 12 p = Ret (Some long) p1)
    by (vm_compute; reflexivity).
  assert (H2 : Parser.parseDeclarators 12 p1
   = Ret [Parser.mkDeclarator "first" []; Parser.mkDeclarator "second" []] p2)
    by (vm_compute; reflexivity).
  split; [split; [exact H1|exact H2]|].
  split; [exact (only_first_declarator_becomes_member 12 p p1 p2 long _ _ H1 H2)|].
  split; [vm_compute; reflexivity|].
  split; [vm_compute; reflexivity|].
  split; [vm_compute; reflexivity|].
  vm_compute. do 3 eexists. split; [reflexivity|]. split; [reflexivity|].
  intros _. split; reflexivity.
Defined.

(** What [sanitizeIdentifier] would do to the reserved words. *)
Lemma sanitizeIdentifier_reserved :
  Forall (fun entry =>
            snd entry = fst entry +:+ "_" /\
            Cpp11Generator.sanitizeIdentifier (fst entry) = fst entry +:+ "_")
    Cpp11Generator.reserved.
Proof. repeat constructor. Qed.

(** C2 at [struct S { long class ; } ;]: the member is parsed without a
    diagnostic and the header declares it as [class], although
    [sanitizeIdentifier] maps [class] to [class_]: no function of the
    generator calls [sanitizeIdentifier]. *)
Theorem reserved_word_is_emitted_unchanged :
  Cpp11Generator.sanitizeIdentifier "class" = "class_" /\
  match Parser.parse 30 (Source.parser Examples.structReservedMember) with
  | Ret unit p =>
      exists loc loc1 loc2,
        unit_definitions unit
        = [StructNode "S" "S" loc
             [mkStructMember (BasicTypeNode BasicType.Long loc1) "class" loc2]] /\
        errors_ p = [] /\
        forall formatDouble,
          let header :=
            Cpp11Generator.header_
              (Cpp11Generator.acceptAll formatDouble (unit_definitions unit)
                 (Cpp11Generator.new defaultConfig)) in
          Text.contains "int32_t class;" header = true /\
          Text.contains "return class == other.class;" header = true /\
          Text.contains "class_" header = false
  | _ => False
  end.
Proof.
  split; [reflexivity|].
  vm_compute. do 3 eexists. split; [reflexivity|]. split; [reflexivity|].
  intros _. repeat split; reflexivity.
Qed.

(** ** Qualified names *)

Import Names Table.


Lemma identifierChar_not_colon c :
  isIdentifierChar c = true -> Ascii.eqb c ":" = false.
Proof.
  destruct c as [[] [] [] [] [] [] [] []]; vm_compute; congruence.
Qed.

Lemma identifierStart_char c : isIdentifierStart c = true -> isIdentifierChar c = true.
Proof.
  unfold isIdentifierStart, isIdentifierChar.
  intros H. apply orb_true_iff in H. destruct H as [H|H]; rewrite H; simpl;
    [reflexivity|apply orb_true_r].
Qed.

Lemma identifier_chars s :
  isIdentifier s = true -> s <> "" /\ allChars isIdentifierChar s = true.
Proof.
  destruct s as [|c rest]; [discriminate|]. cbn [isIdentifier allChars].
  intros H. apply andb_true_iff in H. destruct H as [H1 H2].
  split; [discriminate|]. rewrite (identifierStart_char _ H1), H2. reflexivity.
Qed.

(** Characters of an identifier go to [current] one by one. *)
Lemma splitParts_chars (n : string) : forall rest current parts,
  allChars isIdentifierChar n = true ->
  SymbolTable.splitParts (n +:+ rest) current parts
  = SymbolTable.splitParts rest (current +:+ n) parts.
Proof.
  induction n as [|c n IH]; intros rest current parts H.
  - cbn. rewrite append_empty_r. reflexivity.
  - cbn [allChars] in H. apply andb_true_iff in H. destruct H as [Hc Hn].
    rewrite append_cons.
    assert (Hstep : SymbolTable.splitParts (String c (n +:+ rest)) current parts
                    = SymbolTable.splitParts (n +:+ rest)
                        (current +:+ String c EmptyString) parts).
    { cbn [SymbolTable.splitParts].
      destruct (n +:+ rest) as [|c1 rest2] eqn:Hr; [reflexivity|].
      rewrite (identifierChar_not_colon c Hc). reflexivity. }
    rewrite Hstep, IH by exact Hn.
    rewrite append_assoc. reflexivity.
Qed.

Lemma joined_cons2 x y l : joined (x :: y :: l) = x +:+ "::" +:+ joined (y :: l).
Proof. reflexivity. Qed.

Lemma splitParts_joined (parts : list string) : forall acc,
  parts <> [] ->
  Forall (fun n => isIdentifier n = true) parts ->
  SymbolTable.splitParts (joined parts) "" acc = acc ++ parts.
Proof.
  induction parts as [|x rest IH]; intros acc Hne Hall; [congruence|].
  inversion Hall as [|? ? Hx Hrest]; subst.
  destruct (identifier_chars x Hx) as [Hx0 Hxc].
  assert (Hxe : String.eqb x "" = false) by (apply String.eqb_neq; exact Hx0).
  destruct rest as [|y l].
  - change (joined [x]) with x.
    rewrite <- (append_empty_r x) at 1.
    rewrite splitParts_chars by exact Hxc.
    cbn [SymbolTable.splitParts]. change ("" +:+ x) with x. rewrite Hxe. reflexivity.
  - rewrite joined_cons2.
    rewrite splitParts_chars by exact Hxc.
    change ("" +:+ x) with x.
    change ("::" +:+ joined (y :: l)) with (String ":" (String ":" (joined (y :: l)))).
    cbn [SymbolTable.splitParts]. rewrite Hxe.
    change (Ascii.eqb ":" ":" && Ascii.eqb ":" ":") with true. cbv iota.
    rewrite IH by (try discriminate; exact Hrest).
    rewrite <- app_assoc. reflexivity.
Qed.

Lemma joined_head (x : string) (rest : list string) :
  exists tail, joined (x :: rest) = x +:+ tail.
Proof.
  destruct rest as [|y l].
  - exists "". change (joined [x]) with x. rewrite append_empty_r. reflexivity.
  - exists ("::" +:+ joined (y :: l)). apply joined_cons2.
Qed.

Lemma parseQualifiedName_joined (parts : list string) :
  parts <> [] ->
  Forall (fun n => isIdentifier n = true) parts ->
  SymbolTable.parseQualifiedName (joined parts) = parts /\
  SymbolTable.startsWithColons (joined parts) = false.
Proof.
  intros Hne Hall.
  pose proof (splitParts_joined parts [] Hne Hall) as Hsplit.
  destruct parts as [|x rest]; [congruence|].
  inversion Hall as [|? ? Hx Hrest]; subst.
  destruct (joined_head x rest) as [tail Htail].
  destruct x as [|c x']; [discriminate|].
  cbn [isIdentifier] in Hx. apply andb_true_iff in Hx. destruct Hx as [Hc _].
  pose proof (identifierChar_not_colon c (identifierStart_char c Hc)) as Hcolon.
  unfold SymbolTable.parseQualifiedName, SymbolTable.startsWithColons.
  rewrite Htail in *. rewrite append_cons in *.
  destruct (x' +:+ tail) as [|c1 r]; [split; [exact Hsplit|reflexivity]|].
  rewrite Hcolon. cbn [andb]. split; [exact Hsplit|reflexivity].
Qed.

(** qualify appends to a joined list of identifiers *)
Lemma joined_nonempty (parts : list string) :
  parts <> [] -> Forall (fun n => isIdentifier n = true) parts -> joined parts <> "".
Proof.
  intros Hne Hall. destruct parts as [|x rest]; [congruence|].
  inversion Hall as [|? ? Hx _]; subst.
  destruct (joined_head x rest) as [tail Htail]. rewrite Htail.
  destruct x; [discriminate|]. rewrite append_cons. discriminate.
Qed.

Lemma joined_snoc (pre : list string) (n : string) :
  pre <> [] -> joined (pre ++ [n]) = joined pre +:+ "::" +:+ n.
Proof.
  induction pre as [|x rest IH]; intros Hne; [congruence|].
  destruct rest as [|y l].
  - reflexivity.
  - change ((x :: y :: l) ++ [n]) with (x :: y :: (l ++ [n])).
    rewrite !joined_cons2.
    change (y :: l ++ [n]) with ((y :: l) ++ [n]).
    rewrite IH by discriminate. rewrite !append_assoc. reflexivity.
Qed.

Lemma qualify_joined (pre : list string) (n : string) :
  Forall (fun n => isIdentifier n = true) pre ->
  qualify (joined pre) n = joined (pre ++ [n]).
Proof.
  intros Hall. unfold qualify.
  destruct pre as [|x rest].
  - reflexivity.
  - destruct (String.eqb_spec (joined (x :: rest)) "") as [He|_].
    + exfalso. apply (joined_nonempty (x :: rest)); [discriminate|exact Hall|exact He].
    + symmetry. apply joined_snoc. discriminate.
Qed.

(** * Scopes *)

Lemma wf_inv s :
  wf s ->
  (forall k x, symbols s !! k = Some x ->
     isIdentifier k = true /\ sym_name x = k /\
     sym_fullyQualifiedName x = qualify (scope_fullyQualifiedName s) k) /\
  NoDup (map scope_name (children s)) /\
  Forall (fun c =>
            isIdentifier (scope_name c) = true /\
            scope_fullyQualifiedName c
            = qualify (scope_fullyQualifiedName s) (scope_name c) /\
            wf c) (children s).
Proof. intros H. destruct H as [s H1 H2 H3]. split; [exact H1|]. split; [exact H2|exact H3]. Qed.

(** In a list of scopes with distinct names, the name finds the child. *)
Lemma childIndex_lookup (cs : list Scope) : forall i c,
  NoDup (map scope_name cs) ->
  cs !! i = Some c ->
  Scope.childIndex cs (scope_name c) = Some i.
Proof.
  induction cs as [|c0 rest IH]; intros i c Hnd Hi; [discriminate|].
  inversion Hnd as [|? ? Hnotin Hnd']; subst.
  destruct i as [|i]; cbn [Scope.childIndex].
  - inversion Hi; subst. rewrite String.eqb_refl. reflexivity.
  - cbn in Hi.
    destruct (String.eqb_spec (scope_name c0) (scope_name c)) as [He|_].
    + exfalso. apply Hnotin. rewrite He.
      apply list_elem_of_fmap. exists c. split; [reflexivity|].
      apply list_elem_of_lookup. exists i. exact Hi.
    + rewrite (IH i c Hnd' Hi). reflexivity.
Qed.

Lemma getChildScope_lookup (s : Scope) i c :
  NoDup (map scope_name (children s)) ->
  children s !! i = Some c ->
  Scope.getChildScope s (scope_name c) = Some c.
Proof.
  intros Hnd Hi. unfold Scope.getChildScope.
  rewrite (childIndex_lookup _ _ _ Hnd Hi). exact Hi.
Qed.

Lemma navigate_app (names1 : list string) : forall s names2,
  SymbolTable.navigate s (names1 ++ names2)
  = match SymbolTable.navigate s names1 with
    | Some s1 => SymbolTable.navigate s1 names2
    | None => None
    end.
Proof.
  induction names1 as [|n rest IH]; intros s names2; [reflexivity|].
  cbn [app SymbolTable.navigate].
  destruct (Scope.getChildScope s n) as [c|]; [apply IH|reflexivity].
Qed.

(** Every scope of a well-formed tree is reached by the names on the way
    to it, and these make its fully qualified name. *)
Lemma descend_names (down : list nat) : forall g s pre,
  wf g ->
  Forall (fun n => isIdentifier n = true) pre ->
  scope_fullyQualifiedName g = joined pre ->
  Scope.descend g down = Some s ->
  exists names,
    SymbolTable.navigate g names = Some s /\
    Forall (fun n => isIdentifier n = true) names /\
    scope_fullyQualifiedName s = joined (pre ++ names) /\
    wf s /\
    length names = length down.
Proof.
  induction down as [|i rest IH]; intros g s pre Hwf Hpre Hfqn Hd.
  - cbn in Hd. inversion Hd; subst. exists [].
    rewrite app_nil_r.
    split; [reflexivity|]. split; [apply Forall_nil_2|].
    split; [exact Hfqn|]. split; [exact Hwf|reflexivity].
  - cbn [Scope.descend] in Hd.
    destruct (children g !! i) as [c|] eqn:Hc; [|discriminate].
    destruct (wf_inv g Hwf) as (_ & Hnd & Hall).
    rewrite Forall_forall in Hall.
    destruct (Hall c) as (Hid & Hcf & Hcwf).
    { apply list_elem_of_lookup. exists i. exact Hc. }
    destruct (IH c s (pre ++ [scope_name c]) Hcwf)
      as (names & Hnav & Hids & Hsf & Hswf & Hlen).
    { apply Forall_app. split; [exact Hpre|]. constructor; [exact Hid|constructor]. }
    { rewrite Hcf, Hfqn. apply qualify_joined. exact Hpre. }
    { exact Hd. }
    exists (scope_name c :: names).
    split; [|split; [|split; [|split]]].
    + cbn [SymbolTable.navigate]. rewrite (getChildScope_lookup g i c Hnd Hc). exact Hnav.
    + constructor; assumption.
    + rewrite Hsf. rewrite <- app_assoc. reflexivity.
    + exact Hswf.
    + cbn [length]. rewrite Hlen. reflexivity.
Qed.

Lemma descend_app (down1 : list nat) : forall g down2,
  Scope.descend g (down1 ++ down2)
  = match Scope.descend g down1 with
    | Some s => Scope.descend s down2
    | None => None
    end.
Proof.
  induction down1 as [|i rest IH]; intros g down2; [reflexivity|].
  cbn [app Scope.descend].
  destruct (children g !! i) as [c|]; [apply IH|reflexivity].
Qed.

(** A table whose global scope is well formed and has the empty name
    resolves, from the global scope, the fully qualified name of each of
    its symbols to that symbol. *)
Lemma lookupScoped_path (t : SymbolTable) (names : list string) (k : string)
    (s : Scope) (x : Symbol) :
  currentScope_ t = [] ->
  SymbolTable.navigate (globalScope_ t) names = Some s ->
  symbols s !! k = Some x ->
  SymbolTable.lookupScoped t (names ++ [k]) false = Some x.
Proof.
  intros Hcur Hnav Hk.
  unfold SymbolTable.lookupScoped.
  destruct names as [|n1 ns].
  - cbn in Hnav. inversion Hnav; subst s.
    cbn [app negb andb length Nat.eqb]. rewrite Hcur.
    cbn. unfold Scope.lookupLocal. rewrite Hk. reflexivity.
  - cbn [SymbolTable.navigate] in Hnav.
    destruct (Scope.getChildScope (globalScope_ t) n1) as [c1|] eqn:Hc1; [|discriminate].
    change ((n1 :: ns) ++ [k]) with (n1 :: (ns ++ [k])).
    assert (Hlen : Nat.eqb (length (n1 :: (ns ++ [k]))) 1 = false).
    { apply Nat.eqb_neq. cbn [length]. rewrite length_app. cbn [length]. lia. }
    rewrite Hlen. cbn [negb andb]. rewrite Hcur.
    cbn [SymbolTable.findFirstPart]. rewrite Hlen.
    change (Scope.deref (globalScope_ t) []) with (Some (globalScope_ t)).
    cbv iota. rewrite Hc1.
    cbn [tl]. rewrite removelast_last.
    rewrite Hnav.
    change (List.last (n1 :: ns ++ [k]) "") with (List.last ((n1 :: ns) ++ [k]) "").
    rewrite last_last. exact Hk.
Qed.

Lemma round_trip_wf (t : SymbolTable) (x : Symbol) :
  wf (globalScope_ t) ->
  scope_fullyQualifiedName (globalScope_ t) = "" ->
  currentScope_ t = [] ->
  recorded t x ->
  SymbolTable.lookupQualified t (sym_fullyQualifiedName x) = Some x.
Proof.
  intros Hwf Hfqn Hcur (down & s & k & Hd & Hk).
  destruct (descend_names down (globalScope_ t) s [] Hwf (Forall_nil_2 _) Hfqn Hd)
    as (names & Hnav & Hids & Hsf & Hswf & _).
  destruct (wf_inv s Hswf) as (Hsyms & _ & _).
  destruct (Hsyms k x Hk) as (Hid & _ & Hxf).
  cbn [app] in Hsf.
  assert (Hparts : Forall (fun n => isIdentifier n = true) (names ++ [k])).
  { apply Forall_app. split; [exact Hids|]. constructor; [exact Hid|constructor]. }
  assert (Hx : sym_fullyQualifiedName x = joined (names ++ [k])).
  { rewrite Hxf, Hsf. apply qualify_joined. exact Hids. }
  destruct (parseQualifiedName_joined (names ++ [k])) as [Hparse Hrel];
    [destruct names; discriminate|exact Hparts|].
  unfold SymbolTable.lookupQualified. rewrite Hx, Hparse, Hrel.
  apply (lookupScoped_path t names k s x Hcur Hnav Hk).
Qed.

(** * The calls of the parser keep the scopes well formed *)

Lemma update_root (down : list nat) (g s : Scope) (f : Scope -> Scope) :
  Scope.descend g down = Some s ->
  scope_name (f s) = scope_name s ->
  scope_fullyQualifiedName (f s) = scope_fullyQualifiedName s ->
  scope_name (Scope.update g down f) = scope_name g /\
  scope_fullyQualifiedName (Scope.update g down f) = scope_fullyQualifiedName g.
Proof.
  intros Hd Hn Hf. destruct down as [|i rest]; cbn [Scope.update Scope.descend] in *.
  - inversion Hd; subst. split; assumption.
  - destruct (children g !! i); split; reflexivity.
Qed.

Lemma wf_update (down : list nat) : forall (g s : Scope) (f : Scope -> Scope),
  wf g ->
  Scope.descend g down = Some s ->
  (wf s -> wf (f s)) ->
  scope_name (f s) = scope_name s ->
  scope_fullyQualifiedName (f s) = scope_fullyQualifiedName s ->
  wf (Scope.update g down f).
Proof.
  induction down as [|i rest IH]; intros g s f Hwf Hd Hfs Hn Hf.
  - cbn in *. inversion Hd; subst. apply Hfs, Hwf.
  - cbn [Scope.update Scope.descend] in *.
    destruct (children g !! i) as [c|] eqn:Hc; [|exact Hwf].
    destruct (wf_inv g Hwf) as (Hsyms & Hnd & Hall).
    assert (Hcprops : isIdentifier (scope_name c) = true /\
                      scope_fullyQualifiedName c
                      = qualify (scope_fullyQualifiedName g) (scope_name c) /\ wf c).
    { rewrite Forall_forall in Hall. apply Hall.
      apply list_elem_of_lookup. exists i. exact Hc. }
    destruct Hcprops as (Hcid & Hcf & Hcwf).
    destruct (update_root rest c s f Hd Hn Hf) as [Hrn Hrf].
    constructor; cbn [symbols children scope_fullyQualifiedName].
    + exact Hsyms.
    + rewrite list_fmap_insert. rewrite Hrn.
      rewrite list_insert_id; [exact Hnd|].
      rewrite list_lookup_fmap, Hc. reflexivity.
    + apply Forall_insert; [exact Hall|].
      rewrite Hrn, Hrf. split; [exact Hcid|]. split; [exact Hcf|].
      apply (IH c s f Hcwf Hd Hfs Hn Hf).
Qed.

Lemma childIndex_Some (cs : list Scope) (n : string) : forall i,
  Scope.childIndex cs n = Some i -> exists c, cs !! i = Some c /\ scope_name c = n.
Proof.
  induction cs as [|c0 rest IH]; intros i H; [discriminate|].
  cbn [Scope.childIndex] in H.
  destruct (String.eqb_spec (scope_name c0) n) as [He|Hne].
  - inversion H; subst. exists c0. split; reflexivity.
  - destruct (Scope.childIndex rest n) as [j|] eqn:Hj; [|discriminate].
    cbn in H. inversion H; subst.
    destruct (IH j eq_refl) as (c & Hc & Hcn). exists c. split; assumption.
Qed.

Lemma childIndex_None (cs : list Scope) (n : string) :
  Scope.childIndex cs n = None -> n ∉ map scope_name cs.
Proof.
  induction cs as [|c0 rest IH]; intros H.
  - cbn. apply not_elem_of_nil.
  - cbn [Scope.childIndex] in H.
    destruct (String.eqb_spec (scope_name c0) n) as [He|Hne]; [discriminate|].
    destruct (Scope.childIndex rest n) as [j|] eqn:Hj; [discriminate|].
    cbn [map]. apply not_elem_of_cons. split; [congruence|]. apply IH. reflexivity.
Qed.

Lemma inv_init : inv SymbolTable.init.
Proof.
  split; [|split].
  - constructor; cbn.
    + intros k x H. rewrite lookup_empty in H. discriminate.
    + constructor.
    + constructor.
  - reflexivity.
  - eexists. reflexivity.
Qed.

Lemma current_descend t :
  ptr_valid t ->
  Scope.descend (globalScope_ t) (rev (currentScope_ t)) = Some (SymbolTable.current t).
Proof.
  intros [s Hs]. unfold SymbolTable.current. rewrite Hs. exact Hs.
Qed.

Lemma inv_addSymbol t name kind node :
  isIdentifier name = true ->
  inv t -> inv (snd (SymbolTable.addSymbol t name kind node)).
Proof.
  intros Hid (Hwf & Hfqn & Hv).
  pose proof (current_descend t Hv) as Hcur.
  unfold SymbolTable.addSymbol. cbn [snd].
  set (sym := mkSymbol name (SymbolTable.buildFullyQualifiedName t name) kind node
                (scope_fullyQualifiedName (SymbolTable.current t))).
  set (f := fun s => snd (Scope.addSymbol s sym)).
  assert (Hn : scope_name (f (SymbolTable.current t)) = scope_name (SymbolTable.current t)).
  { unfold f, Scope.addSymbol. destruct (symbols _ !! _); reflexivity. }
  assert (Hf : scope_fullyQualifiedName (f (SymbolTable.current t))
               = scope_fullyQualifiedName (SymbolTable.current t)).
  { unfold f, Scope.addSymbol. destruct (symbols _ !! _); reflexivity. }
  unfold SymbolTable.setCurrent.
  split; [|split].
  - cbn [globalScope_].
    apply (wf_update _ _ (SymbolTable.current t) f Hwf Hcur); [|exact Hn|exact Hf].
    intros Hs. unfold f, Scope.addSymbol.
    destruct (symbols (SymbolTable.current t) !! sym_name sym) eqn:Hl; [exact Hs|].
    cbn [snd]. destruct (wf_inv _ Hs) as (Hsyms & Hnd & Hall).
    constructor; cbn [symbols children scope_fullyQualifiedName].
    + intros k x Hk.
      destruct (decide (sym_name sym = k)) as [He|Hne].
      * subst k. rewrite lookup_insert_eq in Hk. inversion Hk; subst x.
        split; [exact Hid|]. split; [reflexivity|reflexivity].
      * rewrite lookup_insert_ne in Hk by exact Hne. apply Hsyms. exact Hk.
    + exact Hnd.
    + exact Hall.
  - cbn [globalScope_].
    destruct (update_root _ _ _ f Hcur Hn Hf) as [_ Hr]. rewrite Hr. exact Hfqn.
  - unfold ptr_valid, Scope.deref. cbn [globalScope_ currentScope_].
    rewrite (descend_update _ _ _ f Hcur). eexists. reflexivity.
Qed.

Lemma inv_leaveScope t : inv t -> inv (SymbolTable.leaveScope t).
Proof.
  intros (Hwf & Hfqn & Hv). unfold SymbolTable.leaveScope.
  destruct (currentScope_ t) as [|i up] eqn:Hc.
  - split; [exact Hwf|]. split; [exact Hfqn|exact Hv].
  - split; [exact Hwf|]. split; [exact Hfqn|].
    unfold ptr_valid, Scope.deref in *. cbn [globalScope_ currentScope_].
    rewrite Hc in Hv. cbn [rev] in Hv. rewrite descend_app in Hv.
    destruct (Scope.descend (globalScope_ t) (rev up)) as [s|]; [eexists; reflexivity|].
    destruct Hv as [? Hv]; discriminate.
Qed.

Lemma inv_enterScope t name :
  isIdentifier name = true -> inv t -> inv (SymbolTable.enterScope t name).
Proof.
  intros Hid (Hwf & Hfqn & Hv).
  pose proof (current_descend t Hv) as Hcur.
  unfold SymbolTable.enterScope.
  destruct (Scope.childIndex (children (SymbolTable.current t)) name) as [i|] eqn:Hi.
  - split; [exact Hwf|]. split; [exact Hfqn|].
    unfold ptr_valid, Scope.deref. cbn [globalScope_ currentScope_ rev].
    rewrite descend_app, Hcur. cbn [Scope.descend].
    destruct (childIndex_Some _ _ _ Hi) as (c & Hc & _). rewrite Hc.
    eexists. reflexivity.
  - set (f := fun s => fst (Scope.createChildScope s name)).
    assert (Hn : scope_name (f (SymbolTable.current t)) = scope_name (SymbolTable.current t))
      by reflexivity.
    assert (Hf : scope_fullyQualifiedName (f (SymbolTable.current t))
                 = scope_fullyQualifiedName (SymbolTable.current t)) by reflexivity.
    unfold SymbolTable.setCurrent. cbn [globalScope_ currentScope_].
    split; [|split].
    + apply (wf_update _ _ (SymbolTable.current t) f Hwf Hcur); [|exact Hn|exact Hf].
      intros Hs. destruct (wf_inv _ Hs) as (Hsyms & Hnd & Hall).
      unfold f, Scope.createChildScope. cbn [fst].
      assert (Hmk : scope_name (Scope.make name
                      (Some (scope_fullyQualifiedName (SymbolTable.current t)))) = name /\
                    scope_fullyQualifiedName (Scope.make name
                      (Some (scope_fullyQualifiedName (SymbolTable.current t))))
                    = qualify (scope_fullyQualifiedName (SymbolTable.current t)) name /\
                    symbols (Scope.make name
                      (Some (scope_fullyQualifiedName (SymbolTable.current t)))) = ∅ /\
                    children (Scope.make name
                      (Some (scope_fullyQualifiedName (SymbolTable.current t)))) = []).
      { unfold Scope.make, qualify.
        destruct (String.eqb (scope_fullyQualifiedName (SymbolTable.current t)) "");
          repeat split; reflexivity. }
      destruct Hmk as (Hm1 & Hm2 & Hm3 & Hm4).
      constructor; cbn [symbols children scope_fullyQualifiedName].
      * exact Hsyms.
      * rewrite map_app. cbn [map]. rewrite Hm1.
        apply NoDup_app. split; [exact Hnd|]. split.
        -- intros y Hy Hy'. apply list_elem_of_singleton in Hy'. subst y.
           apply (childIndex_None _ _ Hi). exact Hy.
        -- apply NoDup_singleton.
      * apply Forall_app. split; [exact Hall|].
        constructor; [|constructor].
        rewrite Hm1, Hm2. split; [exact Hid|]. split; [reflexivity|].
        constructor.
        -- rewrite Hm3. intros k x H. rewrite lookup_empty in H. discriminate.
        -- rewrite Hm4. constructor.
        -- rewrite Hm4. constructor.
    + destruct (update_root _ _ _ f Hcur Hn Hf) as [_ Hr]. exact (eq_trans Hr Hfqn).
    + unfold ptr_valid, Scope.deref. cbn [globalScope_ currentScope_ rev].
      rewrite descend_app.
      change (Scope.update (globalScope_ t) (rev (currentScope_ t)) _)
        with (Scope.update (globalScope_ t) (rev (currentScope_ t)) f).
      rewrite (descend_update _ _ _ f Hcur).
      cbn [Scope.descend]. unfold f, Scope.createChildScope. cbn [fst snd children].
      rewrite list_lookup_middle by reflexivity. eexists. reflexivity.
Qed.

Lemma inv_perform op t : named op = true -> inv t -> inv (perform op t).
Proof.
  destruct op as [name| |name kind node]; cbn [named perform]; intros Hn Hi.
  - apply inv_enterScope; assumption.
  - apply inv_leaveScope; assumption.
  - apply inv_addSymbol; assumption.
Qed.

Lemma inv_performAll (ops : list Op) : forall t,
  forallb named ops = true -> inv t -> inv (performAll ops t).
Proof.
  induction ops as [|op rest IH]; intros t Hn Hi; [exact Hi|].
  cbn [forallb] in Hn. apply andb_true_iff in Hn. destruct Hn as [H1 H2].
  unfold performAll. cbn [fold_left]. apply IH; [exact H2|]. apply inv_perform; assumption.
Qed.

(** The round trip, for the symbols that calls with identifiers
    record. *)
Theorem qualified_round_trip (ops : list Op) (x : Symbol) :
  forallb named ops = true ->
  currentScope_ (performAll ops SymbolTable.init) = [] ->
  recorded (performAll ops SymbolTable.init) x ->
  SymbolTable.lookupQualified (performAll ops SymbolTable.init) (sym_fullyQualifiedName x)
  = Some x.
Proof.
  intros Hn Hcur Hrec.
  destruct (inv_performAll ops SymbolTable.init Hn inv_init) as (Hwf & Hfqn & _).
  apply round_trip_wf; assumption.
Qed.



(** ** The pointer to the current scope *)

Lemma valid_addSymbol t name kind node :
  ptr_valid t -> ptr_valid (snd (SymbolTable.addSymbol t name kind node)).
Proof.
  intros Hv. pose proof (current_descend t Hv) as Hcur.
  unfold SymbolTable.addSymbol, SymbolTable.setCurrent, ptr_valid, Scope.deref.
  cbn [snd globalScope_ currentScope_].
  rewrite (descend_update _ _ _ _ Hcur). eexists. reflexivity.
Qed.

Lemma valid_leaveScope t : ptr_valid t -> ptr_valid (SymbolTable.leaveScope t).
Proof.
  intros Hv. unfold SymbolTable.leaveScope.
  destruct (currentScope_ t) as [|i up] eqn:Hc; [exact Hv|].
  unfold ptr_valid, Scope.deref in *. cbn [globalScope_ currentScope_].
  rewrite Hc in Hv. cbn [rev] in Hv. rewrite descend_app in Hv.
  destruct (Scope.descend (globalScope_ t) (rev up)) as [s|]; [eexists; reflexivity|].
  destruct Hv as [? Hv]; discriminate.
Qed.

Lemma valid_enterScope t name : ptr_valid t -> ptr_valid (SymbolTable.enterScope t name).
Proof.
  intros Hv. pose proof (current_descend t Hv) as Hcur.
  unfold SymbolTable.enterScope.
  destruct (Scope.childIndex (children (SymbolTable.current t)) name) as [i|] eqn:Hi.
  - unfold ptr_valid, Scope.deref. cbn [globalScope_ currentScope_ rev].
    rewrite descend_app, Hcur. cbn [Scope.descend].
    destruct (childIndex_Some _ _ _ Hi) as (c & Hc & _). rewrite Hc.
    eexists. reflexivity.
  - unfold SymbolTable.setCurrent, ptr_valid, Scope.deref.
    cbn [globalScope_ currentScope_ rev].
    rewrite descend_app. rewrite (descend_update _ _ _ _ Hcur).
    cbn [Scope.descend]. unfold Scope.createChildScope. cbn [fst snd children].
    rewrite list_lookup_middle by reflexivity. eexists. reflexivity.
Qed.

(** Whatever the parser calls on its symbol table, [currentScope_] points
    to a scope of the tree. *)
Lemma valid_performAll (ops : list Op) : forall t,
  ptr_valid t -> ptr_valid (performAll ops t).
Proof.
  induction ops as [|op rest IH]; intros t Hv; [exact Hv|].
  unfold performAll. cbn [fold_left]. apply IH.
  destruct op; cbn [perform].
  - apply valid_enterScope, Hv.
  - apply valid_leaveScope, Hv.
  - apply valid_addSymbol, Hv.
Qed.

(** ** The resolution of the design document and that of the code *)

Lemma find_ext {A} (f g : A -> bool) (l : list A) :
  Forall (fun x => f x = g x) l -> find f l = find g l.
Proof.
  induction l as [|x l IH]; intros H; [reflexivity|].
  inversion H as [|? ? Hx Hl]; subst. cbn [find]. rewrite Hx, (IH Hl). reflexivity.
Qed.

(** The scopes on the way to the global scope are scopes of the tree. *)
Lemma ancestors_descend (g : Scope) : forall (p : ScopePtr),
  Forall (fun s => exists down, Scope.descend g down = Some s)
    (LookupSpec.ancestors g p).
Proof.
  induction p as [|i up IH]; cbn [LookupSpec.ancestors].
  - destruct (Scope.deref g []) as [s|] eqn:Hs; [|apply Forall_nil_2].
    apply Forall_cons_2; [|apply Forall_nil_2]. exists (rev []). exact Hs.
  - destruct (Scope.deref g (i :: up)) as [s|] eqn:Hs; [|apply Forall_nil_2].
    apply Forall_cons_2; [|exact IH]. exists (rev (i :: up)). exact Hs.
Qed.

Lemma declared_inv (s : Scope) :
  LookupSpec.declared s ->
  Forall (fun c => is_Some (symbols s !! scope_name c) /\ LookupSpec.declared c)
    (children s).
Proof. intros H. destruct H as [s H]. exact H. Qed.

Lemma declared_descend (down : list nat) : forall g s,
  LookupSpec.declared g -> Scope.descend g down = Some s -> LookupSpec.declared s.
Proof.
  induction down as [|i rest IH]; intros g s Hg Hd; cbn [Scope.descend] in Hd.
  - inversion Hd; subst. exact Hg.
  - destruct (children g !! i) as [c|] eqn:Hc; [|discriminate].
    apply (IH c s); [|exact Hd].
    exact (proj2 (Forall_lookup_1 _ _ _ _ (declared_inv g Hg) Hc)).
Qed.

(** In such a tree a scope with a child scope named [n] has a symbol
    named [n]. *)
Lemma declared_hasChild (s : Scope) (n : string) :
  LookupSpec.declared s ->
  LookupSpec.hasChild n s = true -> LookupSpec.hasSymbol n s = true.
Proof.
  intros Hs. unfold LookupSpec.hasChild, LookupSpec.childNamed.
  destruct (find _ (children s)) as [c|] eqn:Hf; [|discriminate]. intros _.
  apply find_some in Hf. destruct Hf as [Hin Hn]. apply String.eqb_eq in Hn.
  pose proof (declared_inv s Hs) as Hall. rewrite Forall_forall in Hall.
  destruct (Hall c) as [[sym Hsym] _]; [apply list_elem_of_In; exact Hin|].
  unfold LookupSpec.hasSymbol, LookupSpec.symbolNamed. rewrite <- Hn, Hsym. reflexivity.
Qed.

(** The two resolutions agree on absolute names, on names of several
    parts, and on all names where child scopes are named after symbols. *)
Lemma asWorded_lookupScoped (t : SymbolTable) (parts : list string)
    (isAbsolute : bool) :
  isAbsolute = true \/ length parts <> 1 \/ LookupSpec.declared (globalScope_ t) ->
  LookupSpec.asWorded t parts isAbsolute = LookupSpec.lookupScoped t parts isAbsolute.
Proof.
  intros Hcase. unfold LookupSpec.asWorded, LookupSpec.lookupScoped.
  destruct isAbsolute; [reflexivity|].
  destruct parts as [|part0 rest]; [reflexivity|].
  unfold LookupSpec.firstAncestor.
  destruct rest as [|part1 rest']; cbv zeta.
  - destruct Hcase as [H|[H|Hd]]; [discriminate|cbn in H; congruence|].
    rewrite (find_ext _ (LookupSpec.hasSymbol part0)); [reflexivity|].
    eapply Forall_impl; [apply ancestors_descend|].
    intros s [down Hs]. cbn beta.
    pose proof (declared_hasChild s part0 (declared_descend _ _ _ Hd Hs)) as Hc.
    destruct (LookupSpec.hasChild part0 s); [|reflexivity].
    rewrite Hc by reflexivity. reflexivity.
  - rewrite (find_ext _ (LookupSpec.hasChild part0)); [reflexivity|].
    apply Forall_forall. intros s _. cbn [andb]. apply orb_false_r.
Qed.

(** *** The calls of the parser name child scopes after symbols *)

Lemma update_name (down : list nat) (g s : Scope) (f : Scope -> Scope) :
  Scope.descend g down = Some s ->
  scope_name (f s) = scope_name s ->
  scope_name (Scope.update g down f) = scope_name g.
Proof.
  intros Hd Hn. destruct down as [|i rest]; cbn [Scope.update Scope.descend] in *.
  - inversion Hd; subst. exact Hn.
  - destruct (children g !! i); reflexivity.
Qed.

Lemma declared_update (down : list nat) : forall (g s : Scope) (f : Scope -> Scope),
  LookupSpec.declared g ->
  Scope.descend g down = Some s ->
  (LookupSpec.declared s -> LookupSpec.declared (f s)) ->
  scope_name (f s) = scope_name s ->
  LookupSpec.declared (Scope.update g down f).
Proof.
  induction down as [|i rest IH]; intros g s f Hg Hd Hfs Hn.
  - cbn in *. inversion Hd; subst. apply Hfs, Hg.
  - cbn [Scope.update Scope.descend] in *.
    destruct (children g !! i) as [c|] eqn:Hc; [|exact Hg].
    pose proof (declared_inv g Hg) as Hall.
    destruct (Forall_lookup_1 _ _ _ _ Hall Hc) as [Hsym Hcd].
    constructor. cbn [symbols children].
    apply Forall_insert; [exact Hall|].
    rewrite (update_name rest c s f Hd Hn). split; [exact Hsym|].
    apply (IH c s f Hcd Hd Hfs Hn).
Qed.

Lemma declared_init : LookupSpec.declared (globalScope_ SymbolTable.init).
Proof. constructor. apply Forall_nil_2. Qed.

Lemma declared_addSymbol t name kind node :
  ptr_valid t ->
  LookupSpec.declared (globalScope_ t) ->
  LookupSpec.declared (globalScope_ (snd (SymbolTable.addSymbol t name kind node))).
Proof.
  intros Hv Hg. pose proof (current_descend t Hv) as Hcur.
  unfold SymbolTable.addSymbol, SymbolTable.setCurrent. cbn [snd globalScope_].
  apply (declared_update _ _ (SymbolTable.current t) _ Hg Hcur).
  - intros Hs. unfold Scope.addSymbol.
    destruct (symbols (SymbolTable.current t) !! _) eqn:Hl; [exact Hs|].
    cbn [snd]. constructor. cbn [symbols children sym_name] in *.
    eapply Forall_impl; [exact (declared_inv _ Hs)|].
    intros c [[sym Hsym] Hc]. split; [|exact Hc].
    destruct (decide (name = scope_name c)) as [He|Hne].
    + rewrite He, lookup_insert_eq. eexists. reflexivity.
    + rewrite lookup_insert_ne by exact Hne. exists sym. exact Hsym.
  - unfold Scope.addSymbol. destruct (symbols _ !! _); reflexivity.
Qed.

(** After [addSymbol(name, ...)] the current scope has a symbol [name],
    the new one or the one it had. *)
Lemma addSymbol_present t name kind node :
  ptr_valid t ->
  is_Some (symbols (SymbolTable.current (snd (SymbolTable.addSymbol t name kind node)))
             !! name).
Proof.
  intros Hv. unfold SymbolTable.addSymbol. cbn [snd].
  rewrite current_setCurrent by exact Hv. unfold Scope.addSymbol. cbn [sym_name].
  destruct (symbols (SymbolTable.current t) !! name) as [first|] eqn:Hl; cbn [snd symbols].
  - exists first. exact Hl.
  - rewrite lookup_insert_eq. eexists. reflexivity.
Qed.

Lemma declared_enterScope t name :
  ptr_valid t ->
  LookupSpec.declared (globalScope_ t) ->
  is_Some (symbols (SymbolTable.current t) !! name) ->
  LookupSpec.declared (globalScope_ (SymbolTable.enterScope t name)).
Proof.
  intros Hv Hg Hsym. pose proof (current_descend t Hv) as Hcur.
  unfold SymbolTable.enterScope.
  destruct (Scope.childIndex (children (SymbolTable.current t)) name); [exact Hg|].
  unfold SymbolTable.setCurrent. cbn [globalScope_].
  apply (declared_update _ _ (SymbolTable.current t) _ Hg Hcur); [|reflexivity].
  intros Hs. unfold Scope.createChildScope. cbn [fst]. constructor.
  cbn [symbols children]. apply Forall_app. split; [exact (declared_inv _ Hs)|].
  apply Forall_cons_2; [|apply Forall_nil_2].
  unfold Scope.make.
  destruct (String.eqb (scope_fullyQualifiedName (SymbolTable.current t)) "");
    cbn [scope_name]; (split; [exact Hsym|constructor; apply Forall_nil_2]).
Qed.

Lemma declared_call (c : Call) (t : SymbolTable) :
  ptr_valid t -> LookupSpec.declared (globalScope_ t) ->
  ptr_valid (performAll (opsOf c) t) /\
  LookupSpec.declared (globalScope_ (performAll (opsOf c) t)).
Proof.
  intros Hv Hg. destruct c as [name kind node|name kind node|];
    unfold performAll; cbn [opsOf fold_left perform].
  - split; [apply valid_addSymbol, Hv|apply declared_addSymbol; assumption].
  - split; [apply valid_enterScope, valid_addSymbol, Hv|].
    apply declared_enterScope.
    + apply valid_addSymbol, Hv.
    + apply declared_addSymbol; assumption.
    + apply addSymbol_present, Hv.
  - split; [apply valid_leaveScope, Hv|].
    unfold SymbolTable.leaveScope. destruct (currentScope_ t); exact Hg.
Qed.

(** Whatever definitions the parser reads, every child scope of its symbol
    table is named after a symbol of the scope it is a child of. *)
Lemma declared_calls (cs : list Call) : forall t,
  ptr_valid t -> LookupSpec.declared (globalScope_ t) ->
  ptr_valid (performAll (calls cs) t) /\
  LookupSpec.declared (globalScope_ (performAll (calls cs) t)).
Proof.
  induction cs as [|c cs IH]; intros t Hv Hg; [split; assumption|].
  unfold calls. cbn [map concat]. unfold performAll. rewrite fold_left_app.
  destruct (declared_call c t Hv Hg) as [Hv1 Hg1].
  exact (IH _ Hv1 Hg1).
Qed.

(* ================================================================== *)
(** * The parser names every scope after a symbol *)
(* ================================================================== *)

(** [Parser] opens a scope in five places, the bodies of a module, an
    interface, a struct, a union and an exception, and each time it has
    just added the symbol of that name to the scope it is in.  So every
    parsing function, started on a table in which the child scopes are
    named after symbols of their parent, returns such a table. *)

Import Declared.

(** *** The primitives *)

Lemma holds_same p q : symbolTable_ q = symbolTable_ p -> holds p -> holds q.
Proof. unfold holds. intros ->. exact (fun H => H). Qed.

Lemma table_advance p : symbolTable_ (Parser.advance p) = symbolTable_ p.
Proof.
  unfold Parser.advance. destruct (Parser.advanceLoop _ _ _ _) as [[tok lx] errs].
  reflexivity.
Qed.

Lemma table_errorAt tok msg p : symbolTable_ (Parser.errorAt tok msg p) = symbolTable_ p.
Proof. unfold Parser.errorAt. destruct (panicMode_ p); reflexivity. Qed.

Lemma table_error msg p : symbolTable_ (Parser.error msg p) = symbolTable_ p.
Proof. apply table_errorAt. Qed.

Lemma table_warning msg p : symbolTable_ (Parser.warning msg p) = symbolTable_ p.
Proof. reflexivity. Qed.

Lemma table_expect type msg p : symbolTable_ (Parser.expect type msg p) = symbolTable_ p.
Proof.
  unfold Parser.expect. destruct (Parser.check type p);
    [apply table_advance|apply table_errorAt].
Qed.

Lemma table_expectSemicolon p : symbolTable_ (Parser.expectSemicolon p) = symbolTable_ p.
Proof. apply table_expect. Qed.

Lemma table_match type p : symbolTable_ (snd (Parser.match_ type p)) = symbolTable_ p.
Proof.
  unfold Parser.match_. destruct (Parser.check type p); cbn [snd];
    [apply table_advance|reflexivity].
Qed.

Lemma table_synchronizeLoop (fuel : nat) : forall p,
  symbolTable_ (Parser.synchronizeLoop fuel p) = symbolTable_ p.
Proof.
  induction fuel as [|fuel IH]; intros p; [reflexivity|].
  cbn [Parser.synchronizeLoop].
  destruct (Parser.check TokenType.Eof p); [reflexivity|].
  destruct (Parser.check_type TokenType.Semicolon (previousToken_ p)); [reflexivity|].
  destruct (Parser.check_type TokenType.RightBrace (previousToken_ p)).
  - destruct (Parser.check TokenType.Semicolon p); [apply table_advance|reflexivity].
  - destruct (Parser.isDefinitionStart p); [reflexivity|].
    rewrite IH. apply table_advance.
Qed.

Lemma table_synchronize p : symbolTable_ (Parser.synchronize p) = symbolTable_ p.
Proof. unfold Parser.synchronize. rewrite table_synchronizeLoop. reflexivity. Qed.

Lemma holds_new (lexer : Lexer) : holds (Parser.new lexer).
Proof.
  unfold Parser.new. refine (holds_same _ _ (table_advance _) _).
  split; [eexists; reflexivity|exact declared_init].
Qed.

(** *** The monad *)

Lemma preserves_ret {A} (a : A) : preserves (ret a).
Proof. intros p Hp. exact Hp. Qed.

Lemma preserves_ask {A} (f : Parser -> A) : preserves (ask f).
Proof. intros p Hp. exact Hp. Qed.

Lemma preserves_act (f : Parser -> Parser) :
  (forall p, symbolTable_ (f p) = symbolTable_ p) -> preserves (act f).
Proof. intros H p Hp. exact (holds_same _ _ (H p) Hp). Qed.

Lemma preserves_call {A} (f : Parser -> A * Parser) :
  (forall p, symbolTable_ (snd (f p)) = symbolTable_ p) -> preserves (call f).
Proof. intros H p Hp. exact (holds_same _ _ (H p) Hp). Qed.

Lemma preserves_outOfFuel {A} : preserves (@outOfFuel A).
Proof. intros p Hp. exact I. Qed.

Lemma preserves_throw {A} : preserves (@throwBadVariantAccess A).
Proof. intros p Hp. exact I. Qed.

Lemma preserves_undefined {A} : preserves (@undefined A).
Proof. intros p Hp. exact I. Qed.

Lemma preserves_bind {A B} (m : M A) (k : A -> M B) :
  preserves m -> (forall a, preserves (k a)) -> preserves (bind m k).
Proof.
  intros Hm Hk p Hp. unfold bind. specialize (Hm p Hp).
  destruct (m p) as [a p1| | |]; try exact I.
  exact (Hk a p1 Hm).
Qed.

Lemma preserves_addSymbol name kind node : preserves (Parser.addSymbol name kind node).
Proof.
  intros p [Hv Hd]. split; cbn;
    [apply valid_addSymbol, Hv|apply declared_addSymbol; assumption].
Qed.

Lemma preserves_leaveScope : preserves Parser.leaveScope.
Proof.
  intros p [Hv Hd]. split; cbn; [apply valid_leaveScope, Hv|].
  unfold SymbolTable.leaveScope. destruct (currentScope_ (symbolTable_ p)); exact Hd.
Qed.

Lemma holds_opened name kind node p :
  holds p ->
  holds (Parser.withSymbolTable (fun t => SymbolTable.enterScope t name)
           (Parser.withSymbolTable
              (fun t => snd (SymbolTable.addSymbol t name kind node)) p)).
Proof.
  intros [Hv Hd]. split; cbn.
  - apply valid_enterScope, valid_addSymbol, Hv.
  - apply declared_enterScope;
      [apply valid_addSymbol, Hv|apply declared_addSymbol; assumption
      |apply addSymbol_present, Hv].
Qed.

(** [addSymbol(name, ...)] and [enterScope(name)] *)
Lemma preserves_open {B} name kind node (k : unit -> M B) :
  preserves (k tt) ->
  preserves (bind (Parser.addSymbol name kind node)
               (fun _ => bind (Parser.enterScope name) k)).
Proof.
  intros Hk p Hp. unfold bind, Parser.addSymbol, Parser.enterScope, act.
  exact (Hk _ (holds_opened name kind node p Hp)).
Qed.

(** The same with the name of the interface built in between. *)
Lemma preserves_open_named {B} name kind node (k : string -> unit -> M B) :
  (forall fqn, preserves (k fqn tt)) ->
  preserves (bind (Parser.addSymbol name kind node)
               (fun _ => bind (Parser.buildFullyQualifiedName name)
                           (fun fqn => bind (Parser.enterScope name) (k fqn)))).
Proof.
  intros Hk p Hp.
  unfold bind, Parser.addSymbol, Parser.buildFullyQualifiedName, Parser.enterScope,
    act, ask.
  exact (Hk _ _ (holds_opened name kind node p Hp)).
Qed.

Create HintDb declared discriminated.

#[local] Hint Resolve preserves_ret preserves_ask preserves_outOfFuel preserves_throw
  preserves_undefined preserves_addSymbol preserves_leaveScope : declared.
#[local] Hint Resolve table_advance table_error table_errorAt table_warning
  table_expect table_expectSemicolon table_match table_synchronize : declared.

Lemma preserves_currentLocation : preserves Parser.currentLocation.
Proof. apply preserves_ask. Qed.

Lemma preserves_currentText : preserves Parser.currentText.
Proof. apply preserves_ask. Qed.

Lemma preserves_getCurrentScopeName : preserves Parser.getCurrentScopeName.
Proof. apply preserves_ask. Qed.

Lemma preserves_buildFullyQualifiedName name :
  preserves (Parser.buildFullyQualifiedName name).
Proof. apply preserves_ask. Qed.

#[local] Hint Resolve preserves_currentLocation preserves_currentText
  preserves_getCurrentScopeName preserves_buildFullyQualifiedName : declared.

(** One step through the body of a parsing function. *)
Ltac preserves_step :=
  cbv beta zeta;
  lazymatch goal with
  | |- preserves (bind (Parser.addSymbol ?n _ _)
                    (fun _ => bind (Parser.enterScope ?n) _)) =>
      apply preserves_open
  | |- preserves (bind (Parser.addSymbol ?n _ _)
                    (fun _ => bind (Parser.buildFullyQualifiedName ?n)
                                (fun fqn => bind (Parser.enterScope ?n) _))) =>
      apply preserves_open_named; intros ?
  | |- preserves (bind _ _) => apply preserves_bind; [|intros ?]
  | |- preserves (if ?b then _ else _) => destruct b
  | |- preserves (match ?v with _ => _ end) => destruct v
  | |- preserves (act _) => apply preserves_act; intros ?; auto with declared
  | |- preserves (call _) => apply preserves_call; intros ?; auto with declared
  | |- preserves _ => solve [auto with declared]
  end.

Ltac preserves_body := repeat preserves_step.

Lemma preserves_constantPartsLoop (fuel : nat) : forall parts,
  preserves (Parser.constantPartsLoop fuel parts).
Proof.
  induction fuel as [|fuel IH]; intros parts; cbn [Parser.constantPartsLoop];
    [apply preserves_outOfFuel|].
  preserves_body.
Qed.

#[local] Hint Resolve preserves_constantPartsLoop : declared.

(** *** Constant expressions *)

Section ExpressionsDeclared.

Variable rec : M ConstValue.
Hypothesis preserves_rec : preserves rec.

Lemma preserves_parsePrimaryExpr fuel : preserves (Parser.parsePrimaryExpr rec fuel).
Proof. unfold Parser.parsePrimaryExpr. preserves_body. Qed.

Lemma preserves_parseUnaryExpr fuel : preserves (Parser.parseUnaryExpr rec fuel).
Proof.
  pose proof preserves_parsePrimaryExpr.
  induction fuel as [|fuel IH]; cbn [Parser.parseUnaryExpr];
    [apply preserves_outOfFuel|preserves_body].
Qed.

Lemma preserves_mulLoop fuel : forall left, preserves (Parser.mulLoop rec fuel left).
Proof.
  pose proof preserves_parseUnaryExpr.
  induction fuel as [|fuel IH]; intros left; cbn [Parser.mulLoop];
    [apply preserves_outOfFuel|preserves_body].
Qed.

Lemma preserves_parseMulExpr fuel : preserves (Parser.parseMulExpr rec fuel).
Proof.
  pose proof preserves_parseUnaryExpr. pose proof preserves_mulLoop.
  unfold Parser.parseMulExpr. preserves_body.
Qed.

Lemma preserves_addLoop fuel : forall left, preserves (Parser.addLoop rec fuel left).
Proof.
  pose proof preserves_parseMulExpr.
  induction fuel as [|fuel IH]; intros left; cbn [Parser.addLoop];
    [apply preserves_outOfFuel|preserves_body].
Qed.

Lemma preserves_parseAddExpr fuel : preserves (Parser.parseAddExpr rec fuel).
Proof.
  pose proof preserves_parseMulExpr. pose proof preserves_addLoop.
  unfold Parser.parseAddExpr. preserves_body.
Qed.

Lemma preserves_shiftLoop fuel : forall left, preserves (Parser.shiftLoop rec fuel left).
Proof.
  pose proof preserves_parseAddExpr.
  induction fuel as [|fuel IH]; intros left; cbn [Parser.shiftLoop];
    [apply preserves_outOfFuel|preserves_body].
Qed.

Lemma preserves_parseShiftExpr fuel : preserves (Parser.parseShiftExpr rec fuel).
Proof.
  pose proof preserves_parseAddExpr. pose proof preserves_shiftLoop.
  unfold Parser.parseShiftExpr. preserves_body.
Qed.

Lemma preserves_andLoop fuel : forall left, preserves (Parser.andLoop rec fuel left).
Proof.
  pose proof preserves_parseShiftExpr.
  induction fuel as [|fuel IH]; intros left; cbn [Parser.andLoop];
    [apply preserves_outOfFuel|preserves_body].
Qed.

Lemma preserves_parseAndExpr fuel : preserves (Parser.parseAndExpr rec fuel).
Proof.
  pose proof preserves_parseShiftExpr. pose proof preserves_andLoop.
  unfold Parser.parseAndExpr. preserves_body.
Qed.

Lemma preserves_xorLoop fuel : forall left, preserves (Parser.xorLoop rec fuel left).
Proof.
  pose proof preserves_parseAndExpr.
  induction fuel as [|fuel IH]; intros left; cbn [Parser.xorLoop];
    [apply preserves_outOfFuel|preserves_body].
Qed.

Lemma preserves_parseXorExpr fuel : preserves (Parser.parseXorExpr rec fuel).
Proof.
  pose proof preserves_parseAndExpr. pose proof preserves_xorLoop.
  unfold Parser.parseXorExpr. preserves_body.
Qed.

Lemma preserves_orLoop fuel : forall left, preserves (Parser.orLoop rec fuel left).
Proof.
  pose proof preserves_parseXorExpr.
  induction fuel as [|fuel IH]; intros left; cbn [Parser.orLoop];
    [apply preserves_outOfFuel|preserves_body].
Qed.

Lemma preserves_parseOrExpr fuel : preserves (Parser.parseOrExpr rec fuel).
Proof.
  pose proof preserves_parseXorExpr. pose proof preserves_orLoop.
  unfold Parser.parseOrExpr. preserves_body.
Qed.

End ExpressionsDeclared.

Lemma preserves_parseConstExpr fuel : preserves (Parser.parseConstExpr fuel).
Proof.
  induction fuel as [|fuel IH]; cbn [Parser.parseConstExpr];
    [apply preserves_outOfFuel|].
  apply preserves_parseOrExpr, IH.
Qed.

#[local] Hint Resolve preserves_parseConstExpr : declared.

(** *** Types *)

Lemma preserves_parseBasicType : preserves Parser.parseBasicType.
Proof. unfold Parser.parseBasicType. preserves_body. Qed.

#[local] Hint Resolve preserves_parseBasicType : declared.

Lemma preserves_parseBaseTypeSpec : preserves Parser.parseBaseTypeSpec.
Proof. unfold Parser.parseBaseTypeSpec. preserves_body. Qed.

Lemma preserves_parseStringType fuel isWide : preserves (Parser.parseStringType fuel isWide).
Proof. unfold Parser.parseStringType. preserves_body. Qed.

Lemma preserves_scopedNameLoop fuel : forall parts, preserves (Parser.scopedNameLoop fuel parts).
Proof.
  induction fuel as [|fuel IH]; intros parts; cbn [Parser.scopedNameLoop];
    [apply preserves_outOfFuel|preserves_body].
Qed.

#[local] Hint Resolve preserves_parseBaseTypeSpec preserves_parseStringType
  preserves_scopedNameLoop : declared.

Lemma preserves_parseScopedName fuel : preserves (Parser.parseScopedName fuel).
Proof. unfold Parser.parseScopedName. preserves_body. Qed.

#[local] Hint Resolve preserves_parseScopedName : declared.

Section TypesDeclared.

Variable rec : M (option TypeNode).
Hypothesis preserves_rec : preserves rec.

Lemma preserves_parseSequenceType fuel : preserves (Parser.parseSequenceType rec fuel).
Proof. unfold Parser.parseSequenceType. preserves_body. Qed.

Lemma preserves_parseSimpleTypeSpec fuel : preserves (Parser.parseSimpleTypeSpec fuel).
Proof. unfold Parser.parseSimpleTypeSpec. preserves_body. Qed.

Lemma preserves_parseTypeSpecBody fuel : preserves (Parser.parseTypeSpecBody rec fuel).
Proof.
  pose proof preserves_parseSequenceType. pose proof preserves_parseSimpleTypeSpec.
  unfold Parser.parseTypeSpecBody. preserves_body.
Qed.

End TypesDeclared.

Lemma preserves_parseTypeSpec fuel : preserves (Parser.parseTypeSpec fuel).
Proof.
  induction fuel as [|fuel IH]; cbn [Parser.parseTypeSpec];
    [apply preserves_outOfFuel|].
  apply preserves_parseTypeSpecBody, IH.
Qed.

#[local] Hint Resolve preserves_parseTypeSpec : declared.

(** *** Declarators and members *)

Lemma preserves_dimensionsLoop fuel : forall dims, preserves (Parser.dimensionsLoop fuel dims).
Proof.
  induction fuel as [|fuel IH]; intros dims; cbn [Parser.dimensionsLoop];
    [apply preserves_outOfFuel|preserves_body].
Qed.

#[local] Hint Resolve preserves_dimensionsLoop : declared.

Lemma preserves_parseDeclarator fuel : preserves (Parser.parseDeclarator fuel).
Proof. unfold Parser.parseDeclarator. preserves_body. Qed.

#[local] Hint Resolve preserves_parseDeclarator : declared.

Lemma preserves_declaratorsLoop fuel : forall decls,
  preserves (Parser.declaratorsLoop fuel decls).
Proof.
  induction fuel as [|fuel IH]; intros decls; cbn [Parser.declaratorsLoop];
    [apply preserves_outOfFuel|preserves_body].
Qed.

#[local] Hint Resolve preserves_declaratorsLoop : declared.

Lemma preserves_parseDeclarators fuel : preserves (Parser.parseDeclarators fuel).
Proof. unfold Parser.parseDeclarators. preserves_body. Qed.

#[local] Hint Resolve preserves_parseDeclarators : declared.

Lemma preserves_parseStructMember fuel : preserves (Parser.parseStructMember fuel).
Proof. unfold Parser.parseStructMember. preserves_body. Qed.

Lemma preserves_labelsLoop fuel : forall labels, preserves (Parser.labelsLoop fuel labels).
Proof.
  induction fuel as [|fuel IH]; intros labels; cbn [Parser.labelsLoop];
    [apply preserves_outOfFuel|preserves_body].
Qed.

#[local] Hint Resolve preserves_parseStructMember preserves_labelsLoop : declared.

Lemma preserves_parseUnionCase fuel : preserves (Parser.parseUnionCase fuel).
Proof. unfold Parser.parseUnionCase. preserves_body. Qed.

(** *** Interface members *)

Lemma preserves_parseParamDirection : preserves Parser.parseParamDirection.
Proof. unfold Parser.parseParamDirection. preserves_body. Qed.

#[local] Hint Resolve preserves_parseUnionCase preserves_parseParamDirection : declared.

Lemma preserves_parseParameter fuel : preserves (Parser.parseParameter fuel).
Proof. unfold Parser.parseParameter. preserves_body. Qed.

Lemma preserves_raisesTailLoop fuel : forall excName,
  preserves (Parser.raisesTailLoop fuel excName).
Proof.
  induction fuel as [|fuel IH]; intros excName; cbn [Parser.raisesTailLoop];
    [apply preserves_outOfFuel|preserves_body].
Qed.

#[local] Hint Resolve preserves_parseParameter preserves_raisesTailLoop : declared.

Lemma preserves_raisesLoop fuel : forall exceptions,
  preserves (Parser.raisesLoop fuel exceptions).
Proof.
  induction fuel as [|fuel IH]; intros exceptions; cbn [Parser.raisesLoop];
    [apply preserves_outOfFuel|preserves_body].
Qed.

#[local] Hint Resolve preserves_raisesLoop : declared.

Lemma preserves_parseRaisesExpr fuel : preserves (Parser.parseRaisesExpr fuel).
Proof. unfold Parser.parseRaisesExpr. preserves_body. Qed.

Lemma preserves_inheritanceTailLoop fuel : forall baseName,
  preserves (Parser.inheritanceTailLoop fuel baseName).
Proof.
  induction fuel as [|fuel IH]; intros baseName; cbn [Parser.inheritanceTailLoop];
    [apply preserves_outOfFuel|preserves_body].
Qed.

#[local] Hint Resolve preserves_parseRaisesExpr preserves_inheritanceTailLoop : declared.

Lemma preserves_inheritanceLoop fuel : forall bases,
  preserves (Parser.inheritanceLoop fuel bases).
Proof.
  induction fuel as [|fuel IH]; intros bases; cbn [Parser.inheritanceLoop];
    [apply preserves_outOfFuel|preserves_body].
Qed.

#[local] Hint Resolve preserves_inheritanceLoop : declared.

Lemma preserves_parseInheritanceSpec fuel : preserves (Parser.parseInheritanceSpec fuel).
Proof. unfold Parser.parseInheritanceSpec. preserves_body. Qed.

Lemma preserves_parametersLoop fuel : forall parameters,
  preserves (Parser.parametersLoop fuel parameters).
Proof.
  induction fuel as [|fuel IH]; intros parameters; cbn [Parser.parametersLoop];
    [apply preserves_outOfFuel|preserves_body].
Qed.

#[local] Hint Resolve preserves_parseInheritanceSpec preserves_parametersLoop : declared.

Lemma preserves_parseOperation fuel returnType name isOneway :
  preserves (Parser.parseOperation fuel returnType name isOneway).
Proof. unfold Parser.parseOperation. preserves_body. Qed.

Lemma preserves_parseAttribute fuel isReadonly :
  preserves (Parser.parseAttribute fuel isReadonly).
Proof. unfold Parser.parseAttribute. preserves_body. Qed.

#[local] Hint Resolve preserves_parseOperation preserves_parseAttribute : declared.

(** *** Definitions *)

Lemma preserves_membersLoop fuel : forall members,
  preserves (Parser.membersLoop fuel members).
Proof.
  induction fuel as [|fuel IH]; intros members; cbn [Parser.membersLoop];
    [apply preserves_outOfFuel|preserves_body].
Qed.

#[local] Hint Resolve preserves_membersLoop : declared.

Lemma preserves_parseStruct fuel : preserves (Parser.parseStruct fuel).
Proof. unfold Parser.parseStruct. preserves_body. Qed.

Lemma preserves_casesLoop fuel : forall cases, preserves (Parser.casesLoop fuel cases).
Proof.
  induction fuel as [|fuel IH]; intros cases; cbn [Parser.casesLoop];
    [apply preserves_outOfFuel|preserves_body].
Qed.

#[local] Hint Resolve preserves_parseStruct preserves_casesLoop : declared.

Lemma preserves_parseUnion fuel : preserves (Parser.parseUnion fuel).
Proof. unfold Parser.parseUnion. preserves_body. Qed.

Lemma preserves_enumeratorsLoop fuel : forall values,
  preserves (Parser.enumeratorsLoop fuel values).
Proof.
  induction fuel as [|fuel IH]; intros values; cbn [Parser.enumeratorsLoop];
    [apply preserves_outOfFuel|preserves_body].
Qed.

Lemma preserves_registerEnumerators enumerators :
  preserves (Parser.registerEnumerators enumerators).
Proof.
  induction enumerators as [|val rest IH]; cbn [Parser.registerEnumerators];
    [apply preserves_ret|preserves_body].
Qed.

#[local] Hint Resolve preserves_parseUnion preserves_enumeratorsLoop
  preserves_registerEnumerators : declared.

Lemma preserves_parseEnum fuel : preserves (Parser.parseEnum fuel).
Proof. unfold Parser.parseEnum. preserves_body. Qed.

Lemma preserves_registerDeclarators declarators : forall astDeclarators,
  preserves (Parser.registerDeclarators declarators astDeclarators).
Proof.
  induction declarators as [|decl rest IH]; intros astDeclarators;
    cbn [Parser.registerDeclarators]; [apply preserves_ret|preserves_body].
Qed.

#[local] Hint Resolve preserves_parseEnum preserves_registerDeclarators : declared.

Lemma preserves_parseTypedef fuel : preserves (Parser.parseTypedef fuel).
Proof. unfold Parser.parseTypedef. preserves_body. Qed.

Lemma preserves_parseConst fuel : preserves (Parser.parseConst fuel).
Proof. unfold Parser.parseConst. preserves_body. Qed.

Lemma preserves_parseException fuel : preserves (Parser.parseException fuel).
Proof. unfold Parser.parseException. preserves_body. Qed.

#[local] Hint Resolve preserves_parseTypedef preserves_parseConst preserves_parseException
  : declared.

Section DefinitionsDeclared.

Variable rec : M (option DefinitionNode).
Hypothesis preserves_rec : preserves rec.

Lemma preserves_moduleLoop fuel : forall definitions,
  preserves (Parser.moduleLoop rec fuel definitions).
Proof.
  induction fuel as [|fuel IH]; intros definitions; cbn [Parser.moduleLoop];
    [apply preserves_outOfFuel|preserves_body].
Qed.

Lemma preserves_parseModule fuel : preserves (Parser.parseModule rec fuel).
Proof.
  pose proof preserves_moduleLoop.
  unfold Parser.parseModule. preserves_body.
Qed.

Lemma preserves_interfaceLoop fuel : forall contents,
  preserves (Parser.interfaceLoop rec fuel contents).
Proof.
  induction fuel as [|fuel IH]; intros contents; cbn [Parser.interfaceLoop];
    [apply preserves_outOfFuel|preserves_body].
Qed.

Lemma preserves_parseInterface fuel isAbstract isLocal :
  preserves (Parser.parseInterface rec fuel isAbstract isLocal).
Proof.
  pose proof preserves_interfaceLoop.
  unfold Parser.parseInterface. preserves_body.
Qed.

Lemma preserves_parseDefinitionBody fuel : preserves (Parser.parseDefinitionBody rec fuel).
Proof.
  pose proof preserves_parseModule. pose proof preserves_parseInterface.
  unfold Parser.parseDefinitionBody. preserves_body.
Qed.

End DefinitionsDeclared.

Lemma preserves_parseDefinition fuel : preserves (Parser.parseDefinition fuel).
Proof.
  induction fuel as [|fuel IH]; cbn [Parser.parseDefinition];
    [apply preserves_outOfFuel|].
  apply preserves_parseDefinitionBody, IH.
Qed.

#[local] Hint Resolve preserves_parseDefinition : declared.

Lemma preserves_parseLoop fuel : forall definitions,
  preserves (Parser.parseLoop fuel definitions).
Proof.
  induction fuel as [|fuel IH]; intros definitions; cbn [Parser.parseLoop];
    [apply preserves_outOfFuel|preserves_body].
Qed.

#[local] Hint Resolve preserves_parseLoop : declared.

Lemma preserves_parse fuel : preserves (Parser.parse fuel).
Proof. unfold Parser.parse. preserves_body. Qed.

(** C6, as it holds.  [SymbolTable::lookupScoped] resolves a non-empty
    parts list as follows.  Absolute: from the global scope, all parts but
    the last are walked as child scopes and the last part is looked up
    locally in the scope reached.  Relative with several parts: the scopes
    from the current one towards the global one are tried until one has a
    child scope named after the first part; from that child the parts
    between the first and the last are walked as child scopes and the last
    part is looked up locally.  Relative with one part: the symbol is the
    local symbol of that name of the first scope, from the current one
    towards the global one, that has one; a child scope of that name in a
    scope on the way does not stop the search.  The result is absent as
    soon as a step fails.  On absolute names, on names of several parts,
    and on every table in which child scopes are named after symbols of
    their parent, this is the resolution that the design document words.
    The tables of the parser are such tables: the calls that the parser
    makes for its definitions build one, [Parser::Parser] starts on one,
    and [Parser::parse], like every parsing function, returns one when it
    started on one. *)
Theorem lookupScoped_resolves_as_amended (t : SymbolTable) (parts : list string)
    (isAbsolute : bool) :
  parts <> [] ->
  SymbolTable.lookupScoped t parts isAbsolute
  = LookupSpec.lookupScoped t parts isAbsolute /\
  (isAbsolute = true \/ length parts <> 1 \/ LookupSpec.declared (globalScope_ t) ->
   SymbolTable.lookupScoped t parts isAbsolute
   = LookupSpec.asWorded t parts isAbsolute) /\
  (forall cs,
     LookupSpec.declared (globalScope_ (performAll (calls cs) SymbolTable.init))) /\
  (forall lexer, Declared.holds (Parser.new lexer)) /\
  (forall fuel p unit p',
     Declared.holds p -> Parser.parse fuel p = Ret unit p' -> Declared.holds p').
Proof.
  intros _. split; [apply lookupScoped_resolution|]. split; [|split; [|split]].
  - intros Hcase. rewrite (asWorded_lookupScoped t parts isAbsolute Hcase).
    apply lookupScoped_resolution.
  - intros cs.
    exact (proj2 (declared_calls cs SymbolTable.init
                    (ex_intro _ _ eq_refl) declared_init)).
  - exact holds_new.
  - intros fuel p unit p' Hp H.
    pose proof (preserves_parse fuel p Hp) as Hk. rewrite H in Hk. exact Hk.
Qed.

(** Inside [N] in [module M { const long C = 7 ; module N { const long
    D = 8 ;]: [N::D] is found through the child scope [N] of [M], [C] in
    [M], [::M::N::D] from the global scope, and [::M::X::D] nowhere.  The
    table is the one of the parser: when it has read the two closing
    braces as well, its symbol table is the table of these calls and two
    calls of [leaveScope], and its child scopes [M] and [N] are named
    after the symbols [M] and [M::N]. *)
Lemma lookupScoped_resolves_as_amended_witness :
  let t := Table.nested in
  let c := mkSymbol "C" "M::C" SymbolKind.Constant (Some (ToConstNode (CInt64 7))) "M" in
  let d := mkSymbol "D" "M::N::D" SymbolKind.Constant (Some (ToConstNode (CInt64 8)))
             "M::N" in
  ["N"; "D"] <> [] /\
  LookupSpec.declared (globalScope_ t) /\
  (SymbolTable.lookupScoped t ["N"; "D"] false = Some d /\
   LookupSpec.lookupScoped t ["N"; "D"] false = Some d /\
   LookupSpec.asWorded t ["N"; "D"] false = Some d) /\
  (SymbolTable.lookupScoped t ["C"] false = Some c /\
   LookupSpec.lookupScoped t ["C"] false = Some c /\
   LookupSpec.asWorded t ["C"] false = Some c) /\
  (SymbolTable.lookupScoped t ["M"; "N"; "D"] true = Some d /\
   LookupSpec.asWorded t ["M"; "N"; "D"] true = Some d) /\
  (SymbolTable.lookupScoped t ["M"; "X"; "D"] true = None /\
   LookupSpec.asWorded t ["M"; "X"; "D"] true = None) /\
  match Parser.parse 30 (Source.parser Examples.nestedModules) with
  | Ret _ r =>
      errors_ r = [] /\
      symbolTable_ r
      = performAll (calls (Table.nestedCalls ++ [BodyEnd; BodyEnd])) SymbolTable.init /\
      Declared.holds r
  | _ => False
  end.
Proof.
  intros t c d.
  assert (Hne : forall (a : string) l, a :: l <> []) by discriminate.
  pose proof (lookupScoped_resolves_as_amended t ["N"; "D"] false (Hne _ _))
    as (H1 & H1w & Hdecl & Hnew & Hparse).
  pose proof (lookupScoped_resolves_as_amended t ["C"] false (Hne _ _)) as (H2 & H2w & _).
  pose proof (lookupScoped_resolves_as_amended t ["M"; "N"; "D"] true (Hne _ _))
    as (_ & H3w & _).
  pose proof (lookupScoped_resolves_as_amended t ["M"; "X"; "D"] true (Hne _ _))
    as (_ & H4w & _).
  assert (Hd : LookupSpec.declared (globalScope_ t)) by apply Hdecl.
  assert (E1 : SymbolTable.lookupScoped t ["N"; "D"] false = Some d)
    by (vm_compute; reflexivity).
  assert (E2 : SymbolTable.lookupScoped t ["C"] false = Some c)
    by (vm_compute; reflexivity).
  assert (E3 : SymbolTable.lookupScoped t ["M"; "N"; "D"] true = Some d)
    by (vm_compute; reflexivity).
  assert (E4 : SymbolTable.lookupScoped t ["M"; "X"; "D"] true = None)
    by (vm_compute; reflexivity).
  split; [apply Hne|]. split; [exact Hd|].
  split; [split; [exact E1|split; [rewrite <- H1; exact E1|]]|].
  { rewrite <- H1w; [exact E1|]. right. right. exact Hd. }
  split; [split; [exact E2|split; [rewrite <- H2; exact E2|]]|].
  { rewrite <- H2w; [exact E2|]. right. right. exact Hd. }
  split; [split; [exact E3|rewrite <- H3w; [exact E3|left; reflexivity]]|].
  split; [split; [exact E4|rewrite <- H4w; [exact E4|left; reflexivity]]|].
  destruct (Parser.parse 30 (Source.parser Examples.nestedModules))
    as [unit r| | |] eqn:H; [|vm_compute in H; discriminate..].
  assert (Hr : r = match Parser.parse 30 (Source.parser Examples.nestedModules)
                   with Ret _ q => q | _ => r end) by (rewrite H; reflexivity).
  split; [rewrite Hr; vm_compute; reflexivity|].
  split; [rewrite Hr; vm_compute; reflexivity|].
  assert (Hs : Declared.holds (Source.parser Examples.nestedModules))
    by exact (Hnew (Source.lexer Examples.nestedModules)).
  exact (Hparse _ _ _ _ Hs H).
Defined.

(** C6 as stated fails for one part.  After [addSymbol("X", Constant)],
    [enterScope("M")], [enterScope("X")] and [leaveScope()], the current
    scope [M] has a child scope named [X] and no symbol [X]: it is the
    first ancestor with a child scope or a local symbol named [X], and the
    local lookup of [X] in it (and in its child scope [X]) gives nothing,
    so that the resolution of the design document is absent.
    [lookupScoped] goes on to the global scope and returns its symbol
    [X]. *)
Lemma lookupScoped_passes_a_child_scope :
  ptr_valid Table.shadowed /\
  (exists m x,
     Scope.deref (globalScope_ Table.shadowed) (currentScope_ Table.shadowed) = Some m /\
     scope_name m = "M" /\
     LookupSpec.childNamed m "X" = Some x /\ scope_name x = "X" /\
     LookupSpec.symbolNamed m "X" = None /\ LookupSpec.symbolNamed x "X" = None) /\
  SymbolTable.lookupScoped Table.shadowed ["X"] false
  = Some (mkSymbol "X" "X" SymbolKind.Constant (Some (ToConstNode (CInt64 5))) "") /\
  LookupSpec.asWorded Table.shadowed ["X"] false = None /\
  SymbolTable.lookupScoped Table.shadowed ["X"] false
  <> LookupSpec.asWorded Table.shadowed ["X"] false.
Proof.
  assert (E1 : SymbolTable.lookupScoped Table.shadowed ["X"] false
               = Some (mkSymbol "X" "X" SymbolKind.Constant
                         (Some (ToConstNode (CInt64 5))) ""))
    by (vm_compute; reflexivity).
  assert (E2 : LookupSpec.asWorded Table.shadowed ["X"] false = None)
    by (vm_compute; reflexivity).
  split; [eexists; vm_compute; reflexivity|].
  split; [do 2 eexists; vm_compute; repeat split; reflexivity|].
  split; [exact E1|]. split; [exact E2|].
  rewrite E1, E2. discriminate.
Qed.

(** ** Declarators *)

Lemma declaratorsLoop_grows (fuel : nat) : forall decls p r p',
  Parser.declaratorsLoop fuel decls p = Ret r p' -> exists more, r = decls ++ more.
Proof.
  induction fuel as [|fuel IH]; intros decls p r p' H; [discriminate|].
  cbn [Parser.declaratorsLoop] in H.
  rewrite bind_call in H.
  destruct (fst (Parser.match_ TokenType.Comma p)).
  - unfold bind at 1 in H.
    destruct (Parser.parseDeclarator fuel (snd (Parser.match_ TokenType.Comma p)))
      as [decl p1| | |]; try discriminate.
    destruct (IH _ _ _ _ H) as [more Hm]. exists (decl :: more).
    rewrite Hm. rewrite <- app_assoc. reflexivity.
  - inversion H; subst. exists []. rewrite app_nil_r. reflexivity.
Qed.

(** [parseDeclarators] never returns an empty vector: the test
    [declarators.empty()] of [parseTypedef] and of [parseStructMember] is
    never true. *)
Lemma parseDeclarators_not_empty (fuel : nat) p r p' :
  Parser.parseDeclarators fuel p = Ret r p' -> r <> [].
Proof.
  unfold Parser.parseDeclarators, bind at 1.
  destruct (Parser.parseDeclarator fuel p) as [decl p1| | |]; try discriminate.
  intros H. destruct (declaratorsLoop_grows _ _ _ _ _ H) as [more Hm].
  rewrite Hm. discriminate.
Qed.

(** A declarator without a name gives a typedef symbol without a name. *)
Lemma parseDeclarator_without_identifier (fuel : nat) p :
  Parser.check TokenType.Identifier p = false ->
  Parser.parseDeclarator fuel p
  = Ret (Parser.mkDeclarator "" []) (Parser.error "Expected identifier" p).
Proof.
  intros H. unfold Parser.parseDeclarator. rewrite bind_ask, H. reflexivity.
Qed.

(** ** Fully qualified names *)

(** In the table that calls with identifiers build, the global scope alone
    has the empty fully qualified name; a scope below it is named by its
    parent's fully qualified name, [::] and its own name, or by its own
    name alone under the global scope; and so is every symbol, by the
    scope that holds it. *)
Lemma fully_qualified_names (ops : list Op) (down : list nat) (s : Scope) :
  forallb named ops = true ->
  Scope.descend (globalScope_ (performAll ops SymbolTable.init)) down = Some s ->
  (scope_fullyQualifiedName s = "" <-> down = []) /\
  (forall i c, children s !! i = Some c ->
     scope_fullyQualifiedName c
     = qualify (scope_fullyQualifiedName s) (scope_name c)) /\
  (forall k x, symbols s !! k = Some x ->
     sym_name x = k /\
     sym_fullyQualifiedName x = qualify (scope_fullyQualifiedName s) k).
Proof.
  intros Hn Hd.
  destruct (inv_performAll ops SymbolTable.init Hn inv_init) as (Hwf & Hfqn & _).
  destruct (descend_names down _ s [] Hwf (Forall_nil_2 _) Hfqn Hd)
    as (names & _ & Hids & Hsf & Hswf & Hlen).
  cbn [app] in Hsf.
  destruct (wf_inv s Hswf) as (Hsyms & _ & Hall).
  split; [|split].
  - split.
    + intros He. destruct names as [|n ns].
      * destruct down; [reflexivity|discriminate].
      * exfalso. apply (joined_nonempty (n :: ns)); [discriminate|exact Hids|].
        rewrite <- Hsf. exact He.
    + intros ->. destruct names; [exact Hsf|discriminate].
  - intros i c Hc. rewrite Forall_forall in Hall.
    destruct (Hall c) as (_ & Hcf & _); [|exact Hcf].
    apply list_elem_of_lookup. exists i. exact Hc.
  - intros k x Hk. destruct (Hsyms k x Hk) as (_ & H1 & H2). split; assumption.
Qed.

(** [buildFullyQualifiedName] follows the same rule. *)
Lemma buildFullyQualifiedName_qualify (t : SymbolTable) (name : string) :
  SymbolTable.buildFullyQualifiedName t name
  = qualify (scope_fullyQualifiedName (SymbolTable.current t)) name.
Proof. reflexivity. Qed.

(** The calls that parsing [module M { const long C = 1 + 2 * 3 ; } ;]
    makes on the symbol table, and the round trip of [M::C]. *)
Lemma qualified_round_trip_example :
  let ops := [ Add "M" SymbolKind.Module_ None; Enter "M";
               Add "C" SymbolKind.Constant (Some (ToConstNode (CInt64 7)));
               Leave ] in
  let c := mkSymbol "C" "M::C" SymbolKind.Constant
             (Some (ToConstNode (CInt64 7))) "M" in
  match Parser.parse 30 (Source.parser Source.moduleWithConst) with
  | Ret _ p => symbolTable_ p = performAll ops SymbolTable.init
  | _ => False
  end /\
  forallb named ops = true /\
  currentScope_ (performAll ops SymbolTable.init) = [] /\
  recorded (performAll ops SymbolTable.init) c /\
  SymbolTable.lookupQualified (performAll ops SymbolTable.init) "M::C" = Some c.
Proof.
  intros ops c.
  assert (Hn : forallb named ops = true) by reflexivity.
  assert (Hc : currentScope_ (performAll ops SymbolTable.init) = []) by reflexivity.
  assert (Hr : recorded (performAll ops SymbolTable.init) c).
  { exists [0], (SymbolTable.current (performAll [ Add "M" SymbolKind.Module_ None;
        Enter "M"; Add "C" SymbolKind.Constant (Some (ToConstNode (CInt64 7))) ]
        SymbolTable.init)), "C".
    split; vm_compute; reflexivity. }
  split; [vm_compute; reflexivity|].
  split; [exact Hn|]. split; [exact Hc|]. split; [exact Hr|].
  exact (qualified_round_trip ops c Hn Hc Hr).
Qed.

(** C1 at [typedef long ;] and at [module M { typedef long ; } ;]: the
    parser reports the missing identifier and still records a [Typedef]
    symbol whose name is empty.  At top level its fully qualified name is
    empty and [lookupQualified] finds nothing; in [M] its fully qualified
    name is [M::] and [lookupQualified] returns the symbol of the module
    [M] instead. *)
Theorem unnamed_typedef_breaks_round_trip :
  match Parser.parse 30 (Source.parser Examples.typedefWithoutName) with
  | Ret unit p =>
      let t := symbolTable_ p in
      let x := mkSymbol "" "" SymbolKind.Typedef None "" in
      length (errors_ p) = 1 /\
      currentScope_ t = [] /\
      symbols (globalScope_ t) !! "" = Some x /\
      SymbolTable.lookupQualified t (sym_fullyQualifiedName x) = None
  | _ => False
  end /\
  match Parser.parse 30 (Source.parser Examples.typedefWithoutNameInModule) with
  | Ret unit p =>
      let t := symbolTable_ p in
      let x := mkSymbol "" "M::" SymbolKind.Typedef None "M" in
      length (errors_ p) = 1 /\
      currentScope_ t = [] /\
      (exists m, children (globalScope_ t) !! 0 = Some m /\ symbols m !! "" = Some x) /\
      SymbolTable.lookupQualified t (sym_fullyQualifiedName x)
      = Some (mkSymbol "M" "M" SymbolKind.Module_ None "") /\
      SymbolTable.lookupQualified t (sym_fullyQualifiedName x) <> Some x
  | _ => False
  end.
Proof.
  split.
  - vm_compute. repeat split; reflexivity.
  - vm_compute. split; [reflexivity|]. split; [reflexivity|].
    split; [eexists; split; reflexivity|]. split; [reflexivity|discriminate].
Qed.

(* ================================================================== *)
(** * The scanner *)
(* ================================================================== *)

Import Scanned.

(** ** The scanner *)

Lemma append_length (a b : string) :
  String.length (a +:+ b) = String.length a + String.length b.
Proof.
  induction a as [|c a IH]; [reflexivity|].
  rewrite append_cons. cbn [String.length]. rewrite IH. reflexivity.
Qed.

Lemma after_append (a b : string) : forall loc,
  Position.after (a +:+ b) loc = Position.after b (Position.after a loc).
Proof.
  induction a as [|c a IH]; intros loc; [reflexivity|].
  rewrite append_cons. cbn [Position.after]. apply IH.
Qed.

Lemma moves_refl st : moves "" st st.
Proof.
  split; [reflexivity..|]. exists []. rewrite app_nil_r. reflexivity.
Qed.

Lemma moves_trans a b st1 st2 st3 :
  moves a st1 st2 -> moves b st2 st3 -> moves (a +:+ b) st1 st3.
Proof.
  intros [H1 H2 H3 [e1 H4]] [G1 G2 G3 [e2 G4]]. split.
  - rewrite H1, G1, append_assoc. reflexivity.
  - rewrite G2, H2, after_append. reflexivity.
  - congruence.
  - exists (e1 ++ e2). rewrite G4, H4, app_assoc. reflexivity.
Qed.

Lemma moves_advance st :
  Scanner.isAtEnd st = false ->
  moves (Char.str (Scanner.peek st)) st (snd (Scanner.advance st)) /\
  fst (Scanner.advance st) = Scanner.peek st /\
  Scanner.errors_ (snd (Scanner.advance st)) = Scanner.errors_ st.
Proof.
  unfold Scanner.isAtEnd, Scanner.peek, Scanner.advance.
  destruct st as [r f l c la e]. cbn [Scanner.rest].
  destruct r as [|ch r]; [discriminate|]. intros _.
  cbn [fst snd Scanner.filename_ Scanner.line_ Scanner.column_
       Scanner.lookahead_ Scanner.errors_].
  split; [|split; [reflexivity|destruct (Ascii.eqb ch Char.lf); reflexivity]].
  split.
  - destruct (Ascii.eqb ch Char.lf); reflexivity.
  - unfold Char.str, Scanner.currentLocation. cbn [Position.after].
    destruct (Ascii.eqb ch Char.lf); reflexivity.
  - destruct (Ascii.eqb ch Char.lf); reflexivity.
  - exists []. destruct (Ascii.eqb ch Char.lf); cbn; rewrite app_nil_r; reflexivity.
Qed.

Lemma moves_addError msg st : moves "" st (Scanner.addError msg st).
Proof.
  split; [reflexivity..|]. eexists. reflexivity.
Qed.

Lemma moves_length s st st' :
  moves s st st' ->
  String.length (Scanner.rest st)
  = String.length s + String.length (Scanner.rest st').
Proof. intros [H _ _ _]. rewrite H. apply append_length. Qed.

Lemma isAtEnd_length st :
  Scanner.isAtEnd st = true <-> String.length (Scanner.rest st) = 0.
Proof.
  unfold Scanner.isAtEnd. destruct (Scanner.rest st); cbn; split; congruence.
Qed.

Lemma isAtEnd_rest st : Scanner.isAtEnd st = true <-> Scanner.rest st = "".
Proof.
  unfold Scanner.isAtEnd. destruct (Scanner.rest st); split; congruence.
Qed.

Lemma peek_rest st c r : Scanner.rest st = String c r -> Scanner.peek st = c.
Proof. unfold Scanner.peek. intros ->. reflexivity. Qed.

(** What a loop of [advance()] under a test reads: the longest run of
    characters that pass the test. *)
Lemma advanceWhile_span test (fuel : nat) : forall text st,
  String.length (Scanner.rest st) <= fuel ->
  let run := fst (span test (Scanner.rest st)) in
  fst (Scanner.advanceWhile test fuel text st) = text +:+ run /\
  moves run st (snd (Scanner.advanceWhile test fuel text st)) /\
  Scanner.rest (snd (Scanner.advanceWhile test fuel text st))
  = snd (span test (Scanner.rest st)) /\
  Scanner.errors_ (snd (Scanner.advanceWhile test fuel text st)) = Scanner.errors_ st.
Proof.
  induction fuel as [|fuel IH]; intros text st Hlen run.
  - assert (Hr : Scanner.rest st = "").
    { destruct (Scanner.rest st); [reflexivity|cbn in Hlen; lia]. }
    subst run. rewrite Hr. cbn [Scanner.advanceWhile span fst snd].
    rewrite append_empty_r.
    split; [reflexivity|]. split; [apply moves_refl|].
    split; [exact Hr|reflexivity].
  - cbn [Scanner.advanceWhile]. subst run.
    destruct (Scanner.rest st) as [|c r] eqn:Hr.
    + assert (He : Scanner.isAtEnd st = true) by (apply isAtEnd_rest; exact Hr).
      rewrite He. cbn [negb andb span fst snd]. rewrite append_empty_r.
      split; [reflexivity|]. split; [apply moves_refl|].
      split; [exact Hr|reflexivity].
    + assert (He : Scanner.isAtEnd st = false).
      { unfold Scanner.isAtEnd. rewrite Hr. reflexivity. }
      rewrite He, (peek_rest _ _ _ Hr). cbn [negb andb span].
      destruct (test c) eqn:Ht.
      * destruct (moves_advance st He) as (Hm & Hc & Hel).
        rewrite (peek_rest _ _ _ Hr) in Hm, Hc.
        assert (Hr' : Scanner.rest (snd (Scanner.advance st)) = r).
        { destruct Hm as [H _ _ _]. rewrite Hr in H. unfold Char.str in H.
          rewrite append_cons in H. inversion H. reflexivity. }
        specialize (IH (text +:+ Char.str (fst (Scanner.advance st)))
                      (snd (Scanner.advance st))).
        rewrite Hr' in IH. cbn [String.length] in Hlen.
        destruct IH as (I1 & I2 & I3 & I4); [lia|].
        cbn [fst snd]. rewrite I1, I3, I4, Hel. rewrite Hc in *.
        split; [rewrite append_assoc; exact eq_refl|].
        split; [|split; reflexivity].
        change (String c (fst (span test r)))
          with (Char.str c +:+ fst (span test r)).
        eapply moves_trans; eassumption.
      * cbn [fst snd]. rewrite append_empty_r.
        split; [reflexivity|]. split; [apply moves_refl|].
        split; [exact Hr|reflexivity].
Qed.

Lemma takeWhile_span test text st :
  let run := fst (span test (Scanner.rest st)) in
  fst (Scanner.takeWhile test text st) = text +:+ run /\
  moves run st (snd (Scanner.takeWhile test text st)) /\
  Scanner.rest (snd (Scanner.takeWhile test text st))
  = snd (span test (Scanner.rest st)) /\
  Scanner.errors_ (snd (Scanner.takeWhile test text st)) = Scanner.errors_ st.
Proof. apply advanceWhile_span. reflexivity. Qed.

Lemma span_append test (s : string) :
  fst (span test s) +:+ snd (span test s) = s.
Proof.
  induction s as [|c s IH]; [reflexivity|].
  cbn [span]. destruct (test c); cbn [fst snd]; [|reflexivity].
  rewrite append_cons, IH. reflexivity.
Qed.

Lemma span_stops test (s : string) : stopsAt test (snd (span test s)) = true.
Proof.
  induction s as [|c s IH]; [reflexivity|].
  cbn [span]. destruct (test c) eqn:Ht; cbn [fst snd]; [exact IH|].
  cbn [stopsAt]. rewrite Ht. reflexivity.
Qed.

Lemma span_all test (s : string) : Names.allChars test (fst (span test s)) = true.
Proof.
  induction s as [|c s IH]; [reflexivity|].
  cbn [span]. destruct (test c) eqn:Ht; cbn [fst snd Names.allChars]; [|reflexivity].
  rewrite Ht, IH. reflexivity.
Qed.

Lemma span_exact test (word tail : string) :
  Names.allChars test word = true -> stopsAt test tail = true ->
  span test (word +:+ tail) = (word, tail).
Proof.
  intros Hw Ht. induction word as [|c word IH].
  - change ("" +:+ tail) with tail. destruct tail as [|c tail]; [reflexivity|].
    cbn [stopsAt] in Ht. cbn [span]. destruct (test c); [discriminate|reflexivity].
  - cbn [Names.allChars] in Hw. apply andb_true_iff in Hw. destruct Hw as [Hc Hw].
    rewrite append_cons. cbn [span]. rewrite Hc, (IH Hw). reflexivity.
Qed.

Lemma moves_char_rest a st st' r :
  moves (Char.str a) st st' -> Scanner.rest st = String a r -> Scanner.rest st' = r.
Proof.
  intros [H _ _ _] Hr. rewrite Hr in H.
  change (Char.str a +:+ Scanner.rest st') with (String a (Scanner.rest st')) in H.
  congruence.
Qed.

Lemma moves_two st a b r :
  Scanner.rest st = String a (String b r) ->
  let st2 := snd (Scanner.advance (snd (Scanner.advance st))) in
  moves (String a (String b "")) st st2 /\
  Scanner.rest st2 = r /\ Scanner.errors_ st2 = Scanner.errors_ st.
Proof.
  intros Hr st2.
  assert (He : Scanner.isAtEnd st = false) by (unfold Scanner.isAtEnd; rewrite Hr; reflexivity).
  destruct (moves_advance st He) as (Hm & _ & Hel).
  rewrite (peek_rest _ _ _ Hr) in Hm.
  assert (Hr1 : Scanner.rest (snd (Scanner.advance st)) = String b r).
  { exact (moves_char_rest _ _ _ _ Hm Hr). }
  assert (He1 : Scanner.isAtEnd (snd (Scanner.advance st)) = false)
    by (unfold Scanner.isAtEnd; rewrite Hr1; reflexivity).
  destruct (moves_advance _ He1) as (Hm1 & _ & Hel1).
  rewrite (peek_rest _ _ _ Hr1) in Hm1.
  split; [|split].
  - change (String a (String b "")) with (Char.str a +:+ Char.str b).
    eapply moves_trans; eassumption.
  - exact (moves_char_rest _ _ _ _ Hm1 Hr1).
  - subst st2. rewrite Hel1, Hel. reflexivity.
Qed.

Lemma peekAt_1 st a b r :
  Scanner.rest st = String a (String b r) -> Scanner.peekAt 1 st = b.
Proof. unfold Scanner.peekAt. intros ->. reflexivity. Qed.

Lemma peekAt_1_short st a :
  Scanner.rest st = String a "" -> Scanner.peekAt 1 st = Char.nul.
Proof. unfold Scanner.peekAt. intros ->. reflexivity. Qed.

(** The state in front of two characters of which the second is [ch]. *)
Lemma peekAt_1_rest st ch :
  Scanner.isAtEnd st = false -> Scanner.peekAt 1 st = ch -> ch <> Char.nul ->
  exists r, Scanner.rest st = String (Scanner.peek st) (String ch r).
Proof.
  unfold Scanner.isAtEnd, Scanner.peekAt, Scanner.peek.
  destruct (Scanner.rest st) as [|a [|b r]]; cbn; intros He Hp Hn;
    [discriminate|congruence|].
  exists r. congruence.
Qed.

Lemma skipLineComment_moves st r :
  Scanner.rest st = String "/" (String "/" r) ->
  exists s,
    moves (String "/" (String "/" s)) st (Scanner.skipLineComment st) /\
    Scanner.errors_ (Scanner.skipLineComment st) = Scanner.errors_ st.
Proof.
  intros Hr. destruct (moves_two st _ _ _ Hr) as (Hm & Hr2 & He2).
  unfold Scanner.skipLineComment.
  destruct (takeWhile_span Scanner.notLineEnd ""
              (snd (Scanner.advance (snd (Scanner.advance st)))))
    as (_ & Hm2 & _ & He3).
  eexists. split.
  - change (String "/" (String "/" ?s)) with (String "/" (String "/" "") +:+ s).
    eapply moves_trans; [exact Hm|exact Hm2].
  - rewrite He3, He2. reflexivity.
Qed.


Lemma blockCommentLoop_moves (fuel : nat) : forall st,
  String.length (Scanner.rest st) < fuel ->
  exists s,
    moves s st (Scanner.blockCommentLoop fuel st) /\
    unterminatedComment st (Scanner.blockCommentLoop fuel st).
Proof.
  induction fuel as [|fuel IH]; intros st Hlen; [lia|].
  cbn [Scanner.blockCommentLoop].
  destruct (Scanner.isAtEnd st) eqn:He.
  - exists "". split; [apply moves_addError|]. right. split; [exact He|reflexivity].
  - destruct (Ascii.eqb (Scanner.peek st) "*" && Ascii.eqb (Scanner.peekAt 1 st) "/")
      eqn:Hclose.
    + apply andb_true_iff in Hclose. destruct Hclose as [H1 H2].
      apply Ascii.eqb_eq in H1, H2.
      destruct (peekAt_1_rest st "/" He H2) as [r Hr]; [discriminate|].
      rewrite H1 in Hr. destruct (moves_two st _ _ _ Hr) as (Hm & _ & Herr).
      eexists. split; [exact Hm|]. left. exact Herr.
    + destruct (moves_advance st He) as (Hm & _ & Hel).
      destruct (IH (snd (Scanner.advance st))) as (s & Hs & Hu).
      { pose proof (moves_length _ _ _ Hm) as HL. cbn [String.length Char.str] in HL. lia. }
      eexists. split; [eapply moves_trans; eassumption|].
      destruct Hu as [Hu|[Hu1 Hu2]]; [left|right].
      * rewrite Hu. exact Hel.
      * split; [exact Hu1|]. rewrite Hu2, Hel. reflexivity.
Qed.

Lemma skipBlockComment_moves st r :
  Scanner.rest st = String "/" (String "*" r) ->
  exists s,
    moves (String "/" (String "*" s)) st (Scanner.skipBlockComment st) /\
    unterminatedComment st (Scanner.skipBlockComment st).
Proof.
  intros Hr. destruct (moves_two st _ _ _ Hr) as (Hm & Hr2 & He2).
  unfold Scanner.skipBlockComment.
  destruct (blockCommentLoop_moves
              (S (String.length (Scanner.rest (snd (Scanner.advance (snd (Scanner.advance st)))))))
              (snd (Scanner.advance (snd (Scanner.advance st))))) as (s & Hs & Hu); [lia|].
  exists s. split.
  - change (String "/" (String "*" s)) with (String "/" (String "*" "") +:+ s).
    eapply moves_trans; eassumption.
  - destruct Hu as [Hu|[Hu1 Hu2]]; [left|right].
    + rewrite Hu. exact He2.
    + split; [exact Hu1|]. rewrite Hu2, He2. reflexivity.
Qed.

Lemma unterminatedComment_trans st1 st2 st3 :
  Scanner.errors_ st2 = Scanner.errors_ st1 ->
  unterminatedComment st2 st3 -> unterminatedComment st1 st3.
Proof.
  intros H [Hu|[Hu1 Hu2]]; [left|right].
  - congruence.
  - split; [exact Hu1|]. rewrite Hu2, H. reflexivity.
Qed.

Lemma skipLoop_atEnd fuel st :
  Scanner.isAtEnd st = true -> Scanner.skipLoop fuel st = st.
Proof. intros He. destruct fuel; cbn [Scanner.skipLoop]; [|rewrite He]; reflexivity. Qed.

Lemma skipLoop_moves (fuel : nat) : forall st,
  String.length (Scanner.rest st) <= fuel ->
  exists s,
    moves s st (Scanner.skipLoop fuel st) /\
    (Scanner.isAtEnd (Scanner.skipLoop fuel st) = true
     \/ atToken (Scanner.skipLoop fuel st) = true) /\
    unterminatedComment st (Scanner.skipLoop fuel st).
Proof.
  induction fuel as [|fuel IH]; intros st Hlen.
  - exists "". cbn [Scanner.skipLoop]. split; [apply moves_refl|].
    split; [|left; reflexivity].
    left. apply isAtEnd_length. lia.
  - cbn [Scanner.skipLoop].
    destruct (Scanner.isAtEnd st) eqn:He.
    { exists "". split; [apply moves_refl|]. split; [left; exact He|left; reflexivity]. }
    destruct (Scanner.isBlank (Scanner.peek st)) eqn:Hb.
    { destruct (moves_advance st He) as (Hm & _ & Hel).
      destruct (IH (snd (Scanner.advance st))) as (s & Hs & Hp & Hu).
      { pose proof (moves_length _ _ _ Hm) as HL. cbn [String.length Char.str] in HL. lia. }
      eexists. split; [eapply moves_trans; eassumption|].
      split; [exact Hp|]. eapply unterminatedComment_trans; eassumption. }
    destruct (Ascii.eqb (Scanner.peek st) "/") eqn:Hslash.
    2:{ exists "". split; [apply moves_refl|]. split; [|left; reflexivity].
        right. unfold atToken. rewrite He, Hb, Hslash. reflexivity. }
    apply Ascii.eqb_eq in Hslash.
    destruct (Ascii.eqb (Scanner.peekAt 1 st) "/") eqn:H2.
    { apply Ascii.eqb_eq in H2.
      destruct (peekAt_1_rest st "/" He H2) as [r Hr]; [discriminate|].
      rewrite Hslash in Hr.
      destruct (skipLineComment_moves st r Hr) as (s1 & Hm & Hel).
      destruct (IH (Scanner.skipLineComment st)) as (s & Hs & Hp & Hu).
      { pose proof (moves_length _ _ _ Hm) as HL. cbn [String.length Char.str] in HL. lia. }
      eexists. split; [eapply moves_trans; eassumption|].
      split; [exact Hp|]. eapply unterminatedComment_trans; eassumption. }
    destruct (Ascii.eqb (Scanner.peekAt 1 st) "*") eqn:H3.
    { apply Ascii.eqb_eq in H3.
      destruct (peekAt_1_rest st "*" He H3) as [r Hr]; [discriminate|].
      rewrite Hslash in Hr.
      destruct (skipBlockComment_moves st r Hr) as (s1 & Hm & Hu1).
      destruct (IH (Scanner.skipBlockComment st)) as (s & Hs & Hp & Hu).
      { pose proof (moves_length _ _ _ Hm) as HL. cbn [String.length Char.str] in HL. lia. }
      eexists. split; [eapply moves_trans; eassumption|].
      split; [exact Hp|].
      destruct Hu1 as [Hu1|[Hu1 Hu2]].
      - eapply unterminatedComment_trans; eassumption.
      - rewrite (skipLoop_atEnd _ _ Hu1). right. split; assumption. }
    exists "". split; [apply moves_refl|]. split; [|left; reflexivity].
    right. unfold atToken. rewrite He, Hb, H2, H3.
    rewrite andb_false_r. reflexivity.
Qed.

Lemma takeWhile_eq test text st text' st' :
  Scanner.takeWhile test text st = (text', st') ->
  exists run,
    text' = text +:+ run /\ moves run st st' /\
    Scanner.errors_ st' = Scanner.errors_ st /\
    span test (Scanner.rest st) = (run, Scanner.rest st').
Proof.
  intros H. destruct (takeWhile_span test text st) as (H1 & H2 & H3 & H4).
  rewrite H in H1, H2, H3, H4. cbn [fst snd] in *.
  exists (fst (span test (Scanner.rest st))).
  split; [exact H1|]. split; [exact H2|]. split; [exact H4|].
  rewrite H3. destruct (span test (Scanner.rest st)); reflexivity.
Qed.

Lemma span_first test c r :
  test c = true -> exists run, fst (span test (String c r)) = String c run.
Proof. intros H. cbn [span]. rewrite H. eexists. reflexivity. Qed.

Lemma not_atEnd_rest st :
  Scanner.isAtEnd st = false ->
  exists r, Scanner.rest st = String (Scanner.peek st) r.
Proof.
  unfold Scanner.isAtEnd, Scanner.peek.
  destruct (Scanner.rest st) as [|c r]; [discriminate|]. intros _. exists r. reflexivity.
Qed.

Lemma peek_not_nul st c :
  Scanner.peek st = c -> c <> Char.nul -> Scanner.isAtEnd st = false.
Proof.
  unfold Scanner.isAtEnd, Scanner.peek.
  destruct (Scanner.rest st); [congruence|reflexivity].
Qed.

Lemma test_not_atEnd (test : ascii -> bool) st :
  test Char.nul = false -> test (Scanner.peek st) = true -> Scanner.isAtEnd st = false.
Proof.
  intros Hn Ht. apply (peek_not_nul st (Scanner.peek st)); [reflexivity|].
  intros E. rewrite E in Ht. congruence.
Qed.

(** A run that starts at a character passing the test is not empty. *)
Lemma takeWhile_first test text st text' st' :
  Scanner.isAtEnd st = false -> test (Scanner.peek st) = true ->
  Scanner.takeWhile test text st = (text', st') ->
  exists run,
    text' = text +:+ String (Scanner.peek st) run /\
    moves (String (Scanner.peek st) run) st st' /\
    Scanner.errors_ st' = Scanner.errors_ st.
Proof.
  intros He Ht H. destruct (takeWhile_eq _ _ _ _ _ H) as (run & H1 & H2 & H3 & H4).
  destruct (not_atEnd_rest st He) as [r Hr]. rewrite Hr in H4.
  destruct (span_first test _ r Ht) as [run' Hrun]. rewrite H4 in Hrun.
  cbn [fst] in Hrun. subst run. exists run'.
  split; [exact H1|]. split; assumption.
Qed.

Lemma takeIf_eq test text st b text' st' :
  test Char.nul = false ->
  Scanner.takeIf test text st = (b, text', st') ->
  exists s, text' = text +:+ s /\ moves s st st' /\
            Scanner.errors_ st' = Scanner.errors_ st.
Proof.
  intros Hn. unfold Scanner.takeIf.
  destruct (test (Scanner.peek st)) eqn:Ht; intros H; inversion H; subst.
  - pose proof (test_not_atEnd test st Hn Ht) as He.
    destruct (moves_advance st He) as (Hm & Hc & Hel).
    exists (Char.str (Scanner.peek st)). rewrite Hc.
    split; [reflexivity|]. split; assumption.
  - exists "". rewrite append_empty_r.
    split; [reflexivity|]. split; [apply moves_refl|reflexivity].
Qed.

Lemma advance_char st c :
  Scanner.peek st = c -> c <> Char.nul ->
  moves (Char.str c) st (snd (Scanner.advance st)) /\
  fst (Scanner.advance st) = c /\
  Scanner.errors_ (snd (Scanner.advance st)) = Scanner.errors_ st.
Proof.
  intros Hp Hn. pose proof (peek_not_nul st c Hp Hn) as He.
  destruct (moves_advance st He) as (Hm & Hc & Hel). rewrite Hp in Hm, Hc.
  split; [exact Hm|]. split; assumption.
Qed.

Ltac eqb_char H :=
  first [ apply Ascii.eqb_eq in H
        | apply orb_true_iff in H; destruct H as [H|H]; apply Ascii.eqb_eq in H ].

Lemma scanPrefix_moves st text isHex isOctal st' :
  Scanner.scanPrefix st = (text, isHex, isOctal, st') ->
  moves text st st' /\ Scanner.errors_ st' = Scanner.errors_ st /\
  (Scanner.peek st = "0"%char -> text <> "").
Proof.
  unfold Scanner.scanPrefix.
  destruct (Ascii.eqb (Scanner.peek st) "0") eqn:H0.
  2:{ intros H; inversion H; subst. split; [apply moves_refl|]. split; [reflexivity|].
      intros E. rewrite E in H0. discriminate. }
  apply Ascii.eqb_eq in H0.
  destruct (advance_char st _ H0) as (Hm & Hc & Hel); [discriminate|].
  rewrite Hc.
  destruct (Ascii.eqb (Scanner.peek (snd (Scanner.advance st))) "x"
            || Ascii.eqb (Scanner.peek (snd (Scanner.advance st))) "X") eqn:Hx.
  - assert (Hx' : exists x, Scanner.peek (snd (Scanner.advance st)) = x /\ x <> Char.nul).
    { eqb_char Hx; eexists; (split; [exact Hx|discriminate]). }
    destruct Hx' as (x & Hpx & Hnx).
    destruct (advance_char _ _ Hpx Hnx) as (Hm2 & Hc2 & Hel2). rewrite Hc2.
    destruct (Scanner.takeWhile Scanner.isHexDigit _ _) as [t2 s2] eqn:E.
    destruct (takeWhile_eq _ _ _ _ _ E) as (run & H1 & H2 & H3 & _).
    intros H; inversion H; subst. split; [|split].
    + rewrite append_assoc.
      eapply moves_trans; [exact Hm|]. eapply moves_trans; eassumption.
    + congruence.
    + intros _. discriminate.
  - destruct (Scanner.isOctalDigit (Scanner.peek (snd (Scanner.advance st)))) eqn:Ho.
    + destruct (Scanner.takeWhile Scanner.isOctalDigit _ _) as [t2 s2] eqn:E.
      destruct (takeWhile_eq _ _ _ _ _ E) as (run & H1 & H2 & H3 & _).
      intros H; inversion H; subst. split; [|split].
      * eapply moves_trans; eassumption.
      * congruence.
      * intros _. discriminate.
    + intros H; inversion H; subst. split; [exact Hm|]. split; [exact Hel|].
      intros _. discriminate.
Qed.

Lemma isDigit_nul : Scanner.isDigit Char.nul = false.
Proof. reflexivity. Qed.

Lemma scanDecimal_moves text st text' isFloat st' :
  Scanner.scanDecimal text st = (text', isFloat, st') ->
  exists s, text' = text +:+ s /\ moves s st st' /\
            Scanner.errors_ st' = Scanner.errors_ st /\
            (Scanner.isDigit (Scanner.peek st) = true -> s <> "").
Proof.
  unfold Scanner.scanDecimal.
  destruct (Scanner.takeWhile Scanner.isDigit text st) as [t1 s1] eqn:E1.
  destruct (takeWhile_eq _ _ _ _ _ E1) as (r1 & T1 & M1 & Er1 & _).
  assert (Hfirst : Scanner.isDigit (Scanner.peek st) = true -> r1 <> "").
  { intros Hd. pose proof (test_not_atEnd _ st isDigit_nul Hd) as He.
    destruct (takeWhile_first _ _ _ _ _ He Hd E1) as (run & T & _).
    rewrite T1 in T. intros ->. rewrite append_empty_r in T.
    apply (f_equal String.length) in T. rewrite append_length in T.
    cbn [String.length] in T. lia. }
  clear E1.
  assert (Hfrac : exists t2 s2 f2 r2,
    (if Ascii.eqb (Scanner.peek s1) "." && Scanner.isDigit (Scanner.peekAt 1 s1)
     then let '(text', st') :=
            Scanner.takeWhile Scanner.isDigit
              (t1 +:+ Char.str (fst (Scanner.advance s1))) (snd (Scanner.advance s1)) in
          (true, text', st')
     else (false, t1, s1)) = (f2, t2, s2) /\
    t2 = t1 +:+ r2 /\ moves r2 s1 s2 /\ Scanner.errors_ s2 = Scanner.errors_ s1).
  { destruct (Ascii.eqb (Scanner.peek s1) "." && Scanner.isDigit (Scanner.peekAt 1 s1))
      eqn:Hdot.
    - apply andb_true_iff in Hdot. destruct Hdot as [Hd _]. apply Ascii.eqb_eq in Hd.
      destruct (advance_char _ _ Hd) as (Hm & Hc & Hel); [discriminate|]. rewrite Hc.
      destruct (Scanner.takeWhile Scanner.isDigit _ _) as [t2 s2] eqn:E2.
      destruct (takeWhile_eq _ _ _ _ _ E2) as (r2 & T2 & M2 & Er2 & _).
      exists t2, s2, true, (Char.str "." +:+ r2). split; [reflexivity|].
      split; [rewrite T2, append_assoc; reflexivity|].
      split; [eapply moves_trans; eassumption|congruence].
    - exists t1, s1, false, "". split; [reflexivity|].
      split; [rewrite append_empty_r; reflexivity|].
      split; [apply moves_refl|reflexivity]. }
  destruct Hfrac as (t2 & s2 & f2 & r2 & -> & T2 & M2 & Er2).
  cbv beta iota.
  assert (Hexp : exists t3 s3 f3 r3,
    (if Ascii.eqb (Scanner.peek s2) "e" || Ascii.eqb (Scanner.peek s2) "E"
     then
       let '(_, textS, stS) :=
         Scanner.takeIf (fun c => Ascii.eqb c "+" || Ascii.eqb c "-")
           (t2 +:+ Char.str (fst (Scanner.advance s2))) (snd (Scanner.advance s2)) in
       let '(text', st') := Scanner.takeWhile Scanner.isDigit textS stS in
       (true, text', st')
     else (f2, t2, s2)) = (f3, t3, s3) /\
    t3 = t2 +:+ r3 /\ moves r3 s2 s3 /\ Scanner.errors_ s3 = Scanner.errors_ s2).
  { destruct (Ascii.eqb (Scanner.peek s2) "e" || Ascii.eqb (Scanner.peek s2) "E") eqn:He.
    - assert (He' : exists x, Scanner.peek s2 = x /\ x <> Char.nul).
      { eqb_char He; eexists; (split; [exact He|discriminate]). }
      destruct He' as (x & Hpx & Hnx).
      destruct (advance_char _ _ Hpx Hnx) as (Hm & Hc & Hel). rewrite Hc.
      cbv zeta.
      destruct (Scanner.takeIf _ _ _) as [[b tS] sS] eqn:ES.
      destruct (takeIf_eq _ _ _ _ _ _ eq_refl ES) as (rS & TS & MS & ErS).
      destruct (Scanner.takeWhile Scanner.isDigit tS sS) as [t3 s3] eqn:E3.
      destruct (takeWhile_eq _ _ _ _ _ E3) as (r3 & T3 & M3 & Er3 & _).
      exists t3, s3, true, (Char.str x +:+ (rS +:+ r3)). split; [reflexivity|].
      split; [rewrite T3, TS, !append_assoc; reflexivity|].
      split; [|congruence].
      eapply moves_trans; [exact Hm|]. eapply moves_trans; eassumption.
    - exists t2, s2, f2, "". split; [reflexivity|].
      split; [rewrite append_empty_r; reflexivity|].
      split; [apply moves_refl|reflexivity]. }
  destruct Hexp as (t3 & s3 & f3 & r3 & -> & T3 & M3 & Er3).
  cbv beta iota.
  destruct (Scanner.takeIf _ t3 s3) as [[b t4] s4] eqn:E4.
  destruct (takeIf_eq _ _ _ _ _ _ eq_refl E4) as (r4 & T4 & M4 & Er4).
  intros H; inversion H; subst.
  exists (r1 +:+ (r2 +:+ (r3 +:+ r4))).
  split; [rewrite !append_assoc; reflexivity|].
  split; [|split; [congruence|]].
  - eapply moves_trans; [exact M1|]. eapply moves_trans; [exact M2|].
    eapply moves_trans; eassumption.
  - intros Hd E. specialize (Hfirst Hd). destruct r1; [congruence|].
    rewrite append_cons in E. discriminate.
Qed.

Lemma hexEscapeLoop_moves (fuel : nat) : forall hex text st hex' text' st',
  Scanner.hexEscapeLoop fuel hex text st = (hex', text', st') ->
  exists s, text' = text +:+ s /\ moves s st st'.
Proof.
  induction fuel as [|fuel IH]; intros hex text st hex' text' st' H.
  - inversion H; subst. exists "". rewrite append_empty_r.
    split; [reflexivity|apply moves_refl].
  - cbn [Scanner.hexEscapeLoop] in H.
    destruct (Nat.ltb (String.length hex) 2 && negb (Scanner.isAtEnd st)
              && Scanner.isHexDigit (Scanner.peek st)) eqn:Hc.
    + apply andb_true_iff in Hc. destruct Hc as [Hc _].
      apply andb_true_iff in Hc. destruct Hc as [_ He].
      apply negb_true_iff in He.
      destruct (moves_advance st He) as (Hm & Hch & _).
      destruct (IH _ _ _ _ _ _ H) as (s & Hs & Hms).
      exists (Char.str (Scanner.peek st) +:+ s). split.
      * rewrite Hs, Hch, append_assoc. reflexivity.
      * eapply moves_trans; eassumption.
    + inversion H; subst. exists "". rewrite append_empty_r.
      split; [reflexivity|apply moves_refl].
Qed.

Lemma stringLoop_moves (fuel : nat) : forall text value st text' value' st',
  Scanner.stringLoop fuel text value st = (text', value', st') ->
  exists s, text' = text +:+ s /\ moves s st st'.
Proof.
  induction fuel as [|fuel IH]; intros text value st text' value' st' H.
  - inversion H; subst. exists "". rewrite append_empty_r.
    split; [reflexivity|apply moves_refl].
  - cbn [Scanner.stringLoop] in H.
    destruct (Scanner.isAtEnd st || Ascii.eqb (Scanner.peek st) Char.quote) eqn:Hend.
    { inversion H; subst. exists "". rewrite append_empty_r.
      split; [reflexivity|apply moves_refl]. }
    apply orb_false_iff in Hend. destruct Hend as [He _].
    destruct (moves_advance st He) as (Hm & Hch & _).
    destruct (Ascii.eqb (Scanner.peek st) Char.lf).
    { inversion H; subst. exists "". rewrite append_empty_r.
      split; [reflexivity|apply moves_addError]. }
    destruct (Ascii.eqb (Scanner.peek st) Char.backslash).
    + destruct (Scanner.isAtEnd (snd (Scanner.advance st))) eqn:He1.
      { inversion H; subst. eexists. split; [rewrite Hch; reflexivity|exact Hm]. }
      destruct (moves_advance _ He1) as (Hm1 & Hch1 & _).
      destruct (Ascii.eqb (fst (Scanner.advance (snd (Scanner.advance st)))) "x").
      * destruct (Scanner.hexEscapeLoop 2 "" _ _) as [[hex t3] s3] eqn:Ehex.
        destruct (hexEscapeLoop_moves _ _ _ _ _ _ _ Ehex) as (sh & Hsh & Hmh).
        destruct (IH _ _ _ _ _ _ H) as (s & Hs & Hms).
        eexists. split.
        -- rewrite Hs, Hsh, Hch, Hch1, !append_assoc. reflexivity.
        -- eapply moves_trans; [exact Hm|]. eapply moves_trans; [exact Hm1|].
           eapply moves_trans; eassumption.
      * destruct (IH _ _ _ _ _ _ H) as (s & Hs & Hms).
        eexists. split.
        -- rewrite Hs, Hch, Hch1, !append_assoc. reflexivity.
        -- eapply moves_trans; [exact Hm|]. eapply moves_trans; eassumption.
    + destruct (IH _ _ _ _ _ _ H) as (s & Hs & Hms).
      eexists. split.
      * rewrite Hs, Hch, !append_assoc. reflexivity.
      * eapply moves_trans; eassumption.
Qed.


Lemma scanString_reads isWide st :
  Scanner.peek st = Char.quote ->
  reads (fst (Scanner.scanString isWide st)) st (snd (Scanner.scanString isWide st)).
Proof.
  intros Hq. destruct (advance_char st _ Hq) as (Hm & Hc & _); [discriminate|].
  unfold Scanner.scanString.
  destruct (Scanner.stringLoop _ _ _ _) as [[t v] s1] eqn:E.
  destruct (stringLoop_moves _ _ _ _ _ _ _ E) as (s & Hs & Hms).
  destruct (Scanner.isAtEnd s1) eqn:He; cbn [negb fst snd text location]; split;
    try reflexivity.
  - rewrite Hs. eapply moves_trans; eassumption.
  - destruct (moves_advance s1 He) as (Hm1 & Hc1 & _).
    rewrite Hs, Hc1, append_assoc.
    eapply moves_trans; [exact Hm|]. eapply moves_trans; eassumption.
Qed.

Lemma scanChar_reads isWide st :
  Scanner.peek st = Char.apostrophe ->
  reads (fst (Scanner.scanChar isWide st)) st (snd (Scanner.scanChar isWide st)).
Proof.
  intros Hq. destruct (advance_char st _ Hq) as (Hm & Hc & _); [discriminate|].
  unfold Scanner.scanChar.
  set (st0 := snd (Scanner.advance st)) in *.
  assert (Hbody : exists v t1 s1 s,
    (if negb (Scanner.isAtEnd st0) && negb (Ascii.eqb (Scanner.peek st0) Char.apostrophe)
     then
       if Ascii.eqb (Scanner.peek st0) Char.backslash
       then
         if negb (Scanner.isAtEnd (snd (Scanner.advance st0)))
         then (Scanner.unescape (fst (Scanner.advance (snd (Scanner.advance st0)))),
               (Char.str Char.apostrophe +:+ Char.str (fst (Scanner.advance st0)))
               +:+ Char.str (fst (Scanner.advance (snd (Scanner.advance st0)))),
               snd (Scanner.advance (snd (Scanner.advance st0))))
         else (Char.nul, Char.str Char.apostrophe +:+ Char.str (fst (Scanner.advance st0)),
               snd (Scanner.advance st0))
       else (fst (Scanner.advance st0),
             Char.str Char.apostrophe +:+ Char.str (fst (Scanner.advance st0)),
             snd (Scanner.advance st0))
     else (Char.nul, Char.str Char.apostrophe, st0)) = (v, t1, s1) /\
    t1 = Char.str Char.apostrophe +:+ s /\ moves s st0 s1).
  { destruct (Scanner.isAtEnd st0) eqn:He0; cbn [negb andb].
    { do 4 eexists. split; [reflexivity|]. split; [|apply moves_refl].
      rewrite append_empty_r. reflexivity. }
    destruct (moves_advance st0 He0) as (Hm0 & Hc0 & _).
    destruct (Ascii.eqb (Scanner.peek st0) Char.apostrophe); cbn [negb].
    { do 4 eexists. split; [reflexivity|]. split; [|apply moves_refl].
      rewrite append_empty_r. reflexivity. }
    destruct (Ascii.eqb (Scanner.peek st0) Char.backslash).
    - destruct (Scanner.isAtEnd (snd (Scanner.advance st0))) eqn:He1; cbn [negb].
      + do 4 eexists. split; [reflexivity|]. split; [rewrite Hc0; reflexivity|exact Hm0].
      + destruct (moves_advance _ He1) as (Hm1 & Hc1 & _).
        do 4 eexists. split; [reflexivity|]. split.
        * rewrite Hc0, Hc1, append_assoc. reflexivity.
        * eapply moves_trans; eassumption.
    - do 4 eexists. split; [reflexivity|]. split; [rewrite Hc0; reflexivity|exact Hm0]. }
  destruct Hbody as (v & t1 & s1 & s & -> & Ht1 & Hms). cbv beta iota.
  destruct (negb (Scanner.isAtEnd s1) && Ascii.eqb (Scanner.peek s1) Char.apostrophe)
    eqn:Hclose; cbn [fst snd text location]; (split; [|reflexivity]).
  - apply andb_true_iff in Hclose. destruct Hclose as [He _].
    apply negb_true_iff in He. destruct (moves_advance s1 He) as (Hm1 & Hc1 & _).
    rewrite Ht1, Hc1, append_assoc.
    eapply moves_trans; [exact Hm|]. eapply moves_trans; eassumption.
  - rewrite Ht1. rewrite <- (append_empty_r s) at 1. rewrite <- append_assoc.
    eapply moves_trans; [eapply moves_trans; eassumption|apply moves_addError].
Qed.

Lemma isIdentifierStart_char c :
  Scanner.isIdentifierStart c = true -> Scanner.isIdentifierChar c = true.
Proof.
  unfold Scanner.isIdentifierStart, Scanner.isIdentifierChar, Scanner.isAlphaNumeric.
  intros H. apply orb_true_iff in H. destruct H as [H|H]; rewrite H;
    [reflexivity|apply orb_true_r].
Qed.

Lemma scanIdentifierOrKeyword_reads st :
  reads (fst (Scanner.scanIdentifierOrKeyword st)) st
    (snd (Scanner.scanIdentifierOrKeyword st)) /\
  Scanner.errors_ (snd (Scanner.scanIdentifierOrKeyword st)) = Scanner.errors_ st.
Proof.
  unfold Scanner.scanIdentifierOrKeyword.
  destruct (Scanner.takeWhile Scanner.isIdentifierChar "" st) as [t s1] eqn:E.
  destruct (takeWhile_eq _ _ _ _ _ E) as (run & T & Hm & He & _).
  change ("" +:+ run) with run in T. subst t.
  destruct (Scanner.lookupKeyword run); cbn [fst snd]; (split; [split|]);
    try reflexivity; assumption.
Qed.

Lemma scanPragma_reads st :
  reads (fst (Scanner.scanPragma st)) st (snd (Scanner.scanPragma st)) /\
  Scanner.errors_ (snd (Scanner.scanPragma st)) = Scanner.errors_ st.
Proof.
  unfold Scanner.scanPragma.
  destruct (Scanner.takeWhile Scanner.notLineEnd "" st) as [t s1] eqn:E.
  destruct (takeWhile_eq _ _ _ _ _ E) as (run & T & Hm & He & _).
  change ("" +:+ run) with run in T. subst t.
  cbn [fst snd]. split; [split|]; try reflexivity; assumption.
Qed.

Lemma match_moves c st :
  c <> Char.nul ->
  moves (if fst (Scanner.match_ c st) then Char.str c else "") st
    (snd (Scanner.match_ c st)).
Proof.
  intros Hn. unfold Scanner.match_.
  destruct (Scanner.isAtEnd st) eqn:He; cbn [orb fst snd]; [apply moves_refl|].
  destruct (Ascii.eqb (Scanner.peek st) c) eqn:Hc; cbn [negb fst snd];
    [|apply moves_refl].
  apply Ascii.eqb_eq in Hc. destruct (moves_advance st He) as (Hm & _).
  rewrite Hc in Hm. exact Hm.
Qed.

Lemma scanPunctuation_reads c st0 st :
  Scanner.isAtEnd st0 = false -> Scanner.peek st0 = c ->
  st = snd (Scanner.advance st0) ->
  reads (fst (Scanner.scanPunctuation c (Scanner.currentLocation st0) st)) st0
    (snd (Scanner.scanPunctuation c (Scanner.currentLocation st0) st)).
Proof.
  intros He Hp ->. destruct (moves_advance st0 He) as (Hm & _). rewrite Hp in Hm.
  assert (Hsimple : forall type,
    reads (mkToken type NoValue (Char.str c) (Scanner.currentLocation st0)) st0
      (snd (Scanner.advance st0))).
  { intros type. split; [exact Hm|reflexivity]. }
  assert (Hdouble : forall type2 type1, c <> Char.nul ->
    reads
      (fst (if fst (Scanner.match_ c (snd (Scanner.advance st0)))
            then (mkToken type2 NoValue (Char.str c +:+ Char.str c)
                    (Scanner.currentLocation st0),
                  snd (Scanner.match_ c (snd (Scanner.advance st0))))
            else (mkToken type1 NoValue (Char.str c) (Scanner.currentLocation st0),
                  snd (Scanner.match_ c (snd (Scanner.advance st0))))))
      st0
      (snd (if fst (Scanner.match_ c (snd (Scanner.advance st0)))
            then (mkToken type2 NoValue (Char.str c +:+ Char.str c)
                    (Scanner.currentLocation st0),
                  snd (Scanner.match_ c (snd (Scanner.advance st0))))
            else (mkToken type1 NoValue (Char.str c) (Scanner.currentLocation st0),
                  snd (Scanner.match_ c (snd (Scanner.advance st0))))))).
  { intros type2 type1 Hn. pose proof (match_moves c (snd (Scanner.advance st0)) Hn) as Hmm.
    destruct (fst (Scanner.match_ c (snd (Scanner.advance st0)))); cbn [fst snd];
      (split; [|reflexivity]); cbn [text].
    - eapply moves_trans; eassumption.
    - rewrite <- (append_empty_r (Char.str c)). eapply moves_trans; eassumption. }
  unfold Scanner.scanPunctuation.
  repeat match goal with
         | |- context [if Ascii.eqb c ?k then _ else _] =>
             destruct (Ascii.eqb c k) eqn:?;
             [first [apply Hsimple
                    | apply Hdouble;
                      match goal with H : Ascii.eqb c _ = true |- _ =>
                        apply Ascii.eqb_eq in H; rewrite H; discriminate end]|]
         end.
  cbn [fst snd]. split; [|reflexivity]. cbn [text].
  rewrite <- (append_empty_r (Char.str c)).
  eapply moves_trans; [exact Hm|apply moves_addError].
Qed.

Lemma slice_moves a b st st1 tok st' :
  moves a st st1 -> slice st1 b tok st' -> slice st (a +:+ b) tok st'.
Proof.
  intros [M1 M2 M3 [e1 M4]] (S1 & S2 & S3 & [e2 S4] & S5).
  split; [|split; [|split; [|split]]].
  - rewrite M1, S1, append_assoc. reflexivity.
  - rewrite S2, M2, after_append. reflexivity.
  - congruence.
  - exists (e1 ++ e2). rewrite S4, M4, app_assoc. reflexivity.
  - exact S5.
Qed.

Lemma reads_slice tok st st' : reads tok st st' -> slice st "" tok st'.
Proof.
  intros [[M1 M2 M3 M4] L]. split; [|split; [|split; [|split]]].
  - exact M1.
  - exact L.
  - exact M3.
  - exact M4.
  - intros _. rewrite M2, L. reflexivity.
Qed.

Section Scanning.

Variable stod : string -> Exception + float.

Lemma digitOf_range base c d :
  Conversion.digitOf base c = Some d -> (0 <= d < base)%Z.
Proof.
  unfold Conversion.digitOf.
  set (n := Z.of_nat (nat_of_ascii c)).
  destruct ((48 <=? n)%Z && (n <=? 57)%Z) eqn:H1.
  - apply andb_true_iff in H1. destruct H1 as [A _]. apply Z.leb_le in A.
    destruct (n - 48 <? base)%Z eqn:Hb; [|discriminate].
    apply Z.ltb_lt in Hb. intros H; inversion H; subst. lia.
  - destruct ((97 <=? n)%Z && (n <=? 122)%Z) eqn:H2.
    + apply andb_true_iff in H2. destruct H2 as [A _]. apply Z.leb_le in A.
      destruct (n - 87 <? base)%Z eqn:Hb; [|discriminate].
      apply Z.ltb_lt in Hb. intros H; inversion H; subst. lia.
    + destruct ((65 <=? n)%Z && (n <=? 90)%Z) eqn:H3; [|discriminate].
      apply andb_true_iff in H3. destruct H3 as [A _]. apply Z.leb_le in A.
      destruct (n - 55 <? base)%Z eqn:Hb; [|discriminate].
      apply Z.ltb_lt in Hb. intros H; inversion H; subst. lia.
Qed.

Lemma digitsValue_nonneg base (s : string) : forall acc,
  (0 <= acc)%Z -> (0 <= base)%Z -> (0 <= Conversion.digitsValue base acc s)%Z.
Proof.
  induction s as [|c s IH]; intros acc Ha Hb; [exact Ha|].
  cbn [Conversion.digitsValue].
  destruct (Conversion.digitOf base c) as [d|] eqn:Hd; [|exact Ha].
  apply IH; [|exact Hb]. pose proof (digitOf_range _ _ _ Hd). nia.
Qed.

Lemma convert_range what max str base value :
  (0 <= base)%Z ->
  Conversion.convert what max str base = inr value -> (0 <= value <= max)%Z.
Proof.
  intros Hb. unfold Conversion.convert.
  destruct (Conversion.subject base str) as [|c r]; [discriminate|].
  destruct (Conversion.digitOf base c); [|discriminate].
  destruct (Conversion.digitsValue base 0 (String c r) <=? max)%Z eqn:Hle; [|discriminate].
  apply Z.leb_le in Hle.
  intros H.
  assert (Hv : value = Conversion.digitsValue base 0 (String c r)) by congruence.
  rewrite Hv. split; [|exact Hle].
  apply digitsValue_nonneg; lia.
Qed.

Lemma scanNumber_reads st tok st' :
  Scanner.isDigit (Scanner.peek st) = true ->
  Scanner.scanNumber stod st = Scanner.Done tok st' ->
  reads tok st st' /\ Scanner.errors_ st' = Scanner.errors_ st /\
  text tok <> "" /\
  ((tok_type tok = TokenType.IntegerLiteral /\
    exists v, tok_value tok = IntValue v /\ (0 <= v <= 2 ^ 63 - 1)%Z)
   \/ (tok_type tok = TokenType.FloatLiteral /\
       exists v, tok_value tok = DoubleValue v)).
Proof.
  intros Hd. unfold Scanner.scanNumber.
  destruct (Scanner.scanPrefix st) as [[[t0 isHex] isOctal] s0] eqn:E0.
  destruct (scanPrefix_moves _ _ _ _ _ E0) as (M0 & Er0 & N0).
  assert (Hbody : exists t f s1 s,
    (if negb isHex && negb isOctal then Scanner.scanDecimal t0 s0 else (t0, false, s0))
    = (t, f, s1) /\ t = t0 +:+ s /\ moves s s0 s1 /\
    Scanner.errors_ s1 = Scanner.errors_ s0 /\ t <> "").
  { assert (Hzero : Scanner.peek st <> "0"%char -> t0 = "" /\ s0 = st /\ isHex = false /\ isOctal = false).
    { intros Hz. unfold Scanner.scanPrefix in E0.
      destruct (Ascii.eqb (Scanner.peek st) "0") eqn:Hz'.
      - apply Ascii.eqb_eq in Hz'. contradiction.
      - inversion E0. repeat split; reflexivity. }
    destruct (negb isHex && negb isOctal) eqn:Hdec.
    - destruct (Scanner.scanDecimal t0 s0) as [[t f] s1] eqn:E1.
      destruct (scanDecimal_moves _ _ _ _ _ E1) as (s & T & M & Er & Hne).
      exists t, f, s1, s. split; [reflexivity|]. split; [exact T|].
      split; [exact M|]. split; [exact Er|].
      destruct (ascii_dec (Scanner.peek st) "0") as [Hz|Hz].
      + specialize (N0 Hz). rewrite T. destruct t0; [congruence|].
        rewrite append_cons. discriminate.
      + destruct (Hzero Hz) as (-> & -> & _). specialize (Hne Hd).
        rewrite T. change ("" +:+ s) with s. exact Hne.
    - exists t0, false, s0, "". split; [reflexivity|].
      split; [rewrite append_empty_r; reflexivity|]. split; [apply moves_refl|].
      split; [reflexivity|].
      destruct (ascii_dec (Scanner.peek st) "0") as [Hz|Hz]; [exact (N0 Hz)|].
      destruct (Hzero Hz) as (_ & _ & -> & ->). discriminate. }
  destruct Hbody as (t & f & s1 & s & -> & T & M & Er & Hne).
  assert (Hreads : forall type value,
    reads (mkToken type value t (Scanner.currentLocation st)) st s1).
  { intros type value. split; [|reflexivity]. cbn [text]. rewrite T.
    eapply moves_trans; eassumption. }
  destruct f.
  - destruct (stod t) as [e|value]; [discriminate|].
    intros H; inversion H; subst tok st'.
    split; [apply Hreads|]. split; [congruence|]. split; [exact Hne|].
    right. split; [reflexivity|]. eexists. reflexivity.
  - destruct (Conversion.stoll t _) as [e|value] eqn:Hv; [discriminate|].
    intros H; inversion H; subst tok st'.
    split; [apply Hreads|]. split; [congruence|]. split; [exact Hne|].
    left. split; [reflexivity|]. exists value. split; [reflexivity|].
    unfold Conversion.stoll in Hv.
    apply convert_range in Hv; [exact Hv|]. destruct isHex, isOctal; lia.
Qed.

Lemma scanLineDirective_slice st tok st' :
  Scanner.peek st = "#"%char ->
  Scanner.scanLineDirective st = Scanner.Done tok st' ->
  slice st "" tok st' /\ Scanner.errors_ st' = Scanner.errors_ st /\
  text tok <> "" /\ tok_type tok = TokenType.LineDirective /\
  tok_value tok = StringValue (text tok).
Proof.
  intros Hp. unfold Scanner.scanLineDirective.
  destruct (Scanner.takeWhile Scanner.notLineEnd "" st) as [t s1] eqn:E.
  assert (He : Scanner.isAtEnd st = false) by (apply (peek_not_nul st _ Hp); discriminate).
  assert (Ht : Scanner.notLineEnd (Scanner.peek st) = true) by (rewrite Hp; reflexivity).
  destruct (takeWhile_first _ _ _ _ _ He Ht E) as (run & T & [M1 M2 M3 M4] & Er).
  change ("" +:+ ?x) with x in T.
  assert (Hne : t <> "") by (rewrite T; discriminate).
  rewrite <- T in M1, M2.
  destruct (Scanner.fromFirstDigit t) as [fromDigit|].
  - destruct (Scanner.splitDigits fromDigit) as [lineNumStr behind].
    destruct (Conversion.stoull lineNumStr) as [e|number]; [discriminate|].
    intros H; inversion H; subst tok st'. cbn [text tok_type tok_value].
    split; [|repeat split; try assumption; reflexivity].
    split; [exact M1|]. split; [reflexivity|]. split; [exact M3|].
    split; [exact M4|]. intros Hc. contradiction.
  - intros H; inversion H; subst tok st'. cbn [text tok_type tok_value].
    split; [|repeat split; try assumption; reflexivity].
    split; [exact M1|]. split; [reflexivity|]. split; [exact M3|].
    split; [exact M4|]. intros Hc. contradiction.
Qed.

End Scanning.

Lemma lookupKeyword_range name kw :
  Scanner.lookupKeyword name = Some kw ->
  (8 <= TokenKind.ord kw <= 54)%Z.
Proof.
  unfold Scanner.lookupKeyword. intros H.
  destruct (find _ Scanner.keywords) as [entry|] eqn:Hf; [|discriminate].
  cbn [option_map] in H. inversion H; subst kw.
  apply find_some in Hf. destruct Hf as [Hin _].
  assert (Hall : Forall (fun e => (8 <= TokenKind.ord (snd e) <= 54)%Z) Scanner.keywords).
  { repeat constructor; cbn; lia. }
  rewrite Forall_forall in Hall. apply Hall. apply list_elem_of_In. exact Hin.
Qed.

Lemma wellValued_NoValue tok :
  tok_value tok = NoValue ->
  (TokenKind.ord (tok_type tok) = 0 \/ 8 <= TokenKind.ord (tok_type tok) <= 78
   \/ TokenKind.ord (tok_type tok) = 81)%Z ->
  wellValued tok.
Proof.
  intros Hv Hr. unfold wellValued.
  destruct (tok_type tok); cbn [TokenKind.ord] in Hr; try exact Hv; exfalso; lia.
Qed.

Lemma scanPunctuation_type c loc st :
  let tok := fst (Scanner.scanPunctuation c loc st) in
  tok_value tok = NoValue /\
  (55 <= TokenKind.ord (tok_type tok) <= 78 \/ tok_type tok = TokenType.Unknown)%Z /\
  text tok <> "".
Proof.
  unfold Scanner.scanPunctuation.
  repeat match goal with
         | |- context [if Ascii.eqb c ?k then _ else _] =>
             destruct (Ascii.eqb c k);
             [first [ cbn; split; [reflexivity|split; [left; lia|discriminate]]
                    | destruct (fst (Scanner.match_ c st)); cbn;
                      (split; [reflexivity|split; [left; lia|discriminate]]) ]|]
         end.
  cbn. split; [reflexivity|]. split; [right; reflexivity|discriminate].
Qed.

Lemma scanChar_token isWide st :
  exists v t,
    fst (Scanner.scanChar isWide st)
    = mkToken (if isWide then TokenType.WideCharLiteral else TokenType.CharLiteral)
        (CharValue v) t (Scanner.currentLocation st) /\
    t <> "".
Proof.
  unfold Scanner.scanChar.
  repeat match goal with
         | |- context [if ?b then _ else _] =>
             lazymatch b with
             | isWide => fail
             | _ => destruct b
             end
         end;
    cbn [fst snd]; do 2 eexists; (split; [reflexivity|]);
    intros E; apply (f_equal String.length) in E;
    rewrite ?append_length in E; cbn in E; lia.
Qed.

Section Tokens.

Variable stod : string -> Exception + float.

Lemma scanned_reads skipped st st0 tok st' :
  moves skipped st st0 -> reads tok st0 st' -> wellValued tok ->
  tok_type tok <> TokenType.Eof -> text tok <> "" ->
  scanned st tok st'.
Proof.
  intros Hm Hr Hw Ht Hn. split; [|split; [exact Hw|split; [contradiction|intros _; exact Hn]]].
  exists (skipped +:+ ""). eapply slice_moves; [exact Hm|]. apply reads_slice, Hr.
Qed.

Lemma scanToken_scanned (fuel : nat) : forall st tok st',
  Scanner.scanToken stod fuel st = Scanner.Done tok st' -> scanned st tok st'.
Proof.
  induction fuel as [|fuel IH]; intros st tok st' H; [discriminate|].
  cbn [Scanner.scanToken] in H.
  destruct (skipLoop_moves (String.length (Scanner.rest st)) st (le_n _))
    as (sk & Hsk & _ & _).
  fold (Scanner.skipWhitespaceAndComments st) in Hsk.
  set (st0 := Scanner.skipWhitespaceAndComments st) in *.
  destruct (Scanner.isAtEnd st0) eqn:He.
  { inversion H; subst tok st'. apply isAtEnd_rest in He.
    split; [|split; [reflexivity|split; [intros _; split; [reflexivity|exact He]|]]].
    - exists (sk +:+ ""). eapply slice_moves; [exact Hsk|].
      apply reads_slice. split; [apply moves_refl|reflexivity].
    - intros Hc. contradiction. }
  destruct (Ascii.eqb (Scanner.peek st0) "#") eqn:Hhash.
  { apply Ascii.eqb_eq in Hhash.
    destruct (Text.startsWith "#line" (Scanner.rest st0)
              || Text.startsWith "# " (Scanner.rest st0)
                 && Scanner.isDigit (Scanner.peekAt 2 st0)).
    { destruct (scanLineDirective_slice _ _ _ Hhash H) as (Hs & _ & Hn & Ht & Hv).
      split; [|split; [|split]].
      - exists (sk +:+ ""). eapply slice_moves; eassumption.
      - unfold wellValued. rewrite Ht. eexists. exact Hv.
      - rewrite Ht. discriminate.
      - intros _. exact Hn. }
    destruct (Text.startsWith "#pragma" (Scanner.rest st0)) eqn:Hpragma.
    { unfold Scanner.done in H. inversion H; subst tok st'.
      destruct (scanPragma_reads st0) as (Hr & _).
      apply (scanned_reads sk st st0); [exact Hsk|exact Hr| | |].
      - unfold Scanner.scanPragma.
        destruct (Scanner.takeWhile _ _ _); cbn. eexists. reflexivity.
      - unfold Scanner.scanPragma. destruct (Scanner.takeWhile _ _ _); cbn. discriminate.
      - unfold Scanner.scanPragma.
        destruct (Scanner.takeWhile Scanner.notLineEnd "" st0) as [t s1] eqn:E.
        cbn [fst text].
        assert (Ht : Scanner.notLineEnd (Scanner.peek st0) = true) by (rewrite Hhash; reflexivity).
        destruct (takeWhile_first _ _ _ _ _ He Ht E) as (run & T & _).
        rewrite T. discriminate. }
    destruct (Scanner.takeWhile Scanner.notLineEnd "" st0) as [t s1] eqn:E.
    cbn [snd] in H.
    destruct (takeWhile_eq _ _ _ _ _ E) as (run & _ & Hm & _).
    destruct (IH _ _ _ H) as ((skipped & Hs) & Hw & H1 & H2).
    split; [|split; [exact Hw|split; assumption]].
    exists (sk +:+ (run +:+ skipped)).
    eapply slice_moves; [exact Hsk|]. eapply slice_moves; eassumption. }
  destruct (Scanner.isIdentifierStart (Scanner.peek st0)) eqn:Hid.
  { unfold Scanner.done in H. inversion H; subst tok st'.
    destruct (scanIdentifierOrKeyword_reads st0) as (Hr & _).
    unfold Scanner.scanIdentifierOrKeyword in *.
    destruct (Scanner.takeWhile Scanner.isIdentifierChar "" st0) as [t s1] eqn:E.
    destruct (takeWhile_first _ _ _ _ _ He (isIdentifierStart_char _ Hid) E)
      as (run & T & _).
    change ("" +:+ ?x) with x in T.
    destruct (Scanner.lookupKeyword t) as [kw|] eqn:Hkw; cbn [fst snd] in *.
    - pose proof (lookupKeyword_range _ _ Hkw) as Hrange.
      apply (scanned_reads sk st st0); [exact Hsk|exact Hr| | |].
      + apply wellValued_NoValue; [reflexivity|]. cbn [tok_type]. lia.
      + cbn [tok_type]. intros ->. cbn in Hrange. lia.
      + cbn [text]. rewrite T. discriminate.
    - apply (scanned_reads sk st st0); [exact Hsk|exact Hr| | |].
      + cbn. eexists. reflexivity.
      + cbn. discriminate.
      + cbn [text]. rewrite T. discriminate. }
  destruct (Scanner.isDigit (Scanner.peek st0)) eqn:Hdig.
  { destruct (scanNumber_reads stod _ _ _ Hdig H) as (Hr & _ & Hn & Hk).
    apply (scanned_reads sk st st0); [exact Hsk|exact Hr| | |exact Hn].
    - unfold wellValued.
      destruct Hk as [(Ht & Hv)|(Ht & Hv)]; rewrite Ht; exact Hv.
    - destruct Hk as [(Ht & _)|(Ht & _)]; rewrite Ht; discriminate. }
  destruct (Ascii.eqb (Scanner.peek st0) "L"
            && (Ascii.eqb (Scanner.peekAt 1 st0) Char.quote
                || Ascii.eqb (Scanner.peekAt 1 st0) Char.apostrophe)) eqn:HL.
  { apply andb_true_iff in HL. destruct HL as [HL _]. apply Ascii.eqb_eq in HL.
    rewrite HL in Hid. discriminate. }
  destruct (Ascii.eqb (Scanner.peek st0) Char.quote) eqn:Hq.
  { apply Ascii.eqb_eq in Hq. unfold Scanner.done in H. inversion H; subst tok st'.
    pose proof (scanString_reads false st0 Hq) as Hr.
    apply (scanned_reads sk st st0); [exact Hsk|exact Hr| | |].
    - unfold Scanner.scanString.
      destruct (Scanner.stringLoop _ _ _ _) as [[t v] s1].
      destruct (negb (Scanner.isAtEnd s1)); cbn; eexists; reflexivity.
    - unfold Scanner.scanString.
      destruct (Scanner.stringLoop _ _ _ _) as [[t v] s1].
      destruct (negb (Scanner.isAtEnd s1)); cbn; discriminate.
    - unfold Scanner.scanString.
      destruct (Scanner.stringLoop _ _ _ _) as [[t v] s1] eqn:E.
      destruct (stringLoop_moves _ _ _ _ _ _ _ E) as (s & Hs & _).
      destruct (negb (Scanner.isAtEnd s1)); cbn [fst text]; rewrite Hs; discriminate. }
  destruct (Ascii.eqb (Scanner.peek st0) Char.apostrophe) eqn:Ha.
  { apply Ascii.eqb_eq in Ha. unfold Scanner.done in H. inversion H; subst tok st'.
    pose proof (scanChar_reads false st0 Ha) as Hr.
    destruct Hr as [Hm Hl].
    destruct (scanChar_token false st0) as (v & t & Htok & Hne).
    apply (scanned_reads sk st st0); [exact Hsk|split; assumption| | |].
    - unfold wellValued. rewrite Htok. cbn. eexists. reflexivity.
    - rewrite Htok. cbn. discriminate.
    - rewrite Htok. exact Hne. }
  unfold Scanner.done in H. inversion H; subst tok st'.
  pose proof (scanPunctuation_reads (Scanner.peek st0) st0 _ He eq_refl eq_refl) as Hr.
  destruct (scanPunctuation_type (Scanner.peek st0) (Scanner.currentLocation st0)
              (snd (Scanner.advance st0))) as (Hv & Hk & Hn).
  apply (scanned_reads sk st st0); [exact Hsk|exact Hr| | |exact Hn].
  - destruct Hk as [Hk|Hk].
    + apply wellValued_NoValue; [exact Hv|]. lia.
    + apply wellValued_NoValue; [exact Hv|]. rewrite Hk. cbn. lia.
  - destruct Hk as [Hk|Hk].
    + intros E. rewrite E in Hk. cbn in Hk. lia.
    + rewrite Hk. discriminate.
Qed.

End Tokens.

Section Termination.

Variable stod : string -> Exception + float.

Lemma scanNumber_returns st : Scanner.scanNumber stod st <> Scanner.OutOfFuel.
Proof.
  unfold Scanner.scanNumber.
  destruct (Scanner.scanPrefix st) as [[[t0 isHex] isOctal] s0].
  destruct (if negb isHex && negb isOctal then _ else _) as [[t f] s1].
  destruct f; [destruct (stod t)|destruct (Conversion.stoll t _)]; discriminate.
Qed.

Lemma scanLineDirective_returns st :
  Scanner.scanLineDirective st <> Scanner.OutOfFuel.
Proof.
  unfold Scanner.scanLineDirective.
  destruct (Scanner.takeWhile _ _ _) as [t s1].
  destruct (Scanner.fromFirstDigit t); [|discriminate].
  destruct (Scanner.splitDigits _) as [a b].
  destruct (Conversion.stoull a); discriminate.
Qed.

(** [scanToken] needs no more calls of itself than the source has
    characters. *)
Lemma scanToken_returns (fuel : nat) : forall st,
  String.length (Scanner.rest st) < fuel ->
  Scanner.scanToken stod fuel st <> Scanner.OutOfFuel.
Proof.
  induction fuel as [|fuel IH]; intros st Hlen; [lia|].
  cbn [Scanner.scanToken]. unfold Scanner.done.
  destruct (skipLoop_moves (String.length (Scanner.rest st)) st (le_n _))
    as (sk & Hsk & _ & _).
  fold (Scanner.skipWhitespaceAndComments st) in Hsk.
  set (st0 := Scanner.skipWhitespaceAndComments st) in *.
  pose proof (moves_length _ _ _ Hsk) as HL0.
  destruct (Scanner.isAtEnd st0) eqn:He; [discriminate|].
  destruct (Ascii.eqb (Scanner.peek st0) "#") eqn:Hhash.
  { apply Ascii.eqb_eq in Hhash.
    destruct (_ || _); [apply scanLineDirective_returns|].
    destruct (Text.startsWith "#pragma" _); [discriminate|].
    destruct (Scanner.takeWhile Scanner.notLineEnd "" st0) as [t s1] eqn:E.
    assert (Ht : Scanner.notLineEnd (Scanner.peek st0) = true) by (rewrite Hhash; reflexivity).
    destruct (takeWhile_first _ _ _ _ _ He Ht E) as (run & _ & Hm & _).
    pose proof (moves_length _ _ _ Hm) as HL1. cbn [String.length] in HL1.
    cbn [snd]. apply IH. lia. }
  destruct (Scanner.isIdentifierStart _); [discriminate|].
  destruct (Scanner.isDigit _); [apply scanNumber_returns|].
  destruct (_ && _).
  { destruct (Ascii.eqb (Scanner.peek (snd (Scanner.advance st0))) Char.quote);
      discriminate. }
  destruct (Ascii.eqb _ Char.quote); [discriminate|].
  destruct (Ascii.eqb _ Char.apostrophe); discriminate.
Qed.

Lemma scan_returns st : Scanner.scan stod st <> Scanner.OutOfFuel.
Proof. apply scanToken_returns. lia. Qed.

Lemma scan_scanned st tok st' :
  Scanner.scan stod st = Scanner.Done tok st' -> scanned st tok st'.
Proof. apply scanToken_scanned. Qed.

Lemma scanned_lookahead st tok st' :
  scanned st tok st' -> Scanner.lookahead_ st' = Scanner.lookahead_ st.
Proof. intros ((sk & _ & _ & H & _) & _). exact H. Qed.

Lemma scanned_progress st tok st' :
  scanned st tok st' -> tok_type tok <> TokenType.Eof ->
  String.length (Scanner.rest st') < String.length (Scanner.rest st).
Proof.
  intros ((sk & H & _) & _ & _ & Hn) Ht. specialize (Hn Ht).
  rewrite H, !append_length. destruct (text tok); [congruence|]. cbn. lia.
Qed.

Lemma tokensLoop_ends (fuel : nat) : forall st,
  Scanner.lookahead_ st = [] ->
  String.length (Scanner.rest st) < fuel ->
  match Scanner.tokensLoop stod fuel st with
  | Scanner.Done entries st' =>
      Scanner.rest st' = "" /\ Scanner.lookahead_ st' = [] /\
      exists front eof,
        entries = front ++ [eof] /\ tok_type (fst eof) = TokenType.Eof /\
        Forall (fun entry => tok_type (fst entry) <> TokenType.Eof) front
  | Scanner.Throws _ => True
  | Scanner.OutOfFuel => False
  end.
Proof.
  induction fuel as [|fuel IH]; intros st Hla Hlen; [lia|].
  cbn [Scanner.tokensLoop]. unfold Scanner.nextToken. rewrite Hla.
  pose proof (scan_returns st) as Hret.
  destruct (Scanner.scan stod st) as [tok st1| |] eqn:Hscan; [|exact I|congruence].
  pose proof (scan_scanned _ _ _ Hscan) as Hs.
  pose proof (scanned_lookahead _ _ _ Hs) as Hla1. rewrite Hla in Hla1.
  unfold Parser.check_type.
  destruct (bool_decide (tok_type tok = TokenType.Eof)) eqn:Heof.
  - apply bool_decide_eq_true in Heof.
    destruct Hs as (_ & _ & Hend & _). destruct (Hend Heof) as [_ Hrest].
    split; [exact Hrest|]. split; [exact Hla1|].
    exists [], (tok, drop (length (Scanner.errors_ st)) (Scanner.errors_ st1)).
    split; [reflexivity|]. split; [exact Heof|constructor].
  - apply bool_decide_eq_false in Heof.
    pose proof (scanned_progress _ _ _ Hs Heof) as Hprog.
    specialize (IH st1 Hla1). 
    destruct (Scanner.tokensLoop stod fuel st1) as [entries st2| |]; [|exact I|apply IH; lia].
    destruct IH as (H1 & H2 & front & eof & H3 & H4 & H5); [lia|].
    split; [exact H1|]. split; [exact H2|].
    exists ((tok, drop (length (Scanner.errors_ st)) (Scanner.errors_ st1)) :: front), eof.
    split; [rewrite H3; reflexivity|]. split; [exact H4|].
    constructor; [exact Heof|exact H5].
Qed.

End Termination.

(** ** Locations *)

Lemma lineFeeds_nonneg (s : string) : (0 <= Position.lineFeeds s)%Z.
Proof.
  induction s as [|c s IH]; [reflexivity|].
  cbn [Position.lineFeeds]. destruct (Ascii.eqb c Char.lf); lia.
Qed.

Lemma lastLine_length (s : string) :
  Position.lineFeeds s = 0%Z -> Position.lastLine s = Z.of_nat (String.length s).
Proof.
  induction s as [|c s IH]; [reflexivity|].
  cbn [Position.lineFeeds Position.lastLine String.length].
  pose proof (lineFeeds_nonneg s).
  destruct (Ascii.eqb c Char.lf); intros H0; [lia|].
  assert (Hs : Position.lineFeeds s = 0%Z) by lia.
  rewrite Hs. cbn. lia.
Qed.

Lemma to_size_t_succ (l k : Z) :
  to_size_t (to_size_t (l + 1) + k) = to_size_t (l + (1 + k)).
Proof.
  unfold to_size_t. rewrite Zplus_mod_idemp_l. f_equal. lia.
Qed.

(** The location behind a text: as many lines further as the text has
    line feeds, counted modulo 2^64, in the column behind the characters
    of its last line. *)
Lemma after_closed (s : string) : forall loc,
  Position.after s loc
  = mkLoc (filename loc) (Position.lineAfter (line loc) (Position.lineFeeds s))
      ((if (Position.lineFeeds s =? 0)%Z then column loc else 1)
       + Position.lastLine s).
Proof.
  induction s as [|c s IH]; intros loc.
  - destruct loc. cbn. f_equal; lia.
  - cbn [Position.after Position.lineFeeds Position.lastLine]. rewrite IH.
    pose proof (lineFeeds_nonneg s) as Hn. unfold Position.lineAfter.
    destruct (Ascii.eqb c Char.lf); cbn [filename line column].
    + assert (H1 : (1 + Position.lineFeeds s =? 0)%Z = false)
        by (apply Z.eqb_neq; lia).
      rewrite H1.
      destruct (Position.lineFeeds s =? 0)%Z eqn:H0.
      * apply Z.eqb_eq in H0. rewrite (lastLine_length s H0), H0.
        f_equal; first [lia | f_equal; lia].
      * f_equal; first [lia | apply to_size_t_succ].
    + replace (0 + Position.lineFeeds s)%Z with (Position.lineFeeds s) by lia.
      destruct (Position.lineFeeds s =? 0)%Z eqn:H0.
      * apply Z.eqb_eq in H0. rewrite (lastLine_length s H0). f_equal; lia.
      * f_equal; lia.
Qed.

Lemma lineFeeds_none test (s : string) :
  test Char.lf = false -> Names.allChars test s = true -> Position.lineFeeds s = 0%Z.
Proof.
  intros Hlf. induction s as [|c s IH]; [reflexivity|].
  cbn [Names.allChars Position.lineFeeds]. intros H.
  apply andb_true_iff in H. destruct H as [Hc Hs].
  destruct (Ascii.eqb c Char.lf) eqn:E.
  - apply Ascii.eqb_eq in E. congruence.
  - rewrite (IH Hs). reflexivity.
Qed.

Lemma after_one_line test (s : string) loc :
  test Char.lf = false -> Names.allChars test s = true ->
  Position.after s loc
  = mkLoc (filename loc) (line loc) (column loc + Z.of_nat (String.length s)).
Proof.
  intros Hlf Hs. rewrite after_closed.
  pose proof (lineFeeds_none test s Hlf Hs) as H0.
  rewrite H0, (lastLine_length s H0). cbn. reflexivity.
Qed.

(** The column grows by at most one per character read: [++column_] stays
    within [size_t] as long as the source does. *)
Lemma column_bounded (s : string) (st st' : Scanner.State) :
  moves s st st' -> (1 <= Scanner.column_ st)%Z ->
  (1 <= Scanner.column_ st' <= Scanner.column_ st + Z.of_nat (String.length s))%Z.
Proof.
  intros [_ Hloc _ _] Hc. rewrite after_closed in Hloc.
  apply (f_equal column) in Hloc. cbn [column Scanner.currentLocation] in Hloc.
  rewrite Hloc. clear Hloc.
  assert (Hlast : (0 <= Position.lastLine s <= Z.of_nat (String.length s))%Z).
  { clear. induction s as [|c s IH]; [cbn; lia|].
    cbn [Position.lastLine String.length].
    destruct (Position.lineFeeds s =? 0)%Z; destruct (Ascii.eqb c Char.lf); lia. }
  destruct (Position.lineFeeds s =? 0)%Z; lia.
Qed.

(** ** Words and string literals *)

Lemma skip_atToken st :
  atToken st = true -> Scanner.skipWhitespaceAndComments st = st.
Proof.
  unfold atToken, Scanner.skipWhitespaceAndComments. intros H.
  apply andb_true_iff in H. destruct H as [H H3].
  apply andb_true_iff in H. destruct H as [H1 H2].
  apply negb_true_iff in H1, H2, H3.
  destruct (String.length (Scanner.rest st)); [reflexivity|].
  cbn [Scanner.skipLoop]. rewrite H1, H2.
  destruct (Ascii.eqb (Scanner.peek st) "/"); [|reflexivity].
  cbn [andb] in H3. apply orb_false_iff in H3. destruct H3 as [-> ->]. reflexivity.
Qed.

Ltac ascii_cases c :=
  destruct c as [[] [] [] [] [] [] [] []]; vm_compute; try discriminate; auto.

Lemma isIdentifierStart_class c :
  Scanner.isIdentifierStart c = true ->
  Scanner.isBlank c = false /\ Ascii.eqb c "/" = false /\ Ascii.eqb c "#" = false.
Proof. ascii_cases c. Qed.

Lemma isIdentifierChar_lf : Scanner.isIdentifierChar Char.lf = false.
Proof. reflexivity. Qed.

Lemma quote_class :
  Scanner.isBlank Char.quote = false /\ Ascii.eqb Char.quote "/" = false /\
  Ascii.eqb Char.quote "#" = false /\ Scanner.isIdentifierStart Char.quote = false /\
  Scanner.isDigit Char.quote = false /\ Ascii.eqb Char.quote "L" = false.
Proof. repeat split; reflexivity. Qed.

Lemma atToken_first st c r :
  Scanner.rest st = String c r -> Scanner.isBlank c = false -> Ascii.eqb c "/" = false ->
  atToken st = true.
Proof.
  intros Hr Hb Hs. unfold atToken, Scanner.isAtEnd.
  rewrite (peek_rest _ _ _ Hr), Hr, Hb, Hs. reflexivity.
Qed.

Section Lexemes.

Variable stod : string -> Exception + float.

Lemma nextToken_scanToken st :
  Scanner.lookahead_ st = [] ->
  Scanner.nextToken stod st
  = Scanner.scanToken stod (S (String.length (Scanner.rest st))) st.
Proof. unfold Scanner.nextToken. intros ->. reflexivity. Qed.

Lemma stringLoop_plain (content tail : string) : forall fuel text value st,
  String.length (Scanner.rest st) <= fuel ->
  Names.allChars plain content = true ->
  Scanner.rest st = content +:+ tail ->
  ends tail = true ->
  exists st1,
    moves content st st1 /\
    Scanner.rest st1 = tail /\ Scanner.errors_ st1 = Scanner.errors_ st /\
    Scanner.stringLoop fuel text value st
    = (text +:+ content, value +:+ content,
       if Ascii.eqb (Scanner.peek st1) Char.lf
       then Scanner.addError "Unterminated string literal" st1 else st1).
Proof.
  induction content as [|c content IH]; intros fuel text value st Hlen Hall Hr Hstop.
  - change ("" +:+ tail) with tail in Hr. exists st.
    split; [apply moves_refl|]. split; [exact Hr|]. split; [reflexivity|].
    rewrite !append_empty_r.
    destruct fuel as [|fuel].
    + assert (Hrest : Scanner.rest st = "").
      { destruct (Scanner.rest st); [reflexivity|cbn in Hlen; lia]. }
      cbn [Scanner.stringLoop]. unfold Scanner.peek. rewrite Hrest. reflexivity.
    + cbn [Scanner.stringLoop]. unfold Scanner.isAtEnd, Scanner.peek. rewrite Hr.
      destruct tail as [|t tail]; [reflexivity|].
      cbn [ends] in Hstop.
      destruct (Ascii.eqb t Char.quote) eqn:Hq.
      { apply Ascii.eqb_eq in Hq. subst t. reflexivity. }
      destruct (Ascii.eqb t Char.lf) eqn:Hl; [reflexivity|discriminate].
  - rewrite append_cons in Hr.
    cbn [Names.allChars] in Hall. apply andb_true_iff in Hall. destruct Hall as [Hc Hall].
    unfold plain in Hc.
    apply andb_true_iff in Hc. destruct Hc as [Hc Hc3].
    apply andb_true_iff in Hc. destruct Hc as [Hc1 Hc2].
    apply negb_true_iff in Hc1, Hc2, Hc3.
    assert (He : Scanner.isAtEnd st = false) by (unfold Scanner.isAtEnd; rewrite Hr; reflexivity).
    destruct (moves_advance st He) as (Hm & Hch & Hel).
    rewrite (peek_rest _ _ _ Hr) in Hm, Hch.
    pose proof (moves_char_rest _ _ _ _ Hm Hr) as Hr1.
    destruct fuel as [|fuel]; [rewrite Hr in Hlen; cbn in Hlen; lia|].
    destruct (IH fuel (text +:+ Char.str c) (value +:+ Char.str c)
                (snd (Scanner.advance st))) as (st1 & M & R & E & L);
      [rewrite Hr in Hlen; rewrite Hr1; cbn in Hlen; lia|exact Hall|exact Hr1|exact Hstop|].
    exists st1. split; [|split; [exact R|split; [congruence|]]].
    + change (String c content) with (Char.str c +:+ content).
      eapply moves_trans; eassumption.
    + cbn [Scanner.stringLoop]. rewrite He, (peek_rest _ _ _ Hr), Hc1, Hc2, Hc3.
      cbn [orb]. rewrite Hch, L, !append_assoc. reflexivity.
Qed.

End Lexemes.

(** ** Properties of the scanner *)

(** X1: an identifier or keyword is read whole.  In front of a word (a
    letter or underscore, then letters, digits and underscores) that no
    such character follows, [nextToken] returns one token whose text is the
    word, located where the word starts: the keyword that [lookupKeyword]
    finds for the word, else an [Identifier] whose value is the word.  The
    scanner is then behind the word, in the same line and as many columns
    further as the word has characters, and has reported nothing. *)
Theorem word_is_scanned_whole (stod : string -> Exception + float)
    (st : Scanner.State) (word tail : string) :
  Scanner.lookahead_ st = [] ->
  Names.isIdentifier word = true ->
  Scanner.rest st = word +:+ tail ->
  stopsAt Scanner.isIdentifierChar tail = true ->
  exists st',
    Scanner.nextToken stod st
    = Scanner.Done
        (match Scanner.lookupKeyword word with
         | Some kw => mkToken kw NoValue word (Scanner.currentLocation st)
         | None => mkToken TokenType.Identifier (StringValue word) word
                     (Scanner.currentLocation st)
         end) st' /\
    Scanner.rest st' = tail /\
    Scanner.currentLocation st'
    = mkLoc (Scanner.filename_ st) (Scanner.line_ st)
        (Scanner.column_ st + Z.of_nat (String.length word)) /\
    Scanner.errors_ st' = Scanner.errors_ st /\
    Scanner.lookahead_ st' = [].
Proof.
  intros Hla Hid Hr Hstop.
  destruct word as [|c word]; [discriminate|].
  cbn [Names.isIdentifier] in Hid. apply andb_true_iff in Hid. destruct Hid as [Hc Hw].
  change (Scanner.isIdentifierStart c = true) in Hc.
  change (Names.allChars Scanner.isIdentifierChar word = true) in Hw.
  destruct (isIdentifierStart_class c Hc) as (Hb & Hs & Hh).
  rewrite append_cons in Hr.
  rewrite (nextToken_scanToken stod st Hla). cbn [Scanner.scanToken].
  rewrite (skip_atToken st (atToken_first st c _ Hr Hb Hs)).
  assert (He : Scanner.isAtEnd st = false) by (unfold Scanner.isAtEnd; rewrite Hr; reflexivity).
  rewrite He, (peek_rest _ _ _ Hr), Hh, Hc.
  unfold Scanner.done, Scanner.scanIdentifierOrKeyword.
  destruct (Scanner.takeWhile Scanner.isIdentifierChar "" st) as [t s1] eqn:E.
  destruct (takeWhile_eq _ _ _ _ _ E) as (run & T & [M1 M2 M3 M4] & Er & Hspan).
  change ("" +:+ run) with run in T. subst t.
  assert (Hall : Names.allChars Scanner.isIdentifierChar (String c word) = true).
  { cbn [Names.allChars]. rewrite (isIdentifierStart_char c Hc), Hw. reflexivity. }
  rewrite Hr in Hspan. rewrite <- append_cons in Hspan.
  rewrite (span_exact _ _ _ Hall Hstop) in Hspan.
  injection Hspan as Hrun Hrest. rewrite <- Hrun in *.
  exists s1. split; [|split; [symmetry; exact Hrest|split; [|split; [exact Er|congruence]]]].
  - destruct (Scanner.lookupKeyword (String c word)); reflexivity.
  - rewrite M2. apply (after_one_line Scanner.isIdentifierChar); [reflexivity|exact Hall].
Qed.

(** [longer] in [  longer = 12 ;], behind the two blanks. *)
Lemma word_is_scanned_whole_witness :
  let st := snd (Scanner.advance (snd (Scanner.advance Sources.assignment))) in
  (Scanner.lookahead_ st = [] /\
   Names.isIdentifier "longer" = true /\
   Scanner.rest st = "longer" +:+ " = 12 ;" /\
   stopsAt Scanner.isIdentifierChar " = 12 ;" = true) /\
  exists st',
    Scanner.nextToken Sources.noFloat st
    = Scanner.Done
        (mkToken TokenType.Identifier (StringValue "longer") "longer"
           (mkLoc "a.idl" 1 3)) st' /\
    Scanner.rest st' = " = 12 ;" /\
    Scanner.currentLocation st' = mkLoc "a.idl" 1 9.
Proof.
  intros st.
  assert (H1 : Scanner.lookahead_ st = []) by reflexivity.
  assert (H2 : Names.isIdentifier "longer" = true) by reflexivity.
  assert (H3 : Scanner.rest st = "longer" +:+ " = 12 ;") by reflexivity.
  assert (H4 : stopsAt Scanner.isIdentifierChar " = 12 ;" = true) by reflexivity.
  split; [repeat split; assumption|].
  destruct (word_is_scanned_whole Sources.noFloat st "longer" " = 12 ;" H1 H2 H3 H4)
    as (st' & Hn & Hr & Hl & _).
  exists st'. split; [exact Hn|]. split; [exact Hr|exact Hl].
Defined.

Lemma advance_addError msg st c r :
  Scanner.rest st = String c r ->
  fst (Scanner.advance (Scanner.addError msg st)) = c /\
  Scanner.rest (snd (Scanner.advance (Scanner.addError msg st))) = r /\
  Scanner.errors_ (snd (Scanner.advance (Scanner.addError msg st)))
  = Scanner.errors_ st ++ [mkLexerError msg (Scanner.currentLocation st)].
Proof.
  intros Hr. unfold Scanner.advance, Scanner.addError. cbn [Scanner.rest]. rewrite Hr.
  cbn [fst snd Scanner.filename_ Scanner.line_ Scanner.column_ Scanner.lookahead_
       Scanner.errors_].
  destruct (Ascii.eqb c Char.lf); repeat split; reflexivity.
Qed.

(** X2: a string literal whose content has neither a double quote, nor a
    backslash, nor a line feed.  Closed by a double quote, it gives a
    [StringLiteral] whose value is the content and whose text is the
    content between the quotes, without a diagnostic.  Cut by the end of
    the source, it gives the same value, the text without the closing
    quote, and no diagnostic either.  Cut by a line feed, it gives the
    same value, the line feed is taken into the text of the token, and
    [Unterminated string literal] is reported at the line feed. *)
Theorem plain_string_literal (stod : string -> Exception + float)
    (st : Scanner.State) (content tail : string) :
  Scanner.lookahead_ st = [] ->
  Names.allChars plain content = true ->
  Scanner.rest st = Char.str Char.quote +:+ content +:+ tail ->
  ends tail = true ->
  exists st',
    Scanner.nextToken stod st
    = Scanner.Done
        (mkToken TokenType.StringLiteral (StringValue content)
           (Char.str Char.quote +:+ content
            +:+ match tail with
                | EmptyString => EmptyString
                | String c _ => Char.str c
                end)
           (Scanner.currentLocation st)) st' /\
    Scanner.rest st'
    = match tail with EmptyString => EmptyString | String _ behind => behind end /\
    Scanner.errors_ st'
    = Scanner.errors_ st
      ++ (if Text.startsWith (Char.str Char.lf) tail
          then [mkLexerError "Unterminated string literal"
                  (Position.after (Char.str Char.quote +:+ content)
                     (Scanner.currentLocation st))]
          else []).
Proof.
  intros Hla Hall Hr Hends.
  change (Char.str Char.quote +:+ content +:+ tail)
    with (String Char.quote (content +:+ tail)) in Hr.
  destruct quote_class as (Q1 & Q2 & Q3 & Q4 & Q5 & Q6).
  rewrite (nextToken_scanToken stod st Hla). cbn [Scanner.scanToken].
  rewrite (skip_atToken st (atToken_first st _ _ Hr Q1 Q2)).
  assert (He : Scanner.isAtEnd st = false) by (unfold Scanner.isAtEnd; rewrite Hr; reflexivity).
  pose proof (peek_rest _ _ _ Hr) as Hp.
  rewrite He, Hp, Q3, Q4, Q5, Q6. cbn [andb].
  change (Ascii.eqb Char.quote Char.quote) with true. cbv iota.
  unfold Scanner.done, Scanner.scanString.
  destruct (moves_advance st He) as (Hm & _ & Hel). rewrite Hp in Hm.
  pose proof (moves_char_rest _ _ _ _ Hm Hr) as Hr0.
  set (st0 := snd (Scanner.advance st)) in *.
  destruct (stringLoop_plain content tail (String.length (Scanner.rest st0))
              (Char.str Char.quote) "" st0 (le_n _) Hall Hr0 Hends)
    as (st1 & M & R1 & E1 & L).
  rewrite L. change ("" +:+ content) with content.
  assert (Hloc1 : Scanner.currentLocation st1
                  = Position.after (Char.str Char.quote +:+ content)
                      (Scanner.currentLocation st)).
  { destruct (moves_trans _ _ _ _ _ Hm M) as [_ H _ _]. exact H. }
  destruct tail as [|t behind].
  - assert (He1 : Scanner.isAtEnd st1 = true) by (apply isAtEnd_rest; exact R1).
    unfold Scanner.peek. rewrite R1.
    change (Ascii.eqb Char.nul Char.lf) with false. cbv iota. rewrite He1.
    cbn [negb fst snd]. eexists. split; [rewrite append_empty_r; reflexivity|].
    split; [exact R1|]. cbn [Text.startsWith]. rewrite app_nil_r. congruence.
  - cbn [ends] in Hends. rewrite (peek_rest _ _ _ R1).
    assert (He1 : Scanner.isAtEnd st1 = false)
      by (unfold Scanner.isAtEnd; rewrite R1; reflexivity).
    destruct (moves_advance st1 He1) as (Hm1 & Hc1 & Hel1).
    rewrite (peek_rest _ _ _ R1) in Hm1, Hc1.
    cbn [Text.startsWith Char.str]. rewrite andb_true_r.
    replace (Ascii.eqb Char.lf t) with (Ascii.eqb t Char.lf) by apply Ascii.eqb_sym.
    destruct (Ascii.eqb t Char.lf) eqn:Hlf.
    + destruct (advance_addError "Unterminated string literal" st1 _ _ R1)
        as (A1 & A2 & A3).
      assert (He2 : Scanner.isAtEnd (Scanner.addError "Unterminated string literal" st1)
                    = false) by exact He1.
      rewrite He2. cbn [negb fst snd]. rewrite A1.
      eexists. split; [rewrite append_assoc; reflexivity|].
      split; [exact A2|]. rewrite A3, Hloc1, E1, Hel. reflexivity.
    + rewrite He1. cbn [negb fst snd]. rewrite Hc1.
      eexists. split; [rewrite append_assoc; reflexivity|].
      split; [exact (moves_char_rest _ _ _ _ Hm1 R1)|].
      rewrite app_nil_r. congruence.
Qed.

(** The string literal of [Sources.cutString], which the end of the line
    cuts. *)
Lemma plain_string_literal_witness :
  let st := Nat.iter 25 (fun st => snd (Scanner.advance st)) Sources.cutString in
  let tail := Sources.lf +:+ ";" in
  (Scanner.lookahead_ st = [] /\
   Names.allChars plain "abc" = true /\
   Scanner.rest st = Char.str Char.quote +:+ "abc" +:+ tail /\
   ends tail = true) /\
  exists st',
    Scanner.nextToken Sources.noFloat st
    = Scanner.Done
        (mkToken TokenType.StringLiteral (StringValue "abc")
           (Sources.quote +:+ "abc" +:+ Sources.lf) (mkLoc "a.idl" 1 26)) st' /\
    Scanner.rest st' = ";" /\
    Scanner.errors_ st'
    = [mkLexerError "Unterminated string literal" (mkLoc "a.idl" 1 30)].
Proof.
  intros st tail.
  assert (H1 : Scanner.lookahead_ st = []) by reflexivity.
  assert (H2 : Names.allChars plain "abc" = true) by reflexivity.
  assert (H3 : Scanner.rest st = Char.str Char.quote +:+ "abc" +:+ tail) by reflexivity.
  assert (H4 : ends tail = true) by reflexivity.
  split; [repeat split; assumption|].
  destruct (plain_string_literal Sources.noFloat st "abc" tail H1 H2 H3 H4)
    as (st' & Hn & Hr & He).
  exists st'. split; [exact Hn|]. split; [exact Hr|exact He].
Defined.

(** X3: a token is a slice of the source.  When [nextToken] scans a
    token, the source in front of the scanner is some skipped text (white
    space, comments, directives that are passed over), then the text of the
    token, then what the scanner has still to read; the token is located
    behind the skipped text and the scanner ends behind the text of the
    token (a line directive apart, which sets the line); the location
    behind a text is as many lines further as the text has line feeds, the
    line being counted modulo 2^64 as the [size_t] it is (the line behind
    line 2^64 - 1 is line 0), in the column behind the characters of its
    last line.  Tokens looked ahead are untouched and the errors reported
    so far are kept. *)
Theorem token_is_a_slice_of_the_source (stod : string -> Exception + float)
    (st : Scanner.State) (tok : Token) (st' : Scanner.State) :
  Scanner.lookahead_ st = [] ->
  Scanner.nextToken stod st = Scanner.Done tok st' ->
  (exists skipped, slice st skipped tok st') /\
  (forall s loc,
     Position.after s loc
     = mkLoc (filename loc) (Position.lineAfter (line loc) (Position.lineFeeds s))
         ((if (Position.lineFeeds s =? 0)%Z then column loc else 1)
          + Position.lastLine s)) /\
  (forall l k, (0 <= l < 2 ^ 64)%Z -> (0 <= k)%Z ->
     Position.lineAfter l k = ((l + k) mod 2 ^ 64)%Z) /\
  Position.lineAfter (2 ^ 64 - 1) 1 = 0%Z.
Proof.
  intros Hla H. rewrite (nextToken_scanToken stod st Hla) in H.
  split; [|split; [exact after_closed|split; [|reflexivity]]].
  - destruct (scanToken_scanned stod _ _ _ _ H) as (Hs & _). exact Hs.
  - intros l k Hl Hk. unfold Position.lineAfter, to_size_t.
    destruct (Z.eqb_spec k 0) as [->|_]; [|reflexivity].
    rewrite Z.add_0_r, Z.mod_small by lia. reflexivity.
Qed.

(** [const] in [Sources.cutString], behind a comment; and [x] behind a
    line feed in line 2^64 - 1, which is located in line 0. *)
Lemma token_is_a_slice_of_the_source_witness :
  let st := Sources.cutString in
  let tok := mkToken TokenType.KwConst NoValue "const" (mkLoc "a.idl" 1 9) in
  let last := Scanner.mk (Sources.lf +:+ "x") "f" (2 ^ 64 - 1) 7 [] [] in
  let x := mkToken TokenType.Identifier (StringValue "x") "x" (mkLoc "f" 0 1) in
  (exists st',
     (Scanner.lookahead_ st = [] /\
      Scanner.nextToken Sources.noFloat st = Scanner.Done tok st') /\
     exists skipped, slice st skipped tok st') /\
  (exists st',
     (Scanner.lookahead_ last = [] /\
      Scanner.nextToken Sources.noFloat last = Scanner.Done x st') /\
     exists skipped, slice last skipped x st').
Proof.
  intros st tok last x. split.
  - destruct (Scanner.nextToken Sources.noFloat st) as [tok' st'| |] eqn:H;
      [|vm_compute in H; discriminate..].
    assert (Htok : tok' = tok) by (subst tok; vm_compute in H; inversion H; reflexivity).
    subst tok'.
    exists st'. split; [split; [reflexivity|exact eq_refl]|].
    exact (proj1 (token_is_a_slice_of_the_source Sources.noFloat st tok st' eq_refl H)).
  - destruct (Scanner.nextToken Sources.noFloat last) as [tok' st'| |] eqn:H;
      [|vm_compute in H; discriminate..].
    assert (Htok : tok' = x) by (subst x; vm_compute in H; inversion H; reflexivity).
    subst tok'.
    exists st'. split; [split; [reflexivity|exact eq_refl]|].
    exact (proj1 (token_is_a_slice_of_the_source Sources.noFloat last x st' eq_refl H)).
Defined.

(** X4: the value of a token is of the alternative that its type calls
    for: an integer literal holds an [int64_t] between 0 and 2^63 - 1, a
    floating literal a [double], an identifier, string literal, pragma or
    line directive a string, a character literal a [char], and every other
    token no value.  No token holds a [uint64_t], and no token is a
    [WideStringLiteral] or a [WideCharLiteral]: the letter L in front of a
    quote is scanned as an identifier. *)
Theorem token_value_fits_its_type (stod : string -> Exception + float)
    (st : Scanner.State) (tok : Token) (st' : Scanner.State) :
  Scanner.lookahead_ st = [] ->
  Scanner.nextToken stod st = Scanner.Done tok st' ->
  wellValued tok /\
  (forall v, tok_value tok <> UIntValue v) /\
  tok_type tok <> TokenType.WideStringLiteral /\
  tok_type tok <> TokenType.WideCharLiteral.
Proof.
  intros Hla H. rewrite (nextToken_scanToken stod st Hla) in H.
  destruct (scanToken_scanned stod _ _ _ _ H) as (_ & Hw & _).
  split; [exact Hw|]. unfold wellValued in Hw.
  split; [|split].
  - intros v Hv. rewrite Hv in Hw.
    destruct (tok_type tok); try contradiction; try discriminate Hw;
      destruct Hw as [x Hw];
      first [discriminate Hw | destruct Hw as [Hw _]; discriminate Hw].
  - intros Ht. rewrite Ht in Hw. exact Hw.
  - intros Ht. rewrite Ht in Hw. exact Hw.
Qed.

(** [L"w"]: the identifier [L]. *)
Lemma token_value_fits_its_type_witness :
  let st := Scanner.new ("L" +:+ Sources.quote +:+ "w" +:+ Sources.quote) "a.idl" in
  let tok := mkToken TokenType.Identifier (StringValue "L") "L" (mkLoc "a.idl" 1 1) in
  exists st',
    (Scanner.lookahead_ st = [] /\
     Scanner.nextToken Sources.noFloat st = Scanner.Done tok st') /\
    wellValued tok /\ tok_type tok <> TokenType.WideStringLiteral.
Proof.
  intros st tok.
  destruct (Scanner.nextToken Sources.noFloat st) as [tok' st'| |] eqn:H;
    [|vm_compute in H; discriminate..].
  assert (Htok : tok' = tok) by (subst tok; vm_compute in H; inversion H; reflexivity).
  subst tok'.
  exists st'. split; [split; [reflexivity|exact eq_refl]|].
  destruct (token_value_fits_its_type Sources.noFloat st tok st' eq_refl H)
    as (Hw & _ & Hs & _).
  split; assumption.
Defined.

(** X5: scanning ends.  From a scanner that has looked no token ahead,
    the calls of [nextToken] return, after finitely many tokens that are
    not [Eof], the token [Eof], with the whole source read, unless a
    conversion of a number throws; no call runs without end. *)
Theorem scanning_ends_with_Eof (stod : string -> Exception + float)
    (st : Scanner.State) :
  Scanner.lookahead_ st = [] ->
  match Scanner.tokens stod st with
  | Scanner.Done entries st' =>
      Scanner.rest st' = "" /\ Scanner.lookahead_ st' = [] /\
      exists front eof,
        entries = front ++ [eof] /\ tok_type (fst eof) = TokenType.Eof /\
        Forall (fun entry => tok_type (fst entry) <> TokenType.Eof) front
  | Scanner.Throws _ => True
  | Scanner.OutOfFuel => False
  end.
Proof.
  intros Hla. unfold Scanner.tokens. rewrite Hla.
  apply tokensLoop_ends; [exact Hla|]. cbn [length]. lia.
Qed.

(** The six tokens of [Sources.cutString] and [Eof]. *)
Lemma scanning_ends_with_Eof_witness :
  Scanner.lookahead_ Sources.cutString = [] /\
  match Scanner.tokens Sources.noFloat Sources.cutString with
  | Scanner.Done entries st' =>
      map (fun entry => tok_type (fst entry)) entries
      = [TokenType.KwConst; TokenType.KwString; TokenType.Identifier;
         TokenType.Equals; TokenType.StringLiteral; TokenType.Semicolon;
         TokenType.Eof] /\
      Scanner.rest st' = "" /\
      exists front eof,
        entries = front ++ [eof] /\ tok_type (fst eof) = TokenType.Eof
  | _ => False
  end.
Proof.
  split; [reflexivity|].
  pose proof (scanning_ends_with_Eof Sources.noFloat Sources.cutString eq_refl) as H.
  destruct (Scanner.tokens Sources.noFloat Sources.cutString) as [entries st'| |] eqn:E;
    [|vm_compute in E; discriminate..].
  destruct H as (Hr & _ & front & eof & Hf & He & _).
  split; [|split; [exact Hr|exists front, eof; split; assumption]].
  assert (Hm : match Scanner.tokens Sources.noFloat Sources.cutString with
               | Scanner.Done entries _ => map (fun entry => tok_type (fst entry)) entries
               | _ => []
               end
               = [TokenType.KwConst; TokenType.KwString; TokenType.Identifier;
                  TokenType.Equals; TokenType.StringLiteral; TokenType.Semicolon;
                  TokenType.Eof]) by (vm_compute; reflexivity).
  rewrite E in Hm. exact Hm.
Defined.

(** X6: [skipWhitespaceAndComments] goes over a part of the source and
    stops either at its end or in front of a character that is neither
    white space nor the start of a comment; its only diagnostic is
    [Unterminated block comment], reported at the end of the source, and
    the tokens looked ahead are as they were.  The scanner is then as many
    lines further as it has skipped line feeds, counted modulo 2^64 (a
    line feed skipped in line 2^64 - 1 leads to line 0), and in the same
    file. *)
Theorem skipping_stops_at_a_token (st : Scanner.State) :
  exists skipped,
    moves skipped st (Scanner.skipWhitespaceAndComments st) /\
    (Scanner.isAtEnd (Scanner.skipWhitespaceAndComments st) = true
     \/ atToken (Scanner.skipWhitespaceAndComments st) = true) /\
    unterminatedComment st (Scanner.skipWhitespaceAndComments st) /\
    Scanner.line_ (Scanner.skipWhitespaceAndComments st)
    = Position.lineAfter (Scanner.line_ st) (Position.lineFeeds skipped) /\
    Scanner.filename_ (Scanner.skipWhitespaceAndComments st) = Scanner.filename_ st.
Proof.
  destruct (skipLoop_moves (String.length (Scanner.rest st)) st (le_n _))
    as (skipped & Hm & Hstop & Hu).
  exists skipped. split; [exact Hm|]. split; [exact Hstop|]. split; [exact Hu|].
  destruct Hm as [_ Hloc _ _]. rewrite after_closed in Hloc.
  unfold Scanner.currentLocation in Hloc. cbn [filename line] in Hloc.
  inversion Hloc. split; reflexivity.
Qed.

(** X7: [peekToken] returns the token that the next [nextToken] returns,
    and that call leaves the lexer as it would be without the look
    ahead. *)
Theorem peek_then_next (stod : string -> Exception + float)
    (st : Scanner.State) (tok : Token) (st1 : Scanner.State) :
  Scanner.peekToken stod st = Scanner.Done tok st1 ->
  Scanner.nextToken stod st1 = Scanner.nextToken stod st /\
  exists st2, Scanner.nextToken stod st = Scanner.Done tok st2.
Proof.
  unfold Scanner.peekToken, Scanner.peekTokenAt. cbn [Scanner.fillLookahead].
  destruct (Scanner.lookahead_ st) as [|t behind] eqn:Hla; cbn [length Nat.leb].
  - destruct (Scanner.scan stod st) as [tok1 s1| |] eqn:Hscan; try discriminate.
    pose proof (scanned_lookahead _ _ _ (scan_scanned stod _ _ _ Hscan)) as Hla1.
    rewrite Hla in Hla1. cbn [Scanner.lookahead_]. rewrite Hla1. cbn [app length nth].
    intros H. inversion H; subst tok st1. unfold Scanner.nextToken.
    cbn [Scanner.lookahead_ Scanner.rest Scanner.filename_ Scanner.line_
         Scanner.column_ Scanner.errors_].
    rewrite Hla, Hscan. split; [|eexists; reflexivity].
    destruct s1; cbn in *. rewrite Hla1. reflexivity.
  - intros H. inversion H; subst st1. rewrite Hla. cbn [nth].
    split; [reflexivity|]. unfold Scanner.nextToken. rewrite Hla. eexists. reflexivity.
Qed.

(** Looking ahead at [const] in [Sources.cutString]. *)
Lemma peek_then_next_witness :
  let tok := mkToken TokenType.KwConst NoValue "const" (mkLoc "a.idl" 1 9) in
  exists st1,
    Scanner.peekToken Sources.noFloat Sources.cutString = Scanner.Done tok st1 /\
    Scanner.lookahead_ st1 = [tok] /\
    Scanner.nextToken Sources.noFloat st1
    = Scanner.nextToken Sources.noFloat Sources.cutString.
Proof.
  intros tok.
  destruct (Scanner.peekToken Sources.noFloat Sources.cutString) as [tok' st1| |] eqn:H;
    [|vm_compute in H; discriminate..].
  assert (Htok : tok' = tok) by (subst tok; vm_compute in H; inversion H; reflexivity).
  assert (Hla : Scanner.lookahead_ st1 = [tok])
    by (subst tok; vm_compute in H; inversion H; reflexivity).
  subst tok'. exists st1. split; [reflexivity|]. split; [exact Hla|].
  exact (proj1 (peek_then_next Sources.noFloat Sources.cutString tok st1 H)).
Defined.

(** X8: the keywords and their names.  The name that [tokenTypeToString]
    gives to the type of a keyword token (a token for which [isKeyword]
    holds) is a key of the keyword table, and the table maps it back to
    that type; every key of the table is such a name, or one of the
    lower-case [true] and [false], which stand for the same tokens as
    [TRUE] and [FALSE].  The names are those of the function
    [tokenTypeToString], called on the type of the token. *)
Theorem keyword_names_round_trip (tok : Token) :
  TokenKind.isKeyword tok = true ->
  Scanner.lookupKeyword (TokenKind.tokenTypeToString (tok_type tok))
  = Some (tok_type tok) /\
  (forall name type,
     Scanner.lookupKeyword name = Some type ->
     TokenKind.isKeyword (mkToken type NoValue name defaultLoc) = true /\
     (name = TokenKind.tokenTypeToString type
      \/ (name = "true" /\ type = TokenType.KwTrue)
      \/ (name = "false" /\ type = TokenType.KwFalse))).
Proof.
  intros Hk. split.
  - unfold TokenKind.isKeyword in Hk.
    destruct (tok_type tok); vm_compute in Hk; try discriminate Hk; reflexivity.
  - intros name type H. split.
    + pose proof (lookupKeyword_range _ _ H) as Hr.
      unfold TokenKind.isKeyword. cbn [tok_type].
      apply andb_true_iff. split; apply Z.leb_le; cbn; lia.
    + unfold Scanner.lookupKeyword in H.
      destruct (find _ Scanner.keywords) as [entry|] eqn:Hf; [|discriminate].
      cbn [option_map] in H. inversion H; subst type.
      apply find_some in Hf. destruct Hf as [Hin Heq].
      apply String.eqb_eq in Heq. subst name.
      assert (Hall : Forall (fun e =>
                fst e = TokenKind.tokenTypeToString (snd e)
                \/ (fst e = "true" /\ snd e = TokenType.KwTrue)
                \/ (fst e = "false" /\ snd e = TokenType.KwFalse)) Scanner.keywords).
      { unfold Scanner.keywords.
        repeat (apply Forall_cons_2; [cbn; auto|]). apply Forall_nil_2. }
      rewrite Forall_forall in Hall. apply Hall. apply list_elem_of_In. exact Hin.
Qed.

(** The keyword [Object]. *)
Lemma keyword_names_round_trip_witness :
  let tok := mkToken TokenType.KwObject NoValue "Object" defaultLoc in
  TokenKind.isKeyword tok = true /\
  Scanner.lookupKeyword "Object" = Some TokenType.KwObject.
Proof.
  intros tok. split; [reflexivity|].
  exact (proj1 (keyword_names_round_trip tok eq_refl)).
Defined.

(** ** Decimal literals *)

Lemma digitsValue_uint (d : Decimal.uint) : forall acc,
  Conversion.digitsValue 10 acc (NilEmpty.string_of_uint d) = digitsOf d acc.
Proof.
  induction d; intros acc; cbn [NilEmpty.string_of_uint Conversion.digitsValue digitsOf];
    [reflexivity|..];
    (match goal with
     | |- context [Conversion.digitOf 10 ?c] =>
         change (Conversion.digitOf 10 c) with (Some (Z.of_nat (nat_of_ascii c) - 48)%Z)
     end; cbv beta iota; rewrite IHd; f_equal;
     match goal with
     | |- context [Z.of_nat ?e] =>
         let v := eval vm_compute in (Z.of_nat e) in change (Z.of_nat e) with v
     end; lia).
Qed.

Lemma of_uint_acc_digits (d : Decimal.uint) : forall acc,
  Z.pos (Pos.of_uint_acc d acc) = digitsOf d (Z.pos acc).
Proof.
  induction d; intros acc; cbn [Pos.of_uint_acc digitsOf]; [reflexivity|..];
    rewrite IHd; f_equal; lia.
Qed.

Lemma of_uint_digits (d : Decimal.uint) :
  Z.of_N (Pos.of_uint d) = digitsOf d 0.
Proof.
  induction d; cbn [Pos.of_uint digitsOf]; [reflexivity|exact IHd|..];
    cbn [Z.of_N]; rewrite of_uint_acc_digits; reflexivity.
Qed.

Lemma string_of_uint_digits (d : Decimal.uint) :
  Names.allChars Scanner.isDigit (NilEmpty.string_of_uint d) = true.
Proof.
  induction d; cbn [NilEmpty.string_of_uint Names.allChars]; [reflexivity|..];
    rewrite IHd; reflexivity.
Qed.

Lemma nzhead_head (d : Decimal.uint) :
  match Decimal.nzhead d with Decimal.D0 _ => False | _ => True end.
Proof. induction d; cbn [Decimal.nzhead]; try exact I. exact IHd. Qed.

Lemma to_uint_head (p : positive) :
  match Pos.to_uint p with Decimal.D0 _ | Decimal.Nil => False | _ => True end.
Proof.
  pose proof (DecimalN.Unsigned.to_of (Pos.to_uint p)) as H.
  change (N.of_uint (Pos.to_uint p)) with (Pos.of_uint (Pos.to_uint p)) in H.
  rewrite DecimalPos.Unsigned.of_to in H. cbn [N.to_uint] in H.
  pose proof (DecimalPos.Unsigned.to_uint_nonzero p) as Hnz.
  pose proof (nzhead_head (Pos.to_uint p)) as Hh.
  unfold Decimal.unorm in H.
  destruct (Decimal.nzhead (Pos.to_uint p)) eqn:E; rewrite H in *;
    try exact I; try contradiction; congruence.
Qed.

(** [std::to_string] of a positive number: digits, the first of which is
    no zero, that denote the number. *)
Lemma to_string_pos (p : positive) :
  exists c digits,
    to_string (Z.pos p) = String c digits /\
    Ascii.eqb c "0" = false /\ Scanner.isDigit c = true /\
    Names.allChars Scanner.isDigit digits = true /\
    Conversion.digitsValue 10 0 (to_string (Z.pos p)) = Z.pos p.
Proof.
  unfold to_string. cbn [Z.to_int NilZero.string_of_int].
  pose proof (to_uint_head p) as Hh.
  pose proof (string_of_uint_digits (Pos.to_uint p)) as Hd.
  assert (Hv : Conversion.digitsValue 10 0 (NilEmpty.string_of_uint (Pos.to_uint p))
               = Z.pos p).
  { rewrite digitsValue_uint, <- of_uint_digits, DecimalPos.Unsigned.of_to. reflexivity. }
  unfold NilZero.string_of_uint.
  destruct (Pos.to_uint p) as [|d|d|d|d|d|d|d|d|d|d]; try contradiction;
    cbn [NilEmpty.string_of_uint Names.allChars] in *;
    do 2 eexists; (split; [reflexivity|]); repeat split; try reflexivity;
    try exact Hv; apply andb_true_iff in Hd; destruct Hd as [_ Hd]; exact Hd.
Qed.

Lemma endsNumber_peek st tail :
  Scanner.rest st = tail -> endsNumber tail = true ->
  Scanner.isDigit (Scanner.peek st) = false /\
  Forall (fun c => Ascii.eqb (Scanner.peek st) c = false)
    ["."; "e"; "E"; "f"; "F"; "d"; "D"; "x"; "X"]%char /\
  stopsAt Scanner.isDigit tail = true.
Proof.
  intros Hr He. unfold Scanner.peek. rewrite Hr.
  destruct tail as [|c tail].
  - split; [reflexivity|]. split; [|reflexivity]. repeat constructor.
  - cbn [endsNumber] in He. apply negb_true_iff in He.
    apply orb_false_iff in He. destruct He as [Hd He].
    cbn [existsb] in He.
    repeat match type of He with
           | (_ || _) = false => apply orb_false_iff in He; destruct He as [? He]
           end.
    split; [exact Hd|]. split; [|cbn [stopsAt]; rewrite Hd; reflexivity].
    repeat (apply Forall_cons_2; [assumption|]). apply Forall_nil_2.
Qed.

Lemma scanDecimal_digits text st digits tail :
  Scanner.rest st = digits +:+ tail ->
  Names.allChars Scanner.isDigit digits = true ->
  endsNumber tail = true ->
  exists st',
    Scanner.scanDecimal text st = (text +:+ digits, false, st') /\
    moves digits st st' /\ Scanner.rest st' = tail /\
    Scanner.errors_ st' = Scanner.errors_ st.
Proof.
  intros Hr Hd He. unfold Scanner.scanDecimal.
  destruct (Scanner.takeWhile Scanner.isDigit text st) as [t1 s1] eqn:E1.
  destruct (takeWhile_eq _ _ _ _ _ E1) as (run & T & M & Er & Hspan).
  destruct (endsNumber_peek s1 tail) as (P1 & P2 & P3).
  { rewrite Hr in Hspan.
    assert (Hs : stopsAt Scanner.isDigit tail = true).
    { destruct tail as [|c tail]; [reflexivity|].
      cbn [endsNumber] in He. apply negb_true_iff in He.
      apply orb_false_iff in He. destruct He as [Hc _]. cbn [stopsAt]. rewrite Hc.
      reflexivity. }
    rewrite (span_exact _ _ _ Hd Hs) in Hspan. congruence. }
  { exact He. }
  rewrite Hr, (span_exact _ _ _ Hd P3) in Hspan.
  injection Hspan as Hrun Hrest. subst run.
  rewrite !Forall_cons in P2.
  destruct P2 as (Q1 & Q2 & Q3 & Q4 & Q5 & Q6 & Q7 & _).
  rewrite Q1. cbn [andb]. rewrite Q2, Q3. cbn [orb].
  unfold Scanner.takeIf. rewrite Q4, Q5, Q6, Q7. cbn [orb].
  exists s1. split; [rewrite T; reflexivity|]. split; [exact M|].
  split; [symmetry; exact Hrest|exact Er].
Qed.

(** X9: decimal literals and [std::to_string].  In front of the decimal
    text of a number [n] that is not negative, which no digit, point,
    exponent, suffix or [x] follows, [nextToken] returns an
    [IntegerLiteral] of value [n] whose text is that text, as long as [n]
    is at most 2^63 - 1, and leaves the scanner behind the text without a
    diagnostic; for a greater [n], [std::stoll] throws
    [std::out_of_range] and no token is returned. *)
Theorem decimal_literal_round_trip (stod : string -> Exception + float)
    (st : Scanner.State) (n : Z) (tail : string) :
  Scanner.lookahead_ st = [] ->
  (0 <= n)%Z ->
  Scanner.rest st = to_string n +:+ tail ->
  endsNumber tail = true ->
  if (n <=? 2 ^ 63 - 1)%Z
  then
    exists st',
      Scanner.nextToken stod st
      = Scanner.Done
          (mkToken TokenType.IntegerLiteral (IntValue n) (to_string n)
             (Scanner.currentLocation st)) st' /\
      Scanner.rest st' = tail /\
      Scanner.errors_ st' = Scanner.errors_ st
  else Scanner.nextToken stod st = Scanner.Throws (OutOfRange "stoll").
Proof.
  intros Hla Hn Hr He.
  rewrite (nextToken_scanToken stod st Hla). cbn [Scanner.scanToken].
  destruct n as [|p|p]; [| |lia].
  - change (to_string 0) with "0" in *. rewrite append_cons in Hr.
    change ("" +:+ tail) with tail in Hr.
    rewrite (skip_atToken st (atToken_first st _ _ Hr eq_refl eq_refl)).
    assert (Hend : Scanner.isAtEnd st = false)
      by (unfold Scanner.isAtEnd; rewrite Hr; reflexivity).
    pose proof (peek_rest _ _ _ Hr) as Hp.
    rewrite Hend, Hp. cbn [Ascii.eqb Bool.eqb]. cbv iota.
    change (Scanner.isIdentifierStart "0") with false.
    change (Scanner.isDigit "0") with true. cbv iota.
    destruct (moves_advance st Hend) as (Hm & Hc & Hel). rewrite Hp in Hm, Hc.
    pose proof (moves_char_rest _ _ _ _ Hm Hr) as Hr1.
    destruct (endsNumber_peek _ tail Hr1 He) as (P1 & P2 & _).
    rewrite !Forall_cons in P2.
    destruct P2 as (_ & _ & _ & _ & _ & _ & _ & Q8 & Q9 & _).
    unfold Scanner.scanNumber, Scanner.scanPrefix. rewrite Hp.
    change (Ascii.eqb "0" "0") with true. cbv iota. rewrite Hc, Q8, Q9. cbn [orb].
    assert (Ho : Scanner.isOctalDigit (Scanner.peek (snd (Scanner.advance st))) = false).
    { revert P1. generalize (Scanner.peek (snd (Scanner.advance st))). intros c.
      ascii_cases c. }
    rewrite Ho. cbn [negb andb].
    destruct (scanDecimal_digits (Char.str "0") (snd (Scanner.advance st)) "" tail
                Hr1 eq_refl He) as (st' & Hsd & M & R & E).
    rewrite Hsd. cbn [negb andb].
    eexists. split; [reflexivity|]. split; [exact R|congruence].
  - destruct (to_string_pos p) as (c & digits & Hs & Hc0 & Hcd & Hds & Hv).
    rewrite Hs in Hr. rewrite append_cons in Hr.
    assert (Hclass : Scanner.isBlank c = false /\ Ascii.eqb c "/" = false /\
                     Ascii.eqb c "#" = false /\ Scanner.isIdentifierStart c = false).
    { revert Hcd. clear. ascii_cases c. }
    destruct Hclass as (C1 & C2 & C3 & C4).
    rewrite (skip_atToken st (atToken_first st _ _ Hr C1 C2)).
    assert (Hend : Scanner.isAtEnd st = false)
      by (unfold Scanner.isAtEnd; rewrite Hr; reflexivity).
    pose proof (peek_rest _ _ _ Hr) as Hp.
    rewrite Hend, Hp, C3, C4, Hcd.
    unfold Scanner.scanNumber, Scanner.scanPrefix. rewrite Hp, Hc0.
    cbn [negb andb].
    assert (Hall : Names.allChars Scanner.isDigit (String c digits) = true).
    { cbn [Names.allChars]. rewrite Hcd, Hds. reflexivity. }
    rewrite <- append_cons in Hr.
    destruct (scanDecimal_digits "" st (String c digits) tail Hr Hall He)
      as (st' & Hsd & M & R & E).
    rewrite Hsd. change ("" +:+ String c digits) with (String c digits).
    unfold Conversion.stoll, Conversion.convert.
    assert (Hsub : Conversion.subject 10 (String c digits) = String c digits).
    { unfold Conversion.subject. destruct digits as [|x [|h digits]]; reflexivity. }
    rewrite Hsub.
    assert (Hdig : exists d, Conversion.digitOf 10 c = Some d).
    { revert Hcd. clear. ascii_cases c; eexists; reflexivity. }
    destruct Hdig as [d Hdig]. rewrite Hdig. rewrite <- Hs, Hv.
    destruct (Z.pos p <=? 2 ^ 63 - 1)%Z; [|reflexivity].
    eexists. split; [reflexivity|]. split; [exact R|exact E].
Qed.

(** [12] in [  longer = 12 ;]. *)
Lemma decimal_literal_round_trip_witness :
  let st := Nat.iter 11 (fun st => snd (Scanner.advance st)) Sources.assignment in
  (Scanner.lookahead_ st = [] /\ (0 <= 12)%Z /\
   Scanner.rest st = to_string 12 +:+ " ;" /\ endsNumber " ;" = true) /\
  exists st',
    Scanner.nextToken Sources.noFloat st
    = Scanner.Done
        (mkToken TokenType.IntegerLiteral (IntValue 12) "12" (mkLoc "a.idl" 1 12)) st' /\
    Scanner.rest st' = " ;".
Proof.
  intros st.
  assert (H1 : Scanner.lookahead_ st = []) by reflexivity.
  assert (H2 : (0 <= 12)%Z) by lia.
  assert (H3 : Scanner.rest st = to_string 12 +:+ " ;") by reflexivity.
  assert (H4 : endsNumber " ;" = true) by reflexivity.
  split; [repeat split; assumption|].
  pose proof (decimal_literal_round_trip Sources.noFloat st 12 " ;" H1 H2 H3 H4) as H.
  change (12 <=? 2 ^ 63 - 1)%Z with true in H. cbv iota in H.
  destruct H as (st' & Hn & Hr & _). exists st'. split; [exact Hn|exact Hr].
Defined.

(** ** Line markers *)

Lemma to_string_digits (n : Z) :
  (0 <= n)%Z ->
  exists c digits,
    to_string n = String c digits /\ Scanner.isDigit c = true /\
    Names.allChars Scanner.isDigit digits = true /\
    Conversion.digitsValue 10 0 (to_string n) = n.
Proof.
  intros Hn. destruct n as [|p|p]; [| |lia].
  - exists "0"%char, "". repeat split; reflexivity.
  - destruct (to_string_pos p) as (c & digits & H1 & _ & H2 & H3 & H4).
    exists c, digits. repeat split; assumption.
Qed.

Lemma splitDigits_span (s : string) : Scanner.splitDigits s = span Scanner.isDigit s.
Proof.
  induction s as [|c s IH]; [reflexivity|].
  cbn [Scanner.splitDigits span]. rewrite IH. reflexivity.
Qed.

Lemma subject_decimal (str : string) : Conversion.subject 10 str = str.
Proof. destruct str as [|z [|x [|h r]]]; reflexivity. Qed.

Lemma digitOf_digit (c : ascii) :
  Scanner.isDigit c = true -> exists d, Conversion.digitOf 10 c = Some d.
Proof.
  destruct c as [[] [] [] [] [] [] [] []]; vm_compute; intros H;
    first [discriminate H|eexists; reflexivity].
Qed.

Lemma stoull_to_string (n : Z) :
  (0 <= n <= 2 ^ 64 - 1)%Z -> Conversion.stoull (to_string n) = inr n.
Proof.
  intros [H0 H1]. destruct (to_string_digits n H0) as (c & digits & Hs & Hc & _ & Hv).
  unfold Conversion.stoull, Conversion.convert. rewrite subject_decimal.
  rewrite Hs. destruct (digitOf_digit c Hc) as [d Hd]. rewrite Hd.
  cbv zeta. rewrite <- Hs, Hv.
  destruct (Z.leb_spec n (2 ^ 64 - 1)); [reflexivity|lia].
Qed.

Lemma beforeQuote_name (name tail : string) :
  Names.allChars Sources.nameChar name = true ->
  Scanner.beforeQuote (name +:+ Sources.quote +:+ tail) = Some name.
Proof.
  induction name as [|c name IH]; intros H; [reflexivity|].
  cbn [Names.allChars] in H. apply andb_true_iff in H. destruct H as [Hc Hn].
  rewrite append_cons. cbn [Scanner.beforeQuote].
  unfold Sources.nameChar in Hc. apply andb_true_iff in Hc. destruct Hc as [Hq _].
  apply negb_true_iff in Hq. rewrite Hq, (IH Hn). reflexivity.
Qed.

Lemma nameChar_notLineEnd (name : string) :
  Names.allChars Sources.nameChar name = true ->
  Names.allChars Scanner.notLineEnd name = true.
Proof.
  induction name as [|c name IH]; [reflexivity|].
  cbn [Names.allChars]. intros H. apply andb_true_iff in H. destruct H as [Hc Hn].
  unfold Sources.nameChar in Hc. apply andb_true_iff in Hc. destruct Hc as [_ Hl].
  rewrite (IH Hn). unfold Scanner.notLineEnd. rewrite Hl. reflexivity.
Qed.

Lemma digits_notLineEnd (digits : string) :
  Names.allChars Scanner.isDigit digits = true ->
  Names.allChars Scanner.notLineEnd digits = true.
Proof.
  induction digits as [|c digits IH]; [reflexivity|].
  cbn [Names.allChars]. intros H. apply andb_true_iff in H. destruct H as [Hc Hd].
  rewrite (IH Hd), andb_true_r.
  revert Hc. clear. ascii_cases c.
Qed.

Lemma allChars_app (test : ascii -> bool) (a b : string) :
  Names.allChars test (a +:+ b) = Names.allChars test a && Names.allChars test b.
Proof.
  induction a as [|c a IH]; [reflexivity|].
  rewrite append_cons. cbn [Names.allChars]. rewrite IH, andb_assoc. reflexivity.
Qed.

(** X10: a line marker sets the file and the line of the marker itself.
    In front of a marker [# n "name"] or [#line n "name"] that a line
    feed ends, with [n] below 2^64 and [name] without a double quote,
    [nextToken] returns the marker as a [LineDirective] token and leaves
    the scanner in front of the line feed with the file name [name] and
    the line number [n]; the line feed then counts as any other, so that
    the first character of the line behind the marker is at column 1 of
    [name] in the line after [n]: line [n + 1] for every [n] below
    2^64 - 1, and line 0 for [n] = 2^64 - 1, where [++line_] wraps
    around. *)
Theorem line_marker_numbers_its_own_line (stod : string -> Exception + float)
    (st : Scanner.State) (directive : string) (n : Z) (name tail : string) :
  Scanner.lookahead_ st = [] ->
  directive = "# " \/ directive = "#line " ->
  (0 <= n <= 2 ^ 64 - 1)%Z ->
  Names.allChars Sources.nameChar name = true ->
  Scanner.rest st = Sources.marker directive n name +:+ Sources.lf +:+ tail ->
  exists st',
    Scanner.nextToken stod st
    = Scanner.Done
        (mkToken TokenType.LineDirective
           (StringValue (Sources.marker directive n name))
           (Sources.marker directive n name) (Scanner.currentLocation st)) st' /\
    Scanner.rest st' = Sources.lf +:+ tail /\
    Scanner.filename_ st' = name /\
    Scanner.line_ st' = n /\
    Scanner.errors_ st' = Scanner.errors_ st /\
    Scanner.currentLocation (snd (Scanner.advance st'))
    = mkLoc name (if (n =? 2 ^ 64 - 1)%Z then 0 else n + 1) 1.
Proof.
  intros Hla Hdir Hn Hname Hr.
  destruct (to_string_digits n (proj1 Hn)) as (c & digits & Hs & Hc & Hd & _).
  set (behind := " " +:+ Sources.quote +:+ name +:+ Sources.quote) in *.
  assert (Hm : Sources.marker directive n name
               = directive +:+ String c (digits +:+ behind)).
  { unfold Sources.marker. rewrite Hs. reflexivity. }
  assert (Hcl : Scanner.notLineEnd c = true) by (revert Hc; clear; ascii_cases c).
  assert (Hbehind : Names.allChars Scanner.notLineEnd (String c (digits +:+ behind))
                    = true).
  { cbn [Names.allChars]. rewrite Hcl. cbn [andb]. unfold behind.
    rewrite !allChars_app, (digits_notLineEnd _ Hd), (nameChar_notLineEnd _ Hname).
    reflexivity. }
  assert (Hline : Names.allChars Scanner.notLineEnd (Sources.marker directive n name)
                  = true).
  { rewrite Hm, allChars_app, Hbehind.
    destruct Hdir as [-> | ->]; reflexivity. }
  assert (Hfrom : Scanner.fromFirstDigit (Sources.marker directive n name)
                  = Some (String c digits +:+ behind)).
  { rewrite Hm.
    destruct Hdir as [-> | ->]; rewrite !append_cons;
      change ("" +:+ String c (digits +:+ behind)) with (String c (digits +:+ behind));
      cbn [Scanner.fromFirstDigit];
      change (Scanner.isDigit "#") with false;
      change (Scanner.isDigit " ") with false;
      try (change (Scanner.isDigit "l") with false;
           change (Scanner.isDigit "i") with false;
           change (Scanner.isDigit "n") with false;
           change (Scanner.isDigit "e") with false);
      cbv iota; rewrite Hc; reflexivity. }
  assert (Hfirst : exists r, Scanner.rest st = String "#" r /\
            (Text.startsWith "#line" (Scanner.rest st)
             || (Text.startsWith "# " (Scanner.rest st)
                 && Scanner.isDigit (Scanner.peekAt 2 st)) = true)).
  { rewrite Hr, Hm. unfold Scanner.peekAt. rewrite Hr, Hm.
    destruct Hdir as [-> | ->]; eexists; (split; [reflexivity|]); cbn.
    - exact Hc.
    - reflexivity. }
  destruct Hfirst as (r & Hr' & Hcond).
  rewrite (nextToken_scanToken stod st Hla). cbn [Scanner.scanToken].
  rewrite (skip_atToken st (atToken_first st _ _ Hr' eq_refl eq_refl)).
  assert (Hend : Scanner.isAtEnd st = false)
    by (unfold Scanner.isAtEnd; rewrite Hr'; reflexivity).
  rewrite Hend, (peek_rest _ _ _ Hr').
  change (Ascii.eqb "#" "#") with true. cbv iota.
  rewrite Hcond.
  unfold Scanner.scanLineDirective.
  destruct (Scanner.takeWhile Scanner.notLineEnd "" st) as [text st1] eqn:Etw.
  destruct (takeWhile_eq _ _ _ _ _ Etw) as (run & Htext & Hmoves & Herrs & Hspan).
  rewrite Hr in Hspan.
  rewrite (span_exact Scanner.notLineEnd _ (Sources.lf +:+ tail) Hline eq_refl) in Hspan.
  inversion Hspan as [[Hrun Hrest]]. subst run.
  change ("" +:+ Sources.marker directive n name)
    with (Sources.marker directive n name) in Htext.
  subst text.
  rewrite Hfrom. rewrite splitDigits_span.
  rewrite (span_exact Scanner.isDigit (String c digits) behind);
    [|cbn [Names.allChars]; rewrite Hc, Hd; reflexivity|reflexivity].
  rewrite <- Hs, (stoull_to_string n Hn).
  assert (Hfile : Scanner.afterQuote behind = Some (name +:+ Sources.quote +:+ "")).
  { unfold behind. rewrite append_empty_r. reflexivity. }
  assert (Hb : forall (A : Type) (x y : A),
            match behind with EmptyString => x | String _ _ => y end = y)
    by reflexivity.
  rewrite Hb, Hfile, (beforeQuote_name name "" Hname).
  eexists. split; [reflexivity|].
  cbn [Scanner.rest Scanner.filename_ Scanner.line_ Scanner.errors_].
  split; [reflexivity|]. split; [reflexivity|]. split; [reflexivity|].
  split; [exact Herrs|].
  transitivity (mkLoc name (to_size_t (n + 1)) 1); [reflexivity|].
  f_equal. unfold to_size_t.
  destruct (Z.eqb_spec n (2 ^ 64 - 1)) as [E|Hne]; [rewrite E; reflexivity|].
  apply Z.mod_small. lia.
Qed.

(** [# 12 "shapes.idl"], a line feed and [module]: the marker is at line
    1, and [module], the first token of line 12 of [shapes.idl], is
    reported at line 13.  What [preprocessString] writes in front of a
    text, [#line 1 "shapes.idl"], puts the first line of the text at line
    2.  Behind [# 18446744073709551615 "shapes.idl"], [module] is reported
    at line 0. *)
Lemma line_marker_numbers_its_own_line_witness :
  let st := Scanner.new
              (Sources.marker "# " 12 "shapes.idl" +:+ Sources.lf +:+ "module")
              "out.i" in
  let st1 := Scanner.new
               (Sources.marker "#line " 1 "shapes.idl" +:+ Sources.lf +:+ "module")
               "temp.idl" in
  let st2 := Scanner.new
               (Sources.marker "# " (2 ^ 64 - 1) "shapes.idl" +:+ Sources.lf
                +:+ "module")
               "out.i" in
  (Scanner.lookahead_ st = [] /\ (0 <= 12 <= 2 ^ 64 - 1)%Z /\
   Names.allChars Sources.nameChar "shapes.idl" = true) /\
  (exists st',
     Scanner.nextToken Sources.noFloat st
     = Scanner.Done
         (mkToken TokenType.LineDirective
            (StringValue (Sources.marker "# " 12 "shapes.idl"))
            (Sources.marker "# " 12 "shapes.idl") (mkLoc "out.i" 1 1)) st' /\
     Scanner.currentLocation (snd (Scanner.advance st')) = mkLoc "shapes.idl" 13 1 /\
     exists st'',
       Scanner.nextToken Sources.noFloat st'
       = Scanner.Done
           (mkToken TokenType.KwModule NoValue "module" (mkLoc "shapes.idl" 13 1))
           st'') /\
  (exists st',
     Scanner.nextToken Sources.noFloat st1
     = Scanner.Done
         (mkToken TokenType.LineDirective
            (StringValue (Sources.marker "#line " 1 "shapes.idl"))
            (Sources.marker "#line " 1 "shapes.idl") (mkLoc "temp.idl" 1 1)) st' /\
     Scanner.currentLocation (snd (Scanner.advance st')) = mkLoc "shapes.idl" 2 1) /\
  (exists st',
     Scanner.nextToken Sources.noFloat st2
     = Scanner.Done
         (mkToken TokenType.LineDirective
            (StringValue (Sources.marker "# " (2 ^ 64 - 1) "shapes.idl"))
            (Sources.marker "# " (2 ^ 64 - 1) "shapes.idl") (mkLoc "out.i" 1 1)) st' /\
     Scanner.line_ st' = (2 ^ 64 - 1)%Z /\
     Scanner.currentLocation (snd (Scanner.advance st')) = mkLoc "shapes.idl" 0 1 /\
     exists st'',
       Scanner.nextToken Sources.noFloat st'
       = Scanner.Done
           (mkToken TokenType.KwModule NoValue "module" (mkLoc "shapes.idl" 0 1))
           st'').
Proof.
  intros st st1 st2.
  assert (H1 : Scanner.lookahead_ st = []) by reflexivity.
  assert (H2 : (0 <= 12 <= 2 ^ 64 - 1)%Z) by lia.
  assert (H3 : Names.allChars Sources.nameChar "shapes.idl" = true) by reflexivity.
  split; [split; [exact H1|split; [exact H2|exact H3]]|].
  split; [|split].
  - destruct (line_marker_numbers_its_own_line Sources.noFloat st "# " 12 "shapes.idl"
                "module" H1 (or_introl eq_refl) H2 H3 eq_refl)
      as (st' & Hn & Hr & Hf & Hl & He & Hloc).
    exists st'. split; [exact Hn|]. split; [exact Hloc|].
    assert (Hst : Some st' = match Scanner.nextToken Sources.noFloat st with
                             | Scanner.Done _ s => Some s | _ => None end)
      by (rewrite Hn; reflexivity).
    vm_compute in Hst. inversion Hst as [Hst']. clear Hst.
    eexists. vm_compute. reflexivity.
  - assert (H4 : (0 <= 1 <= 2 ^ 64 - 1)%Z) by lia.
    destruct (line_marker_numbers_its_own_line Sources.noFloat st1 "#line " 1
                "shapes.idl" "module" eq_refl (or_intror eq_refl) H4 H3 eq_refl)
      as (st' & Hn & Hr & Hf & Hl & He & Hloc).
    exists st'. split; [exact Hn|exact Hloc].
  - assert (H5 : (0 <= 2 ^ 64 - 1 <= 2 ^ 64 - 1)%Z) by lia.
    destruct (line_marker_numbers_its_own_line Sources.noFloat st2 "# " (2 ^ 64 - 1)
                "shapes.idl" "module" eq_refl (or_introl eq_refl) H5 H3 eq_refl)
      as (st' & Hn & Hr & Hf & Hl & He & Hloc).
    exists st'. split; [exact Hn|]. split; [exact Hl|]. split; [exact Hloc|].
    assert (Hst : Some st' = match Scanner.nextToken Sources.noFloat st2 with
                             | Scanner.Done _ s => Some s | _ => None end)
      by (rewrite Hn; reflexivity).
    vm_compute in Hst. inversion Hst as [Hst']. clear Hst.
    eexists. vm_compute. reflexivity.
Defined.

(* ================================================================== *)
(** * Further properties of the parser, the symbol table and the generator *)
(* ================================================================== *)

(** ** The loop of [parse] *)

Lemma stray_checks p :
  Stray.stray p = true ->
  Parser.check TokenType.Eof p = false /\
  Parser.check TokenType.LineDirective p = false /\
  Parser.isDefinitionStart p = false /\
  (Parser.check_type TokenType.Semicolon (previousToken_ p) = true
   \/ (Parser.check_type TokenType.Semicolon (previousToken_ p) = false /\
       Parser.check_type TokenType.RightBrace (previousToken_ p) = true /\
       Parser.check TokenType.Semicolon p = false)).
Proof.
  unfold Stray.stray. intros H.
  apply andb_true_iff in H. destruct H as [H H4].
  apply andb_true_iff in H. destruct H as [H H3].
  apply andb_true_iff in H. destruct H as [H1 H2].
  apply negb_true_iff in H2, H3, H4.
  split; [exact H2|]. split; [exact H3|]. split; [exact H4|].
  destruct (Parser.check_type TokenType.Semicolon (previousToken_ p)); [left; reflexivity|].
  right. cbn [orb] in H1. apply andb_true_iff in H1. destruct H1 as [Ha Hb].
  apply negb_true_iff in Hb. repeat split; assumption.
Qed.

Lemma not_definitionStart p type :
  Parser.isDefinitionStart p = false ->
  type ∈ definitionOpeners ->
  Parser.check_type type (currentToken_ p) = false.
Proof.
  intros H Hin. rewrite isDefinitionStart_openers in H.
  apply bool_decide_eq_false in H. unfold Parser.check_type.
  apply bool_decide_eq_false. intros E. apply H. rewrite E. exact Hin.
Qed.

Lemma parseDefinition_stray fuel p :
  Parser.isDefinitionStart p = false ->
  Parser.parseDefinition (S fuel) p = Ret None (Parser.error Stray.expected p).
Proof.
  intros Hd.
  assert (Hc : forall type, type ∈ definitionOpeners ->
                 Parser.check_type type (currentToken_ p) = false).
  { intros type. apply not_definitionStart. exact Hd. }
  cbn [Parser.parseDefinition]. unfold Parser.parseDefinitionBody.
  rewrite bind_match_false by (apply Hc; set_solver).
  rewrite bind_match_false by (apply Hc; set_solver).
  rewrite bind_ask.
  rewrite !Hc by set_solver. cbn [orb].
  unfold ret at 1. unfold bind at 1.
  rewrite bind_act. reflexivity.
Qed.

Lemma error_tokens msg p :
  currentToken_ (Parser.error msg p) = currentToken_ p /\
  previousToken_ (Parser.error msg p) = previousToken_ p /\
  lexer_ (Parser.error msg p) = lexer_ p /\
  symbolTable_ (Parser.error msg p) = symbolTable_ p.
Proof.
  unfold Parser.error, Parser.errorAt.
  destruct (panicMode_ p); repeat split; reflexivity.
Qed.

Lemma synchronize_stray p :
  Stray.stray p = true ->
  Stray.retry p = calm (Parser.error Stray.expected p).
Proof.
  intros Hs. destruct (stray_checks p Hs) as (H1 & H2 & H3 & H4).
  destruct (error_tokens Stray.expected p) as (E1 & E2 & _).
  unfold Stray.retry, Parser.synchronize. cbn [Parser.synchronizeLoop].
  fold (calm (Parser.error Stray.expected p)).
  unfold Parser.check, Parser.isDefinitionStart in *.
  cbn [calm currentToken_ previousToken_]. rewrite E1, E2, H1.
  destruct H4 as [H4|(H4 & H5 & H6)].
  - rewrite H4. reflexivity.
  - rewrite H4, H5, H6. reflexivity.
Qed.

Lemma stray_retry p : Stray.stray p = true -> Stray.stray (Stray.retry p) = true.
Proof.
  intros Hs. rewrite (synchronize_stray p Hs).
  destruct (error_tokens Stray.expected p) as (E1 & E2 & _).
  unfold Stray.stray, Parser.check, Parser.isDefinitionStart in *.
  cbn [calm currentToken_ previousToken_]. rewrite E1, E2. exact Hs.
Qed.

Lemma parseLoop_stray (fuel : nat) : forall definitions p,
  Stray.stray p = true -> Parser.parseLoop fuel definitions p = OutOfFuel.
Proof.
  induction fuel as [|fuel IH]; intros definitions p Hs; [reflexivity|].
  destruct (stray_checks p Hs) as (H1 & H2 & H3 & _).
  cbn [Parser.parseLoop]. rewrite bind_ask.
  unfold Parser.check in H1, H2. rewrite H1, H2. cbn [negb].
  destruct fuel as [|fuel]; [reflexivity|].
  unfold bind at 1. rewrite (parseDefinition_stray fuel p H3).
  rewrite bind_act. fold (Stray.retry p).
  apply IH. apply stray_retry. exact Hs.
Qed.

(** X11: the loop of [parse] does not end in front of a stray token.
    When the parser is behind a [;] (or behind a [}] that no [;] follows)
    and in front of a token that is not the end of input, no line
    directive and opens no definition, [parseDefinition] reports
    [Expected definition] and returns null without taking the token, and
    [synchronize] returns at once, since the previous token is a [;] or a
    [}]: the parser is as before, with panic mode off and, unless it was
    in panic mode, one diagnostic more.  It is again in front of the stray
    token, so [parse] never returns, whatever the fuel. *)
Theorem parse_does_not_end_at_a_stray_token (p : Parser) :
  Stray.stray p = true ->
  (forall fuel, Parser.parseDefinition (S fuel) p
                = Ret None (Parser.error Stray.expected p)) /\
  Stray.retry p = calm (Parser.error Stray.expected p) /\
  currentToken_ (Stray.retry p) = currentToken_ p /\
  previousToken_ (Stray.retry p) = previousToken_ p /\
  lexer_ (Stray.retry p) = lexer_ p /\
  panicMode_ (Stray.retry p) = false /\
  (panicMode_ p = false -> length (errors_ (Stray.retry p)) = S (length (errors_ p))) /\
  Stray.stray (Stray.retry p) = true /\
  (forall fuel definitions, Parser.parseLoop fuel definitions p = OutOfFuel) /\
  (forall fuel, Parser.parse fuel p = OutOfFuel).
Proof.
  intros Hs. destruct (stray_checks p Hs) as (_ & _ & H3 & _).
  destruct (error_tokens Stray.expected p) as (E1 & E2 & E3 & _).
  split; [intros fuel; apply parseDefinition_stray; exact H3|].
  rewrite (synchronize_stray p Hs) at 1 2 3 4 5 6.
  split; [reflexivity|]. cbn [calm currentToken_ previousToken_ lexer_ panicMode_ errors_].
  split; [exact E1|]. split; [exact E2|]. split; [exact E3|]. split; [reflexivity|].
  split.
  { intros Hp. unfold Parser.error, Parser.errorAt. rewrite Hp. cbn [errors_].
    rewrite length_app. cbn [length]. lia. }
  split; [apply stray_retry; exact Hs|].
  split; [intros fuel definitions; apply parseLoop_stray; exact Hs|].
  intros fuel. unfold Parser.parse. rewrite bind_ask.
  unfold bind at 1. rewrite (parseLoop_stray fuel [] p Hs). reflexivity.
Qed.

(** Behind the definition of [struct S { long a ; } ; x], in front of
    [x]. *)
Lemma parse_does_not_end_at_a_stray_token_witness :
  match Parser.parseDefinition 20 (Source.parser Stray.strayIdentifier) with
  | Ret (Some _) p =>
      Stray.stray p = true /\ text (currentToken_ p) = "x" /\ errors_ p = [] /\
      length (errors_ (Stray.retry p)) = 1 /\
      length (errors_ (Stray.retry (Stray.retry p))) = 2 /\
      forall fuel, Parser.parse fuel p = OutOfFuel
  | _ => False
  end.
Proof.
  destruct (Parser.parseDefinition 20 (Source.parser Stray.strayIdentifier))
    as [[d|] p| | |] eqn:E; try (vm_compute in E; discriminate).
  assert (Hp : p = match Parser.parseDefinition 20 (Source.parser Stray.strayIdentifier)
                   with Ret _ q => q | _ => p end) by (rewrite E; reflexivity).
  assert (Hs : Stray.stray p = true) by (rewrite Hp; vm_compute; reflexivity).
  split; [exact Hs|].
  split; [rewrite Hp; vm_compute; reflexivity|].
  split; [rewrite Hp; vm_compute; reflexivity|].
  split; [rewrite Hp; vm_compute; reflexivity|].
  split; [rewrite Hp; vm_compute; reflexivity|].
  destruct (parse_does_not_end_at_a_stray_token p Hs) as (_ & _ & _ & _ & _ & _ & _ & _ & _ & H).
  exact H.
Defined.

(** ** Names in constant expressions *)

Lemma SymbolTable_lookupScoped_nil (t : SymbolTable) (isAbsolute : bool) :
  SymbolTable.lookupScoped t [] isAbsolute = None.
Proof. reflexivity. Qed.

Lemma parsePrimaryExpr_name rec fuel p p2 parts :
  Parser.check TokenType.Identifier p || Parser.check TokenType.DoubleColon p = true ->
  Parser.constantPartsLoop fuel [] (snd (Parser.match_ TokenType.DoubleColon p))
    = Ret parts p2 ->
  Parser.parsePrimaryExpr rec fuel p
  = (let unknown :=
       match parts with
       | [] => undefined
       | _ :: _ =>
           bind (act (Parser.warning ("Unknown constant: " +:+ List.last parts "")))
             (fun _ => ret (CInt64 0))
       end in
     match SymbolTable.lookupScoped (symbolTable_ p2) parts
             (fst (Parser.match_ TokenType.DoubleColon p)) with
     | Some sym =>
         match (if SymbolKind.eqb (sym_kind sym) SymbolKind.Constant
                then sym_node sym else None) with
         | Some (ToConstNode value) => ret value
         | Some ToNode => unknown
         | None =>
             if SymbolKind.eqb (sym_kind sym) SymbolKind.EnumValue
             then ret (CInt64 0)
             else unknown
         end
     | None => unknown
     end) p2.
Proof.
  intros Htok Hparts.
  assert (Hother : forall b, b <> TokenType.Identifier -> b <> TokenType.DoubleColon ->
                     Parser.check_type b (currentToken_ p) = false).
  { intros b H1 H2. unfold Parser.check, Parser.check_type in *.
    apply bool_decide_eq_false. intros Hb.
    apply orb_true_iff in Htok. destruct Htok as [H|H];
      apply bool_decide_eq_true in H; congruence. }
  unfold Parser.parsePrimaryExpr.
  rewrite bind_match_false by (apply Hother; discriminate).
  rewrite bind_ask.
  rewrite !Hother by discriminate. cbn [orb].
  rewrite bind_match_false by (apply Hother; discriminate).
  rewrite bind_match_false by (apply Hother; discriminate).
  rewrite bind_ask.
  unfold Parser.check in Htok. rewrite Htok.
  rewrite bind_call.
  rewrite (bind_Ret _ _ _ _ _ Hparts).
  rewrite bind_ask. reflexivity.
Qed.

(** X12: a constant named in a constant expression stands for its folded
    value.  A scoped name in the place of a primary expression, once its
    parts are collected and resolved by [lookupScoped] to a [Constant]
    symbol, folds to the value that [parseConst] folded for that constant,
    without a diagnostic. *)
Theorem constant_reference_folds_to_its_value
    (rec : M ConstValue) (fuel : nat) (p p2 : Parser) (parts : list string)
    (sym : Symbol) (value : ConstValue) :
  Parser.check TokenType.Identifier p || Parser.check TokenType.DoubleColon p = true ->
  Parser.constantPartsLoop fuel [] (snd (Parser.match_ TokenType.DoubleColon p))
    = Ret parts p2 ->
  SymbolTable.lookupScoped (symbolTable_ p2) parts
    (fst (Parser.match_ TokenType.DoubleColon p)) = Some sym ->
  sym_kind sym = SymbolKind.Constant ->
  sym_node sym = Some (ToConstNode value) ->
  Parser.parsePrimaryExpr rec fuel p = Ret value p2.
Proof.
  intros Htok Hparts Hfound Hkind Hnode.
  rewrite (parsePrimaryExpr_name rec fuel p p2 parts Htok Hparts).
  cbv zeta. rewrite Hfound, Hkind. cbn [SymbolKind.eqb]. rewrite Hnode. reflexivity.
Qed.

(** [A] in [const long A = 5 ; const long B = A + 1 ;], and the value of
    [B]. *)
Lemma constant_reference_folds_to_its_value_witness :
  match Parser.parseDefinition 20 (Source.parser Reference.constantOfConstant) with
  | Ret _ q =>
      let p := Nat.iter 4 Parser.advance q in
      let p2 := Parser.advance p in
      let a := mkSymbol "A" "A" SymbolKind.Constant (Some (ToConstNode (CInt64 5))) "" in
      (Parser.check TokenType.Identifier p || Parser.check TokenType.DoubleColon p = true /\
       Parser.constantPartsLoop 5 [] (snd (Parser.match_ TokenType.DoubleColon p))
       = Ret ["A"] p2 /\
       SymbolTable.lookupScoped (symbolTable_ p2) ["A"]
         (fst (Parser.match_ TokenType.DoubleColon p)) = Some a) /\
      Parser.parsePrimaryExpr (Parser.parseConstExpr 5) 5 p = Ret (CInt64 5) p2 /\
      match Parser.parse 30 (Source.parser Reference.constantOfConstant) with
      | Ret unit r =>
          exists fa la ta fb lb tb,
            unit_definitions unit
            = [ConstNode "A" fa la ta (CInt64 5); ConstNode "B" fb lb tb (CInt64 6)] /\
            errors_ r = []
      | _ => False
      end
  | _ => False
  end.
Proof.
  destruct (Parser.parseDefinition 20 (Source.parser Reference.constantOfConstant))
    as [d q| | |] eqn:Hq; [|vm_compute in Hq; discriminate..].
  assert (Hq' : q = match Parser.parseDefinition 20
                            (Source.parser Reference.constantOfConstant)
                    with Ret _ q => q | _ => q end) by (rewrite Hq; reflexivity).
  intros p p2 a.
  assert (H1 : Parser.check TokenType.Identifier p
               || Parser.check TokenType.DoubleColon p = true)
    by (unfold p; rewrite Hq'; vm_compute; reflexivity).
  assert (H2 : Parser.constantPartsLoop 5 []
                 (snd (Parser.match_ TokenType.DoubleColon p)) = Ret ["A"] p2)
    by (unfold p2, p; rewrite Hq'; vm_compute; reflexivity).
  assert (H3 : SymbolTable.lookupScoped (symbolTable_ p2) ["A"]
                 (fst (Parser.match_ TokenType.DoubleColon p)) = Some a)
    by (unfold p2, p; rewrite Hq'; vm_compute; reflexivity).
  split; [split; [exact H1|split; [exact H2|exact H3]]|].
  split; [exact (constant_reference_folds_to_its_value _ 5 p p2 ["A"] a (CInt64 5)
                   H1 H2 H3 eq_refl eq_refl)|].
  vm_compute. do 6 eexists. split; reflexivity.
Defined.

(** X13: a name that stands for no constant is a warning, not an error.
    A scoped name of at least one part in the place of a primary
    expression that [lookupScoped] resolves to nothing, or to a symbol that
    is neither a constant nor an enumerator, folds to the integer 0;
    [parsePrimaryExpr] appends the warning [Unknown constant:] with the
    last part of the name, located at the token behind the name, and
    neither enters panic mode nor makes [hasErrors] true.  Behind a lone
    [::], which no identifier follows, the name has no part: the lookup
    finds nothing and [parts.back()] is called on an empty vector, so that
    the behaviour is undefined and [parsePrimaryExpr] returns nothing. *)
Theorem unresolved_name_is_a_warning
    (rec : M ConstValue) (fuel : nat) (p p2 : Parser) (parts : list string) :
  Parser.check TokenType.Identifier p || Parser.check TokenType.DoubleColon p = true ->
  Parser.constantPartsLoop fuel [] (snd (Parser.match_ TokenType.DoubleColon p))
    = Ret parts p2 ->
  Reference.unresolved
    (SymbolTable.lookupScoped (symbolTable_ p2) parts
       (fst (Parser.match_ TokenType.DoubleColon p))) = true ->
  match parts with
  | [] => Parser.parsePrimaryExpr rec fuel p = Undefined
  | _ :: _ =>
      exists p3,
        Parser.parsePrimaryExpr rec fuel p = Ret (CInt64 0) p3 /\
        errors_ p3 = errors_ p2 ++ [Reference.unknownConstant parts (currentToken_ p2)] /\
        Parser.hasErrors p3 = Parser.hasErrors p2 /\
        panicMode_ p3 = panicMode_ p2 /\
        currentToken_ p3 = currentToken_ p2 /\
        symbolTable_ p3 = symbolTable_ p2
  end.
Proof.
  intros Htok Hparts Hun.
  rewrite (parsePrimaryExpr_name rec fuel p p2 parts Htok Hparts). cbv zeta.
  unfold Reference.unresolved in Hun.
  destruct parts as [|part0 rest].
  - rewrite (SymbolTable_lookupScoped_nil (symbolTable_ p2)). reflexivity.
  - exists (Parser.warning ("Unknown constant: " +:+ List.last (part0 :: rest) "") p2).
    split.
    + destruct (SymbolTable.lookupScoped _ _ _) as [sym|]; [|reflexivity].
      apply andb_true_iff in Hun. destruct Hun as [H1 H2].
      apply negb_true_iff in H1, H2. rewrite H1, H2. reflexivity.
    + split; [reflexivity|]. split; [|repeat split; reflexivity].
      unfold Parser.hasErrors, Parser.warning. cbn [errors_].
      rewrite existsb_app. cbn [existsb isWarning negb]. rewrite !orb_false_r.
      reflexivity.
Qed.

(** [Missing] in [const long B = Missing ;], and the header; [::] in
    [const long B = :: ;], at which the parse has no result. *)
Lemma unresolved_name_is_a_warning_witness :
  let p := Nat.iter 4 Parser.advance (Source.parser Reference.constantOfNothing) in
  let p2 := Parser.advance p in
  let q := Nat.iter 4 Parser.advance (Source.parser Reference.constantOfNoName) in
  let q2 := Parser.advance q in
  (Parser.check TokenType.Identifier p || Parser.check TokenType.DoubleColon p = true /\
   Parser.constantPartsLoop 5 [] (snd (Parser.match_ TokenType.DoubleColon p))
   = Ret ["Missing"] p2 /\
   Reference.unresolved
     (SymbolTable.lookupScoped (symbolTable_ p2) ["Missing"]
        (fst (Parser.match_ TokenType.DoubleColon p))) = true) /\
  (exists p3,
     Parser.parsePrimaryExpr (Parser.parseConstExpr 5) 5 p = Ret (CInt64 0) p3 /\
     map message (errors_ p3) = ["<input>:1:24: warning: Unknown constant: Missing"] /\
     Parser.hasErrors p3 = false) /\
  match Parser.parse 30 (Source.parser Reference.constantOfNothing) with
  | Ret unit r =>
      Parser.hasErrors r = false /\ length (Parser.getWarnings r) = 1 /\
      forall formatDouble,
        Text.contains "constexpr int32_t B = 0;"
          (Cpp11Generator.header_
             (Cpp11Generator.acceptAll formatDouble (unit_definitions unit)
                (Cpp11Generator.new defaultConfig))) = true
  | _ => False
  end /\
  (Parser.check TokenType.Identifier q || Parser.check TokenType.DoubleColon q = true /\
   Parser.constantPartsLoop 5 [] (snd (Parser.match_ TokenType.DoubleColon q))
   = Ret [] q2 /\
   Reference.unresolved
     (SymbolTable.lookupScoped (symbolTable_ q2) []
        (fst (Parser.match_ TokenType.DoubleColon q))) = true) /\
  Parser.parsePrimaryExpr (Parser.parseConstExpr 5) 5 q = Undefined /\
  Parser.parse 30 (Source.parser Reference.constantOfNoName) = Undefined.
Proof.
  intros p p2 q q2.
  assert (H1 : Parser.check TokenType.Identifier p
               || Parser.check TokenType.DoubleColon p = true) by reflexivity.
  assert (H2 : Parser.constantPartsLoop 5 []
                 (snd (Parser.match_ TokenType.DoubleColon p)) = Ret ["Missing"] p2)
    by (vm_compute; reflexivity).
  assert (H3 : Reference.unresolved
     (SymbolTable.lookupScoped (symbolTable_ p2) ["Missing"]
        (fst (Parser.match_ TokenType.DoubleColon p))) = true) by (vm_compute; reflexivity).
  assert (G1 : Parser.check TokenType.Identifier q
               || Parser.check TokenType.DoubleColon q = true) by reflexivity.
  assert (G2 : Parser.constantPartsLoop 5 []
                 (snd (Parser.match_ TokenType.DoubleColon q)) = Ret [] q2)
    by (vm_compute; reflexivity).
  assert (G3 : Reference.unresolved
     (SymbolTable.lookupScoped (symbolTable_ q2) []
        (fst (Parser.match_ TokenType.DoubleColon q))) = true) by (vm_compute; reflexivity).
  split; [split; [exact H1|split; [exact H2|exact H3]]|].
  split.
  { destruct (unresolved_name_is_a_warning (Parser.parseConstExpr 5) 5 p p2 ["Missing"]
                H1 H2 H3) as (p3 & Hr & He & Hh & _).
    exists p3. split; [exact Hr|]. split.
    + rewrite He. vm_compute. reflexivity.
    + rewrite Hh. vm_compute. reflexivity. }
  split.
  { vm_compute. split; [reflexivity|]. split; [reflexivity|]. intros _. reflexivity. }
  split; [split; [exact G1|split; [exact G2|exact G3]]|].
  split.
  { exact (unresolved_name_is_a_warning (Parser.parseConstExpr 5) 5 q q2 [] G1 G2 G3). }
  vm_compute. reflexivity.
Defined.

(** ** Typedefs *)

Lemma withSymbolTable_id (p : Parser) : Parser.withSymbolTable (fun t => t) p = p.
Proof. destruct p; reflexivity. Qed.

Lemma registerDeclarators_all (decls : list Parser.Declarator) : forall ast p,
  Parser.registerDeclarators decls ast p
  = Ret (ast ++ map Reference.astDeclarator decls)
      (Parser.withSymbolTable (performAll (map Reference.record decls)) p).
Proof.
  induction decls as [|decl rest IH]; intros ast p.
  - cbn [Parser.registerDeclarators map performAll fold_left].
    rewrite app_nil_r. unfold ret. f_equal. destruct p; reflexivity.
  - cbn [Parser.registerDeclarators]. unfold Parser.addSymbol.
    rewrite bind_act. rewrite IH. rewrite <- app_assoc. reflexivity.
Qed.

(** X14: a typedef whose type is parsed always gives a node and records
    every declarator.  [parseDeclarators] returns at least one declarator,
    so the diagnostic [Expected declarator] is never given; the node is
    named after the first declarator and holds all of them in order; and
    after the [;] a [Typedef] symbol is added for every declarator in
    order, the declarator without a name that a missing identifier leaves
    included. *)
Theorem typedef_records_every_declarator
    (fuel : nat) (p p1 p2 : Parser) (type : TypeNode)
    (decls : list Parser.Declarator) :
  Parser.parseTypeSpec fuel (Parser.expect TokenType.KwTypedef "Expected 'typedef'" p)
    = Ret (Some type) p1 ->
  Parser.parseDeclarators fuel p1 = Ret decls p2 ->
  exists first others,
    decls = first :: others /\
    let p3 := Parser.withSymbolTable (performAll (map Reference.record decls))
                (Parser.expectSemicolon p2) in
    Parser.parseTypedef fuel p
    = Ret (Some (TypedefNode (Parser.decl_name first)
                   (SymbolTable.buildFullyQualifiedName (symbolTable_ p3)
                      (Parser.decl_name first))
                   (location (currentToken_ p)) type
                   (map Reference.astDeclarator decls)))
        p3.
Proof.
  intros Htype Hdecls.
  destruct decls as [|first others];
    [exfalso; exact (parseDeclarators_not_empty _ _ _ _ Hdecls eq_refl)|].
  exists first, others. split; [reflexivity|].
  unfold Parser.parseTypedef, Parser.currentLocation.
  rewrite bind_ask, bind_act.
  rewrite (bind_Ret _ _ _ _ _ Htype).
  rewrite (bind_Ret _ _ _ _ _ Hdecls).
  rewrite bind_act.
  rewrite (bind_Ret _ _ _ _ _ (registerDeclarators_all _ _ _)).
  reflexivity.
Qed.

(** [typedef long first , ;]: the identifier behind the comma is missing;
    the node has the declarators [first] and the empty one, and the table
    a typedef without a name. *)
Lemma typedef_records_every_declarator_witness :
  let p := Source.parser Reference.typedefTwoDeclarators in
  let p1 := Nat.iter 2 Parser.advance p in
  let p2 := Parser.error "Expected identifier" (Nat.iter 2 Parser.advance p1) in
  let long := BasicTypeNode BasicType.Long (mkLoc "<input>" 1 9) in
  let decls := [Parser.mkDeclarator "first" []; Parser.mkDeclarator "" []] in
  (Parser.parseTypeSpec 12 (Parser.expect TokenType.KwTypedef "Expected 'typedef'" p)
   = Ret (Some long) p1 /\
   Parser.parseDeclarators 12 p1 = Ret decls p2) /\
  exists p3,
    Parser.parseTypedef 12 p
    = Ret (Some (TypedefNode "first" "first" (mkLoc "<input>" 1 1) long
                   [mkTypedefDeclarator "first" []; mkTypedefDeclarator "" []])) p3 /\
    map message (errors_ p3)
    = ["<input>:1:22: error: Expected identifier (got ';')"] /\
    SymbolTable.lookup (symbolTable_ p3) "first"
    = Some (mkSymbol "first" "first" SymbolKind.Typedef None "") /\
    SymbolTable.lookup (symbolTable_ p3) ""
    = Some (mkSymbol "" "" SymbolKind.Typedef None "").
Proof.
  intros p p1 p2 long decls.
  assert (H1 : Parser.parseTypeSpec 12
                 (Parser.expect TokenType.KwTypedef "Expected 'typedef'" p)
               = Ret (Some long) p1) by (vm_compute; reflexivity).
  assert (H2 : Parser.parseDeclarators 12 p1 = Ret decls p2)
    by (vm_compute; reflexivity).
  split; [split; [exact H1|exact H2]|].
  destruct (typedef_records_every_declarator 12 p p1 p2 long decls H1 H2)
    as (first & others & Hd & Hr).
  inversion Hd; subst first others.
  eexists. split; [exact Hr|].
  split; [vm_compute; reflexivity|].
  split; vm_compute; reflexivity.
Defined.

(** ** Lexical errors in the parser *)

Lemma advanceLoop_token (upcoming : list (Token * list LexerError)) :
  forall lexErrors endLoc errors,
    let tok := fst (fst (Parser.advanceLoop upcoming lexErrors endLoc errors)) in
    Parser.check_type TokenType.Unknown tok = false /\
    Parser.check_type TokenType.LineDirective tok = false.
Proof.
  induction upcoming as [|[tok errs] rest IH]; intros lexErrors endLoc errors.
  - split; reflexivity.
  - cbn [Parser.advanceLoop]. cbv zeta.
    destruct (Parser.check_type TokenType.LineDirective tok) eqn:Hl; [apply IH|].
    destruct (Parser.check_type TokenType.Unknown tok) eqn:Hu; cbn [negb].
    + apply IH.
    + cbn [fst]. split; assumption.
Qed.

(** X15: the functions of the parser never see an unknown token or a line
    directive.  Whatever the lexer hands out, [advance] leaves a current
    token that is neither [Unknown] nor [LineDirective] (at the end of the
    source it is [Eof]); the token it replaces becomes the previous token,
    and the symbol table, [hadError_] and the panic mode are untouched: the
    lexical errors it reports set no flag.  The parser is constructed by a
    call of [advance], so this holds from the first token on. *)
Theorem parser_never_sees_unknown_tokens (p : Parser) (lx : Lexer) :
  (Parser.check TokenType.Unknown (Parser.advance p) = false /\
   Parser.check TokenType.LineDirective (Parser.advance p) = false /\
   previousToken_ (Parser.advance p) = currentToken_ p /\
   symbolTable_ (Parser.advance p) = symbolTable_ p /\
   hadError_ (Parser.advance p) = hadError_ p /\
   panicMode_ (Parser.advance p) = panicMode_ p) /\
  (Parser.check TokenType.Unknown (Parser.new lx) = false /\
   Parser.check TokenType.LineDirective (Parser.new lx) = false /\
   hadError_ (Parser.new lx) = false /\
   panicMode_ (Parser.new lx) = false).
Proof.
  assert (H : forall q,
    Parser.check TokenType.Unknown (Parser.advance q) = false /\
    Parser.check TokenType.LineDirective (Parser.advance q) = false /\
    previousToken_ (Parser.advance q) = currentToken_ q /\
    symbolTable_ (Parser.advance q) = symbolTable_ q /\
    hadError_ (Parser.advance q) = hadError_ q /\
    panicMode_ (Parser.advance q) = panicMode_ q).
  { intros q. unfold Parser.advance, Parser.check.
    pose proof (advanceLoop_token (upcoming (lexer_ q)) (lexer_errors_ (lexer_ q))
                  (endLocation (lexer_ q)) (errors_ q)) as Ht.
    destruct (Parser.advanceLoop _ _ _ _) as [[tok lx'] errs].
    cbn [fst] in Ht. destruct Ht as [Hu Hl].
    cbn [currentToken_ previousToken_ symbolTable_ hadError_ panicMode_].
    repeat split; assumption. }
  split; [apply H|].
  unfold Parser.new.
  destruct (H (mkParser lx defaultToken defaultToken [] SymbolTable.init false false))
    as (H1 & H2 & _ & _ & H3 & H4).
  split; [exact H1|]. split; [exact H2|]. split; [exact H3|exact H4].
Qed.

Lemma advanceLoop_unknown (skipped : list (Token * list LexerError)) :
  forall lexErrors endLoc errors tok errs rest,
    forallb Reporting.unknown skipped = true ->
    Parser.check_type TokenType.Unknown tok = false ->
    Parser.check_type TokenType.LineDirective tok = false ->
    Parser.advanceLoop (skipped ++ (tok, errs) :: rest) lexErrors endLoc errors
    = (tok,
       mkLexer rest (Reporting.collected lexErrors skipped (length skipped) ++ errs)
         endLoc,
       errors ++ Reporting.repeated lexErrors skipped).
Proof.
  unfold Reporting.repeated, Reporting.collected.
  induction skipped as [|[u us] more IH]; intros lexErrors endLoc errors tok errs rest
    Hall Hu Hl.
  - cbn [app Parser.advanceLoop]. cbv zeta. rewrite Hl, Hu. cbn [negb].
    cbn [length take map concat seq]. rewrite !app_nil_r. reflexivity.
  - cbn [forallb] in Hall. apply andb_true_iff in Hall. destruct Hall as [Hk Hall].
    unfold Reporting.unknown in Hk. cbn [fst] in Hk.
    assert (Hkl : Parser.check_type TokenType.LineDirective u = false).
    { unfold Parser.check_type in *. apply bool_decide_eq_true in Hk.
      apply bool_decide_eq_false. rewrite Hk. discriminate. }
    change ((u, us) :: more) with ([(u, us)] ++ more) at 1.
    cbn [app Parser.advanceLoop]. cbv zeta. rewrite Hkl, Hk. cbn [negb].
    rewrite (IH _ _ _ _ _ _ Hall Hu Hl).
    cbn [length]. rewrite firstn_cons. cbn [map snd concat].
    f_equal; [f_equal; f_equal; rewrite <- !app_assoc; reflexivity|].
    rewrite <- app_assoc. f_equal.
    cbn [seq map concat]. cbn [take map snd concat]. rewrite app_nil_r.
    f_equal. rewrite <- (seq_shift (length more) 1), map_map. f_equal.
    apply map_ext. intros k. cbn [take map snd concat].
    rewrite <- !app_assoc. reflexivity.
Qed.

(** X16: the parser reports lexical errors only at unknown tokens, and
    then all of them again.  When [advance] skips the unknown tokens
    [skipped] and stops at [tok], it appends to [errors_], for each
    skipped token, one copy of every error the lexer has collected up to
    and including that token: an error raised before is reported once
    more at each unknown token.  The errors raised while [tok] itself was
    scanned stay with the lexer; with nothing skipped [errors_] is
    unchanged. *)
Theorem lexical_errors_are_reported_at_unknown_tokens
    (p : Parser) (skipped : list (Token * list LexerError))
    (tok : Token) (errs : list LexerError) (rest : list (Token * list LexerError)) :
  upcoming (lexer_ p) = skipped ++ (tok, errs) :: rest ->
  forallb Reporting.unknown skipped = true ->
  Parser.check_type TokenType.Unknown tok = false ->
  Parser.check_type TokenType.LineDirective tok = false ->
  currentToken_ (Parser.advance p) = tok /\
  upcoming (lexer_ (Parser.advance p)) = rest /\
  Lexer.getErrors (lexer_ (Parser.advance p))
  = Reporting.collected (Lexer.getErrors (lexer_ p)) skipped (length skipped) ++ errs /\
  errors_ (Parser.advance p)
  = errors_ p ++ Reporting.repeated (Lexer.getErrors (lexer_ p)) skipped /\
  (skipped = [] -> errors_ (Parser.advance p) = errors_ p).
Proof.
  intros Hup Hall Hu Hl.
  unfold Parser.advance, Lexer.getErrors. rewrite Hup.
  rewrite (advanceLoop_unknown skipped _ _ _ tok errs rest Hall Hu Hl).
  cbn [currentToken_ lexer_ upcoming lexer_errors_ errors_].
  repeat split.
  intros ->. unfold Reporting.repeated. cbn. rewrite app_nil_r. reflexivity.
Qed.

(** The scanner in front of the parser, at [@ $ x]. *)
Lemma lexical_errors_are_reported_at_unknown_tokens_witness :
  exists lx,
    Scanner.lexer Sources.noFloat Inputs.twoUnknown "a.idl" = Some lx /\
    let p := mkParser lx defaultToken defaultToken [] SymbolTable.init false false in
    exists u1 u2 tok rest,
      (upcoming (lexer_ p) = [u1; u2] ++ (tok, []) :: rest /\
       forallb Reporting.unknown [u1; u2] = true /\
       Parser.check_type TokenType.Unknown tok = false /\
       Parser.check_type TokenType.LineDirective tok = false) /\
      text (currentToken_ (Parser.new lx)) = "x" /\
      map message (errors_ (Parser.new lx))
      = [ "Unexpected character: @"; "Unexpected character: @";
          "Unexpected character: $" ].
Proof.
  eexists. split; [vm_compute; reflexivity|].
  intros p.
  eexists _, _, _, _.
  assert (H1 : upcoming (lexer_ p) = [_; _] ++ (_, []) :: _) by reflexivity.
  split; [split; [exact H1|repeat split; reflexivity]|].
  destruct (lexical_errors_are_reported_at_unknown_tokens p _ _ _ _ H1
              eq_refl eq_refl eq_refl) as (Hc & _ & _ & He & _).
  assert (Hnew : forall l, Parser.new l
            = Parser.advance
                (mkParser l defaultToken defaultToken [] SymbolTable.init false false))
    by reflexivity.
  rewrite !Hnew. fold p. rewrite Hc, He. split; reflexivity.
Defined.

(** ** Absolute names *)

Lemma parseQualifiedName_absolute (n : string) :
  SymbolTable.parseQualifiedName ("::" +:+ n) = SymbolTable.splitParts n "" [] /\
  SymbolTable.startsWithColons ("::" +:+ n) = true.
Proof. split; reflexivity. Qed.

Lemma parseQualifiedName_relative (n : string) :
  SymbolTable.startsWithColons n = false ->
  SymbolTable.parseQualifiedName n = SymbolTable.splitParts n "" [].
Proof.
  destruct n as [|c [|c1 r]]; try reflexivity.
  unfold SymbolTable.startsWithColons, SymbolTable.parseQualifiedName.
  intros H. rewrite H. reflexivity.
Qed.

Lemma lookupScoped_absolute_path (t : SymbolTable) (names : list string) (k : string)
    (s : Scope) (x : Symbol) :
  SymbolTable.navigate (globalScope_ t) names = Some s ->
  symbols s !! k = Some x ->
  SymbolTable.lookupScoped t (names ++ [k]) true = Some x.
Proof.
  intros Hnav Hk. unfold SymbolTable.lookupScoped.
  destruct (names ++ [k]) as [|part0 more] eqn:Hp; [destruct names; discriminate|].
  rewrite <- Hp. cbn [negb andb].
  rewrite removelast_last, Hnav, last_last. exact Hk.
Qed.

(** X17: the fully qualified name of a symbol, written as an absolute
    name, finds that symbol from every scope.  After any calls of the
    parser on its symbol table with identifiers as names, and whatever the
    current scope is, [lookupQualified] on [::] followed by the fully
    qualified name of a recorded symbol returns that symbol. *)
Theorem absolute_name_round_trip (ops : list Op) (x : Symbol) :
  forallb named ops = true ->
  recorded (performAll ops SymbolTable.init) x ->
  SymbolTable.lookupQualified (performAll ops SymbolTable.init)
    ("::" +:+ sym_fullyQualifiedName x)
  = Some x.
Proof.
  intros Hn (down & s & k & Hd & Hk).
  destruct (inv_performAll ops SymbolTable.init Hn inv_init) as (Hwf & Hfqn & _).
  set (t := performAll ops SymbolTable.init) in *.
  destruct (descend_names down (globalScope_ t) s [] Hwf (Forall_nil_2 _) Hfqn Hd)
    as (names & Hnav & Hids & Hsf & Hswf & _).
  destruct (wf_inv s Hswf) as (Hsyms & _ & _).
  destruct (Hsyms k x Hk) as (Hid & _ & Hxf).
  cbn [app] in Hsf.
  assert (Hparts : Forall (fun n => isIdentifier n = true) (names ++ [k])).
  { apply Forall_app. split; [exact Hids|]. constructor; [exact Hid|constructor]. }
  assert (Hx : sym_fullyQualifiedName x = joined (names ++ [k])).
  { rewrite Hxf, Hsf. apply qualify_joined. exact Hids. }
  destruct (parseQualifiedName_joined (names ++ [k])) as [Hparse Hrel];
    [destruct names; discriminate|exact Hparts|].
  unfold SymbolTable.lookupQualified.
  destruct (parseQualifiedName_absolute (sym_fullyQualifiedName x)) as [Ha Hb].
  rewrite Ha, Hb, Hx.
  rewrite <- (parseQualifiedName_relative _ Hrel), Hparse.
  apply (lookupScoped_absolute_path t names k s x Hnav Hk).
Qed.

(** [::M::C] from inside [M::N]. *)
Lemma absolute_name_round_trip_witness :
  let t := performAll Inputs.insideInnerModule SymbolTable.init in
  let c := mkSymbol "C" "M::C" SymbolKind.Constant
             (Some (ToConstNode (CInt64 7))) "M" in
  (forallb named Inputs.insideInnerModule = true /\ recorded t c) /\
  SymbolTable.getCurrentScopeName t = "M::N" /\
  SymbolTable.lookupQualified t "::M::C" = Some c.
Proof.
  intros t c.
  assert (Hn : forallb named Inputs.insideInnerModule = true) by reflexivity.
  assert (Hr : recorded t c).
  { eexists [0], _, "C". split; vm_compute; reflexivity. }
  split; [split; [exact Hn|exact Hr]|].
  split; [reflexivity|].
  exact (absolute_name_round_trip Inputs.insideInnerModule c Hn Hr).
Defined.

(** ** Lookup after a declaration *)

Lemma lookup_unfold (g : Scope) (p : ScopePtr) (k : string) :
  Scope.lookup g p k
  = match Scope.deref g p with
    | None => None
    | Some s =>
        match Scope.lookupLocal s k with
        | Some sym => Some sym
        | None =>
            match p with
            | [] => None
            | _ :: parent => Scope.lookup g parent k
            end
        end
    end.
Proof. destruct p; reflexivity. Qed.

Lemma descend_update_prefix (d1 : list nat) : forall g d2 f s1,
  Scope.descend g d1 = Some s1 ->
  Scope.descend (Scope.update g (d1 ++ d2) f) d1 = Some (Scope.update s1 d2 f).
Proof.
  induction d1 as [|i rest IH]; intros g d2 f s1 Hd.
  - cbn in *. inversion Hd; subst. reflexivity.
  - cbn [app Scope.descend Scope.update] in *.
    destruct (children g !! i) as [c|] eqn:Hc; [|discriminate].
    cbn [Scope.descend children].
    rewrite list_lookup_insert_eq by (eapply lookup_lt_Some; eauto).
    apply IH. exact Hd.
Qed.

Lemma update_symbols_below (s : Scope) (i : nat) (rest : list nat) (f : Scope -> Scope) :
  symbols (Scope.update s (i :: rest) f) = symbols s.
Proof. cbn [Scope.update]. destruct (children s !! i); reflexivity. Qed.

Lemma lookup_frame (g : Scope) (f : Scope -> Scope) (k : string) :
  (forall s, symbols (f s) !! k = symbols s !! k) ->
  forall up pre,
    is_Some (Scope.descend g (rev up ++ pre)) ->
    Scope.lookup (Scope.update g (rev up ++ pre) f) up k = Scope.lookup g up k.
Proof.
  intros Hf. induction up as [|i parent IH]; intros pre Hv.
  - rewrite !lookup_unfold. unfold Scope.deref. cbn [rev app] in *.
    cbn [Scope.descend].
    assert (Hs : symbols (Scope.update g pre f) !! k = symbols g !! k).
    { destruct pre as [|j r]; [apply Hf|rewrite update_symbols_below; reflexivity]. }
    unfold Scope.lookupLocal. rewrite Hs. reflexivity.
  - rewrite (lookup_unfold _ (i :: parent)), (lookup_unfold g (i :: parent)).
    unfold Scope.deref.
    rewrite descend_app in Hv.
    destruct (Scope.descend g (rev (i :: parent))) as [s1|] eqn:Hd;
      [|destruct Hv as [? Hv]; discriminate].
    rewrite (descend_update_prefix _ _ _ _ _ Hd).
    assert (Hs : symbols (Scope.update s1 pre f) !! k = symbols s1 !! k).
    { destruct pre as [|j r]; [apply Hf|rewrite update_symbols_below; reflexivity]. }
    unfold Scope.lookupLocal. rewrite Hs.
    destruct (symbols s1 !! k); [reflexivity|].
    cbn [rev]. rewrite <- app_assoc. apply IH.
    rewrite app_assoc. change (rev parent ++ [i]) with (rev (i :: parent)).
    rewrite descend_app, Hd. exact Hv.
Qed.

(** X18: a declaration is found under its name and changes no other
    lookup.  After [addSymbol], [lookup] of the name from the current
    scope returns the symbol of the current scope (the one recorded first
    if the name was declared there before, the new one otherwise), also
    when an enclosing scope has a symbol of that name; [lookup] of every
    other name returns what it returned before. *)
Theorem declared_name_is_found (t : SymbolTable) (name : string)
    (kind : SymbolKind.t) (node : option NodePtr) :
  ptr_valid t ->
  let sym := mkSymbol name (SymbolTable.buildFullyQualifiedName t name) kind node
               (scope_fullyQualifiedName (SymbolTable.current t)) in
  let t' := snd (SymbolTable.addSymbol t name kind node) in
  SymbolTable.lookup t' name
  = Some (match Scope.lookupLocal (SymbolTable.current t) name with
          | Some first => first
          | None => sym
          end) /\
  forall other, other <> name -> SymbolTable.lookup t' other = SymbolTable.lookup t other.
Proof.
  intros Hv sym t'.
  pose proof (current_descend t Hv) as Hcur.
  unfold t', SymbolTable.addSymbol, SymbolTable.lookup, SymbolTable.setCurrent.
  fold sym. cbn [snd globalScope_ currentScope_].
  split.
  - rewrite lookup_unfold. unfold Scope.deref.
    rewrite (descend_update _ _ _ _ Hcur).
    unfold Scope.addSymbol, Scope.lookupLocal. cbn [sym_name sym].
    destruct (symbols (SymbolTable.current t) !! name) as [first|] eqn:Hl; cbn [snd].
    + rewrite Hl. reflexivity.
    + cbn [symbols]. rewrite lookup_insert_eq. reflexivity.
  - intros other Hne.
    pose proof (lookup_frame (globalScope_ t) (fun s => snd (Scope.addSymbol s sym)) other)
      as Hframe.
    specialize (Hframe
      (fun s => ltac:(unfold Scope.addSymbol; cbn [sym_name sym];
                      destruct (symbols s !! name); cbn [snd symbols];
                      [reflexivity|apply lookup_insert_ne; congruence]))
      (currentScope_ t) []).
    rewrite app_nil_r in Hframe. apply Hframe. rewrite Hcur. eexists. reflexivity.
Qed.

(** In [M::N], where [M] has the constant [C]: a struct [C] declared in
    [N] hides the constant, and [N] is found as before. *)
Lemma declared_name_is_found_witness :
  let t := performAll Inputs.insideInnerModule SymbolTable.init in
  let t' := snd (SymbolTable.addSymbol t "C" SymbolKind.Struct (Some ToNode)) in
  ptr_valid t /\
  SymbolTable.lookup t "C"
  = Some (mkSymbol "C" "M::C" SymbolKind.Constant (Some (ToConstNode (CInt64 7))) "M") /\
  SymbolTable.lookup t' "C"
  = Some (mkSymbol "C" "M::N::C" SymbolKind.Struct (Some ToNode) "M::N") /\
  SymbolTable.lookup t' "N" = SymbolTable.lookup t "N".
Proof.
  intros t t'.
  assert (Hv : ptr_valid t) by (eexists; reflexivity).
  split; [exact Hv|]. split; [reflexivity|].
  destruct (declared_name_is_found t "C" SymbolKind.Struct (Some ToNode) Hv)
    as [H1 H2].
  split; [exact H1|].
  apply H2. discriminate.
Defined.

(** ** Entering and leaving scopes *)

Lemma descend_wf (down : list nat) : forall g s,
  wf g -> Scope.descend g down = Some s -> wf s.
Proof.
  induction down as [|i rest IH]; intros g s Hwf Hd.
  - cbn in Hd. inversion Hd; subst. exact Hwf.
  - cbn [Scope.descend] in Hd.
    destruct (children g !! i) as [c|] eqn:Hc; [|discriminate].
    destruct (wf_inv g Hwf) as (_ & _ & Hall).
    rewrite Forall_forall in Hall.
    destruct (Hall c) as (_ & _ & Hcwf).
    { apply list_elem_of_lookup. exists i. exact Hc. }
    exact (IH c s Hcwf Hd).
Qed.

(** X19: a scope that is left and entered again under its name is the
    same scope.  After any calls of the parser on its symbol table with
    identifiers as names, when the current scope is not the global one,
    [leaveScope] followed by [enterScope] with the name of the scope left
    gives the table back, current scope and symbols included: an IDL
    module that is reopened continues the scope of its first part.
    [enterScope] followed by [leaveScope] restores the current scope, and
    [leaveScope] in the global scope does nothing. *)
Theorem scope_is_reopened (ops : list Op) :
  forallb named ops = true ->
  let t := performAll ops SymbolTable.init in
  (currentScope_ t <> [] ->
   SymbolTable.enterScope (SymbolTable.leaveScope t) (scope_name (SymbolTable.current t))
   = t) /\
  (forall name,
     currentScope_ (SymbolTable.leaveScope (SymbolTable.enterScope t name))
     = currentScope_ t) /\
  (currentScope_ t = [] -> SymbolTable.leaveScope t = t).
Proof.
  intros Hn t.
  destruct (inv_performAll ops SymbolTable.init Hn inv_init) as (Hwf & _ & Hv).
  fold t in Hwf, Hv.
  split; [|split].
  - intros Hne.
    pose proof (current_descend t Hv) as Hcur.
    destruct t as [g cur]. cbn [currentScope_ globalScope_] in *.
    destruct cur as [|i up]; [congruence|].
    unfold SymbolTable.leaveScope. cbn [currentScope_ globalScope_].
    cbn [rev] in Hcur. rewrite descend_app in Hcur.
    destruct (Scope.descend g (rev up)) as [parent|] eqn:Hp; [|discriminate].
    cbn [Scope.descend] in Hcur.
    destruct (children parent !! i) as [c|] eqn:Hc; [|discriminate].
    inversion Hcur as [Hcc].
    destruct (wf_inv parent (descend_wf _ _ _ Hwf Hp)) as (_ & Hnd & _).
    unfold SymbolTable.enterScope.
    assert (Hpar : SymbolTable.current (mkSymbolTable g up) = parent).
    { unfold SymbolTable.current, Scope.deref. cbn [currentScope_ globalScope_].
      rewrite Hp. reflexivity. }
    rewrite Hpar, <- Hcc. rewrite (childIndex_lookup _ _ _ Hnd Hc). reflexivity.
  - intros name. unfold SymbolTable.enterScope.
    destruct (Scope.childIndex _ _); reflexivity.
  - intros Hc. unfold SymbolTable.leaveScope. rewrite Hc. reflexivity.
Qed.

(** [M::N] with its symbol is found again when [N] is reopened. *)
Lemma scope_is_reopened_witness :
  let ops := Inputs.insideInnerModule
             ++ [Add "D" SymbolKind.Constant (Some (ToConstNode (CInt64 1)))] in
  let t := performAll ops SymbolTable.init in
  (forallb named ops = true /\ currentScope_ t <> []) /\
  scope_name (SymbolTable.current t) = "N" /\
  SymbolTable.enterScope (SymbolTable.leaveScope t) "N" = t /\
  SymbolTable.lookup (SymbolTable.enterScope (SymbolTable.leaveScope t) "N") "D"
  = Some (mkSymbol "D" "M::N::D" SymbolKind.Constant (Some (ToConstNode (CInt64 1)))
            "M::N").
Proof.
  intros ops t.
  assert (Hn : forallb named ops = true) by reflexivity.
  assert (Hc : currentScope_ t <> []) by discriminate.
  split; [split; [exact Hn|exact Hc]|].
  split; [reflexivity|].
  destruct (scope_is_reopened ops Hn) as (H1 & _ & _).
  specialize (H1 Hc).
  change (scope_name (SymbolTable.current (performAll ops SymbolTable.init)))
    with "N" in H1.
  split; [exact H1|].
  fold t in H1. rewrite H1. reflexivity.
Defined.

(** ** The generator: balance of the output *)

Import Generated.

Lemma extends_refl s : extends s s.
Proof. exists "". rewrite append_empty_r. reflexivity. Qed.

Lemma extends_trans a b c : extends a b -> extends b c -> extends a c.
Proof.
  intros [m1 H1] [m2 H2]. exists (m1 +:+ m2). rewrite H2, H1.
  rewrite append_assoc. reflexivity.
Qed.

Lemma extends_append a m : extends a (a +:+ m).
Proof. exists m. reflexivity. Qed.

Lemma moved_refl g : moved 0 g g.
Proof.
  split; try reflexivity; try apply extends_refl.
  rewrite Z.add_0_r. reflexivity.
Qed.

Lemma moved_trans a b g g1 g2 :
  moved a g g1 -> moved b g1 g2 -> moved (a + b) g g2.
Proof.
  intros [H1 H2 H3 H4 H5 H6] [K1 K2 K3 K4 K5 K6]. split.
  - rewrite K1. exact H1.
  - rewrite K2. exact H2.
  - rewrite K3. exact H3.
  - exact (extends_trans _ _ _ H4 K4).
  - exact (extends_trans _ _ _ H5 K5).
  - rewrite K6, H6. rewrite Z.add_assoc. reflexivity.
Qed.

Lemma moved_eq a b g g' : moved a g g' -> a = b -> moved b g g'.
Proof. intros H <-. exact H. Qed.

Lemma moved_then a g X Y : moved a g X -> moved 0 X Y -> moved a g Y.
Proof.
  intros H1 H2. apply (moved_eq (a + 0)); [exact (moved_trans _ _ _ _ _ H1 H2)|].
  apply Z.add_0_r.
Qed.

Lemma writeHeaderLine_moved line g : moved 0 g (Cpp11Generator.writeHeaderLine line g).
Proof.
  split; try reflexivity; try apply extends_refl.
  - unfold Cpp11Generator.writeHeaderLine. cbn [Cpp11Generator.header_ Cpp11Generator.setHeader].
    destruct (String.eqb line "").
    + apply extends_append.
    + rewrite !append_assoc. apply extends_append.
  - rewrite Z.add_0_r. reflexivity.
Qed.

Lemma writeSourceLine_moved line g : moved 0 g (Cpp11Generator.writeSourceLine line g).
Proof.
  split; try reflexivity; try apply extends_refl.
  - unfold Cpp11Generator.writeSourceLine. cbn [Cpp11Generator.source_ Cpp11Generator.setSource].
    destruct (String.eqb line "").
    + apply extends_append.
    + rewrite !append_assoc. apply extends_append.
  - rewrite Z.add_0_r. reflexivity.
Qed.

Lemma indent_moved g : moved 1 g (Cpp11Generator.indent g).
Proof. split; try reflexivity; apply extends_refl. Qed.

Lemma outdent_moved g :
  (0 < Cpp11Generator.indentLevel_ g)%Z -> moved (-1) g (Cpp11Generator.outdent g).
Proof.
  intros H. unfold Cpp11Generator.outdent.
  destruct (Z.ltb_spec 0 (Cpp11Generator.indentLevel_ g)); [|lia].
  split; try reflexivity; apply extends_refl.
Qed.

Lemma setCurrentTypeName_moved n g : moved 0 g (Cpp11Generator.setCurrentTypeName n g).
Proof.
  split; try reflexivity; try apply extends_refl.
  rewrite Z.add_0_r. reflexivity.
Qed.

Lemma setInInterfaceDecl_moved b g : moved 0 g (Cpp11Generator.setInInterfaceDecl b g).
Proof.
  split; try reflexivity; try apply extends_refl.
  rewrite Z.add_0_r. reflexivity.
Qed.

Lemma visitType_moved (node : TypeNode) : forall g,
  moved 0 g (Cpp11Generator.visitType node g).
Proof.
  induction node as [ty loc|elem IH bound loc|bound wide loc|parts abs loc
                    |elem IH dims loc];
    intros g; cbn [Cpp11Generator.visitType];
    try apply setCurrentTypeName_moved.
  - cbv zeta.
    apply (moved_then _ _ _ _ (moved_then _ _ _ _ (setCurrentTypeName_moved "" g)
                                 (IH _))).
    apply setCurrentTypeName_moved.
  - cbv zeta.
    apply (moved_then _ _ _ _ (moved_then _ _ _ _ (setCurrentTypeName_moved "" g)
                                 (IH _))).
    apply setCurrentTypeName_moved.
Qed.

(** Backward steps: the state inside the call first. *)
Lemma step_write a g X line :
  moved a g X -> moved a g (Cpp11Generator.writeHeaderLine line X).
Proof. intros H. exact (moved_then _ _ _ _ H (writeHeaderLine_moved _ _)). Qed.

Lemma step_writeSource a g X line :
  moved a g X -> moved a g (Cpp11Generator.writeSourceLine line X).
Proof. intros H. exact (moved_then _ _ _ _ H (writeSourceLine_moved _ _)). Qed.

Lemma step_indent a g X :
  moved a g X -> moved (a + 1) g (Cpp11Generator.indent X).
Proof. intros H. exact (moved_trans _ _ _ _ _ H (indent_moved _)). Qed.

Lemma step_outdent a g X :
  moved a g X -> (0 < Cpp11Generator.indentLevel_ g + a)%Z ->
  moved (a + -1) g (Cpp11Generator.outdent X).
Proof.
  intros H Hl. apply (moved_trans _ _ _ _ _ H). apply outdent_moved.
  rewrite (level_moved _ _ _ H). exact Hl.
Qed.

Lemma step_visitType a g X node :
  moved a g X -> moved a g (Cpp11Generator.visitType node X).
Proof. intros H. exact (moved_then _ _ _ _ H (visitType_moved _ _)). Qed.

Lemma step_setCurrentTypeName a g X n :
  moved a g X -> moved a g (Cpp11Generator.setCurrentTypeName n X).
Proof. intros H. exact (moved_then _ _ _ _ H (setCurrentTypeName_moved _ _)). Qed.

Lemma step_setInInterfaceDecl a g X b :
  moved a g X -> moved a g (Cpp11Generator.setInInterfaceDecl b X).
Proof. intros H. exact (moved_then _ _ _ _ H (setInInterfaceDecl_moved _ _)). Qed.

Lemma step_doxygenBrief a g X brief :
  moved a g X -> moved a g (Cpp11Generator.doxygenBrief brief X).
Proof.
  intros H. unfold Cpp11Generator.doxygenBrief.
  destruct (addDoxygen _); [|exact H].
  repeat apply step_write. exact H.
Qed.

Lemma step_fold {A} (f : Cpp11Generator.t -> A -> Cpp11Generator.t) (lo : Z)
    (l : list A) : forall a g X,
  (forall Y y, (lo <= Cpp11Generator.indentLevel_ Y)%Z -> moved 0 Y (f Y y)) ->
  moved a g X -> (lo <= Cpp11Generator.indentLevel_ g + a)%Z ->
  moved a g (fold_left f l X).
Proof.
  induction l as [|x rest IH]; intros a g X Hf H Hl; [exact H|].
  cbn [fold_left]. apply IH; [exact Hf| |exact Hl].
  apply (moved_then _ _ _ _ H). apply Hf.
  rewrite (level_moved _ _ _ H). exact Hl.
Qed.

Ltac moved_step :=
  lazymatch goal with
  | |- moved _ _ (Cpp11Generator.writeHeaderLine _ _) => eapply step_write
  | |- moved _ _ (Cpp11Generator.writeSourceLine _ _) => eapply step_writeSource
  | |- moved _ _ (Cpp11Generator.indent _) => eapply step_indent
  | |- moved _ _ (Cpp11Generator.visitType _ _) => eapply step_visitType
  | |- moved _ _ (Cpp11Generator.setCurrentTypeName _ _) =>
      eapply step_setCurrentTypeName
  | |- moved _ _ (Cpp11Generator.setInInterfaceDecl _ _) =>
      eapply step_setInInterfaceDecl
  | |- moved _ _ (Cpp11Generator.doxygenBrief _ _) => eapply step_doxygenBrief
  end.

Lemma step_mapType a g X node :
  moved a g X -> moved a g (snd (Cpp11Generator.mapType node X)).
Proof.
  intros H. unfold Cpp11Generator.mapType. cbv zeta. cbn [snd].
  repeat moved_step. exact H.
Qed.

Lemma step_declareMembers a g X members :
  moved a g X -> moved a g (Cpp11Generator.declareMembers members X).
Proof.
  intros H. unfold Cpp11Generator.declareMembers.
  apply (step_fold _ (Cpp11Generator.indentLevel_ g + a)); [|exact H|lia].
  intros Y y _.
  rewrite (surjective_pairing (Cpp11Generator.mapType (member_type y) Y)).
  apply step_write, step_mapType, moved_refl.
Qed.

Lemma enumeratorLines_moved (enumerators : list string) : forall i size a g X,
  moved a g X -> moved a g (Cpp11Generator.enumeratorLines i size enumerators X).
Proof.
  induction enumerators as [|e rest IH]; intros i size a g X H; [exact H|].
  cbn [Cpp11Generator.enumeratorLines]. apply IH, step_write, H.
Qed.

Lemma constructorLoop_moved (members : list StructMemberNode) :
  forall i params inits a g X,
    moved a g X ->
    moved a g (snd (Cpp11Generator.constructorLoop i members params inits X)).
Proof.
  induction members as [|m rest IH]; intros i params inits a g X H; [exact H|].
  cbn [Cpp11Generator.constructorLoop]. cbv zeta.
  rewrite (surjective_pairing (Cpp11Generator.mapType (member_type m) X)).
  apply IH, step_mapType, H.
Qed.

Lemma signatureLoop_moved (parameters : list ParameterNode) :
  forall i sig a g X,
    moved a g X ->
    moved a g (snd (Cpp11Generator.signatureLoop i parameters sig X)).
Proof.
  induction parameters as [|param rest IH]; intros i sig a g X H; [exact H|].
  cbn [Cpp11Generator.signatureLoop]. cbv zeta.
  assert (Hp : moved a g
                 (snd (Cpp11Generator.mapTypeForParameter (param_type param)
                         (direction param) X))).
  { unfold Cpp11Generator.mapTypeForParameter.
    rewrite (surjective_pairing (Cpp11Generator.mapType (param_type param) X)).
    pose proof (step_mapType a g X (param_type param) H) as Hm.
    destruct (direction param); [|exact Hm..].
    destruct (param_type param) as [[] ?| | | |]; exact Hm. }
  rewrite (surjective_pairing (Cpp11Generator.mapTypeForParameter _ _ X)).
  apply IH, Hp.
Qed.

Lemma step_generateStruct a g X name members :
  moved a g X -> (0 <= Cpp11Generator.indentLevel_ g + a)%Z ->
  moved a g (Cpp11Generator.generateStruct name members X).
Proof.
  intros H Hl. unfold Cpp11Generator.generateStruct. cbv zeta.
  eapply moved_eq.
  - repeat first
      [ moved_step
      | eapply step_outdent; [|shelve] ].
    all: try (destruct members; repeat moved_step).
    all: repeat first [ moved_step | eapply step_outdent; [|shelve] ].
    all: try (eapply step_declareMembers; repeat moved_step; exact H).
  - lia.
  Unshelve. all: lia.
Qed.

Ltac moved_auto H :=
  repeat first
    [ moved_step
    | eapply step_outdent; [|shelve]
    | eapply step_declareMembers
    | eapply enumeratorLines_moved
    | eapply constructorLoop_moved
    | eapply signatureLoop_moved
    | eapply step_mapType
    | exact H ].

Lemma step_generateEnum a g X name enumerators :
  moved a g X -> (0 <= Cpp11Generator.indentLevel_ g + a)%Z ->
  moved a g (Cpp11Generator.generateEnum name enumerators X).
Proof.
  intros H Hl. unfold Cpp11Generator.generateEnum. cbv zeta.
  eapply moved_eq; [moved_auto H|lia].
  Unshelve. all: lia.
Qed.

Lemma step_generateTypedef a g X originalType declarators :
  moved a g X ->
  moved a g (Cpp11Generator.generateTypedef originalType declarators X).
Proof.
  intros H. unfold Cpp11Generator.generateTypedef.
  rewrite (surjective_pairing (Cpp11Generator.mapType originalType X)).
  cbv beta iota zeta.
  apply step_write.
  apply (step_fold _ (Cpp11Generator.indentLevel_ g + a)); [| |lia].
  - intros Y y _. apply writeHeaderLine_moved.
  - apply step_mapType, H.
Qed.

Lemma step_generateException a g X name members :
  moved a g X -> (0 <= Cpp11Generator.indentLevel_ g + a)%Z ->
  moved a g (Cpp11Generator.generateException name members X).
Proof.
  intros H Hl. unfold Cpp11Generator.generateException. cbv zeta.
  destruct members as [|m rest].
  - eapply moved_eq; [moved_auto H|lia].
    Unshelve. all: lia.
  - set (members := m :: rest).
    match goal with
    | |- context [Cpp11Generator.constructorLoop 0 members "" "" ?Y] =>
        rewrite (surjective_pairing (Cpp11Generator.constructorLoop 0 members "" "" Y));
        rewrite (surjective_pairing
                   (fst (Cpp11Generator.constructorLoop 0 members "" "" Y)))
    end.
    cbv beta iota.
    eapply moved_eq; [moved_auto H|lia].
    Unshelve. all: lia.
Qed.

Lemma step_generateUnion a g X name discriminatorType cases :
  moved a g X -> (0 <= Cpp11Generator.indentLevel_ g + a)%Z ->
  moved a g (Cpp11Generator.generateUnion name discriminatorType cases X).
Proof.
  intros H Hl. unfold Cpp11Generator.generateUnion. cbv zeta.
  match goal with
  | |- context [Cpp11Generator.mapType discriminatorType ?Y] =>
      rewrite (surjective_pairing (Cpp11Generator.mapType discriminatorType Y))
  end.
  cbv beta iota.
  assert (Hcase1 : forall Y (y : UnionCaseNode), moved 0 Y
            (let '(type, g0) := Cpp11Generator.mapType (case_type y) Y in
             Cpp11Generator.writeHeaderLine ""
               (Cpp11Generator.writeHeaderLine
                  ("void " +:+ case_name y +:+ "(const " +:+ type
                   +:+ "& value) { " +:+ case_name y +:+ "_ = value; }")
                  (Cpp11Generator.writeHeaderLine
                     (type +:+ " " +:+ case_name y +:+ "() const { return "
                      +:+ case_name y +:+ "_; }") g0)))).
  { intros Y y. rewrite (surjective_pairing (Cpp11Generator.mapType (case_type y) Y)).
    cbv beta iota. repeat apply step_write. apply step_mapType, moved_refl. }
  assert (Hcase2 : forall Y (y : UnionCaseNode), moved 0 Y
            (let '(type, g0) := Cpp11Generator.mapType (case_type y) Y in
             Cpp11Generator.writeHeaderLine
               (type +:+ " " +:+ case_name y +:+ "_;") g0)).
  { intros Y y. rewrite (surjective_pairing (Cpp11Generator.mapType (case_type y) Y)).
    cbv beta iota. apply step_write, step_mapType, moved_refl. }
  eapply moved_eq.
  - moved_auto H.
    eapply (step_fold _ (Cpp11Generator.indentLevel_ g + a)); [intros Y y _; apply Hcase2| |].
    + moved_auto H.
      eapply (step_fold _ (Cpp11Generator.indentLevel_ g + a));
        [intros Y y _; apply Hcase1| |].
      * moved_auto H.
      * shelve.
    + shelve.
  - lia.
  Unshelve. all: lia.
Qed.

Lemma generateContent_moved content Y :
  (1 <= Cpp11Generator.indentLevel_ Y)%Z ->
  moved 0 Y (Cpp11Generator.generateContent content Y).
Proof.
  intros Hl. pose proof (moved_refl Y) as H.
  destruct content as [name fqn loc definitions
                      | name fqn loc bases contents abs loc' fwd
                      | name fqn loc members | name fqn loc disc cases
                      | name fqn loc enumerators | name fqn loc type decls
                      | name fqn loc type value | name fqn loc members
                      | name fqn loc returnType parameters raises oneway
                      | name fqn loc type isReadonly];
    cbn [Cpp11Generator.generateContent]; try exact H.
  - (* nested struct *)
    eapply moved_eq.
    + eapply step_indent. eapply step_generateStruct; [|shelve].
      moved_auto H.
    + lia.
  - (* nested enum *)
    eapply moved_eq.
    + eapply step_indent. eapply step_generateEnum; [|shelve].
      moved_auto H.
    + lia.
  - (* operation *)
    unfold Cpp11Generator.mapTypeForReturn.
    rewrite (surjective_pairing (Cpp11Generator.mapType returnType Y)).
    cbv beta iota.
    match goal with
    | |- context [Cpp11Generator.signatureLoop 0 parameters ?sig ?Z] =>
        rewrite (surjective_pairing (Cpp11Generator.signatureLoop 0 parameters sig Z))
    end.
    cbv beta iota zeta.
    do 2 apply step_write.
    destruct parameters as [|param rest]; [moved_auto H|].
    set (parameters := param :: rest).
    match goal with
    | |- context [addDoxygen ?c] => destruct (addDoxygen c)
    end; [|moved_auto H].
    apply step_write.
    eapply (step_fold _ (Cpp11Generator.indentLevel_ Y)); [| |shelve].
    + intros Z z _. apply writeHeaderLine_moved.
    + moved_auto H.
  - (* attribute *)
    rewrite (surjective_pairing (Cpp11Generator.mapType type Y)).
    cbv beta iota zeta.
    apply step_write.
    destruct isReadonly; cbn [negb]; moved_auto H.
  Unshelve. all: lia.
Qed.

Lemma step_generateInterface a g X name baseInterfaces contents isAbstract :
  moved a g X -> (0 <= Cpp11Generator.indentLevel_ g + a)%Z ->
  moved a g (Cpp11Generator.generateInterface name baseInterfaces contents isAbstract X).
Proof.
  intros H Hl. unfold Cpp11Generator.generateInterface. cbv zeta.
  assert (H0 : moved a g
     (if addDoxygen (Cpp11Generator.config_ X)
      then Cpp11Generator.writeHeaderLine " */"
             (if isAbstract
              then Cpp11Generator.writeHeaderLine " * @note This is an abstract interface"
                     (Cpp11Generator.writeHeaderLine (" * @brief IDL interface " +:+ name)
                        (Cpp11Generator.writeHeaderLine "/**" X))
              else Cpp11Generator.writeHeaderLine (" * @brief IDL interface " +:+ name)
                     (Cpp11Generator.writeHeaderLine "/**" X))
      else X)).
  { destruct (addDoxygen _); [|exact H]. destruct isAbstract; moved_auto H. }
  set (Xdoc := if addDoxygen (Cpp11Generator.config_ X) then _ else X) in *.
  clearbody Xdoc.
  match goal with
  | |- moved a g (if ?c then _ else _) => destruct c
  end.
  - eapply moved_eq.
    + moved_auto H0.
      eapply (step_fold _ (Cpp11Generator.indentLevel_ g + a + 1)); [| |shelve].
      * intros Y y HY. apply generateContent_moved. lia.
      * moved_auto H0.
    + lia.
  - eapply moved_eq.
    + moved_auto H0.
      eapply (step_fold _ (Cpp11Generator.indentLevel_ g + a + 1)); [| |shelve].
      * intros Y y HY. apply generateContent_moved. lia.
      * moved_auto H0.
    + lia.
  Unshelve. all: lia.
Qed.

Lemma step_generateConst formatDouble a g X name type value :
  moved a g X ->
  moved a g (Cpp11Generator.generateConst formatDouble name type value X).
Proof.
  intros H. unfold Cpp11Generator.generateConst.
  rewrite (surjective_pairing (Cpp11Generator.mapType type X)).
  cbv beta iota zeta. moved_auto H.
Qed.

(** The namespace of a module: opened, filled, closed. *)
Lemma generateNamespaceBegin_state name g :
  let g1 := Cpp11Generator.generateNamespaceBegin name g in
  Cpp11Generator.config_ g1 = Cpp11Generator.config_ g /\
  Cpp11Generator.namespaceStack_ g1 = Cpp11Generator.namespaceStack_ g ++ [name] /\
  Cpp11Generator.errors_ g1 = Cpp11Generator.errors_ g /\
  extends (Cpp11Generator.header_ g) (Cpp11Generator.header_ g1) /\
  extends (Cpp11Generator.source_ g) (Cpp11Generator.source_ g1) /\
  Cpp11Generator.indentLevel_ g1 = Cpp11Generator.indentLevel_ g.
Proof.
  unfold Cpp11Generator.generateNamespaceBegin. cbv zeta.
  set (X := Cpp11Generator.writeHeaderLine ""
              (Cpp11Generator.writeHeaderLine ("namespace " +:+ name +:+ " {")
                 (Cpp11Generator.writeHeaderLine "" g))).
  assert (HX : moved 0 g X) by (unfold X; repeat apply step_write; apply moved_refl).
  set (Xsrc := Cpp11Generator.setNamespaceStack
               (Cpp11Generator.namespaceStack_ X ++ [name]) X).
  assert (HS : moved 0 Xsrc
                 (Cpp11Generator.writeSourceLine ""
                    (Cpp11Generator.writeSourceLine ("namespace " +:+ name +:+ " {")
                       (Cpp11Generator.writeSourceLine "" Xsrc))))
    by (repeat apply step_writeSource; apply moved_refl).
  destruct (generateImplementation (Cpp11Generator.config_ Xsrc)).
  - split; [reflexivity|]. split; [reflexivity|]. split; [reflexivity|].
    split; [|split; [|reflexivity]].
    + eapply extends_trans; [exact (more_header _ _ _ HX)|exact (more_header _ _ _ HS)].
    + eapply extends_trans; [exact (more_source _ _ _ HX)|exact (more_source _ _ _ HS)].
  - split; [reflexivity|]. split; [reflexivity|]. split; [reflexivity|].
    split; [|split; [|reflexivity]].
    + exact (more_header _ _ _ HX).
    + exact (more_source _ _ _ HX).
Qed.

Lemma generateNamespaceEnd_state g :
  Cpp11Generator.namespaceStack_ g <> [] ->
  let g1 := Cpp11Generator.generateNamespaceEnd g in
  Cpp11Generator.config_ g1 = Cpp11Generator.config_ g /\
  Cpp11Generator.namespaceStack_ g1 = removelast (Cpp11Generator.namespaceStack_ g) /\
  Cpp11Generator.errors_ g1 = Cpp11Generator.errors_ g /\
  extends (Cpp11Generator.header_ g) (Cpp11Generator.header_ g1) /\
  extends (Cpp11Generator.source_ g) (Cpp11Generator.source_ g1) /\
  Cpp11Generator.indentLevel_ g1 = Cpp11Generator.indentLevel_ g.
Proof.
  intros Hne. unfold Cpp11Generator.generateNamespaceEnd.
  destruct (Cpp11Generator.namespaceStack_ g) as [|n0 st] eqn:Hst; [congruence|].
  cbv zeta.
  set (back := List.last (n0 :: st) "").
  set (X := Cpp11Generator.writeHeaderLine ("} // namespace " +:+ back)
              (Cpp11Generator.writeHeaderLine "" g)).
  assert (HX : moved 0 g X) by (unfold X; repeat apply step_write; apply moved_refl).
  set (Xsrc := if generateImplementation (Cpp11Generator.config_ X)
             then Cpp11Generator.writeSourceLine ("} // namespace " +:+ back)
                    (Cpp11Generator.writeSourceLine "" X)
             else X).
  assert (HXsrc : moved 0 g Xsrc).
  { unfold Xsrc. destruct (generateImplementation _); [|exact HX].
    repeat apply step_writeSource. exact HX. }
  split; [exact (same_config _ _ _ HXsrc)|].
  split.
  { cbn [Cpp11Generator.namespaceStack_ Cpp11Generator.setNamespaceStack].
    rewrite (same_namespaces _ _ _ HXsrc), Hst. reflexivity. }
  split; [exact (same_errors _ _ _ HXsrc)|].
  split; [exact (more_header _ _ _ HXsrc)|].
  split; [exact (more_source _ _ _ HXsrc)|].
  rewrite <- (Z.add_0_r (Cpp11Generator.indentLevel_ g)).
  exact (level_moved _ _ _ HXsrc).
Qed.

Section Visiting.

Variable formatDouble : float -> string.

Lemma acceptAll_moved (definitions : list DefinitionNode) :
  Forall (fun node => forall g, (0 <= Cpp11Generator.indentLevel_ g)%Z ->
            settled g (Cpp11Generator.visit formatDouble node g)) definitions ->
  forall g, (0 <= Cpp11Generator.indentLevel_ g)%Z ->
    settled g (fold_left (fun g def => Cpp11Generator.visit formatDouble def g)
                 definitions g).
Proof.
  induction 1 as [|node rest Hnode _ IH]; intros g Hl; [apply moved_refl|].
  cbn [fold_left]. unfold settled.
  apply (moved_then _ _ _ _ (Hnode g Hl)). apply IH.
  rewrite (level_moved _ _ _ (Hnode g Hl)). lia.
Qed.

Lemma visit_module name fqn loc definitions :
  Forall (fun node => forall g, (0 <= Cpp11Generator.indentLevel_ g)%Z ->
            settled g (Cpp11Generator.visit formatDouble node g)) definitions ->
  forall g, (0 <= Cpp11Generator.indentLevel_ g)%Z ->
    settled g (Cpp11Generator.visit formatDouble
                 (ModuleNode name fqn loc definitions) g).
Proof.
  intros Hall g Hl. cbn [Cpp11Generator.visit]. cbv zeta.
  destruct (generateNamespaceBegin_state name g) as (B1 & B2 & B3 & B4 & B5 & B6).
  set (g1 := Cpp11Generator.generateNamespaceBegin name g) in *.
  assert (Hl1 : (0 <= Cpp11Generator.indentLevel_ g1)%Z) by (rewrite B6; exact Hl).
  destruct (acceptAll_moved definitions Hall g1 Hl1) as [V1 V2 V3 V4 V5 V6].
  set (g2 := fold_left _ definitions g1) in *.
  assert (Hne : Cpp11Generator.namespaceStack_ g2 <> []).
  { rewrite V2, B2. destruct (Cpp11Generator.namespaceStack_ g); discriminate. }
  destruct (generateNamespaceEnd_state g2 Hne) as (E1 & E2 & E3 & E4 & E5 & E6).
  split.
  - rewrite E1, V1, B1. reflexivity.
  - rewrite E2, V2, B2. apply removelast_last.
  - rewrite E3, V3, B3. reflexivity.
  - exact (extends_trans _ _ _ (extends_trans _ _ _ B4 V4) E4).
  - exact (extends_trans _ _ _ (extends_trans _ _ _ B5 V5) E5).
  - rewrite E6, V6, B6. reflexivity.
Qed.

Lemma visit_settled : forall (node : DefinitionNode) (g : Cpp11Generator.t),
  (0 <= Cpp11Generator.indentLevel_ g)%Z ->
  settled g (Cpp11Generator.visit formatDouble node g).
Proof.
  fix IH 1. intros node g Hl.
  destruct node as [name fqn loc definitions| name fqn loc bases contents abs loc' fwd
                   | name fqn loc members | name fqn loc disc cases
                   | name fqn loc enumerators | name fqn loc type decls
                   | name fqn loc type value | name fqn loc members
                   | name fqn loc ret params raises oneway
                   | name fqn loc type readonly].
  - apply visit_module; [|exact Hl].
    induction definitions as [|d rest IHd]; [apply Forall_nil_2|].
    apply Forall_cons_2; [exact (IH d)|exact IHd].
  - cbn [Cpp11Generator.visit]. destruct fwd.
    + repeat apply step_write. apply moved_refl.
    + apply step_generateInterface; [apply moved_refl|lia].
  - apply step_generateStruct; [apply moved_refl|lia].
  - apply step_generateUnion; [apply moved_refl|lia].
  - apply step_generateEnum; [apply moved_refl|lia].
  - apply step_generateTypedef, moved_refl.
  - apply step_generateConst, moved_refl.
  - apply step_generateException; [apply moved_refl|lia].
  - apply moved_refl.
  - apply moved_refl.
Qed.

End Visiting.

(** X20: the generated code is balanced.  From a generator whose
    indentation level is not negative, the visit of a definition of any
    kind, with everything nested in it, only appends to the header and to
    the source text and leaves the indentation level, the stack of open
    namespaces, the errors and the configuration as they were: every
    [indent] is undone and every namespace that is opened is closed.  So
    [generate] ends, for every translation unit, at level 0 with no
    namespace open and without an error in [errors_], before it writes
    the files. *)
Theorem generated_code_is_balanced
    (formatDouble : float -> string) (stem : string -> string) :
  (forall (node : DefinitionNode) (g : Cpp11Generator.t),
     (0 <= Cpp11Generator.indentLevel_ g)%Z ->
     settled g (Cpp11Generator.visit formatDouble node g)) /\
  (forall (unit : TranslationUnit) (g : Cpp11Generator.t),
     let g' := Cpp11Generator.generate formatDouble stem unit g in
     Cpp11Generator.errors_ g' = [] /\
     Cpp11Generator.indentLevel_ g' = 0%Z /\
     Cpp11Generator.namespaceStack_ g' = [] /\
     Cpp11Generator.headerContent_ g' = Cpp11Generator.header_ g' /\
     Cpp11Generator.sourceContent_ g' = Cpp11Generator.source_ g' /\
     Cpp11Generator.config_ g' = Cpp11Generator.config_ g).
Proof.
  split; [exact (visit_settled formatDouble)|].
  intros unit g. unfold Cpp11Generator.generate. cbv zeta.
  set (g0 := Cpp11Generator.mk (Cpp11Generator.config_ g) "" ""
               (Cpp11Generator.headerContent_ g) (Cpp11Generator.sourceContent_ g)
               [] 0 [] (Cpp11Generator.currentTypeName_ g)
               (Cpp11Generator.inInterfaceDecl_ g)).
  set (g1 := if addIncludeGuards (Cpp11Generator.config_ g0)
             then Cpp11Generator.generateIncludeGuardBegin (stem (unit_filename unit)) g0
             else g0).
  assert (H1 : moved 0 g0 g1).
  { unfold g1. destruct (addIncludeGuards (Cpp11Generator.config_ g0)); [|apply moved_refl].
    unfold Cpp11Generator.generateIncludeGuardBegin. cbv zeta.
    repeat apply step_write. apply moved_refl. }
  set (g2 := Cpp11Generator.writeHeaderLine "" (Cpp11Generator.generateIncludes g1)).
  assert (H2 : moved 0 g0 g2).
  { unfold g2, Cpp11Generator.generateIncludes. cbn [fold_left].
    repeat apply step_write. exact H1. }
  set (g3 := Cpp11Generator.acceptAll formatDouble (unit_definitions unit) g2).
  assert (H3 : moved 0 g0 g3).
  { apply (moved_then _ _ _ _ H2). unfold g3, Cpp11Generator.acceptAll.
    apply acceptAll_moved.
    - apply Forall_forall. intros node _. apply visit_settled.
    - rewrite (level_moved _ _ _ H2). cbn. lia. }
  set (g4 := if addIncludeGuards (Cpp11Generator.config_ g3)
             then Cpp11Generator.generateIncludeGuardEnd g3 else g3).
  assert (H4 : moved 0 g0 g4).
  { unfold g4. destruct (addIncludeGuards (Cpp11Generator.config_ g3)); [|exact H3].
    unfold Cpp11Generator.generateIncludeGuardEnd.
    repeat apply step_write. exact H3. }
  cbn [Cpp11Generator.errors_ Cpp11Generator.indentLevel_ Cpp11Generator.namespaceStack_
       Cpp11Generator.headerContent_ Cpp11Generator.sourceContent_
       Cpp11Generator.header_ Cpp11Generator.source_ Cpp11Generator.config_].
  split; [exact (same_errors _ _ _ H4)|].
  split; [exact (level_moved _ _ _ H4)|].
  split; [exact (same_namespaces _ _ _ H4)|].
  split; [reflexivity|]. split; [reflexivity|].
  exact (same_config _ _ _ H4).
Qed.

(** [module M { struct S { long a ; } ; } ;] from a fresh generator. *)
Lemma generated_code_is_balanced_witness :
  let g := Cpp11Generator.new defaultConfig in
  let g' := Cpp11Generator.visit (fun _ => "") Generated.structInModule g in
  (0 <= Cpp11Generator.indentLevel_ g)%Z /\
  settled g g' /\
  Text.startsWith (newline +:+ "namespace M {" +:+ newline) (Cpp11Generator.header_ g')
  = true /\
  Text.contains ("    int32_t a;" +:+ newline) (Cpp11Generator.header_ g') = true /\
  Text.contains ("} // namespace M" +:+ newline) (Cpp11Generator.header_ g') = true /\
  Cpp11Generator.source_ g'
  = newline +:+ "namespace M {" +:+ newline +:+ newline +:+ newline
    +:+ "} // namespace M" +:+ newline.
Proof.
  intros g g'.
  assert (Hl : (0 <= Cpp11Generator.indentLevel_ g)%Z) by (cbn; lia).
  split; [exact Hl|].
  split; [exact (proj1 (generated_code_is_balanced (fun _ => "") (fun s => s))
                   Generated.structInModule g Hl)|].
  repeat split; vm_compute; reflexivity.
Defined.

(** ** The include guard *)

Lemma allChars_append (f : ascii -> bool) (a b : string) :
  allChars f (a +:+ b) = allChars f a && allChars f b.
Proof.
  induction a as [|c a IH]; [reflexivity|].
  rewrite append_cons. cbn [allChars]. rewrite IH, andb_assoc. reflexivity.
Qed.

Lemma allChars_string_map (p q : ascii -> bool) (f : ascii -> ascii) (s : string) :
  (forall c, p c = true -> q (f c) = true) ->
  allChars p s = true -> allChars q (string_map f s) = true.
Proof.
  intros Hf. induction s as [|c s IH]; [reflexivity|].
  cbn [allChars string_map]. intros H. apply andb_true_iff in H.
  destruct H as [Hc Hs]. rewrite (Hf c Hc), (IH Hs). reflexivity.
Qed.

Lemma guardChar_of_prefix (c : ascii) :
  prefixChar c = true -> guardChar (toupper c) = true.
Proof.
  destruct c as [[] [] [] [] [] [] [] []]; vm_compute; intros H;
    first [reflexivity|discriminate H].
Qed.

Lemma guardChar_of_filename (c : ascii) :
  isAscii c = true -> guardChar (if isalnum c then toupper c else "_"%char) = true.
Proof.
  destruct c as [[] [] [] [] [] [] [] []]; vm_compute; intros H;
    first [reflexivity|discriminate H].
Qed.

(** X21: the include guard is a macro name.  For a file name of ASCII
    characters (the characters [std::isalnum] is defined on) and a
    namespace prefix of letters, digits and underscores, the guard that
    [makeIncludeGuard] builds starts with [IBORB_GENERATED_], ends with
    [_HPP] and consists of upper-case letters, digits and underscores
    only, whatever punctuation the file name has. *)
Theorem include_guard_is_a_macro_name (g : Cpp11Generator.t) (filename : string) :
  allChars isAscii filename = true ->
  allChars prefixChar (namespacePrefix (Cpp11Generator.config_ g)) = true ->
  allChars guardChar (Cpp11Generator.makeIncludeGuard g filename) = true /\
  Text.startsWith "IBORB_GENERATED_" (Cpp11Generator.makeIncludeGuard g filename) = true /\
  exists body, Cpp11Generator.makeIncludeGuard g filename = body +:+ "_HPP".
Proof.
  intros Hfile Hprefix. unfold Cpp11Generator.makeIncludeGuard. cbv zeta.
  pose proof (allChars_string_map _ _ _ _ guardChar_of_filename Hfile) as Hf.
  pose proof (allChars_string_map _ _ _ _ guardChar_of_prefix Hprefix) as Hp.
  split; [|split].
  - destruct (String.eqb _ ""); rewrite !allChars_append.
    + rewrite Hf. reflexivity.
    + rewrite Hf, Hp. reflexivity.
  - destruct (String.eqb _ ""); reflexivity.
  - eexists. reflexivity.
Qed.

(** The guard of [my-types.v2] with the prefix [acme]. *)
Lemma include_guard_is_a_macro_name_witness :
  let g := Cpp11Generator.new
             (mkConfig "." ".hpp" ".cpp" "acme" true true true true "    ") in
  (allChars isAscii "my-types.v2" = true /\
   allChars prefixChar (namespacePrefix (Cpp11Generator.config_ g)) = true) /\
  Cpp11Generator.makeIncludeGuard g "my-types.v2"
  = "IBORB_GENERATED_ACME_MY_TYPES_V2_HPP" /\
  allChars guardChar (Cpp11Generator.makeIncludeGuard g "my-types.v2") = true.
Proof.
  intros g.
  assert (H1 : allChars isAscii "my-types.v2" = true) by reflexivity.
  assert (H2 : allChars prefixChar (namespacePrefix (Cpp11Generator.config_ g)) = true)
    by reflexivity.
  split; [split; [exact H1|exact H2]|].
  split; [reflexivity|].
  exact (proj1 (include_guard_is_a_macro_name g "my-types.v2" H1 H2)).
Defined.

(** ** Bounds *)

Lemma visitType_unbounded (node : TypeNode) : forall g g',
  Cpp11Generator.currentTypeName_ (Cpp11Generator.visitType node g)
  = Cpp11Generator.currentTypeName_
      (Cpp11Generator.visitType (unbounded node) g').
Proof.
  induction node as [ty loc|elem IH bound loc|bound wide loc|parts abs loc
                    |elem IH dims loc];
    intros g g'; cbn [Cpp11Generator.visitType unbounded]; try reflexivity.
  - cbv zeta. cbn [Cpp11Generator.currentTypeName_ Cpp11Generator.setCurrentTypeName].
    rewrite (IH _ (Cpp11Generator.setCurrentTypeName "" g')). reflexivity.
  - cbv zeta. cbn [Cpp11Generator.currentTypeName_ Cpp11Generator.setCurrentTypeName].
    rewrite (IH _ (Cpp11Generator.setCurrentTypeName "" g')). reflexivity.
Qed.

(** X22: the C++ type of an IDL type does not depend on its bounds.
    [mapType] gives a type the name it gives the type without the bounds
    of its sequences and strings, at any depth, and the name depends on
    nothing in the generator: [sequence<T, n>] is [std::vector] of the
    element type and [string<n>] is [std::string], as without [n], and
    the bound appears nowhere in the generated code. *)
Theorem bounds_are_dropped_by_the_mapping :
  (forall (node : TypeNode) (g g' : Cpp11Generator.t),
     fst (Cpp11Generator.mapType node g)
     = fst (Cpp11Generator.mapType (unbounded node) g')) /\
  (forall elementType bound loc g,
     fst (Cpp11Generator.mapType (SequenceTypeNode elementType bound loc) g)
     = "std::vector<" +:+ fst (Cpp11Generator.mapType elementType g) +:+ ">") /\
  (forall bound isWide loc g,
     fst (Cpp11Generator.mapType (StringTypeNode bound isWide loc) g)
     = if isWide then "std::wstring" else "std::string").
Proof.
  split; [|split].
  - intros node g g'. unfold Cpp11Generator.mapType. cbv zeta. cbn [fst].
    apply visitType_unbounded.
  - intros elementType bound loc g. reflexivity.
  - intros bound isWide loc g. reflexivity.
Qed.

(** ** The scopes and the diagnostics over a whole parse *)

Import Balance.

Lemma steady_refl p : steady p p.
Proof. split; [reflexivity|exists []; rewrite app_nil_r; reflexivity|auto]. Qed.

Lemma steady_trans p q r : steady p q -> steady q r -> steady p r.
Proof.
  intros [H1 [m1 H2] H3] [K1 [m2 K2] K3]. split.
  - rewrite K1. exact H1.
  - exists (m1 ++ m2). rewrite K2, H2, app_assoc. reflexivity.
  - auto.
Qed.

Lemma inside_steady inner p0 p p' : inside inner p0 p -> steady p p' -> inside inner p0 p'.
Proof.
  intros [H1 [m1 H2] H3] [K1 [m2 K2] K3]. split.
  - rewrite K1. exact H1.
  - exists (m1 ++ m2). rewrite K2, H2, app_assoc. reflexivity.
  - auto.
Qed.

Lemma inside_nil p0 p : inside [] p0 p -> steady p0 p.
Proof. intros [H1 H2 H3]. split; assumption. Qed.

(** *** The primitives *)

Lemma advanceLoop_errors (upcoming : list (Token * list LexerError)) :
  forall lexErrors endLoc errors,
    exists more,
      snd (Parser.advanceLoop upcoming lexErrors endLoc errors) = errors ++ more.
Proof.
  induction upcoming as [|[tok errs] rest IH]; intros lexErrors endLoc errors.
  - exists []. cbn. rewrite app_nil_r. reflexivity.
  - cbn [Parser.advanceLoop]. cbv zeta.
    destruct (Parser.check_type TokenType.LineDirective tok); [apply IH|].
    destruct (Parser.check_type TokenType.Unknown tok); cbn [negb].
    + destruct (IH (lexErrors ++ errs) endLoc
                  (errors ++ map (fun err => mkParserError (lex_message err)
                                     (lex_location err) false) (lexErrors ++ errs)))
        as [more Hm].
      eexists. rewrite Hm, <- app_assoc. reflexivity.
    + exists []. cbn. rewrite app_nil_r. reflexivity.
Qed.

Lemma steady_advance p : steady p (Parser.advance p).
Proof.
  unfold Parser.advance.
  destruct (advanceLoop_errors (upcoming (lexer_ p)) (lexer_errors_ (lexer_ p))
              (endLocation (lexer_ p)) (errors_ p)) as [more Hm].
  destruct (Parser.advanceLoop _ _ _ _) as [[tok lx] errs]. cbn [snd] in Hm.
  split; cbn; [reflexivity|exists more; exact Hm|auto].
Qed.

Lemma steady_errorAt tok msg p : steady p (Parser.errorAt tok msg p).
Proof.
  unfold Parser.errorAt. destruct (panicMode_ p); [apply steady_refl|].
  split; cbn; [reflexivity|eexists; reflexivity|auto].
Qed.

Lemma steady_error msg p : steady p (Parser.error msg p).
Proof. apply steady_errorAt. Qed.

Lemma steady_warning msg p : steady p (Parser.warning msg p).
Proof. split; cbn; [reflexivity|eexists; reflexivity|auto]. Qed.

Lemma steady_expect type msg p : steady p (Parser.expect type msg p).
Proof.
  unfold Parser.expect. destruct (Parser.check type p);
    [apply steady_advance|apply steady_errorAt].
Qed.

Lemma steady_expectSemicolon p : steady p (Parser.expectSemicolon p).
Proof. apply steady_expect. Qed.

Lemma steady_match type p : steady p (snd (Parser.match_ type p)).
Proof.
  unfold Parser.match_. destruct (Parser.check type p); cbn [snd];
    [apply steady_advance|apply steady_refl].
Qed.

Lemma steady_synchronizeLoop (fuel : nat) : forall p,
  steady p (Parser.synchronizeLoop fuel p).
Proof.
  induction fuel as [|fuel IH]; intros p; [apply steady_refl|].
  cbn [Parser.synchronizeLoop].
  destruct (Parser.check TokenType.Eof p); [apply steady_refl|].
  destruct (Parser.check_type TokenType.Semicolon (previousToken_ p));
    [apply steady_refl|].
  destruct (Parser.check_type TokenType.RightBrace (previousToken_ p)).
  - destruct (Parser.check TokenType.Semicolon p);
      [apply steady_advance|apply steady_refl].
  - destruct (Parser.isDefinitionStart p); [apply steady_refl|].
    exact (steady_trans _ _ _ (steady_advance p) (IH _)).
Qed.

Lemma steady_synchronize p : steady p (Parser.synchronize p).
Proof.
  unfold Parser.synchronize.
  refine (steady_trans _ _ _ _ (steady_synchronizeLoop _ _)).
  split; cbn; [reflexivity|exists []; rewrite app_nil_r; reflexivity|auto].
Qed.

Lemma steady_addSymbol name kind node p :
  steady p (Parser.withSymbolTable
              (fun t => snd (SymbolTable.addSymbol t name kind node)) p).
Proof.
  split; cbn; [reflexivity|exists []; rewrite app_nil_r; reflexivity|].
  apply valid_addSymbol.
Qed.

Lemma inside_enterScope inner p0 p name :
  inside inner p0 p ->
  exists i,
    inside (i :: inner) p0
      (Parser.withSymbolTable (fun t => SymbolTable.enterScope t name) p).
Proof.
  intros [H1 H2 H3].
  assert (Hc : exists i,
            currentScope_ (SymbolTable.enterScope (symbolTable_ p) name)
            = i :: currentScope_ (symbolTable_ p)).
  { unfold SymbolTable.enterScope.
    destruct (Scope.childIndex _ _); eexists; reflexivity. }
  destruct Hc as [i Hi]. exists i. split; cbn.
  - rewrite Hi, H1. reflexivity.
  - exact H2.
  - intros Hv. apply valid_enterScope, H3, Hv.
Qed.

Lemma inside_leaveScope i inner p0 p :
  inside (i :: inner) p0 p ->
  inside inner p0 (Parser.withSymbolTable SymbolTable.leaveScope p).
Proof.
  intros [H1 H2 H3]. split; cbn.
  - unfold SymbolTable.leaveScope. rewrite H1. reflexivity.
  - exact H2.
  - intros Hv. apply valid_leaveScope, H3, Hv.
Qed.

(** *** The monad *)

Lemma keeps_ret {A} (a : A) : keeps (ret a).
Proof. intros p. apply steady_refl. Qed.

Lemma keeps_ask {A} (f : Parser -> A) : keeps (ask f).
Proof. intros p. apply steady_refl. Qed.

Lemma keeps_act (f : Parser -> Parser) : (forall p, steady p (f p)) -> keeps (act f).
Proof. intros H p. apply H. Qed.

Lemma keeps_call {A} (f : Parser -> A * Parser) :
  (forall p, steady p (snd (f p))) -> keeps (call f).
Proof. intros H p. apply H. Qed.

Lemma keeps_outOfFuel {A} : keeps (@outOfFuel A).
Proof. intros p. exact I. Qed.

Lemma keeps_throw {A} : keeps (@throwBadVariantAccess A).
Proof. intros p. exact I. Qed.

Lemma keeps_undefined {A} : keeps (@undefined A).
Proof. intros p. exact I. Qed.

Lemma keeps_safe {A} (m : M A) : (forall p0, safe p0 [] m) -> keeps m.
Proof.
  intros H p. apply (H p p). split; [reflexivity|exists []; rewrite app_nil_r; reflexivity|auto].
Qed.

Lemma safe_keeps {A} p0 (m : M A) : keeps m -> safe p0 [] m.
Proof.
  intros H p Hp. specialize (H p). destruct (m p) as [a p'| | |]; try exact I.
  exact (steady_trans _ _ _ (inside_nil _ _ Hp) H).
Qed.

Lemma safe_bind {A B} p0 inner (m : M A) (k : A -> M B) :
  keeps m -> (forall a, safe p0 inner (k a)) -> safe p0 inner (bind m k).
Proof.
  intros Hm Hk p Hp. unfold bind. specialize (Hm p).
  destruct (m p) as [a p1| | |]; try exact I.
  apply (Hk a p1). exact (inside_steady _ _ _ _ Hp Hm).
Qed.

Lemma safe_enter {B} p0 inner name (k : unit -> M B) :
  (forall i, safe p0 (i :: inner) (k tt)) ->
  safe p0 inner (bind (Parser.enterScope name) k).
Proof.
  intros Hk p Hp. unfold bind, Parser.enterScope, act.
  destruct (inside_enterScope _ _ _ name Hp) as [i Hi].
  exact (Hk i _ Hi).
Qed.

Lemma safe_leave {B} p0 i inner (k : unit -> M B) :
  safe p0 inner (k tt) ->
  safe p0 (i :: inner) (bind Parser.leaveScope k).
Proof.
  intros Hk p Hp. unfold bind, Parser.leaveScope, act.
  exact (Hk _ (inside_leaveScope _ _ _ _ Hp)).
Qed.

Create HintDb balance discriminated.

#[local] Hint Resolve keeps_ret keeps_ask keeps_outOfFuel keeps_throw
  keeps_undefined : balance.
#[local] Hint Resolve steady_advance steady_error steady_errorAt steady_warning
  steady_expect steady_expectSemicolon steady_match steady_synchronize
  steady_addSymbol : balance.

Lemma keeps_addSymbol name kind node : keeps (Parser.addSymbol name kind node).
Proof. apply keeps_act. intros p. apply steady_addSymbol. Qed.

Lemma keeps_currentLocation : keeps Parser.currentLocation.
Proof. apply keeps_ask. Qed.

Lemma keeps_currentText : keeps Parser.currentText.
Proof. apply keeps_ask. Qed.

Lemma keeps_getCurrentScopeName : keeps Parser.getCurrentScopeName.
Proof. apply keeps_ask. Qed.

Lemma keeps_buildFullyQualifiedName name : keeps (Parser.buildFullyQualifiedName name).
Proof. apply keeps_ask. Qed.

#[local] Hint Resolve keeps_addSymbol keeps_currentLocation keeps_currentText
  keeps_getCurrentScopeName keeps_buildFullyQualifiedName : balance.

(** One step through the body of a parsing function. *)
Ltac safe_step :=
  cbv zeta;
  lazymatch goal with
  | |- safe _ _ (bind (Parser.enterScope _) _) => apply safe_enter; intros ?
  | |- safe _ _ (bind Parser.leaveScope _) => apply safe_leave
  | |- safe _ _ (bind _ _) => apply safe_bind; [|intros ?]
  | |- safe _ _ (if ?b then _ else _) => destruct b
  | |- safe _ _ (match ?v with _ => _ end) => destruct v
  | |- safe _ [] _ => apply safe_keeps
  | |- keeps (act _) => apply keeps_act; intros ?; auto with balance
  | |- keeps (call _) => apply keeps_call; intros ?; auto with balance
  | |- keeps (if ?b then _ else _) => destruct b
  | |- keeps (match ?v with _ => _ end) => destruct v
  | |- keeps (bind _ _) => apply keeps_safe; intros ?
  | |- keeps _ => solve [auto with balance]
  end.

Ltac keeps_body := apply keeps_safe; intros ?; repeat safe_step.

Lemma keeps_constantPartsLoop (fuel : nat) : forall parts,
  keeps (Parser.constantPartsLoop fuel parts).
Proof.
  induction fuel as [|fuel IH]; intros parts; cbn [Parser.constantPartsLoop];
    [apply keeps_outOfFuel|].
  keeps_body.
Qed.

#[local] Hint Resolve keeps_constantPartsLoop : balance.

(** *** Constant expressions *)

Section ExpressionsKeep.

Variable rec : M ConstValue.
Hypothesis keeps_rec : keeps rec.

Lemma keeps_parsePrimaryExpr fuel : keeps (Parser.parsePrimaryExpr rec fuel).
Proof. unfold Parser.parsePrimaryExpr. keeps_body. Qed.

Lemma keeps_parseUnaryExpr fuel : keeps (Parser.parseUnaryExpr rec fuel).
Proof.
  pose proof keeps_parsePrimaryExpr.
  induction fuel as [|fuel IH]; cbn [Parser.parseUnaryExpr];
    [apply keeps_outOfFuel|keeps_body].
Qed.

Lemma keeps_mulLoop fuel : forall left, keeps (Parser.mulLoop rec fuel left).
Proof.
  pose proof keeps_parseUnaryExpr.
  induction fuel as [|fuel IH]; intros left; cbn [Parser.mulLoop];
    [apply keeps_outOfFuel|keeps_body].
Qed.

Lemma keeps_parseMulExpr fuel : keeps (Parser.parseMulExpr rec fuel).
Proof.
  pose proof keeps_parseUnaryExpr. pose proof keeps_mulLoop.
  unfold Parser.parseMulExpr. keeps_body.
Qed.

Lemma keeps_addLoop fuel : forall left, keeps (Parser.addLoop rec fuel left).
Proof.
  pose proof keeps_parseMulExpr.
  induction fuel as [|fuel IH]; intros left; cbn [Parser.addLoop];
    [apply keeps_outOfFuel|keeps_body].
Qed.

Lemma keeps_parseAddExpr fuel : keeps (Parser.parseAddExpr rec fuel).
Proof.
  pose proof keeps_parseMulExpr. pose proof keeps_addLoop.
  unfold Parser.parseAddExpr. keeps_body.
Qed.

Lemma keeps_shiftLoop fuel : forall left, keeps (Parser.shiftLoop rec fuel left).
Proof.
  pose proof keeps_parseAddExpr.
  induction fuel as [|fuel IH]; intros left; cbn [Parser.shiftLoop];
    [apply keeps_outOfFuel|keeps_body].
Qed.

Lemma keeps_parseShiftExpr fuel : keeps (Parser.parseShiftExpr rec fuel).
Proof.
  pose proof keeps_parseAddExpr. pose proof keeps_shiftLoop.
  unfold Parser.parseShiftExpr. keeps_body.
Qed.

Lemma keeps_andLoop fuel : forall left, keeps (Parser.andLoop rec fuel left).
Proof.
  pose proof keeps_parseShiftExpr.
  induction fuel as [|fuel IH]; intros left; cbn [Parser.andLoop];
    [apply keeps_outOfFuel|keeps_body].
Qed.

Lemma keeps_parseAndExpr fuel : keeps (Parser.parseAndExpr rec fuel).
Proof.
  pose proof keeps_parseShiftExpr. pose proof keeps_andLoop.
  unfold Parser.parseAndExpr. keeps_body.
Qed.

Lemma keeps_xorLoop fuel : forall left, keeps (Parser.xorLoop rec fuel left).
Proof.
  pose proof keeps_parseAndExpr.
  induction fuel as [|fuel IH]; intros left; cbn [Parser.xorLoop];
    [apply keeps_outOfFuel|keeps_body].
Qed.

Lemma keeps_parseXorExpr fuel : keeps (Parser.parseXorExpr rec fuel).
Proof.
  pose proof keeps_parseAndExpr. pose proof keeps_xorLoop.
  unfold Parser.parseXorExpr. keeps_body.
Qed.

Lemma keeps_orLoop fuel : forall left, keeps (Parser.orLoop rec fuel left).
Proof.
  pose proof keeps_parseXorExpr.
  induction fuel as [|fuel IH]; intros left; cbn [Parser.orLoop];
    [apply keeps_outOfFuel|keeps_body].
Qed.

Lemma keeps_parseOrExpr fuel : keeps (Parser.parseOrExpr rec fuel).
Proof.
  pose proof keeps_parseXorExpr. pose proof keeps_orLoop.
  unfold Parser.parseOrExpr. keeps_body.
Qed.

End ExpressionsKeep.

Lemma keeps_parseConstExpr fuel : keeps (Parser.parseConstExpr fuel).
Proof.
  induction fuel as [|fuel IH]; cbn [Parser.parseConstExpr];
    [apply keeps_outOfFuel|].
  apply keeps_parseOrExpr, IH.
Qed.

#[local] Hint Resolve keeps_parseConstExpr : balance.

(** *** Types *)

Lemma keeps_parseBasicType : keeps Parser.parseBasicType.
Proof. unfold Parser.parseBasicType. keeps_body. Qed.

#[local] Hint Resolve keeps_parseBasicType : balance.

Lemma keeps_parseBaseTypeSpec : keeps Parser.parseBaseTypeSpec.
Proof. unfold Parser.parseBaseTypeSpec. keeps_body. Qed.

Lemma keeps_parseStringType fuel isWide : keeps (Parser.parseStringType fuel isWide).
Proof. unfold Parser.parseStringType. keeps_body. Qed.

Lemma keeps_scopedNameLoop fuel : forall parts, keeps (Parser.scopedNameLoop fuel parts).
Proof.
  induction fuel as [|fuel IH]; intros parts; cbn [Parser.scopedNameLoop];
    [apply keeps_outOfFuel|keeps_body].
Qed.

#[local] Hint Resolve keeps_parseBaseTypeSpec keeps_parseStringType
  keeps_scopedNameLoop : balance.

Lemma keeps_parseScopedName fuel : keeps (Parser.parseScopedName fuel).
Proof. unfold Parser.parseScopedName. keeps_body. Qed.

#[local] Hint Resolve keeps_parseScopedName : balance.

Section TypesKeep.

Variable rec : M (option TypeNode).
Hypothesis keeps_rec : keeps rec.

Lemma keeps_parseSequenceType fuel : keeps (Parser.parseSequenceType rec fuel).
Proof. unfold Parser.parseSequenceType. keeps_body. Qed.

Lemma keeps_parseSimpleTypeSpec fuel : keeps (Parser.parseSimpleTypeSpec fuel).
Proof. unfold Parser.parseSimpleTypeSpec. keeps_body. Qed.

Lemma keeps_parseTypeSpecBody fuel : keeps (Parser.parseTypeSpecBody rec fuel).
Proof.
  pose proof keeps_parseSequenceType. pose proof keeps_parseSimpleTypeSpec.
  unfold Parser.parseTypeSpecBody. keeps_body.
Qed.

End TypesKeep.

Lemma keeps_parseTypeSpec fuel : keeps (Parser.parseTypeSpec fuel).
Proof.
  induction fuel as [|fuel IH]; cbn [Parser.parseTypeSpec];
    [apply keeps_outOfFuel|].
  apply keeps_parseTypeSpecBody, IH.
Qed.

#[local] Hint Resolve keeps_parseTypeSpec : balance.

(** *** Declarators and members *)

Lemma keeps_dimensionsLoop fuel : forall dims, keeps (Parser.dimensionsLoop fuel dims).
Proof.
  induction fuel as [|fuel IH]; intros dims; cbn [Parser.dimensionsLoop];
    [apply keeps_outOfFuel|keeps_body].
Qed.

#[local] Hint Resolve keeps_dimensionsLoop : balance.

Lemma keeps_parseDeclarator fuel : keeps (Parser.parseDeclarator fuel).
Proof. unfold Parser.parseDeclarator. keeps_body. Qed.

#[local] Hint Resolve keeps_parseDeclarator : balance.

Lemma keeps_declaratorsLoop fuel : forall decls,
  keeps (Parser.declaratorsLoop fuel decls).
Proof.
  induction fuel as [|fuel IH]; intros decls; cbn [Parser.declaratorsLoop];
    [apply keeps_outOfFuel|keeps_body].
Qed.

#[local] Hint Resolve keeps_declaratorsLoop : balance.

Lemma keeps_parseDeclarators fuel : keeps (Parser.parseDeclarators fuel).
Proof. unfold Parser.parseDeclarators. keeps_body. Qed.

#[local] Hint Resolve keeps_parseDeclarators : balance.

Lemma keeps_parseStructMember fuel : keeps (Parser.parseStructMember fuel).
Proof. unfold Parser.parseStructMember. keeps_body. Qed.

Lemma keeps_labelsLoop fuel : forall labels, keeps (Parser.labelsLoop fuel labels).
Proof.
  induction fuel as [|fuel IH]; intros labels; cbn [Parser.labelsLoop];
    [apply keeps_outOfFuel|keeps_body].
Qed.

#[local] Hint Resolve keeps_parseStructMember keeps_labelsLoop : balance.

Lemma keeps_parseUnionCase fuel : keeps (Parser.parseUnionCase fuel).
Proof. unfold Parser.parseUnionCase. keeps_body. Qed.

(** *** Interface members *)

Lemma keeps_parseParamDirection : keeps Parser.parseParamDirection.
Proof. unfold Parser.parseParamDirection. keeps_body. Qed.

#[local] Hint Resolve keeps_parseUnionCase keeps_parseParamDirection : balance.

Lemma keeps_parseParameter fuel : keeps (Parser.parseParameter fuel).
Proof. unfold Parser.parseParameter. keeps_body. Qed.

Lemma keeps_raisesTailLoop fuel : forall excName,
  keeps (Parser.raisesTailLoop fuel excName).
Proof.
  induction fuel as [|fuel IH]; intros excName; cbn [Parser.raisesTailLoop];
    [apply keeps_outOfFuel|keeps_body].
Qed.

#[local] Hint Resolve keeps_parseParameter keeps_raisesTailLoop : balance.

Lemma keeps_raisesLoop fuel : forall exceptions,
  keeps (Parser.raisesLoop fuel exceptions).
Proof.
  induction fuel as [|fuel IH]; intros exceptions; cbn [Parser.raisesLoop];
    [apply keeps_outOfFuel|keeps_body].
Qed.

#[local] Hint Resolve keeps_raisesLoop : balance.

Lemma keeps_parseRaisesExpr fuel : keeps (Parser.parseRaisesExpr fuel).
Proof. unfold Parser.parseRaisesExpr. keeps_body. Qed.

Lemma keeps_inheritanceTailLoop fuel : forall baseName,
  keeps (Parser.inheritanceTailLoop fuel baseName).
Proof.
  induction fuel as [|fuel IH]; intros baseName; cbn [Parser.inheritanceTailLoop];
    [apply keeps_outOfFuel|keeps_body].
Qed.

#[local] Hint Resolve keeps_parseRaisesExpr keeps_inheritanceTailLoop : balance.

Lemma keeps_inheritanceLoop fuel : forall bases,
  keeps (Parser.inheritanceLoop fuel bases).
Proof.
  induction fuel as [|fuel IH]; intros bases; cbn [Parser.inheritanceLoop];
    [apply keeps_outOfFuel|keeps_body].
Qed.

#[local] Hint Resolve keeps_inheritanceLoop : balance.

Lemma keeps_parseInheritanceSpec fuel : keeps (Parser.parseInheritanceSpec fuel).
Proof. unfold Parser.parseInheritanceSpec. keeps_body. Qed.

Lemma keeps_parametersLoop fuel : forall parameters,
  keeps (Parser.parametersLoop fuel parameters).
Proof.
  induction fuel as [|fuel IH]; intros parameters; cbn [Parser.parametersLoop];
    [apply keeps_outOfFuel|keeps_body].
Qed.

#[local] Hint Resolve keeps_parseInheritanceSpec keeps_parametersLoop : balance.

Lemma keeps_parseOperation fuel returnType name isOneway :
  keeps (Parser.parseOperation fuel returnType name isOneway).
Proof. unfold Parser.parseOperation. keeps_body. Qed.

Lemma keeps_parseAttribute fuel isReadonly :
  keeps (Parser.parseAttribute fuel isReadonly).
Proof. unfold Parser.parseAttribute. keeps_body. Qed.

#[local] Hint Resolve keeps_parseOperation keeps_parseAttribute : balance.

(** *** Definitions *)

Lemma keeps_membersLoop fuel : forall members,
  keeps (Parser.membersLoop fuel members).
Proof.
  induction fuel as [|fuel IH]; intros members; cbn [Parser.membersLoop];
    [apply keeps_outOfFuel|keeps_body].
Qed.

#[local] Hint Resolve keeps_membersLoop : balance.

Lemma keeps_parseStruct fuel : keeps (Parser.parseStruct fuel).
Proof. unfold Parser.parseStruct. keeps_body. Qed.

Lemma keeps_casesLoop fuel : forall cases, keeps (Parser.casesLoop fuel cases).
Proof.
  induction fuel as [|fuel IH]; intros cases; cbn [Parser.casesLoop];
    [apply keeps_outOfFuel|keeps_body].
Qed.

#[local] Hint Resolve keeps_parseStruct keeps_casesLoop : balance.

Lemma keeps_parseUnion fuel : keeps (Parser.parseUnion fuel).
Proof. unfold Parser.parseUnion. keeps_body. Qed.

Lemma keeps_enumeratorsLoop fuel : forall values,
  keeps (Parser.enumeratorsLoop fuel values).
Proof.
  induction fuel as [|fuel IH]; intros values; cbn [Parser.enumeratorsLoop];
    [apply keeps_outOfFuel|keeps_body].
Qed.

Lemma keeps_registerEnumerators enumerators :
  keeps (Parser.registerEnumerators enumerators).
Proof.
  induction enumerators as [|val rest IH]; cbn [Parser.registerEnumerators];
    [apply keeps_ret|keeps_body].
Qed.

#[local] Hint Resolve keeps_parseUnion keeps_enumeratorsLoop
  keeps_registerEnumerators : balance.

Lemma keeps_parseEnum fuel : keeps (Parser.parseEnum fuel).
Proof. unfold Parser.parseEnum. keeps_body. Qed.

Lemma keeps_registerDeclarators declarators : forall astDeclarators,
  keeps (Parser.registerDeclarators declarators astDeclarators).
Proof.
  induction declarators as [|decl rest IH]; intros astDeclarators;
    cbn [Parser.registerDeclarators]; [apply keeps_ret|keeps_body].
Qed.

#[local] Hint Resolve keeps_parseEnum keeps_registerDeclarators : balance.

Lemma keeps_parseTypedef fuel : keeps (Parser.parseTypedef fuel).
Proof. unfold Parser.parseTypedef. keeps_body. Qed.

Lemma keeps_parseConst fuel : keeps (Parser.parseConst fuel).
Proof. unfold Parser.parseConst. keeps_body. Qed.

Lemma keeps_parseException fuel : keeps (Parser.parseException fuel).
Proof. unfold Parser.parseException. keeps_body. Qed.

#[local] Hint Resolve keeps_parseTypedef keeps_parseConst keeps_parseException
  : balance.

Section DefinitionsKeep.

Variable rec : M (option DefinitionNode).
Hypothesis keeps_rec : keeps rec.

Lemma keeps_moduleLoop fuel : forall definitions,
  keeps (Parser.moduleLoop rec fuel definitions).
Proof.
  induction fuel as [|fuel IH]; intros definitions; cbn [Parser.moduleLoop];
    [apply keeps_outOfFuel|keeps_body].
Qed.

Lemma keeps_parseModule fuel : keeps (Parser.parseModule rec fuel).
Proof.
  pose proof keeps_moduleLoop.
  unfold Parser.parseModule. keeps_body.
Qed.

Lemma keeps_interfaceLoop fuel : forall contents,
  keeps (Parser.interfaceLoop rec fuel contents).
Proof.
  induction fuel as [|fuel IH]; intros contents; cbn [Parser.interfaceLoop];
    [apply keeps_outOfFuel|keeps_body].
Qed.

Lemma keeps_parseInterface fuel isAbstract isLocal :
  keeps (Parser.parseInterface rec fuel isAbstract isLocal).
Proof.
  pose proof keeps_interfaceLoop.
  unfold Parser.parseInterface. keeps_body.
Qed.

Lemma keeps_parseDefinitionBody fuel : keeps (Parser.parseDefinitionBody rec fuel).
Proof.
  pose proof keeps_parseModule. pose proof keeps_parseInterface.
  unfold Parser.parseDefinitionBody. keeps_body.
Qed.

End DefinitionsKeep.

Lemma keeps_parseDefinition fuel : keeps (Parser.parseDefinition fuel).
Proof.
  induction fuel as [|fuel IH]; cbn [Parser.parseDefinition];
    [apply keeps_outOfFuel|].
  apply keeps_parseDefinitionBody, IH.
Qed.

#[local] Hint Resolve keeps_parseDefinition : balance.

Lemma keeps_parseLoop fuel : forall definitions,
  keeps (Parser.parseLoop fuel definitions).
Proof.
  induction fuel as [|fuel IH]; intros definitions; cbn [Parser.parseLoop];
    [apply keeps_outOfFuel|keeps_body].
Qed.

#[local] Hint Resolve keeps_parseLoop : balance.

Lemma keeps_parse fuel : keeps (Parser.parse fuel).
Proof. unfold Parser.parse. keeps_body. Qed.

(** X23: a parse leaves the symbol table in the scope it started in and
    drops no diagnostic.  Whenever [parse] returns, whatever the tokens
    are and whatever errors it met, the current scope is the one of the
    start (the global scope for a parser that was just constructed):
    every [enterScope] of a module, interface, struct, union or exception
    is undone by its [leaveScope], also when the source ends inside the
    braces.  The diagnostics of the start are still in [errors_], in
    order, in front of the new ones, and the current scope still exists
    in the tree. *)
Theorem parse_returns_to_the_scope_it_started_in
    (fuel : nat) (p p' : Parser) (unit : TranslationUnit) :
  Parser.parse fuel p = Ret unit p' -> steady p p'.
Proof.
  intros H. pose proof (keeps_parse fuel p) as Hk. rewrite H in Hk. exact Hk.
Qed.

(** [module M { struct S { long ; ] ends inside [S] in [M]: the parser
    reports the missing member name and is back in the global scope. *)
Lemma parse_returns_to_the_scope_it_started_in_witness :
  match Parser.parse 30 (Source.parser Balance.unclosedModule) with
  | Ret unit p' =>
      steady (Source.parser Balance.unclosedModule) p' /\
      currentScope_ (symbolTable_ p') = [] /\
      (exists m s, children (globalScope_ (symbolTable_ p')) = [m] /\
                   scope_name m = "M" /\ children m = [s] /\ scope_name s = "S") /\
      map message (errors_ p')
      = [ "<input>:1:28: error: Expected identifier (got ';')" ]
  | _ => False
  end.
Proof.
  destruct (Parser.parse 30 (Source.parser Balance.unclosedModule))
    as [unit p'| | |] eqn:H; [|vm_compute in H; discriminate..].
  split; [exact (parse_returns_to_the_scope_it_started_in _ _ _ _ H)|].
  assert (Hp : p' = match Parser.parse 30 (Source.parser Balance.unclosedModule)
                    with Ret _ q => q | _ => p' end) by (rewrite H; reflexivity).
  rewrite Hp. vm_compute.
  split; [reflexivity|]. split; [|reflexivity].
  do 2 eexists. repeat split; reflexivity.
Defined.
